(** * Pathfinder: shallow embedding of the search core and its verification

    The Python sources (Vector2D.py, SquareMatrix.py, Queue.py, Stack.py,
    Graph.py, Floor.py, NavigationMesh.py, Map.py) are embedded as Rocq
    functions, one per method, keeping the names of the source.

    Conventions of the embedding.
    - Python numbers are exact rationals [Q] in the first embedding: every
      arithmetic operation and comparison of the source is the corresponding
      operation of [Q].  [math.sqrt] is not rational; it is a parameter
      [sqrt : Q -> Q] of the definitions that need it, and the theorems state
      what they assume of it.  This embedding serves the properties of
      structure and order (what is stored where, which vertex is reached,
      which branch is taken at inputs away from a tie).
    - Where rounding decides the result (the heuristic scale, the early exit
      of A*, the points computed on lines), the methods are embedded a second
      time over binary64 floats, in the module [Binary64], and the theorems
      about the program are stated there; what holds over [Q] only is kept
      as a statement about exact arithmetic and says so.
    - Python lists are lists; [l[i]] is [l !!! i] and [l[i] = v] is
      [<[i:=v]> l].  Vertex ids are natural numbers.  A graph object keeps the
      class invariant [vertices = len(vertex_positions) = matrix size]
      ([Graph.wf] below); reads inside [range(self.vertices)] are then always
      in range.  Where a caller-supplied index or divisor can make Python
      raise, the embedding returns [Raises].
    - A mutated object is threaded through explicitly: a method returns the
      new object next to its result.
    - [while] loops whose trip count is not bounded by the code take a fuel
      argument and return [Diverges] when it runs out. *)

From Stdlib Require Import Floats.
From Stdlib Require Import QArith Qabs Lqa Lia ZArith Sorted.
From stdpp Require Import base list gmap strings.

Open Scope Q_scope.

(** ** Outcomes of a call *)

Inductive outcome (A : Type) : Type :=
| Returns (a : A)
| Raises
| Diverges.
Arguments Returns {A} a.
Arguments Raises {A}.
Arguments Diverges {A}.

Global Instance outcome_ret : MRet outcome := fun A a => Returns a.
Global Instance outcome_bind : MBind outcome := fun A B k o =>
  match o with
  | Returns a => k a
  | Raises => Raises
  | Diverges => Diverges
  end.

(** Exit status of a [for] body that may [return] from the enclosing
    function. *)
Inductive loop_exit (R S : Type) : Type :=
| Return (r : R)
| Continue (s : S).
Arguments Return {R S} r.
Arguments Continue {R S} s.

(** ** Numbers *)

Global Instance Q_inhabited : Inhabited Q := populate 0.

(** Python's [a < b], [a <= b] and [a == b] on numbers. *)
Definition Qltb (a b : Q) : bool := negb (Qle_bool b a).
Definition Qleb (a b : Q) : bool := Qle_bool a b.
Definition Qeqb (a b : Q) : bool := Qeq_bool a b.

(** Python's [min(a, b)] and [max(a, b)]: the first argument wins ties. *)
Definition py_min (a b : Q) : Q := if Qltb b a then b else a.
Definition py_max (a b : Q) : Q := if Qltb a b then b else a.

(** [range(n)] and the pairs visited by
    [for v1 in range(n): for v2 in range(v1)], in iteration order. *)
Definition range (n : nat) : list nat := seq 0 n.
Definition lower_pairs (n : nat) : list (nat * nat) :=
  flat_map (fun v1 => map (fun v2 => (v1, v2)) (range v1)) (range n).

(** ** Vector2D.py *)

Module Vec2D.

Record t : Type := Vec2D { x : Q; y : Q }.

Global Instance t_inhabited : Inhabited t := populate (Vec2D 0 0).

Definition squared_magnitude (v : t) : Q := x v * x v + y v * y v.

Definition scalar_multiply (v : t) (factor : Q) : t :=
  Vec2D (x v * factor) (y v * factor).

Definition add (vec1 vec2 : t) : t := Vec2D (x vec1 + x vec2) (y vec1 + y vec2).

Definition sub (vec1 vec2 : t) : t := Vec2D (x vec1 - x vec2) (y vec1 - y vec2).

Definition lerp (vec1 vec2 : t) (lerp_factor : Q) : t :=
  add (scalar_multiply vec1 (1 - lerp_factor)) (scalar_multiply vec2 lerp_factor).

Definition dot_prod (vec1 vec2 : t) : Q := x vec1 * x vec2 + y vec1 * y vec2.

Definition perp_dot_prod (vec1 vec2 : t) : Q := x vec1 * y vec2 - y vec1 * x vec2.

Definition squared_distance_between (vec1 vec2 : t) : Q :=
  squared_magnitude (sub vec1 vec2).

Section Sqrt.
Variable sqrt : Q -> Q.

Definition magnitude (v : t) : Q := sqrt (squared_magnitude v).

Definition distance_between (vec1 vec2 : t) : Q := magnitude (sub vec1 vec2).
End Sqrt.

(** [point_in_polygon]: the loop over the sides, [prev_sign] threaded. *)
Fixpoint point_in_polygon_loop (point_pos : t) (polygon : list t)
    (indices : list nat) (prev_sign : Q) : bool :=
  match indices with
  | [] => true
  | i :: rest =>
      let vert1_pos := polygon !!! i in
      let vert2_pos := polygon !!! ((i + 1) mod length polygon)%nat in
      let edge_vec := sub vert2_pos vert1_pos in
      let point_vec := sub point_pos vert1_pos in
      if Qeqb prev_sign 0 then
        point_in_polygon_loop point_pos polygon rest (perp_dot_prod edge_vec point_vec)
      else if Qltb (prev_sign * perp_dot_prod edge_vec point_vec) 0 then false
      else point_in_polygon_loop point_pos polygon rest prev_sign
  end.

Definition point_in_polygon (point_pos : t) (polygon : list t) : bool :=
  point_in_polygon_loop point_pos polygon (range (length polygon)) 0.

(** [intersect]: the first component of the returned pair says whether the
    segments are reported to intersect, the second is the single
    intersection point when the code computes one.  The divisions are
    guarded by the tests before them. *)
Definition intersect (line1_start line1_end line2_start line2_end : t)
    : bool * option t :=
  let line1_min_x := py_min (x line1_start) (x line1_end) in
  let line1_max_x := py_max (x line1_start) (x line1_end) in
  let line2_min_x := py_min (x line2_start) (x line2_end) in
  let line2_max_x := py_max (x line2_start) (x line2_end) in
  if Qleb line2_max_x line1_min_x || Qleb line1_max_x line2_min_x then (false, None)
  else
  let line1_min_y := py_min (y line1_start) (y line1_end) in
  let line1_max_y := py_max (y line1_start) (y line1_end) in
  let line2_min_y := py_min (y line2_start) (y line2_end) in
  let line2_max_y := py_max (y line2_start) (y line2_end) in
  if Qleb line2_max_y line1_min_y || Qleb line1_max_y line2_min_y then (false, None)
  else
  let line1_vec := sub line1_end line1_start in
  let line2_vec := sub line2_end line2_start in
  if Qeqb (x line1_vec) 0 || Qeqb (x line2_vec) 0 then (true, None)
  else
  let line1_grad := y line1_vec / x line1_vec in
  let line2_grad := y line2_vec / x line2_vec in
  let line1_intercept := y line1_start - x line1_start * line1_grad in
  let line2_intercept := y line2_start - x line2_start * line2_grad in
  if Qeqb line1_grad line2_grad then
    if Qeqb line1_intercept line2_intercept then (true, None) else (false, None)
  else
  let intersect_x := (line2_intercept - line1_intercept) / (line1_grad - line2_grad) in
  let min_x := py_max line1_min_x line2_min_x in
  let max_x := py_min line1_max_x line2_max_x in
  if Qltb intersect_x min_x || Qltb max_x intersect_x then (false, None)
  else
  let intersect_y := line1_grad * intersect_x + line1_intercept in
  let min_y := py_max line1_min_y line2_min_y in
  let max_y := py_min line1_max_y line2_max_y in
  if Qltb intersect_y min_y || Qltb max_y intersect_y then (false, None)
  else (true, Some (Vec2D intersect_x intersect_y)).

(** [__get_closest_point_vector]: closest point on the infinite line. *)
Definition get_closest_point_vector (wall_start_pos wall_end_pos point_pos : t) : t :=
  if Qeqb (x wall_end_pos - x wall_start_pos) 0 then
    Vec2D (x wall_start_pos) (y point_pos)
  else if Qeqb (y wall_end_pos - y wall_start_pos) 0 then
    Vec2D (x point_pos) (y wall_start_pos)
  else
    let wall_vec := sub wall_end_pos wall_start_pos in
    let grad := y wall_vec / x wall_vec in
    let intercept := y wall_start_pos - grad * x wall_start_pos in
    let perp_grad := - (1) / grad in
    let perp_intercept := y point_pos - perp_grad * x point_pos in
    let intersection_x := (perp_intercept - intercept) / (grad - perp_grad) in
    let intersection_y := grad * intersection_x + intercept in
    Vec2D intersection_x intersection_y.

(** [get_closest_point]: [None] when the foot of the perpendicular is
    outside the bounding box of the wall. *)
Definition get_closest_point (wall_start_pos wall_end_pos point_pos : t) : option t :=
  let min_x := py_min (x wall_start_pos) (x wall_end_pos) in
  let max_x := py_max (x wall_start_pos) (x wall_end_pos) in
  let min_y := py_min (y wall_start_pos) (y wall_end_pos) in
  let max_y := py_max (y wall_start_pos) (y wall_end_pos) in
  let point := get_closest_point_vector wall_start_pos wall_end_pos point_pos in
  if Qleb min_x (x point) && Qleb (x point) max_x
     && Qleb min_y (y point) && Qleb (y point) max_y
  then Some point else None.

End Vec2D.

(** ** Constants.py *)

Module GlobalConstants.
Definition NODE_RADIUS : Q := 15 # 1000.
Definition FLOOR_RATIO : Vec2D.t := Vec2D.Vec2D (175 # 100) 1.
Inductive algorithm : Type := BFS | DIJKSTRA | A_STAR | GREEDY.
End GlobalConstants.

(** ** SquareMatrix.py *)

Module SquareMat.

Definition new (size : nat) : list (list Q) := replicate size (replicate size 0).

Definition size (m : list (list Q)) : nat := length m.

Definition get_item (m : list (list Q)) (x y : nat) : Q := (m !!! x) !!! y.

Definition set_item (m : list (list Q)) (x y : nat) (num : Q) (mirrored : bool)
    : list (list Q) :=
  let m1 := <[x := <[y := num]> (m !!! x)]> m in
  if mirrored then <[y := <[x := num]> (m1 !!! y)]> m1 else m1.

Definition expand (m : list (list Q)) : list (list Q) :=
  map (fun row => row ++ [0]) m ++ [replicate (size m + 1) 0].

Definition delete_row_column (m : list (list Q)) (row_col_num : nat) : list (list Q) :=
  map (delete row_col_num) (delete row_col_num m).

End SquareMat.

(** ** Stack.py *)

Module DynamicStack.

Record t : Type := Stack { stack_data : list nat }.

Definition new : t := Stack [].

Definition empty (s : t) : bool := (length (stack_data s) =? 0)%nat.

Definition push (s : t) (item : nat) : t := Stack (stack_data s ++ [item]).

(** [pop] raises on an empty stack. *)
Definition pop (s : t) : outcome (nat * t) :=
  match last (stack_data s) with
  | Some item => Returns (item, Stack (removelast (stack_data s)))
  | None => Raises
  end.

End DynamicStack.

(** ** Queue.py *)

Module DynamicQueue.

Record t : Type := Queue { queue_data : list nat; back_pointer : nat }.

Definition new : t := Queue [] 0.

(** [__front_pointer] is [len(queue_data) - 1]; the queue is empty when
    [front_pointer - back_pointer + 1] is zero. *)
Definition empty (q : t) : bool :=
  (Z.of_nat (length (queue_data q)) - 1 - Z.of_nat (back_pointer q) + 1 =? 0)%Z.

Definition enqueue (q : t) (item : nat) : t :=
  Queue (queue_data q ++ [item]) (back_pointer q).

Definition dequeue (q : t) : outcome (nat * t) :=
  if empty q then Raises
  else Returns (queue_data q !!! back_pointer q,
                Queue (queue_data q) (back_pointer q + 1)).

(** [peek] reads the item at [__front_pointer], the end of the data. *)
Definition peek (q : t) : outcome nat :=
  if empty q then Raises
  else Returns (queue_data q !!! (length (queue_data q) - 1)%nat).

(** [free_memory]: the slice [queue_data[back_pointer : front_pointer + 1]]
    becomes the data and the back pointer is reset. *)
Definition free_memory (q : t) : t :=
  Queue (take (length (queue_data q) - back_pointer q)
              (drop (back_pointer q) (queue_data q))) 0.

End DynamicQueue.

Module DynamicBinaryHeap.

Record HeapItem : Type := mkHeapItem { item : nat; priority : Q }.

Global Instance HeapItem_inhabited : Inhabited HeapItem := populate (mkHeapItem 0 0).

Definition length_ (heap_data : list HeapItem) : nat := length heap_data.

Definition parent_index (index : nat) : nat := ((index - 1) / 2)%nat.
Definition left_index (index : nat) : nat := (index * 2 + 1)%nat.
Definition right_index (index : nat) : nat := (index * 2 + 2)%nat.

(** [data[i], data[j] = data[j], data[i]]: the right-hand side is read
    before either store. *)
Definition swap (heap_data : list HeapItem) (i j : nat) : list HeapItem :=
  let new_i := heap_data !!! j in
  let new_j := heap_data !!! i in
  <[j := new_j]> (<[i := new_i]> heap_data).

(** [__get_index]: linear search for the first entry holding [item]. *)
Fixpoint get_index_from (heap_data : list HeapItem) (it : nat) (index : nat) : option nat :=
  match heap_data with
  | [] => None
  | e :: rest => if (item e =? it)%nat then Some index else get_index_from rest it (S index)
  end.
Definition get_index (heap_data : list HeapItem) (it : nat) : option nat :=
  get_index_from heap_data it 0.

Definition contains (heap_data : list HeapItem) (it : nat) : bool :=
  match get_index heap_data it with Some _ => true | None => false end.

(** [__up_heapify]: the index strictly decreases at every swap, so
    [S index] iterations are enough ([up_heapify_unfold] below). *)
Fixpoint up_heapify_loop (steps : nat) (heap_data : list HeapItem) (index : nat)
    : list HeapItem :=
  match steps with
  | O => heap_data
  | S steps' =>
      if negb (index =? 0)%nat
         && Qltb (priority (heap_data !!! index))
                 (priority (heap_data !!! parent_index index))
      then up_heapify_loop steps' (swap heap_data index (parent_index index))
                           (parent_index index)
      else heap_data
  end.
Definition up_heapify (heap_data : list HeapItem) (index : nat) : list HeapItem :=
  up_heapify_loop (S index) heap_data index.

(** One pass of the body of [__down_heapify]: the index of the smallest of
    the node and its children. *)
Definition down_min_index (heap_data : list HeapItem) (index : nat) : nat :=
  let min_index := index in
  let min_index :=
    if Qltb (priority (heap_data !!! left_index index))
            (priority (heap_data !!! min_index))
    then left_index index else min_index in
  let min_index :=
    if (right_index index <? length heap_data)%nat
       && Qltb (priority (heap_data !!! right_index index))
               (priority (heap_data !!! min_index))
    then right_index index else min_index in
  min_index.

(** [__down_heapify]: the index strictly increases at every swap and stays
    below the length, so [length] iterations are enough. *)
Fixpoint down_heapify_loop (steps : nat) (heap_data : list HeapItem) (index : nat)
    : list HeapItem :=
  match steps with
  | O => heap_data
  | S steps' =>
      if (left_index index <? length heap_data)%nat then
        let min_index := down_min_index heap_data index in
        if (min_index =? index)%nat then heap_data
        else down_heapify_loop steps' (swap heap_data min_index index) min_index
      else heap_data
  end.
Definition down_heapify (heap_data : list HeapItem) (index : nat) : list HeapItem :=
  down_heapify_loop (length heap_data) heap_data index.

Definition insert_item (heap_data : list HeapItem) (it : nat) (prio : Q) : list HeapItem :=
  let heap_data := heap_data ++ [mkHeapItem it prio] in
  up_heapify heap_data (length heap_data - 1).

(** [extract_root]: [self.root] raises on an empty heap. *)
Definition extract_root (heap_data : list HeapItem) : outcome (HeapItem * list HeapItem) :=
  match heap_data with
  | [] => Raises
  | root :: _ =>
      let heap_data := <[0%nat := heap_data !!! (length heap_data - 1)%nat]> heap_data in
      let heap_data := delete (length heap_data - 1)%nat heap_data in
      Returns (root, down_heapify heap_data 0)
  end.

Definition decrease_priority_or_insert (heap_data : list HeapItem) (it : nat)
    (new_priority : Q) : list HeapItem :=
  match get_index heap_data it with
  | None => insert_item heap_data it new_priority
  | Some index =>
      up_heapify (<[index := mkHeapItem it new_priority]> heap_data) index
  end.

End DynamicBinaryHeap.

Module DynamicPriorityQueue.

Import DynamicBinaryHeap.

Record t : Type := PQ { heap : list HeapItem }.

Definition new : t := PQ [].

Definition empty (q : t) : bool := (length (heap q) =? 0)%nat.

Definition enqueue (q : t) (it : nat) (prio : Q) : t :=
  PQ (insert_item (heap q) it prio).

Definition dequeue (q : t) : outcome (nat * t) :=
  '(root, h) ← extract_root (heap q); Returns (item root, PQ h).

Definition decrease_priority_or_enqueue (q : t) (it : nat) (new_priority : Q) : t :=
  PQ (decrease_priority_or_insert (heap q) it new_priority).

End DynamicPriorityQueue.

(** ** Graph.py

    Every graph of the program is a [WeightedGraph]; the methods of the base
    class [Graph] ([add_vertex], [get_edge], [delete_vertex], [bfs], [dfs])
    are inherited unchanged, so one record serves both classes. *)

Module Graph.

Record t : Type := WeightedGraph {
  adjacency_matrix : list (list Q);
  vertex_positions : list Vec2D.t;
  heuristic_scale : Q
}.

(** [WeightedGraph(vertex_positions, heuristic_scale)]. *)
Definition new (vertex_positions : list Vec2D.t) (heuristic_scale : Q) : t :=
  WeightedGraph (SquareMat.new (length vertex_positions)) vertex_positions heuristic_scale.

Definition vertices (g : t) : nat := length (vertex_positions g).

(** The class invariant: the matrix is square, of size [vertices]. *)
Definition wf (g : t) : Prop :=
  length (adjacency_matrix g) = vertices g
  /\ Forall (fun row => length row = vertices g) (adjacency_matrix g).

Definition add_vertex (g : t) (position : Vec2D.t) : t :=
  WeightedGraph (SquareMat.expand (adjacency_matrix g))
                (vertex_positions g ++ [position]) (heuristic_scale g).

Definition get_edge_val (g : t) (vert1_id vert2_id : nat) : Q :=
  SquareMat.get_item (adjacency_matrix g) vert1_id vert2_id.

(** [get_edge]: negative weights count as non-existent; otherwise
    [bool(weight)]. *)
Definition get_edge (g : t) (vert1_id vert2_id : nat) : bool :=
  if Qltb (SquareMat.get_item (adjacency_matrix g) vert1_id vert2_id) 0 then false
  else negb (Qeqb (SquareMat.get_item (adjacency_matrix g) vert1_id vert2_id) 0).

(** [edges]: the number of ordered pairs joined by an edge. *)
Definition edges (g : t) : nat :=
  length (filter (fun p => get_edge g p.1 p.2 = true)
                 (flat_map (fun v1 => map (fun v2 => (v1, v2)) (range (vertices g)))
                           (range (vertices g)))).

(** [WeightedGraph.set_edge] with [update_heuristic_scale=False] (the
    default): only the matrix is written. *)
Definition set_edge (g : t) (vert1_id vert2_id : nat) (new_edge_val : Q)
    (bi_directional : bool) : t :=
  WeightedGraph
    (SquareMat.set_item (adjacency_matrix g) vert1_id vert2_id new_edge_val bi_directional)
    (vertex_positions g) (heuristic_scale g).

(** [WeightedGraph.create_edge]. *)
Definition create_edge (g : t) (vert1_pos vert2_pos : Vec2D.t) (new_edge_val : Q) : t :=
  let g := add_vertex g vert1_pos in
  let g := add_vertex g vert2_pos in
  set_edge g (length (vertex_positions g) - 2) (length (vertex_positions g) - 1)
           new_edge_val true.

Definition delete_vertex (g : t) (vert_id : nat) : t :=
  WeightedGraph (SquareMat.delete_row_column (adjacency_matrix g) vert_id)
                (delete vert_id (vertex_positions g)) (heuristic_scale g).

(** *** Breadth-first search *)

Definition bfs_state : Type := (list Z * list Z * DynamicQueue.t)%type.

(** The [for next_vert in range(self.vertices)] loop of [bfs]. *)
Fixpoint bfs_for (g : t) (vert2_id current_vert : nat) (next_verts : list nat)
    (st : bfs_state) : loop_exit (list Z * list Z) bfs_state :=
  match next_verts with
  | [] => Continue st
  | next_vert :: rest =>
      let '(prev, distances, to_visit) := st in
      if (distances !!! next_vert =? -1)%Z && get_edge g current_vert next_vert then
        let distances := <[next_vert := (distances !!! current_vert + 1)%Z]> distances in
        let prev := <[next_vert := Z.of_nat current_vert]> prev in
        if (next_vert =? vert2_id)%nat then Return (prev, distances)
        else bfs_for g vert2_id current_vert rest
                     (prev, distances, DynamicQueue.enqueue to_visit next_vert)
      else bfs_for g vert2_id current_vert rest st
  end.

(** The [while not to_visit.empty] loop of [bfs]. *)
Fixpoint bfs_while (fuel : nat) (g : t) (vert2_id : nat) (st : bfs_state)
    : outcome (option (list Z * list Z)) :=
  match fuel with
  | O => Diverges
  | S fuel' =>
      let '(prev, distances, to_visit) := st in
      if DynamicQueue.empty to_visit then Returns None
      else
        '(current_vert, to_visit) ← DynamicQueue.dequeue to_visit;
        match bfs_for g vert2_id current_vert (range (vertices g))
                      (prev, distances, to_visit) with
        | Return r => Returns (Some r)
        | Continue st' => bfs_while fuel' g vert2_id st'
        end
  end.

(** [bfs].  With a source outside a non-empty graph the first
    [get_edge(current_vert, 0)] raises IndexError. *)
Definition bfs (fuel : nat) (g : t) (vert1_id vert2_id : nat)
    : outcome (option (list Z * list Z)) :=
  if (vertices g <=? vert1_id)%nat && (0 <? vertices g)%nat then Raises
  else
    bfs_while fuel g vert2_id
      (replicate (vertices g) (-1)%Z, replicate (vertices g) (-1)%Z,
       DynamicQueue.enqueue DynamicQueue.new vert1_id).

(** *** Depth-first search *)

Fixpoint dfs_for (g : t) (current_vert : nat) (next_verts : list nat)
    (st : list bool * DynamicStack.t) : list bool * DynamicStack.t :=
  match next_verts with
  | [] => st
  | next_vert :: rest =>
      let '(found_verts, to_visit) := st in
      if negb (found_verts !!! next_vert) && get_edge g current_vert next_vert then
        dfs_for g current_vert rest
                (<[next_vert := true]> found_verts, DynamicStack.push to_visit next_vert)
      else dfs_for g current_vert rest st
  end.

Fixpoint dfs_while (fuel : nat) (g : t) (st : list bool * DynamicStack.t)
    : outcome (list bool) :=
  match fuel with
  | O => Diverges
  | S fuel' =>
      let '(found_verts, to_visit) := st in
      if DynamicStack.empty to_visit then Returns found_verts
      else
        '(current_vert, to_visit) ← DynamicStack.pop to_visit;
        dfs_while fuel' g (dfs_for g current_vert (range (vertices g))
                                   (found_verts, to_visit))
  end.

(** [dfs]: [found_verts[vert1_id] = True] raises outside the graph. *)
Definition dfs (fuel : nat) (g : t) (vert1_id : nat) : outcome (list bool) :=
  if (vertices g <=? vert1_id)%nat then Raises
  else
    dfs_while fuel g (<[vert1_id := true]> (replicate (vertices g) false),
                      DynamicStack.push DynamicStack.new vert1_id).

(** *** Weighted searches *)

Definition search_state : Type := (list Z * list Q * DynamicPriorityQueue.t)%type.

(** The relaxation loop of [dijkstra]. *)
Fixpoint dijkstra_for (g : t) (current_vert : nat) (next_verts : list nat)
    (st : search_state) : search_state :=
  match next_verts with
  | [] => st
  | next_vert :: rest =>
      let '(prev, distances, to_visit) := st in
      if get_edge g current_vert next_vert then
        let dist := distances !!! current_vert + get_edge_val g current_vert next_vert in
        if Qeqb (distances !!! next_vert) (-1) || Qltb dist (distances !!! next_vert) then
          dijkstra_for g current_vert rest
            (<[next_vert := Z.of_nat current_vert]> prev,
             <[next_vert := dist]> distances,
             DynamicPriorityQueue.decrease_priority_or_enqueue to_visit next_vert dist)
        else dijkstra_for g current_vert rest st
      else dijkstra_for g current_vert rest st
  end.

Fixpoint dijkstra_while (fuel : nat) (g : t) (vert2_id : nat) (st : search_state)
    : outcome (option (list Z * list Q)) :=
  match fuel with
  | O => Diverges
  | S fuel' =>
      let '(prev, distances, to_visit) := st in
      if DynamicPriorityQueue.empty to_visit then
        if negb (Qeqb (distances !!! vert2_id) (-1)) then Returns (Some (prev, distances))
        else Returns None
      else
        '(current_vert, to_visit) ← DynamicPriorityQueue.dequeue to_visit;
        if negb (Qeqb (distances !!! vert2_id) (-1))
           && Qltb (distances !!! vert2_id) (distances !!! current_vert)
        then Returns (Some (prev, distances))
        else dijkstra_while fuel' g vert2_id
               (dijkstra_for g current_vert (range (vertices g))
                             (prev, distances, to_visit))
  end.

(** [dijkstra]: [distances[vert1_id] = 0] and the first read of
    [distances[vert2_id]] raise IndexError outside the graph. *)
Definition dijkstra (fuel : nat) (g : t) (vert1_id vert2_id : nat)
    : outcome (option (list Z * list Q)) :=
  if (vertices g <=? vert1_id)%nat || (vertices g <=? vert2_id)%nat then Raises
  else
    dijkstra_while fuel g vert2_id
      (replicate (vertices g) 0%Z,
       <[vert1_id := 0]> (replicate (vertices g) (-1)),
       DynamicPriorityQueue.enqueue DynamicPriorityQueue.new vert1_id 0).

Section Sqrt.
Variable sqrt : Q -> Q.

(** [WeightedGraph.set_edge] with [update_heuristic_scale=True].  The
    matrix store raises IndexError outside the graph and the division
    raises ZeroDivisionError when the two positions are at distance 0. *)
Definition set_edge_update_heuristic_scale (g : t) (vert1_id vert2_id : nat)
    (new_edge_val : Q) (bi_directional : bool) : outcome t :=
  if (vertices g <=? vert1_id)%nat || (vertices g <=? vert2_id)%nat then Raises
  else
    let m := SquareMat.set_item (adjacency_matrix g) vert1_id vert2_id
                                new_edge_val bi_directional in
    let d := Vec2D.distance_between sqrt (vertex_positions g !!! vert1_id)
                                    (vertex_positions g !!! vert2_id) in
    if Qeqb d 0 then Raises
    else
      let new_heuristic_scale := new_edge_val / d in
      if Qltb new_heuristic_scale (heuristic_scale g)
      then Returns (WeightedGraph m (vertex_positions g) new_heuristic_scale)
      else Returns (WeightedGraph m (vertex_positions g) (heuristic_scale g)).

Definition heuristic (g : t) (vert1_id vert2_id : nat) : Q :=
  Vec2D.distance_between sqrt (vertex_positions g !!! vert1_id)
                         (vertex_positions g !!! vert2_id)
  * heuristic_scale g.

(** The relaxation loop of [a_star]. *)
Fixpoint a_star_for (g : t) (vert2_id current_vert : nat) (next_verts : list nat)
    (st : search_state) : search_state :=
  match next_verts with
  | [] => st
  | next_vert :: rest =>
      let '(prev, distances, to_visit) := st in
      if get_edge g current_vert next_vert then
        let dist := distances !!! current_vert + get_edge_val g current_vert next_vert in
        if Qeqb (distances !!! next_vert) (-1) || Qltb dist (distances !!! next_vert) then
          a_star_for g vert2_id current_vert rest
            (<[next_vert := Z.of_nat current_vert]> prev,
             <[next_vert := dist]> distances,
             DynamicPriorityQueue.decrease_priority_or_enqueue to_visit next_vert
               (dist + heuristic g next_vert vert2_id))
        else a_star_for g vert2_id current_vert rest st
      else a_star_for g vert2_id current_vert rest st
  end.

Fixpoint a_star_while (fuel : nat) (g : t) (vert2_id : nat) (st : search_state)
    : outcome (option (list Z * list Q)) :=
  match fuel with
  | O => Diverges
  | S fuel' =>
      let '(prev, distances, to_visit) := st in
      if DynamicPriorityQueue.empty to_visit then
        if negb (Qeqb (distances !!! vert2_id) (-1)) then Returns (Some (prev, distances))
        else Returns None
      else
        '(current_vert, to_visit) ← DynamicPriorityQueue.dequeue to_visit;
        if negb (Qeqb (distances !!! vert2_id) (-1))
           && Qltb (distances !!! vert2_id)
                   (distances !!! current_vert + heuristic g current_vert vert2_id)
        then Returns (Some (prev, distances))
        else a_star_while fuel' g vert2_id
               (a_star_for g vert2_id current_vert (range (vertices g))
                           (prev, distances, to_visit))
  end.

Definition a_star (fuel : nat) (g : t) (vert1_id vert2_id : nat)
    : outcome (option (list Z * list Q)) :=
  if (vertices g <=? vert1_id)%nat || (vertices g <=? vert2_id)%nat then Raises
  else
    a_star_while fuel g vert2_id
      (replicate (vertices g) 0%Z,
       <[vert1_id := 0]> (replicate (vertices g) (-1)),
       DynamicPriorityQueue.enqueue DynamicPriorityQueue.new vert1_id 0).

(** The expansion loop of [greedy]; it returns from the search as soon as
    the target is given a distance.  ([print(current_vert)] after the
    loop only writes to the console and is left out.) *)
Fixpoint greedy_for (g : t) (vert2_id current_vert : nat) (next_verts : list nat)
    (st : search_state) : loop_exit (list Z * list Q) search_state :=
  match next_verts with
  | [] => Continue st
  | next_vert :: rest =>
      let '(prev, distances, to_visit) := st in
      if get_edge g current_vert next_vert && Qeqb (distances !!! next_vert) (-1) then
        let prev := <[next_vert := Z.of_nat current_vert]> prev in
        let distances :=
          <[next_vert := distances !!! current_vert
                         + get_edge_val g current_vert next_vert]> distances in
        let to_visit := DynamicPriorityQueue.enqueue to_visit next_vert (heuristic g next_vert vert2_id) in
        if (next_vert =? vert2_id)%nat then Return (prev, distances)
        else greedy_for g vert2_id current_vert rest (prev, distances, to_visit)
      else greedy_for g vert2_id current_vert rest st
  end.

Fixpoint greedy_while (fuel : nat) (g : t) (vert2_id : nat) (st : search_state)
    : outcome (option (list Z * list Q)) :=
  match fuel with
  | O => Diverges
  | S fuel' =>
      let '(prev, distances, to_visit) := st in
      if DynamicPriorityQueue.empty to_visit then Returns None
      else
        '(current_vert, to_visit) ← DynamicPriorityQueue.dequeue to_visit;
        match greedy_for g vert2_id current_vert (range (vertices g))
                         (prev, distances, to_visit) with
        | Return r => Returns (Some r)
        | Continue st' => greedy_while fuel' g vert2_id st'
        end
  end.

Definition greedy (fuel : nat) (g : t) (vert1_id vert2_id : nat)
    : outcome (option (list Z * list Q)) :=
  if (vertices g <=? vert1_id)%nat || (vertices g <=? vert2_id)%nat then Raises
  else
    greedy_while fuel g vert2_id
      (replicate (vertices g) 0%Z,
       <[vert1_id := 0]> (replicate (vertices g) (-1)),
       DynamicPriorityQueue.enqueue DynamicPriorityQueue.new vert1_id (heuristic g vert1_id vert2_id)).

End Sqrt.

End Graph.

(** ** Floor.py *)

Module Floor.

(** A link id is a string; [Map.pathfind] also uses the integers
    [Map.START] and [Map.END] as ids of its temporary links. *)
Inductive link_id_t : Type :=
| StrId (s : string)
| IntId (z : Z).

Global Instance link_id_eq_dec : EqDecision link_id_t.
Proof. solve_decision. Defined.

Record Link : Type := mkLink { link_id : link_id_t; position : Vec2D.t }.

Record t : Type := mkFloor { walls : Graph.t; links : list Link }.

Definition THRESHOLD_DIST : Q :=
  (2 * GlobalConstants.NODE_RADIUS) * (2 * GlobalConstants.NODE_RADIUS).
Definition HALF_THRESHOLD_DIST : Q :=
  GlobalConstants.NODE_RADIUS * GlobalConstants.NODE_RADIUS.

(** [Floor(Empty)]. *)
Definition new (Empty : bool) : t :=
  let walls := Graph.new [] 1 in
  if Empty then mkFloor walls []
  else
    let fx := Vec2D.x GlobalConstants.FLOOR_RATIO in
    let fy := Vec2D.y GlobalConstants.FLOOR_RATIO in
    let walls := Graph.add_vertex walls (Vec2D.Vec2D 0 0) in
    let walls := Graph.add_vertex walls (Vec2D.Vec2D fx 0) in
    let walls := Graph.add_vertex walls (Vec2D.Vec2D fx fy) in
    let walls := Graph.add_vertex walls (Vec2D.Vec2D 0 fy) in
    let walls := Graph.set_edge walls 0 1 2 true in
    let walls := Graph.set_edge walls 1 2 2 true in
    let walls := Graph.set_edge walls 2 3 2 true in
    let walls := Graph.set_edge walls 3 0 2 true in
    mkFloor walls [].

Definition edited (f : t) : bool :=
  (4 <? Graph.vertices (walls f))%nat || (0 <? length (links f))%nat.

(** Case 1 of [check_for_intersections]: some vertex other than the two
    ends has its foot on the new wall within the node radius. *)
Fixpoint check_case_1 (walls : Graph.t) (wall_start_id wall_end_id : nat)
    (vert_ids : list nat) : bool :=
  match vert_ids with
  | [] => false
  | vert_id :: rest =>
      if negb ((vert_id =? wall_start_id)%nat || (vert_id =? wall_end_id)%nat) then
        let vertex_pos := Graph.vertex_positions walls !!! vert_id in
        let wall_start_pos := Graph.vertex_positions walls !!! wall_start_id in
        let wall_end_pos := Graph.vertex_positions walls !!! wall_end_id in
        match Vec2D.get_closest_point wall_start_pos wall_end_pos vertex_pos with
        | Some clamped_closest =>
            if Qleb (Vec2D.squared_distance_between vertex_pos clamped_closest)
                    HALF_THRESHOLD_DIST
            then true
            else check_case_1 walls wall_start_id wall_end_id rest
        | None => check_case_1 walls wall_start_id wall_end_id rest
        end
      else check_case_1 walls wall_start_id wall_end_id rest
  end.

(** Case 2 of [check_for_intersections]: some wall that shares no end with
    the new wall is reported by [Vec2D.intersect]. *)
Fixpoint check_case_2 (walls : Graph.t) (wall_start_id wall_end_id : nat)
    (pairs : list (nat * nat)) : bool :=
  match pairs with
  | [] => false
  | (vert1_id, vert2_id) :: rest =>
      if Graph.get_edge walls vert1_id vert2_id
         && negb (((vert1_id =? wall_start_id)%nat || (vert1_id =? wall_end_id)%nat)
                  || ((vert2_id =? wall_start_id)%nat || (vert2_id =? wall_end_id)%nat))
      then
        let intersection :=
          Vec2D.intersect (Graph.vertex_positions walls !!! vert1_id)
                          (Graph.vertex_positions walls !!! vert2_id)
                          (Graph.vertex_positions walls !!! wall_start_id)
                          (Graph.vertex_positions walls !!! wall_end_id) in
        if intersection.1 then true
        else check_case_2 walls wall_start_id wall_end_id rest
      else check_case_2 walls wall_start_id wall_end_id rest
  end.

Definition check_for_intersections (walls : Graph.t) (wall_start_id wall_end_id : nat)
    (skip_case_1 : bool) : bool :=
  if negb skip_case_1
     && check_case_1 walls wall_start_id wall_end_id (range (Graph.vertices walls))
  then true
  else check_case_2 walls wall_start_id wall_end_id (lower_pairs (Graph.vertices walls)).

(** [__split_wall]. *)
Definition split_wall (f : t) (split_pos : Vec2D.t) (vert1_id vert2_id : nat) : t :=
  let old_val := Graph.get_edge_val (walls f) vert1_id vert2_id in
  let w := Graph.add_vertex (walls f) split_pos in
  let w := Graph.set_edge w vert1_id vert2_id 0 true in
  let w := Graph.set_edge w vert1_id (Graph.vertices w - 1) old_val true in
  let w := Graph.set_edge w vert2_id (Graph.vertices w - 1) old_val true in
  mkFloor w (links f).

(** Case 1 of [__place_vertex]: the first vertex closer than the
    threshold. *)
Fixpoint place_vertex_case_1 (f : t) (new_vert_pos : Vec2D.t) (vert_ids : list nat)
    : option nat :=
  match vert_ids with
  | [] => None
  | vert_id :: rest =>
      if Qltb (Vec2D.squared_distance_between
                 (Graph.vertex_positions (walls f) !!! vert_id) new_vert_pos)
              THRESHOLD_DIST
      then Some vert_id
      else place_vertex_case_1 f new_vert_pos rest
  end.

(** Case 2 of [__place_vertex]: the first wall whose line passes closer
    than the node radius, with the foot inside its bounding box. *)
Fixpoint place_vertex_case_2 (f : t) (new_vert_pos : Vec2D.t) (pairs : list (nat * nat))
    : option (nat * t) :=
  match pairs with
  | [] => None
  | (vert1_id, vert2_id) :: rest =>
      if Graph.get_edge (walls f) vert1_id vert2_id then
        match Vec2D.get_closest_point (Graph.vertex_positions (walls f) !!! vert1_id)
                                      (Graph.vertex_positions (walls f) !!! vert2_id)
                                      new_vert_pos with
        | Some clamped_vert_pos =>
            if Qltb (Vec2D.squared_distance_between clamped_vert_pos new_vert_pos)
                    HALF_THRESHOLD_DIST
            then
              let f' := split_wall f clamped_vert_pos vert1_id vert2_id in
              Some ((Graph.vertices (walls f') - 1)%nat, f')
            else place_vertex_case_2 f new_vert_pos rest
        | None => place_vertex_case_2 f new_vert_pos rest
        end
      else place_vertex_case_2 f new_vert_pos rest
  end.

(** [__place_vertex]: the id of the placed vertex and the floor after. *)
Definition place_vertex (f : t) (new_vert_pos : Vec2D.t) : nat * t :=
  match place_vertex_case_1 f new_vert_pos (range (Graph.vertices (walls f))) with
  | Some vert_id => (vert_id, f)
  | None =>
      match place_vertex_case_2 f new_vert_pos
              (lower_pairs (Graph.vertices (walls f))) with
      | Some r => r
      | None =>
          let f' := mkFloor (Graph.add_vertex (walls f) new_vert_pos) (links f) in
          ((Graph.vertices (walls f') - 1)%nat, f')
      end
  end.

(** [__check_if_remove]: deletes the vertex when no edge leaves it. *)
Definition check_if_remove (f : t) (vert_id : nat) : bool * t :=
  if existsb (fun vert2_id => Graph.get_edge (walls f) vert_id vert2_id)
             (range (Graph.vertices (walls f)))
  then (false, f)
  else (true, mkFloor (Graph.delete_vertex (walls f) vert_id) (links f)).

(** Python's [int(b)] for a boolean. *)
Definition int_of_bool (b : bool) : nat := if b then 1%nat else 0%nat.

(** The test of [add_wall] that the new wall lies on one side of the
    floor's outer rectangle. *)
Definition on_floor_edge (start_pos end_pos : Vec2D.t) : bool :=
  (Qeqb (Vec2D.x start_pos) (Vec2D.x end_pos) && Qeqb (Vec2D.x end_pos) 0)
  || (Qeqb (Vec2D.x start_pos) (Vec2D.x end_pos)
      && Qeqb (Vec2D.x end_pos) (Vec2D.x GlobalConstants.FLOOR_RATIO))
  || (Qeqb (Vec2D.y start_pos) (Vec2D.y end_pos) && Qeqb (Vec2D.y end_pos) 0)
  || (Qeqb (Vec2D.y start_pos) (Vec2D.y end_pos)
      && Qeqb (Vec2D.y end_pos) (Vec2D.y GlobalConstants.FLOOR_RATIO)).

(** [add_wall]: whether the wall was added, and the floor after the call. *)
Definition add_wall (f : t) (wall_start_pos wall_end_pos : Vec2D.t) : bool * t :=
  if Qltb (Vec2D.squared_distance_between wall_start_pos wall_end_pos) THRESHOLD_DIST
  then (false, f)
  else
    let '(wall_start_id, f) := place_vertex f wall_start_pos in
    let '(wall_end_id, f) := place_vertex f wall_end_pos in
    if check_for_intersections (walls f) wall_start_id wall_end_id false then
      let '(removed, f) := check_if_remove f wall_start_id in
      let offset := int_of_bool removed in
      let '(_, f) :=
        check_if_remove f (wall_end_id
                           - offset * int_of_bool (wall_start_id <? wall_end_id)%nat)%nat in
      (false, f)
    else
      if on_floor_edge (Graph.vertex_positions (walls f) !!! wall_start_id)
                       (Graph.vertex_positions (walls f) !!! wall_end_id)
      then (true, mkFloor (Graph.set_edge (walls f) wall_start_id wall_end_id 2 true)
                          (links f))
      else (true, mkFloor (Graph.set_edge (walls f) wall_start_id wall_end_id 1 true)
                          (links f)).

(** [__check_if_remove] with its IndexError.  [check_if_remove] above is
    total; the code is not.  With a vertex id outside the graph the first
    [get_edge(vert_id, 0)] raises IndexError, and on a graph without
    vertices [delete_vertex(vert_id)] does (the loop is not entered and
    [pop] finds nothing to remove). *)
Definition check_if_remove_outcome (f : t) (vert_id : nat) : outcome (bool * t) :=
  if (Graph.vertices (walls f) <=? vert_id)%nat then Raises
  else if existsb (fun vert2_id => Graph.get_edge (walls f) vert_id vert2_id)
                  (range (Graph.vertices (walls f)))
  then Returns (false, f)
  else Returns (true, mkFloor (Graph.delete_vertex (walls f) vert_id) (links f)).

(** [add_wall] with the IndexError of its clean-up: the two
    [__check_if_remove] calls of the rejecting branch may raise. *)
Definition add_wall_outcome (f : t) (wall_start_pos wall_end_pos : Vec2D.t)
    : outcome (bool * t) :=
  if Qltb (Vec2D.squared_distance_between wall_start_pos wall_end_pos) THRESHOLD_DIST
  then Returns (false, f)
  else
    let '(wall_start_id, f) := place_vertex f wall_start_pos in
    let '(wall_end_id, f) := place_vertex f wall_end_pos in
    if check_for_intersections (walls f) wall_start_id wall_end_id false then
      '(removed, f) ← check_if_remove_outcome f wall_start_id;
      let offset := int_of_bool removed in
      '(_, f) ← check_if_remove_outcome f
                  (wall_end_id
                   - offset * int_of_bool (wall_start_id <? wall_end_id)%nat)%nat;
      Returns (false, f)
    else
      if on_floor_edge (Graph.vertex_positions (walls f) !!! wall_start_id)
                       (Graph.vertex_positions (walls f) !!! wall_end_id)
      then Returns (true, mkFloor (Graph.set_edge (walls f) wall_start_id wall_end_id 2 true)
                                  (links f))
      else Returns (true, mkFloor (Graph.set_edge (walls f) wall_start_id wall_end_id 1 true)
                                  (links f)).

Definition add_link (f : t) (id : link_id_t) (pos : Vec2D.t) : t :=
  mkFloor (walls f) (links f ++ [mkLink id pos]).

End Floor.

(** ** Python indexing with integers

    [l[i]] for an integer [i]: negative indices count from the end and an
    index outside [-len, len) raises IndexError. *)

Definition py_index (len : nat) (i : Z) : outcome nat :=
  if (0 <=? i)%Z && (i <? Z.of_nat len)%Z then Returns (Z.to_nat i)
  else if (- Z.of_nat len <=? i)%Z && (i <? 0)%Z then Returns (Z.to_nat (Z.of_nat len + i))
  else Raises.

Definition py_get {A} `{!Inhabited A} (l : list A) (i : Z) : outcome A :=
  k ← py_index (length l) i; Returns (l !!! k).

(** A dictionary read [d[k]]: KeyError when the key is absent. *)
Definition dict_get {K A} `{Countable K} (d : gmap K A) (k : K) : outcome A :=
  match d !! k with
  | Some a => Returns a
  | None => Raises
  end.

(** A [for] loop over a list whose body may raise. *)
Fixpoint for_each {A S} (l : list A) (body : S -> A -> outcome S) (s : S) : outcome S :=
  match l with
  | [] => Returns s
  | a :: rest => s' ← body s a; for_each rest body s'
  end.

(** Python's stable [list.sort(key=...)]. *)
Fixpoint insert_by_key (key : nat -> Q) (x : nat) (l : list nat) : list nat :=
  match l with
  | [] => [x]
  | y :: rest =>
      if Qltb (key x) (key y) then x :: y :: rest else y :: insert_by_key key x rest
  end.
Definition sort_by_key (key : nat -> Q) (l : list nat) : list nat :=
  fold_left (fun acc x => insert_by_key key x acc) l [].

(** ** NavigationMesh.py

    Only the part of [NavMesh] that path queries use is embedded: the
    fields, [get_nav_graph_link_id] and [add_link].  The constructor (mesh
    completion, region extraction, nav-graph build) and the mesh edits are
    not needed by the properties below. *)

Module NavMesh.

Record t : Type := mkNavMesh {
  num_of_links : nat;
  nav_mesh : Graph.t;
  regions : list (list nat);
  region_positions : list Vec2D.t;
  nav_graph : Graph.t;
  edge_vert_ids : gmap (nat * nat) (list nat);
  region_indexed_links : gmap nat (list nat)
}.

Definition get_nav_graph_link_id (m : t) (link_num : nat) : nat :=
  (Graph.vertices (nav_graph m) - num_of_links m + link_num)%nat.

Definition sort_region_nums_by_dist_from (m : t) (position : Vec2D.t) : list nat :=
  sort_by_key
    (fun region_num =>
       Vec2D.squared_distance_between position (region_positions m !!! region_num))
    (range (length (regions m))).

Section Sqrt.
Variable sqrt : Q -> Q.

(** Joins the new nav-graph vertex (the last one) to [vert_id]. *)
Definition join_to_new (g : Graph.t) (vert_id : nat) : Graph.t :=
  Graph.set_edge g vert_id (Graph.vertices g - 1)
    (Vec2D.distance_between sqrt (Graph.vertex_positions g !!! vert_id)
       (Graph.vertex_positions g !!! (Graph.vertices g - 1)%nat))
    true.

(** The loop of [add_link] over the sides of the region found. *)
Definition add_link_edges (m : t) (region : list nat) (g : Graph.t) : outcome Graph.t :=
  for_each (range (length region))
    (fun g region_edge_num =>
       let vert1_id := region !!! region_edge_num in
       let vert2_id := region !!! ((region_edge_num + 1) mod length region)%nat in
       if Qeqb (Graph.get_edge_val (nav_mesh m) vert1_id vert2_id) 3 then
         let dict_key :=
           if (vert2_id <? vert1_id)%nat then (vert1_id, vert2_id)
           else (vert2_id, vert1_id) in
         vert_ids ← dict_get (edge_vert_ids m) dict_key;
         Returns (fold_left join_to_new vert_ids g)
       else Returns g)
    g.

(** The search of [add_link] for the region holding the point. *)
Fixpoint add_link_regions (m : t) (point : Vec2D.t) (region_nums : list nat)
    : outcome t :=
  match region_nums with
  | [] => Returns m
  | region_num :: rest =>
      let region := regions m !!! region_num in
      if Vec2D.point_in_polygon point
           (map (fun vert_id => Graph.vertex_positions (nav_mesh m) !!! vert_id) region)
      then
        let new_id := (Graph.vertices (nav_graph m) - 1)%nat in
        let '(g, ril) :=
          match region_indexed_links m !! region_num with
          | Some vert_ids =>
              (fold_left join_to_new vert_ids (nav_graph m),
               <[region_num := vert_ids ++ [new_id]]> (region_indexed_links m))
          | None =>
              (nav_graph m, <[region_num := [new_id]]> (region_indexed_links m))
          end in
        g ← add_link_edges m region g;
        Returns (mkNavMesh (num_of_links m) (nav_mesh m) (regions m)
                           (region_positions m) g (edge_vert_ids m) ril)
      else add_link_regions m point rest
  end.

Definition add_link (m : t) (point : Vec2D.t) : outcome t :=
  let m := mkNavMesh (num_of_links m + 1) (nav_mesh m) (regions m)
                     (region_positions m) (Graph.add_vertex (nav_graph m) point)
                     (edge_vert_ids m) (region_indexed_links m) in
  add_link_regions m point (sort_region_nums_by_dist_from m point).
End Sqrt.

End NavMesh.

(** ** Map.py *)

Module Map.

Global Instance link_id_countable : Countable Floor.link_id_t.
Proof.
  refine (inj_countable'
            (fun l => match l with Floor.StrId s => inl s | Floor.IntId z => inr z end)
            (fun c => match c with inl s => Floor.StrId s | inr z => Floor.IntId z end) _).
  intros []; reflexivity.
Defined.

Definition START : Floor.link_id_t := Floor.IntId 1.
Definition END_ : Floor.link_id_t := Floor.IntId 0.

(** The algorithm selectors of Constants.py. *)
Definition BFS : string := "BFS".
Definition DIJKSTRA : string := "Dijkstra".
Definition A_STAR : string := "A*".
Definition GREEDY : string := "Greedy".

Record LinkTuple : Type := mkLinkTuple { lt_vert_id : nat; lt_link_num : nat }.
Record LinkTuple2 : Type :=
  mkLinkTuple2 { lt2_link_num : nat; lt2_floor_num : Z; lt2_link_id : Floor.link_id_t }.

Record t : Type := mkMap {
  id_indexed_nodes : gmap Floor.link_id_t (list nat);
  floor_indexed_nodes : gmap Z (list LinkTuple);
  link_graph_id_indexed_nodes : gmap Z LinkTuple2;
  reset_data : option (Z * Z * NavMesh.t * NavMesh.t);
  floors : gmap Z Floor.t;
  nav_meshes : gmap Z NavMesh.t;
  link_graph : Graph.t
}.

(** *** Loading a map file *)

(** [str.split(" ")]. *)
Fixpoint split_space (s : string) : list string :=
  match s with
  | EmptyString => [EmptyString]
  | String c rest =>
      if Ascii.eqb c Ascii.Space then EmptyString :: split_space rest
      else
        match split_space rest with
        | h :: tl => String c h :: tl
        | [] => [String c EmptyString]
        end
  end.

(** [" ".join(l)]. *)
Fixpoint join_space (l : list string) : string :=
  match l with
  | [] => EmptyString
  | [s] => s
  | s :: rest => (s ++ " " ++ join_space rest)%string
  end.

Section Load.
(** Python's [int(s)] and [float(s)]: [None] stands for ValueError. *)
Variable py_int : string -> option Z.
Variable py_float : string -> option Q.

Definition is_int (s : string) : bool :=
  match py_int s with Some _ => true | None => false end.
Definition is_float (s : string) : bool :=
  match py_float s with Some _ => true | None => false end.
Definition int (s : string) : outcome Z :=
  match py_int s with Some z => Returns z | None => Raises end.
Definition float (s : string) : outcome Q :=
  match py_float s with Some q => Returns q | None => Raises end.

(** [walls.set_edge(v1, v2, weight)] with integer indices. *)
Definition set_edge_int (g : Graph.t) (v1 v2 : Z) (weight : Q) : outcome Graph.t :=
  i ← py_index (Graph.vertices g) v1;
  j ← py_index (Graph.vertices g) v2;
  Returns (Graph.set_edge g i j weight true).

(** One record of the file: the body of the loop of [Map.__init__]. *)
Definition load_line (st : option Z * gmap Z Floor.t) (text : string)
    : outcome (option Z * gmap Z Floor.t) :=
  let '(floor_num, floors) := st in
  let line := split_space text in
  if (length line =? 0)%nat then Raises
  else if String.eqb (line !!! 0%nat) "F" then
    if (1 <? length line)%nat && is_int (line !!! 1%nat) then
      n ← int (line !!! 1%nat);
      Returns (Some n, <[n := Floor.new true]> floors)
    else Raises
  else if String.eqb (line !!! 0%nat) "L" then
    match floor_num with
    | Some n =>
        if (3 <? length line)%nat && is_float (line !!! (length line - 2)%nat)
           && is_float (line !!! (length line - 1)%nat) then
          f ← dict_get floors n;
          px ← float (line !!! (length line - 2)%nat);
          py ← float (line !!! (length line - 1)%nat);
          let id := join_space (take (length line - 2 - 1) (drop 1 line)) in
          Returns (floor_num,
                   <[n := Floor.add_link f (Floor.StrId id) (Vec2D.Vec2D px py)]> floors)
        else Raises
    | None => Raises
    end
  else if String.eqb (line !!! 0%nat) "V" then
    match floor_num with
    | Some n =>
        if (2 <? length line)%nat && is_float (line !!! 1%nat)
           && is_float (line !!! 2%nat) then
          f ← dict_get floors n;
          px ← float (line !!! 1%nat);
          py ← float (line !!! 2%nat);
          Returns (floor_num,
                   <[n := Floor.mkFloor
                            (Graph.add_vertex (Floor.walls f) (Vec2D.Vec2D px py))
                            (Floor.links f)]> floors)
        else Raises
    | None => Raises
    end
  else if String.eqb (line !!! 0%nat) "W" then
    match floor_num with
    | Some n =>
        if (3 <? length line)%nat && is_float (line !!! 1%nat)
           && is_int (line !!! 2%nat) && is_float (line !!! 3%nat) then
          v1 ← int (line !!! 2%nat);
          f ← dict_get floors n;
          if (v1 <? Z.of_nat (Graph.vertices (Floor.walls f)))%Z then
            v2 ← int (line !!! 3%nat);
            if (v2 <? Z.of_nat (Graph.vertices (Floor.walls f)))%Z then
              weight ← float (line !!! 1%nat);
              w ← set_edge_int (Floor.walls f) v1 v2 weight;
              Returns (floor_num, <[n := Floor.mkFloor w (Floor.links f)]> floors)
            else Returns st
          else Returns st
        else Returns st
    | None => Returns st
    end
  else Raises.

(** [Map(data)]: the first line is the header and is skipped. *)
Definition load (data : list string) : outcome t :=
  '(_, floors) ← for_each (drop 1 data) load_line (None, ∅);
  Returns (mkMap ∅ ∅ ∅ None floors ∅ (Graph.new [] 1)).
End Load.

(** [Map()]. *)
Definition new : t :=
  mkMap ∅ ∅ ∅ None {[ 0%Z := Floor.new false ]} ∅ (Graph.new [] 1).

(** *** Joining links and path queries *)

Section Pathfind.
Variable sqrt : Q -> Q.
(** Fuel handed to every search and every predecessor walk. *)
Variable fuel : nat.

(** The dispatch on [primary_algorithm]; any other selector raises
    "Invalid primary algorithm.". *)
Definition primary_search (primary_algorithm : string) (g : Graph.t)
    (vert1_id vert2_id : nat) : outcome (option (list Z * list Q)) :=
  if String.eqb primary_algorithm A_STAR then Graph.a_star sqrt fuel g vert1_id vert2_id
  else if String.eqb primary_algorithm DIJKSTRA then Graph.dijkstra fuel g vert1_id vert2_id
  else if String.eqb primary_algorithm GREEDY then Graph.greedy sqrt fuel g vert1_id vert2_id
  else Raises.

(** The dispatch on [link_algorithm]; only the predecessor list of the
    result is used by the caller. *)
Definition link_search (link_algorithm : string) (g : Graph.t)
    (vert1_id vert2_id : nat) : outcome (option (list Z)) :=
  if String.eqb link_algorithm BFS then
    r ← Graph.bfs fuel g vert1_id vert2_id; Returns (option_map fst r)
  else if String.eqb link_algorithm DIJKSTRA then
    r ← Graph.dijkstra fuel g vert1_id vert2_id; Returns (option_map fst r)
  else if String.eqb link_algorithm A_STAR then
    r ← Graph.a_star sqrt fuel g vert1_id vert2_id; Returns (option_map fst r)
  else if String.eqb link_algorithm GREEDY then
    r ← Graph.greedy sqrt fuel g vert1_id vert2_id; Returns (option_map fst r)
  else Raises.

(** [if not get_edge(a, b) or new_weight < get_edge_val(a, b):
     set_edge(a, b, new_weight, bi_directional=False)]. *)
Definition relax_link (lg : Graph.t) (a b : nat) (new_weight : Q) : Graph.t :=
  if negb (Graph.get_edge lg a b) || Qltb new_weight (Graph.get_edge_val lg a b)
  then Graph.set_edge lg a b new_weight false
  else lg.

(** Case 2 of [__add_link] for one earlier link of the same floor. *)
Definition add_link_same_floor (nm : NavMesh.t) (link_num : nat)
    (precompute_link_dist : bool) (primary_algorithm : string)
    (lg : Graph.t) (prev_link : LinkTuple) : outcome Graph.t :=
  let link_id := NavMesh.get_nav_graph_link_id nm link_num in
  let prev_link_id := NavMesh.get_nav_graph_link_id nm (lt_link_num prev_link) in
  let new_id := (Graph.vertices lg - 1)%nat in
  if precompute_link_dist then
    returned ← primary_search primary_algorithm (NavMesh.nav_graph nm)
                              link_id prev_link_id;
    returned2 ← primary_search primary_algorithm (NavMesh.nav_graph nm)
                               prev_link_id link_id;
    let lg :=
      match returned with
      | Some (_, distances) =>
          relax_link lg new_id (lt_vert_id prev_link) (distances !!! prev_link_id)
      | None => lg
      end in
    let lg :=
      match returned2 with
      | Some (_, distances) =>
          relax_link lg (lt_vert_id prev_link) new_id (distances !!! link_id)
      | None => lg
      end in
    Returns lg
  else
    found ← Graph.dfs fuel (NavMesh.nav_graph nm) link_id;
    let lg :=
      if (found !!! prev_link_id : bool) then
        relax_link lg new_id (lt_vert_id prev_link)
                   (Graph.heuristic sqrt (NavMesh.nav_graph nm) link_id prev_link_id)
      else lg in
    found2 ← Graph.dfs fuel (NavMesh.nav_graph nm) prev_link_id;
    let lg :=
      if (found2 !!! link_id : bool) then
        relax_link lg (lt_vert_id prev_link) new_id
                   (Graph.heuristic sqrt (NavMesh.nav_graph nm) link_id prev_link_id)
      else lg in
    Returns lg.

(** [__add_link]. *)
Definition add_link (m : t) (floor_num : Z) (link_num : nat)
    (precompute_link_dist : bool) (primary_algorithm : string) (link_weight : Q)
    : outcome t :=
  f ← dict_get (floors m) floor_num;
  link ← (match Floor.links f !! link_num with
          | Some l => Returns l
          | None => Raises
          end);
  let lg := Graph.add_vertex (link_graph m) (Vec2D.Vec2D 0 (inject_Z floor_num)) in
  let new_id := (Graph.vertices lg - 1)%nat in
  let '(lg, idn) :=
    match id_indexed_nodes m !! Floor.link_id link with
    | Some prev_link_ids =>
        (fold_left (fun lg prev_link_id =>
                      Graph.set_edge lg new_id prev_link_id link_weight true)
                   prev_link_ids lg,
         id_indexed_nodes m)
    | None => (lg, <[Floor.link_id link := []]> (id_indexed_nodes m))
    end in
  '(lg, fin) ←
    (match floor_indexed_nodes m !! floor_num with
     | Some prev_links =>
         lg ← for_each prev_links
                (fun lg prev_link =>
                   nm ← dict_get (nav_meshes m) floor_num;
                   add_link_same_floor nm link_num precompute_link_dist
                                       primary_algorithm lg prev_link)
                lg;
         Returns (lg, floor_indexed_nodes m)
     | None => Returns (lg, <[floor_num := []]> (floor_indexed_nodes m))
     end);
  let idn := <[Floor.link_id link :=
                 default [] (idn !! Floor.link_id link) ++ [new_id]]> idn in
  let fin := <[floor_num :=
                 default [] (fin !! floor_num) ++ [mkLinkTuple new_id link_num]]> fin in
  let lgi := <[Z.of_nat new_id := mkLinkTuple2 link_num floor_num (Floor.link_id link)]>
               (link_graph_id_indexed_nodes m) in
  Returns (mkMap idn fin lgi (reset_data m) (floors m) (nav_meshes m) lg).

(** [while path[-1] != stop: current = prev[current]; path.append(current)]. *)
Fixpoint follow_prev (steps : nat) (prev : list Z) (stop : Z) (path : list Z)
    : outcome (list Z) :=
  match steps with
  | O => Diverges
  | S steps' =>
      match last path with
      | None => Raises
      | Some current_vert =>
          if (current_vert =? stop)%Z then Returns path
          else
            next ← py_get prev current_vert;
            follow_prev steps' prev stop (path ++ [next])
      end
  end.

(** The body of the loop of [pathfind] over the hops of the link path. *)
Definition pathfind_hop (m : t) (primary_algorithm : string) (link_weight : Q)
    (link_path : list Z) (final_paths : gmap (nat * Z) (list Z)) (edge_num : nat)
    : outcome (gmap (nat * Z) (list Z)) :=
  let vert1_id := link_path !!! edge_num in
  let vert2_id := link_path !!! (edge_num + 1)%nat in
  t1 ← dict_get (link_graph_id_indexed_nodes m) vert1_id;
  t2 ← dict_get (link_graph_id_indexed_nodes m) vert2_id;
  same_link ←
    (if (lt2_floor_num t1 =? lt2_floor_num t2)%Z then
       if bool_decide (lt2_link_id t1 = lt2_link_id t2) then
         row ← py_get (Graph.adjacency_matrix (link_graph m)) vert1_id;
         w ← py_get row vert2_id;
         Returns (negb (Qeqb w link_weight))
       else Returns true
     else Returns false);
  if (same_link : bool) then
    let floor_num := lt2_floor_num t1 in
    nm ← dict_get (nav_meshes m) floor_num;
    let vert1_nav_graph_id := NavMesh.get_nav_graph_link_id nm (lt2_link_num t1) in
    let vert2_nav_graph_id := NavMesh.get_nav_graph_link_id nm (lt2_link_num t2) in
    returned ← primary_search primary_algorithm (NavMesh.nav_graph nm)
                              vert2_nav_graph_id vert1_nav_graph_id;
    match returned with
    | None => Raises
    | Some (prev, _) =>
        floor_path ← follow_prev fuel prev (Z.of_nat vert2_nav_graph_id)
                                 [Z.of_nat vert1_nav_graph_id];
        Returns (<[(edge_num, floor_num) := floor_path]> final_paths)
    end
  else Returns final_paths.

(** [floors[floor_num].links.pop()]. *)
Definition pop_link (fs : gmap Z Floor.t) (floor_num : Z) : outcome (gmap Z Floor.t) :=
  f ← dict_get fs floor_num;
  match Floor.links f with
  | [] => Raises
  | _ => Returns (<[floor_num := Floor.mkFloor (Floor.walls f)
                                               (removelast (Floor.links f))]> fs)
  end.

(** [dict.pop(key)]. *)
Definition dict_pop {K A} `{Countable K} (d : gmap K A) (k : K) : outcome (gmap K A) :=
  match d !! k with
  | Some _ => Returns (delete k d)
  | None => Raises
  end.

(** [pathfind]: the returned paths ([None] when there is no route) and the
    map after the call. *)
Definition pathfind (m : t) (start_pos : Vec2D.t) (start_floor_num : Z)
    (end_pos : Vec2D.t) (end_floor_num : Z)
    (primary_algorithm link_algorithm : string)
    (precompute_link_dist : bool) (link_weight : Q)
    : outcome (option (gmap (nat * Z) (list Z)) * t) :=
  f ← dict_get (floors m) start_floor_num;
  let fs := <[start_floor_num := Floor.add_link f START start_pos]> (floors m) in
  f ← dict_get fs start_floor_num;
  let start_link_num := (length (Floor.links f) - 1)%nat in
  f ← dict_get fs end_floor_num;
  let fs := <[end_floor_num := Floor.add_link f END_ end_pos]> fs in
  f ← dict_get fs end_floor_num;
  let end_link_num := (length (Floor.links f) - 1)%nat in
  old_nav_mesh_copy1 ← dict_get (nav_meshes m) start_floor_num;
  old_nav_mesh_copy2 ←
    (if (end_floor_num =? start_floor_num)%Z then Returns old_nav_mesh_copy1
     else dict_get (nav_meshes m) end_floor_num);
  let old_floor_indexed_nodes := floor_indexed_nodes m in
  let old_link_graph_id_indexed_nodes := link_graph_id_indexed_nodes m in
  nm ← dict_get (nav_meshes m) start_floor_num;
  nm ← NavMesh.add_link sqrt nm start_pos;
  let nms := <[start_floor_num := nm]> (nav_meshes m) in
  nm ← dict_get nms end_floor_num;
  nm ← NavMesh.add_link sqrt nm end_pos;
  let nms := <[end_floor_num := nm]> nms in
  let m1 := mkMap (id_indexed_nodes m) (floor_indexed_nodes m)
                  (link_graph_id_indexed_nodes m) (reset_data m) fs nms
                  (link_graph m) in
  m2 ← add_link m1 start_floor_num start_link_num precompute_link_dist
                primary_algorithm 0;
  m3 ← add_link m2 end_floor_num end_link_num precompute_link_dist
                primary_algorithm 0;
  let n := Graph.vertices (link_graph m3) in
  returned ← link_search link_algorithm (link_graph m3) (n - 1) (n - 2);
  final_paths ←
    (match returned with
     | None => Returns None
     | Some prev =>
         link_path ← follow_prev fuel prev (Z.of_nat (n - 1)) [Z.of_nat (n - 2)];
         paths ← for_each (range (length link_path - 1))
                   (pathfind_hop m3 primary_algorithm link_weight link_path) ∅;
         Returns (Some paths)
     end);
  fs ← pop_link (floors m3) start_floor_num;
  fs ← pop_link fs end_floor_num;
  let lg := Graph.delete_vertex (link_graph m3) (Graph.vertices (link_graph m3) - 1) in
  let lg := Graph.delete_vertex lg (Graph.vertices lg - 1) in
  idn ← dict_pop (id_indexed_nodes m3) START;
  idn ← dict_pop idn END_;
  Returns (final_paths,
           mkMap idn old_floor_indexed_nodes old_link_graph_id_indexed_nodes
                 (Some (start_floor_num, end_floor_num,
                        old_nav_mesh_copy1, old_nav_mesh_copy2))
                 fs (nav_meshes m3) lg).
End Pathfind.

(** [reset_nav_meshes]. *)
Definition reset_nav_meshes (m : t) : t :=
  match reset_data m with
  | Some (floor1, floor2, copy1, copy2) =>
      mkMap (id_indexed_nodes m) (floor_indexed_nodes m)
            (link_graph_id_indexed_nodes m) None (floors m)
            (<[floor2 := copy2]> (<[floor1 := copy1]> (nav_meshes m)))
            (link_graph m)
  | None => m
  end.

End Map.

(** * The same code over binary64

    Python's [float] is the IEEE 754 binary64 format, and [+], [-], [*], [/],
    [math.sqrt] and the comparisons are its correctly rounded operations:
    the operations of Rocq's primitive floats.  The methods whose results
    depend on rounding are embedded a second time here, over [float] instead
    of [Q], statement by statement as above.  An [int] that meets a float (a
    literal such as [1], [0] or [-1], an integer coordinate) is converted
    exactly.  [x ** 2] is taken as the correctly rounded square [x * x],
    with the OverflowError of [float.__pow__] where a finite number has an
    infinite square. *)

Module Binary64.

Local Open Scope float_scope.

Global Instance float_inhabited : Inhabited float := populate 0.

(** [a / b]: ZeroDivisionError on a zero divisor, of either sign. *)
Definition py_div (a b : float) : outcome float :=
  if b =? 0 then Raises else Returns (a / b).

(** [a ** 2]. *)
Definition py_square (a : float) : outcome float :=
  if is_infinity (a * a) && negb (is_infinity a) then Raises else Returns (a * a).

(** [min(a, b)] and [max(a, b)]: the first argument wins ties, and wins
    against a NaN. *)
Definition py_min (a b : float) : float := if b <? a then b else a.
Definition py_max (a b : float) : float := if a <? b then b else a.

(** The rational number that a finite float stands for, in lowest terms
    (0 for an infinity or a NaN). *)
Definition exact_value (a : float) : Q :=
  match Prim2SF a with
  | S754_finite s m e =>
      let n := if s then Z.neg m else Z.pos m in
      match e with
      | Z.neg p => Qred (Qmake n (2 ^ p)%positive)
      | _ => Qmake (n * 2 ^ e) 1
      end
  | _ => 0%Q
  end.

Module Vec2D.

Record t : Type := Vec2D { x : float; y : float }.

Global Instance t_inhabited : Inhabited t := populate (Vec2D 0 0).

Definition squared_magnitude (v : t) : outcome float :=
  xx ← py_square (x v); yy ← py_square (y v); Returns (xx + yy).

Definition magnitude (v : t) : outcome float :=
  s ← squared_magnitude v; Returns (sqrt s).

Definition scalar_multiply (v : t) (factor : float) : t :=
  Vec2D (x v * factor) (y v * factor).

Definition add (vec1 vec2 : t) : t := Vec2D (x vec1 + x vec2) (y vec1 + y vec2).

Definition sub (vec1 vec2 : t) : t := Vec2D (x vec1 - x vec2) (y vec1 - y vec2).

Definition lerp (vec1 vec2 : t) (lerp_factor : float) : t :=
  add (scalar_multiply vec1 (1 - lerp_factor)) (scalar_multiply vec2 lerp_factor).

Definition dot_prod (vec1 vec2 : t) : float := x vec1 * x vec2 + y vec1 * y vec2.

Definition perp_dot_prod (vec1 vec2 : t) : float := x vec1 * y vec2 - y vec1 * x vec2.

Definition distance_between (vec1 vec2 : t) : outcome float := magnitude (sub vec1 vec2).

Definition intersect (line1_start line1_end line2_start line2_end : t)
    : outcome (bool * option t) :=
  let line1_min_x := py_min (x line1_start) (x line1_end) in
  let line1_max_x := py_max (x line1_start) (x line1_end) in
  let line2_min_x := py_min (x line2_start) (x line2_end) in
  let line2_max_x := py_max (x line2_start) (x line2_end) in
  if (line2_max_x <=? line1_min_x) || (line1_max_x <=? line2_min_x)
  then Returns (false, None)
  else
  let line1_min_y := py_min (y line1_start) (y line1_end) in
  let line1_max_y := py_max (y line1_start) (y line1_end) in
  let line2_min_y := py_min (y line2_start) (y line2_end) in
  let line2_max_y := py_max (y line2_start) (y line2_end) in
  if (line2_max_y <=? line1_min_y) || (line1_max_y <=? line2_min_y)
  then Returns (false, None)
  else
  let line1_vec := sub line1_end line1_start in
  let line2_vec := sub line2_end line2_start in
  if (x line1_vec =? 0) || (x line2_vec =? 0) then Returns (true, None)
  else
  line1_grad ← py_div (y line1_vec) (x line1_vec);
  line2_grad ← py_div (y line2_vec) (x line2_vec);
  let line1_intercept := y line1_start - x line1_start * line1_grad in
  let line2_intercept := y line2_start - x line2_start * line2_grad in
  if line1_grad =? line2_grad then
    if line1_intercept =? line2_intercept then Returns (true, None)
    else Returns (false, None)
  else
  intersect_x ← py_div (line2_intercept - line1_intercept) (line1_grad - line2_grad);
  let min_x := py_max line1_min_x line2_min_x in
  let max_x := py_min line1_max_x line2_max_x in
  if (intersect_x <? min_x) || (max_x <? intersect_x) then Returns (false, None)
  else
  let intersect_y := line1_grad * intersect_x + line1_intercept in
  let min_y := py_max line1_min_y line2_min_y in
  let max_y := py_min line1_max_y line2_max_y in
  if (intersect_y <? min_y) || (max_y <? intersect_y) then Returns (false, None)
  else Returns (true, Some (Vec2D intersect_x intersect_y)).

Definition get_closest_point_vector (wall_start_pos wall_end_pos point_pos : t)
    : outcome t :=
  if x wall_end_pos - x wall_start_pos =? 0 then
    Returns (Vec2D (x wall_start_pos) (y point_pos))
  else if y wall_end_pos - y wall_start_pos =? 0 then
    Returns (Vec2D (x point_pos) (y wall_start_pos))
  else
    let wall_vec := sub wall_end_pos wall_start_pos in
    grad ← py_div (y wall_vec) (x wall_vec);
    let intercept := y wall_start_pos - grad * x wall_start_pos in
    perp_grad ← py_div (-1) grad;
    let perp_intercept := y point_pos - perp_grad * x point_pos in
    intersection_x ← py_div (perp_intercept - intercept) (grad - perp_grad);
    let intersection_y := grad * intersection_x + intercept in
    Returns (Vec2D intersection_x intersection_y).

End Vec2D.

Module SquareMat.

Definition new (size : nat) : list (list float) := replicate size (replicate size 0).

Definition get_item (m : list (list float)) (x y : nat) : float := (m !!! x) !!! y.

Definition set_item (m : list (list float)) (x y : nat) (num : float) (mirrored : bool)
    : list (list float) :=
  let m1 := <[x := <[y := num]> (m !!! x)]> m in
  if mirrored then <[y := <[x := num]> (m1 !!! y)]> m1 else m1.

End SquareMat.

Module DynamicBinaryHeap.

Record HeapItem : Type := mkHeapItem { item : nat; priority : float }.

Global Instance HeapItem_inhabited : Inhabited HeapItem := populate (mkHeapItem 0 0).

Definition parent_index (index : nat) : nat := ((index - 1) / 2)%nat.
Definition left_index (index : nat) : nat := (index * 2 + 1)%nat.
Definition right_index (index : nat) : nat := (index * 2 + 2)%nat.

Definition swap (heap_data : list HeapItem) (i j : nat) : list HeapItem :=
  let new_i := heap_data !!! j in
  let new_j := heap_data !!! i in
  <[j := new_j]> (<[i := new_i]> heap_data).

Fixpoint get_index_from (heap_data : list HeapItem) (it : nat) (index : nat) : option nat :=
  match heap_data with
  | [] => None
  | e :: rest => if (item e =? it)%nat then Some index else get_index_from rest it (S index)
  end.
Definition get_index (heap_data : list HeapItem) (it : nat) : option nat :=
  get_index_from heap_data it 0.

Fixpoint up_heapify_loop (steps : nat) (heap_data : list HeapItem) (index : nat)
    : list HeapItem :=
  match steps with
  | O => heap_data
  | S steps' =>
      if negb (index =? 0)%nat
         && (priority (heap_data !!! index) <? priority (heap_data !!! parent_index index))
      then up_heapify_loop steps' (swap heap_data index (parent_index index))
                           (parent_index index)
      else heap_data
  end.
Definition up_heapify (heap_data : list HeapItem) (index : nat) : list HeapItem :=
  up_heapify_loop (S index) heap_data index.

Definition down_min_index (heap_data : list HeapItem) (index : nat) : nat :=
  let min_index := index in
  let min_index :=
    if priority (heap_data !!! left_index index) <? priority (heap_data !!! min_index)
    then left_index index else min_index in
  let min_index :=
    if (right_index index <? length heap_data)%nat
       && (priority (heap_data !!! right_index index) <? priority (heap_data !!! min_index))
    then right_index index else min_index in
  min_index.

Fixpoint down_heapify_loop (steps : nat) (heap_data : list HeapItem) (index : nat)
    : list HeapItem :=
  match steps with
  | O => heap_data
  | S steps' =>
      if (left_index index <? length heap_data)%nat then
        let min_index := down_min_index heap_data index in
        if (min_index =? index)%nat then heap_data
        else down_heapify_loop steps' (swap heap_data min_index index) min_index
      else heap_data
  end.
Definition down_heapify (heap_data : list HeapItem) (index : nat) : list HeapItem :=
  down_heapify_loop (length heap_data) heap_data index.

Definition insert_item (heap_data : list HeapItem) (it : nat) (prio : float)
    : list HeapItem :=
  let heap_data := heap_data ++ [mkHeapItem it prio] in
  up_heapify heap_data (length heap_data - 1).

Definition extract_root (heap_data : list HeapItem) : outcome (HeapItem * list HeapItem) :=
  match heap_data with
  | [] => Raises
  | root :: _ =>
      let heap_data := <[0%nat := heap_data !!! (length heap_data - 1)%nat]> heap_data in
      let heap_data := delete (length heap_data - 1)%nat heap_data in
      Returns (root, down_heapify heap_data 0)
  end.

Definition decrease_priority_or_insert (heap_data : list HeapItem) (it : nat)
    (new_priority : float) : list HeapItem :=
  match get_index heap_data it with
  | None => insert_item heap_data it new_priority
  | Some index =>
      up_heapify (<[index := mkHeapItem it new_priority]> heap_data) index
  end.

End DynamicBinaryHeap.

Module DynamicPriorityQueue.

Import DynamicBinaryHeap.

Record t : Type := PQ { heap : list HeapItem }.

Definition new : t := PQ [].

Definition empty (q : t) : bool := (length (heap q) =? 0)%nat.

Definition enqueue (q : t) (it : nat) (prio : float) : t :=
  PQ (insert_item (heap q) it prio).

Definition dequeue (q : t) : outcome (nat * t) :=
  '(root, h) ← extract_root (heap q); Returns (item root, PQ h).

Definition decrease_priority_or_enqueue (q : t) (it : nat) (new_priority : float) : t :=
  PQ (decrease_priority_or_insert (heap q) it new_priority).

End DynamicPriorityQueue.

Module Graph.

Record t : Type := WeightedGraph {
  adjacency_matrix : list (list float);
  vertex_positions : list Vec2D.t;
  heuristic_scale : float
}.

Definition new (vertex_positions : list Vec2D.t) (heuristic_scale : float) : t :=
  WeightedGraph (SquareMat.new (length vertex_positions)) vertex_positions heuristic_scale.

Definition vertices (g : t) : nat := length (vertex_positions g).

(** The class invariant, as for the graphs over [Q]. *)
Definition wf (g : t) : Prop :=
  length (adjacency_matrix g) = vertices g
  /\ Forall (fun row => length row = vertices g) (adjacency_matrix g).

Definition get_edge_val (g : t) (vert1_id vert2_id : nat) : float :=
  SquareMat.get_item (adjacency_matrix g) vert1_id vert2_id.

(** [bool(w)] is [w != 0]. *)
Definition get_edge (g : t) (vert1_id vert2_id : nat) : bool :=
  if SquareMat.get_item (adjacency_matrix g) vert1_id vert2_id <? 0 then false
  else negb (SquareMat.get_item (adjacency_matrix g) vert1_id vert2_id =? 0).

(** [set_edge] without the update flag; IndexError outside the graph. *)
Definition set_edge (g : t) (vert1_id vert2_id : nat) (new_edge_val : float)
    (bi_directional : bool) : outcome t :=
  if (vertices g <=? vert1_id)%nat || (vertices g <=? vert2_id)%nat then Raises
  else
    Returns (WeightedGraph
               (SquareMat.set_item (adjacency_matrix g) vert1_id vert2_id
                                   new_edge_val bi_directional)
               (vertex_positions g) (heuristic_scale g)).

(** [set_edge] with [update_heuristic_scale=True]. *)
Definition set_edge_update_heuristic_scale (g : t) (vert1_id vert2_id : nat)
    (new_edge_val : float) (bi_directional : bool) : outcome t :=
  if (vertices g <=? vert1_id)%nat || (vertices g <=? vert2_id)%nat then Raises
  else
    let m := SquareMat.set_item (adjacency_matrix g) vert1_id vert2_id
                                new_edge_val bi_directional in
    d ← Vec2D.distance_between (vertex_positions g !!! vert1_id)
                               (vertex_positions g !!! vert2_id);
    new_heuristic_scale ← py_div new_edge_val d;
    if new_heuristic_scale <? heuristic_scale g
    then Returns (WeightedGraph m (vertex_positions g) new_heuristic_scale)
    else Returns (WeightedGraph m (vertex_positions g) (heuristic_scale g)).

Definition heuristic (g : t) (vert1_id vert2_id : nat) : outcome float :=
  if (vertices g <=? vert1_id)%nat || (vertices g <=? vert2_id)%nat then Raises
  else
    d ← Vec2D.distance_between (vertex_positions g !!! vert1_id)
                               (vertex_positions g !!! vert2_id);
    Returns (d * heuristic_scale g).

Definition search_state : Type := (list Z * list float * DynamicPriorityQueue.t)%type.

Fixpoint dijkstra_for (g : t) (current_vert : nat) (next_verts : list nat)
    (st : search_state) : search_state :=
  match next_verts with
  | [] => st
  | next_vert :: rest =>
      let '(prev, distances, to_visit) := st in
      if get_edge g current_vert next_vert then
        let dist := distances !!! current_vert + get_edge_val g current_vert next_vert in
        if (distances !!! next_vert =? -1) || (dist <? distances !!! next_vert) then
          dijkstra_for g current_vert rest
            (<[next_vert := Z.of_nat current_vert]> prev,
             <[next_vert := dist]> distances,
             DynamicPriorityQueue.decrease_priority_or_enqueue to_visit next_vert dist)
        else dijkstra_for g current_vert rest st
      else dijkstra_for g current_vert rest st
  end.

Fixpoint dijkstra_while (fuel : nat) (g : t) (vert2_id : nat) (st : search_state)
    : outcome (option (list Z * list float)) :=
  match fuel with
  | O => Diverges
  | S fuel' =>
      let '(prev, distances, to_visit) := st in
      if DynamicPriorityQueue.empty to_visit then
        if negb (distances !!! vert2_id =? -1) then Returns (Some (prev, distances))
        else Returns None
      else
        '(current_vert, to_visit) ← DynamicPriorityQueue.dequeue to_visit;
        if negb (distances !!! vert2_id =? -1)
           && (distances !!! vert2_id <? distances !!! current_vert)
        then Returns (Some (prev, distances))
        else dijkstra_while fuel' g vert2_id
               (dijkstra_for g current_vert (range (vertices g))
                             (prev, distances, to_visit))
  end.

Definition dijkstra (fuel : nat) (g : t) (vert1_id vert2_id : nat)
    : outcome (option (list Z * list float)) :=
  if (vertices g <=? vert1_id)%nat || (vertices g <=? vert2_id)%nat then Raises
  else
    dijkstra_while fuel g vert2_id
      (replicate (vertices g) 0%Z,
       <[vert1_id := 0]> (replicate (vertices g) (-1)),
       DynamicPriorityQueue.enqueue DynamicPriorityQueue.new vert1_id 0).

(** The relaxation loop of [a_star]; [heuristic] is called after the two
    stores, as the argument of the queue update. *)
Fixpoint a_star_for (g : t) (vert2_id current_vert : nat) (next_verts : list nat)
    (st : search_state) : outcome search_state :=
  match next_verts with
  | [] => Returns st
  | next_vert :: rest =>
      let '(prev, distances, to_visit) := st in
      if get_edge g current_vert next_vert then
        let dist := distances !!! current_vert + get_edge_val g current_vert next_vert in
        if (distances !!! next_vert =? -1) || (dist <? distances !!! next_vert) then
          h ← heuristic g next_vert vert2_id;
          a_star_for g vert2_id current_vert rest
            (<[next_vert := Z.of_nat current_vert]> prev,
             <[next_vert := dist]> distances,
             DynamicPriorityQueue.decrease_priority_or_enqueue to_visit next_vert
               (dist + h))
        else a_star_for g vert2_id current_vert rest st
      else a_star_for g vert2_id current_vert rest st
  end.

(** The [while] loop of [a_star]; the [and] of the early exit calls
    [heuristic] only once the target has a distance. *)
Fixpoint a_star_while (fuel : nat) (g : t) (vert2_id : nat) (st : search_state)
    : outcome (option (list Z * list float)) :=
  match fuel with
  | O => Diverges
  | S fuel' =>
      let '(prev, distances, to_visit) := st in
      if DynamicPriorityQueue.empty to_visit then
        if negb (distances !!! vert2_id =? -1) then Returns (Some (prev, distances))
        else Returns None
      else
        '(current_vert, to_visit) ← DynamicPriorityQueue.dequeue to_visit;
        exit ← (if negb (distances !!! vert2_id =? -1) then
                  h ← heuristic g current_vert vert2_id;
                  Returns (distances !!! vert2_id <? distances !!! current_vert + h)
                else Returns false);
        if exit : bool then Returns (Some (prev, distances))
        else
          st' ← a_star_for g vert2_id current_vert (range (vertices g))
                           (prev, distances, to_visit);
          a_star_while fuel' g vert2_id st'
  end.

Definition a_star (fuel : nat) (g : t) (vert1_id vert2_id : nat)
    : outcome (option (list Z * list float)) :=
  if (vertices g <=? vert1_id)%nat || (vertices g <=? vert2_id)%nat then Raises
  else
    a_star_while fuel g vert2_id
      (replicate (vertices g) 0%Z,
       <[vert1_id := 0]> (replicate (vertices g) (-1)),
       DynamicPriorityQueue.enqueue DynamicPriorityQueue.new vert1_id 0).

End Graph.

End Binary64.

(** * Verification *)

(** ** Comparisons on rationals *)

Lemma Qltb_lt (a b : Q) : Qltb a b = true <-> a < b.
Proof.
  unfold Qltb. rewrite negb_true_iff. split.
  - intros H. apply Qnot_le_lt. intros Hle. apply Qle_bool_iff in Hle. congruence.
  - intros H. destruct (Qle_bool b a) eqn:E; [|reflexivity].
    apply Qle_bool_iff in E. lra.
Qed.

Lemma Qltb_ge (a b : Q) : Qltb a b = false <-> b <= a.
Proof.
  unfold Qltb. rewrite negb_false_iff. apply Qle_bool_iff.
Qed.

Lemma Qleb_le (a b : Q) : Qleb a b = true <-> a <= b.
Proof. apply Qle_bool_iff. Qed.

Lemma Qeqb_eq (a b : Q) : Qeqb a b = true <-> a == b.
Proof. apply Qeq_bool_iff. Qed.

Lemma Qeqb_neq (a b : Q) : Qeqb a b = false <-> ~ a == b.
Proof.
  unfold Qeqb. split.
  - apply Qeq_bool_neq.
  - intros H. destruct (Qeq_bool a b) eqn:E; [|reflexivity].
    apply Qeq_bool_iff in E. contradiction.
Qed.

Lemma Qsq_nonneg (a : Q) : 0 <= a * a.
Proof.
  destruct (Qlt_le_dec a 0) as [H|H].
  - assert (E : a * a == (- a) * (- a)) by ring.
    rewrite E. apply Qmult_le_0_compat; lra.
  - apply Qmult_le_0_compat; lra.
Qed.

(** ** The adjacency matrix and the graph invariant *)

Lemma range_length (n : nat) : length (range n) = n.
Proof. apply length_seq. Qed.

Lemma elem_of_range (n i : nat) : i ∈ range n <-> (i < n)%nat.
Proof. unfold range. rewrite elem_of_seq. lia. Qed.

Lemma set_item_length (m : list (list Q)) x y v b :
  length (SquareMat.set_item m x y v b) = length m.
Proof. unfold SquareMat.set_item. destruct b; rewrite ?length_insert; reflexivity. Qed.

Lemma set_item_row_length (m : list (list Q)) x y v b (n : nat) :
  Forall (fun row => length row = n) m ->
  Forall (fun row => length row = n) (SquareMat.set_item m x y v b).
Proof.
  intros Hm.
  assert (Hrow : forall (m0 : list (list Q)) k, Forall (fun row => length row = n) m0 ->
                   (k < length m0)%nat -> length (m0 !!! k) = n).
  { intros m0 k H0 Hk. rewrite Forall_forall in H0. apply H0.
    apply list_elem_of_lookup. exists k. by apply list_lookup_lookup_total_lt. }
  assert (Hins : forall (m0 : list (list Q)) k c, Forall (fun row => length row = n) m0 ->
                   Forall (fun row => length row = n) (<[k := <[c := v]> (m0 !!! k)]> m0)).
  { intros m0 k c H0. destruct (decide (k < length m0)%nat) as [Hk|Hk].
    - apply Forall_insert; [assumption|]. rewrite length_insert. by apply Hrow.
    - rewrite list_insert_ge by lia. assumption. }
  unfold SquareMat.set_item. destruct b; auto.
Qed.

Lemma get_set_item (m : list (list Q)) x y v b (n : nat) :
  length m = n -> Forall (fun row => length row = n) m ->
  (x < n)%nat -> (y < n)%nat ->
  SquareMat.get_item (SquareMat.set_item m x y v b) x y = v.
Proof.
  intros Hlen Hrows Hx Hy.
  assert (Hrow : length (m !!! x) = n).
  { rewrite Forall_forall in Hrows. apply Hrows. apply list_elem_of_lookup. exists x.
    apply list_lookup_lookup_total_lt. lia. }
  unfold SquareMat.get_item, SquareMat.set_item.
  destruct b.
  - destruct (decide (x = y)) as [->|Hne].
    + rewrite list_lookup_total_insert_eq by (rewrite length_insert; lia).
      apply list_lookup_total_insert_eq.
      rewrite list_lookup_total_insert_eq by lia. rewrite length_insert. lia.
    + rewrite list_lookup_total_insert_ne by congruence.
      rewrite list_lookup_total_insert_eq by lia.
      apply list_lookup_total_insert_eq. lia.
  - rewrite list_lookup_total_insert_eq by lia.
    apply list_lookup_total_insert_eq. lia.
Qed.

Lemma wf_new (ps : list Vec2D.t) (scale : Q) : Graph.wf (Graph.new ps scale).
Proof.
  unfold Graph.wf, Graph.new, Graph.vertices, SquareMat.new. simpl.
  rewrite length_replicate. split; [reflexivity|].
  apply Forall_replicate. apply length_replicate.
Qed.

Lemma wf_add_vertex (g : Graph.t) (p : Vec2D.t) : Graph.wf g -> Graph.wf (Graph.add_vertex g p).
Proof.
  intros [Hlen Hrows]. unfold Graph.wf, Graph.add_vertex, Graph.vertices, SquareMat.expand,
    SquareMat.size in *. simpl.
  rewrite !length_app, length_map. simpl. split; [lia|].
  apply Forall_app. split.
  - apply Forall_map. eapply Forall_impl; [exact Hrows|].
    intros row Hrow. simpl in Hrow. rewrite !length_app. simpl. lia.
  - apply Forall_singleton. rewrite length_replicate. lia.
Qed.

Lemma wf_set_edge (g : Graph.t) v1 v2 w b : Graph.wf g -> Graph.wf (Graph.set_edge g v1 v2 w b).
Proof.
  intros [Hlen Hrows]. unfold Graph.wf, Graph.set_edge, Graph.vertices in *. simpl.
  split; [by rewrite set_item_length | by apply set_item_row_length].
Qed.

Lemma vertices_add_vertex (g : Graph.t) (p : Vec2D.t) :
  Graph.vertices (Graph.add_vertex g p) = S (Graph.vertices g).
Proof. unfold Graph.vertices, Graph.add_vertex. simpl. rewrite length_app. simpl. lia. Qed.

Lemma vertices_set_edge (g : Graph.t) v1 v2 w b :
  Graph.vertices (Graph.set_edge g v1 v2 w b) = Graph.vertices g.
Proof. reflexivity. Qed.

Lemma get_edge_val_set_edge (g : Graph.t) v1 v2 w b :
  Graph.wf g -> (v1 < Graph.vertices g)%nat -> (v2 < Graph.vertices g)%nat ->
  Graph.get_edge_val (Graph.set_edge g v1 v2 w b) v1 v2 = w.
Proof.
  intros [Hlen Hrows] H1 H2. unfold Graph.get_edge_val, Graph.set_edge. simpl.
  by eapply get_set_item.
Qed.

(** ** Floor.add_wall *)

(** Geometry of the specification.  A point of the segment [a b] is
    [Vec2D.lerp a b u] for a parameter [u] between 0 and 1. *)

Definition passes_within_radius (a b v : Vec2D.t) : Prop :=
  exists u : Q, 0 <= u <= 1 /\
    Vec2D.squared_distance_between v (Vec2D.lerp a b u) <= Floor.HALF_THRESHOLD_DIST.

Definition segments_cross (a b c d : Vec2D.t) : Prop :=
  exists u w : Q, 0 <= u <= 1 /\ 0 <= w <= 1 /\
    Vec2D.x (Vec2D.lerp a b u) == Vec2D.x (Vec2D.lerp c d w) /\
    Vec2D.y (Vec2D.lerp a b u) == Vec2D.y (Vec2D.lerp c d w).

(** A point of the outer rectangle's boundary. *)
Definition on_outer_boundary (p : Vec2D.t) : Prop :=
  let fx := Vec2D.x GlobalConstants.FLOOR_RATIO in
  let fy := Vec2D.y GlobalConstants.FLOOR_RATIO in
  ((Vec2D.x p == 0 \/ Vec2D.x p == fx) /\ 0 <= Vec2D.y p <= fy)
  \/ ((Vec2D.y p == 0 \/ Vec2D.y p == fy) /\ 0 <= Vec2D.x p <= fx).

(** Both points on one and the same side line of the outer rectangle. *)
Definition on_same_side (p q : Vec2D.t) : Prop :=
  let fx := Vec2D.x GlobalConstants.FLOOR_RATIO in
  let fy := Vec2D.y GlobalConstants.FLOOR_RATIO in
  (Vec2D.x p == 0 /\ Vec2D.x q == 0) \/ (Vec2D.x p == fx /\ Vec2D.x q == fx)
  \/ (Vec2D.y p == 0 /\ Vec2D.y q == 0) \/ (Vec2D.y p == fy /\ Vec2D.y q == fy).

(** The default floor with one interior wall from (1, 0.2) to (1, 0.8),
    built through [add_wall]. *)
Definition floor_one_wall : Floor.t :=
  (Floor.add_wall (Floor.new false) (Vec2D.Vec2D 1 (2 # 10)) (Vec2D.Vec2D 1 (8 # 10))).2.

Lemma floor_one_wall_built :
  (Floor.add_wall (Floor.new false) (Vec2D.Vec2D 1 (2 # 10)) (Vec2D.Vec2D 1 (8 # 10))).1 = true.
Proof. vm_compute. reflexivity. Qed.

Lemma floor_one_wall_positions :
  Graph.vertex_positions (Floor.walls floor_one_wall)
  = [Vec2D.Vec2D 0 0; Vec2D.Vec2D (175 # 100) 0; Vec2D.Vec2D (175 # 100) 1;
     Vec2D.Vec2D 0 1; Vec2D.Vec2D 1 (2 # 10); Vec2D.Vec2D 1 (8 # 10)].
Proof. vm_compute. reflexivity. Qed.

Lemma floor_one_wall_edges (i j : nat) :
  Graph.get_edge (Floor.walls floor_one_wall) i j = true ->
  (i, j) ∈ [(0, 1); (1, 0); (1, 2); (2, 1); (2, 3); (3, 2); (3, 0); (0, 3); (4, 5); (5, 4)]%nat.
Proof.
  intros H.
  do 6 (destruct i as [|i]; [do 6 (destruct j as [|j];
          [vm_compute in H; first [discriminate H | set_solver]|]);
          vm_compute in H; discriminate H|]).
  vm_compute in H. discriminate H.
Qed.

Ltac segment_points :=
  unfold Vec2D.squared_distance_between, Vec2D.squared_magnitude, Vec2D.sub, Vec2D.lerp,
    Vec2D.add, Vec2D.scalar_multiply, Floor.HALF_THRESHOLD_DIST, Floor.THRESHOLD_DIST,
    GlobalConstants.NODE_RADIUS in *;
  cbn [Vec2D.x Vec2D.y] in *.

(** C4, at the failing input: on the floor with the interior wall
    (1, 0.2)-(1, 0.8), [add_wall] refuses the wall from (0.5, 0.05) to
    (1.5, 0.25) although its ends are farther apart than the threshold, no
    vertex of the floor is within the node radius of the segment and no wall
    of the floor meets it. *)
Theorem add_wall_rejects_clear_segment :
  let p1 := Vec2D.Vec2D (5 # 10) (5 # 100) in
  let p2 := Vec2D.Vec2D (15 # 10) (25 # 100) in
  (Floor.add_wall floor_one_wall p1 p2).1 = false
  /\ ~ Vec2D.squared_distance_between p1 p2 < Floor.THRESHOLD_DIST
  /\ (forall v, v ∈ Graph.vertex_positions (Floor.walls floor_one_wall) ->
        ~ passes_within_radius p1 p2 v)
  /\ (forall i j, Graph.get_edge (Floor.walls floor_one_wall) i j = true ->
        ~ segments_cross p1 p2
            (Graph.vertex_positions (Floor.walls floor_one_wall) !!! i)
            (Graph.vertex_positions (Floor.walls floor_one_wall) !!! j)).
Proof.
  intros p1 p2. split; [vm_compute; reflexivity|]. split.
  { subst p1 p2. segment_points. lra. }
  split.
  - intros v Hv. rewrite floor_one_wall_positions in Hv.
    intros (u & Hu & Hd). subst p1 p2.
    assert (Hsq := Qsq_nonneg
      (((5 # 10) - Vec2D.x v) + ((5 # 100) - Vec2D.y v) * (2 # 10) + u * (104 # 100))).
    set_unfold in Hv.
    destruct Hv as [->|[->|[->|[->|[->|[->|[]]]]]]]; segment_points; lra.
  - intros i j He. apply floor_one_wall_edges in He.
    rewrite floor_one_wall_positions.
    intros (u & w & Hu & Hw & Hx & Hy). subst p1 p2.
    set_unfold in He.
    destruct He as [He|[He|[He|[He|[He|[He|[He|[He|[He|[He|[]]]]]]]]]]];
      injection He as -> ->; segment_points;
      cbv beta iota fix delta [lookup_total list_lookup_total] in *;
      cbn [Vec2D.x Vec2D.y] in *; lra.
Qed.

(** C5, at the failing input: on the same floor, the refused wall from
    (0.5, 0) to (1.5, 0.6) leaves the bottom boundary wall split at
    (0.5, 0): the wall graph has one vertex more than before and the edge
    between vertices 1 and 0 is gone. *)
Theorem add_wall_rejected_keeps_split :
  let r := Floor.add_wall floor_one_wall (Vec2D.Vec2D (5 # 10) 0) (Vec2D.Vec2D (15 # 10) (6 # 10)) in
  r.1 = false
  /\ Graph.vertices (Floor.walls floor_one_wall) = 6%nat
  /\ Graph.vertices (Floor.walls r.2) = 7%nat
  /\ Graph.get_edge (Floor.walls floor_one_wall) 1 0 = true
  /\ Graph.get_edge (Floor.walls r.2) 1 0 = false
  /\ r.2 <> floor_one_wall.
Proof.
  intros r. repeat split; try (vm_compute; reflexivity).
  intros H. apply (f_equal (fun f => Graph.vertices (Floor.walls f))) in H.
  vm_compute in H. discriminate H.
Qed.

(** *** The code of a new wall *)

Lemma wf_split_wall (f : Floor.t) p v1 v2 :
  Graph.wf (Floor.walls f) -> Graph.wf (Floor.walls (Floor.split_wall f p v1 v2)).
Proof.
  intros H. unfold Floor.split_wall. simpl.
  repeat apply wf_set_edge. by apply wf_add_vertex.
Qed.

Lemma vertices_split_wall (f : Floor.t) p v1 v2 :
  Graph.vertices (Floor.walls (Floor.split_wall f p v1 v2)) = S (Graph.vertices (Floor.walls f)).
Proof.
  unfold Floor.split_wall. simpl. rewrite !vertices_set_edge. apply vertices_add_vertex.
Qed.

Lemma place_vertex_case_1_In (f : Floor.t) p ids v :
  Floor.place_vertex_case_1 f p ids = Some v -> v ∈ ids.
Proof.
  induction ids as [|i ids IH]; simpl; [discriminate|].
  destruct (Qltb _ _).
  - intros [= ->]. set_solver.
  - intros H. apply IH in H. set_solver.
Qed.

Lemma place_vertex_case_2_split (f : Floor.t) p pairs v f' :
  Floor.place_vertex_case_2 f p pairs = Some (v, f') ->
  exists q v1 v2, f' = Floor.split_wall f q v1 v2
                  /\ v = (Graph.vertices (Floor.walls f') - 1)%nat.
Proof.
  induction pairs as [|[v1 v2] pairs IH]; simpl; [discriminate|].
  destruct (Graph.get_edge _ _ _); [|exact IH].
  destruct (Vec2D.get_closest_point _ _ _) as [q|]; [|exact IH].
  destruct (Qltb _ _); [|exact IH].
  intros [= <- <-]. eauto.
Qed.

(** [__place_vertex] keeps the class invariant of the wall graph and
    returns the id of one of its vertices. *)
Lemma place_vertex_wf (f : Floor.t) p :
  Graph.wf (Floor.walls f) ->
  Graph.wf (Floor.walls (Floor.place_vertex f p).2)
  /\ ((Floor.place_vertex f p).1 < Graph.vertices (Floor.walls (Floor.place_vertex f p).2))%nat.
Proof.
  intros Hwf. unfold Floor.place_vertex.
  destruct (Floor.place_vertex_case_1 _ _ _) as [v|] eqn:E1.
  - apply place_vertex_case_1_In, elem_of_range in E1. simpl. auto.
  - destruct (Floor.place_vertex_case_2 _ _ _) as [[v f']|] eqn:E2.
    + apply place_vertex_case_2_split in E2 as (q & v1 & v2 & -> & ->). cbn [fst snd].
      split; [by apply wf_split_wall|]. rewrite vertices_split_wall. lia.
    + cbn [fst snd Floor.walls]. split; [by apply wf_add_vertex|].
      rewrite vertices_add_vertex. lia.
Qed.

Lemma on_floor_edge_same_side (a b : Vec2D.t) :
  Floor.on_floor_edge a b = true <-> on_same_side a b.
Proof.
  unfold Floor.on_floor_edge, on_same_side.
  rewrite !orb_true_iff, !andb_true_iff, !Qeqb_eq. cbv zeta.
  split.
  - intros [[[[H1 H2]|[H1 H2]]|[H1 H2]]|[H1 H2]];
      [left|right; left|right; right; left|right; right; right]; split; lra.
  - intros [[H1 H2]|[[H1 H2]|[[H1 H2]|[H1 H2]]]];
      [left; left; left|left; left; right|left; right|right]; split; lra.
Qed.

(** C9 as the specification words it: code 2 as soon as both placed ends
    lie on the boundary of the outer rectangle, code 1 otherwise. *)
Definition wall_code_by_boundary_claim : Prop :=
  forall (f f' : Floor.t) (p1 p2 : Vec2D.t),
    Graph.wf (Floor.walls f) ->
    Floor.add_wall f p1 p2 = (true, f') ->
    let r1 := Floor.place_vertex f p1 in
    let r2 := Floor.place_vertex r1.2 p2 in
    let a := Graph.vertex_positions (Floor.walls r2.2) !!! r1.1 in
    let b := Graph.vertex_positions (Floor.walls r2.2) !!! r2.1 in
    (on_outer_boundary a /\ on_outer_boundary b ->
       Graph.get_edge_val (Floor.walls f') r1.1 r2.1 == 2)
    /\ (~ (on_outer_boundary a /\ on_outer_boundary b) ->
       Graph.get_edge_val (Floor.walls f') r1.1 r2.1 == 1).

Lemma wf_floor_new : Graph.wf (Floor.walls (Floor.new false)).
Proof.
  unfold Floor.new. cbn [Floor.walls].
  repeat apply wf_set_edge. repeat apply wf_add_vertex. apply wf_new.
Qed.

(** C9, counterexample: on the default floor the wall from (0.5, 0) to
    (0.5, 1) is accepted, both its ends lie on the outer boundary (bottom
    and top side), and its code is 1. *)
Lemma wall_code_by_boundary_fails : ~ wall_code_by_boundary_claim.
Proof.
  intros H.
  specialize (H (Floor.new false)
                (Floor.add_wall (Floor.new false) (Vec2D.Vec2D (5 # 10) 0)
                                (Vec2D.Vec2D (5 # 10) 1)).2
                (Vec2D.Vec2D (5 # 10) 0) (Vec2D.Vec2D (5 # 10) 1) wf_floor_new).
  assert (E : Floor.add_wall (Floor.new false) (Vec2D.Vec2D (5 # 10) 0) (Vec2D.Vec2D (5 # 10) 1)
              = (true, (Floor.add_wall (Floor.new false) (Vec2D.Vec2D (5 # 10) 0)
                                        (Vec2D.Vec2D (5 # 10) 1)).2)).
  { vm_compute. reflexivity. }
  specialize (H E). cbv zeta in H. destruct H as [H _].
  assert (Hv : Graph.get_edge_val
                 (Floor.walls (Floor.add_wall (Floor.new false) (Vec2D.Vec2D (5 # 10) 0)
                                              (Vec2D.Vec2D (5 # 10) 1)).2)
                 (Floor.place_vertex (Floor.new false) (Vec2D.Vec2D (5 # 10) 0)).1
                 (Floor.place_vertex
                    (Floor.place_vertex (Floor.new false) (Vec2D.Vec2D (5 # 10) 0)).2
                    (Vec2D.Vec2D (5 # 10) 1)).1 = 1).
  { vm_compute. reflexivity. }
  rewrite Hv in H.
  assert (Hb : 1 == 2); [|discriminate Hb].
  apply H. split.
  - right. split; [left; vm_compute; reflexivity|].
    split; vm_compute; discriminate.
  - right. split; [right; vm_compute; reflexivity|].
    split; vm_compute; discriminate.
Qed.

Lemma place_vertex_vertices (f : Floor.t) p :
  (Graph.vertices (Floor.walls f)
   <= Graph.vertices (Floor.walls (Floor.place_vertex f p).2))%nat.
Proof.
  unfold Floor.place_vertex.
  destruct (Floor.place_vertex_case_1 _ _ _); [cbn [snd]; lia|].
  destruct (Floor.place_vertex_case_2 _ _ _) as [[v f']|] eqn:E2.
  - apply place_vertex_case_2_split in E2 as (q & v1 & v2 & -> & ->). cbn [snd].
    rewrite vertices_split_wall. lia.
  - cbn [snd Floor.walls]. rewrite vertices_add_vertex. lia.
Qed.

Lemma add_wall_code_placed (f f' f1 f2 : Floor.t) (p1 p2 : Vec2D.t) (i j : nat) :
  Graph.wf (Floor.walls f) ->
  Floor.place_vertex f p1 = (i, f1) ->
  Floor.place_vertex f1 p2 = (j, f2) ->
  Floor.add_wall f p1 p2 = (true, f') ->
  Graph.get_edge_val (Floor.walls f') i j
  = if Floor.on_floor_edge (Graph.vertex_positions (Floor.walls f2) !!! i)
                           (Graph.vertex_positions (Floor.walls f2) !!! j)
    then 2 else 1.
Proof.
  intros Hwf E1 E2 Hadd.
  pose proof (place_vertex_wf f p1 Hwf) as H1. rewrite E1 in H1. cbn [fst snd] in H1.
  destruct H1 as [Hwf1 Hi].
  pose proof (place_vertex_wf f1 p2 Hwf1) as H2. rewrite E2 in H2. cbn [fst snd] in H2.
  destruct H2 as [Hwf2 Hj].
  pose proof (place_vertex_vertices f1 p2) as Hmono. rewrite E2 in Hmono. cbn [snd] in Hmono.
  unfold Floor.add_wall in Hadd.
  destruct (Qltb _ _); [discriminate|].
  rewrite E1, E2 in Hadd.
  destruct (Floor.check_for_intersections _ _ _ _).
  { destruct (Floor.check_if_remove f2 i) as [rm f3].
    destruct (Floor.check_if_remove f3 _). discriminate. }
  destruct (Floor.on_floor_edge _ _); injection Hadd as <-; cbn [Floor.walls];
    apply get_edge_val_set_edge; auto; lia.
Qed.

(** C9, amended: the code of an accepted wall is 2 exactly when the two
    placed ends lie on one and the same side of the outer rectangle (same
    x equal to 0 or to the floor width, or same y equal to 0 or to the floor
    height), and 1 otherwise. *)
Theorem add_wall_code (f f' : Floor.t) (p1 p2 : Vec2D.t) :
  Graph.wf (Floor.walls f) ->
  Floor.add_wall f p1 p2 = (true, f') ->
  let r1 := Floor.place_vertex f p1 in
  let r2 := Floor.place_vertex r1.2 p2 in
  let a := Graph.vertex_positions (Floor.walls r2.2) !!! r1.1 in
  let b := Graph.vertex_positions (Floor.walls r2.2) !!! r2.1 in
  (on_same_side a b -> Graph.get_edge_val (Floor.walls f') r1.1 r2.1 == 2)
  /\ (~ on_same_side a b -> Graph.get_edge_val (Floor.walls f') r1.1 r2.1 == 1).
Proof.
  intros Hwf Hadd r1 r2 a b.
  rewrite (add_wall_code_placed f f' r1.2 r2.2 p1 p2 r1.1 r2.1 Hwf
             (surjective_pairing _) (surjective_pairing _) Hadd).
  fold a b. destruct (Floor.on_floor_edge a b) eqn:Eside.
  - split; [reflexivity|]. intros Hn. apply on_floor_edge_same_side in Eside. contradiction.
  - split; [|reflexivity]. intros Hs. apply on_floor_edge_same_side in Hs. congruence.
Qed.

(** The theorem at the default floor and the wall from (0.3, 0) to (0.7, 0)
    along the bottom side. *)
Lemma add_wall_code_witness :
  Graph.wf (Floor.walls (Floor.new false))
  /\ Graph.get_edge_val
       (Floor.walls (Floor.add_wall (Floor.new false) (Vec2D.Vec2D (3 # 10) 0)
                                    (Vec2D.Vec2D (7 # 10) 0)).2) 4 5 == 2.
Proof.
  split; [exact wf_floor_new|].
  refine (proj1 (add_wall_code (Floor.new false) _ (Vec2D.Vec2D (3 # 10) 0)
                               (Vec2D.Vec2D (7 # 10) 0) wf_floor_new _) _).
  - vm_compute. reflexivity.
  - right. right. left. vm_compute. split; reflexivity.
Defined.

(** ** Map loading *)

Section LoadProofs.
Variable py_int : string -> option Z.
Variable py_float : string -> option Q.

(** A [W] record with fewer than four fields is skipped whatever the
    loader state is: the branch has no [else: raise]. *)
Lemma load_line_short_W (st : option Z * gmap Z Floor.t) (text : string) :
  Map.split_space text !!! 0%nat = "W"%string ->
  (length (Map.split_space text) <= 3)%nat ->
  Map.load_line py_int py_float st text = Returns st.
Proof.
  intros Hw Hlen. unfold Map.load_line. destruct st as [floor_num floors].
  rewrite Hw.
  destruct (length (Map.split_space text) =? 0)%nat eqn:E0.
  { apply Nat.eqb_eq in E0. destruct text as [|c text]; simpl in E0; [discriminate|].
    destruct (Ascii.eqb c Ascii.Space); [discriminate|].
    destruct (Map.split_space text); discriminate. }
  cbn [String.eqb Ascii.eqb Bool.eqb].
  destruct floor_num as [n|]; [|reflexivity].
  replace (3 <? length (Map.split_space text))%nat with false; [reflexivity|].
  symmetry. apply Nat.ltb_ge. exact Hlen.
Qed.

(** A [W] record whose first vertex index is not below the vertex count
    of the current floor is skipped as well. *)
Lemma load_line_W_index_out_of_range (n : Z) (floors : gmap Z Floor.t) (f : Floor.t)
    (text a b c : string) (v1 : Z) :
  Map.split_space text = ["W"; a; b; c]%string ->
  floors !! n = Some f ->
  py_int b = Some v1 ->
  (Z.of_nat (Graph.vertices (Floor.walls f)) <= v1)%Z ->
  Map.load_line py_int py_float (Some n, floors) text = Returns (Some n, floors).
Proof.
  intros Hs Hf Hb Hv. unfold Map.load_line. rewrite Hs.
  cbn [length Nat.eqb Nat.ltb Nat.leb lookup_total list_lookup_total String.eqb Ascii.eqb
       Bool.eqb andb].
  destruct (Map.is_float py_float a); [|reflexivity].
  destruct (Map.is_int py_int b); [|reflexivity].
  destruct (Map.is_float py_float c); [|reflexivity].
  cbn [andb]. unfold Map.int, dict_get. rewrite Hb, Hf. cbn.
  replace (v1 <? Z.of_nat (Graph.vertices (Floor.walls f)))%Z with false; [reflexivity|].
  symmetry. apply Z.ltb_ge. exact Hv.
Qed.

(** C6, at the failing input: the file whose only record is the malformed
    line [W] loads without an error (to the map with no floor), whereas
    the malformed line [V] in the same place raises. *)
Theorem load_skips_malformed_W :
  Map.load py_int py_float ["MAP FILE"; "W"]%string
  = Returns (Map.mkMap ∅ ∅ ∅ None ∅ ∅ (Graph.new [] 1))
  /\ Map.load py_int py_float ["MAP FILE"; "V"]%string = Raises.
Proof. split; reflexivity. Qed.
End LoadProofs.

(** ** The heuristic scale in exact arithmetic
    ([WeightedGraph.set_edge] with the update flag) *)

Lemma get_set_item_other (m : list (list Q)) x y v b i j :
  (i, j) <> (x, y) -> (b = true -> (i, j) <> (y, x)) ->
  SquareMat.get_item (SquareMat.set_item m x y v b) i j = SquareMat.get_item m i j.
Proof.
  intros H1 H2. unfold SquareMat.get_item, SquareMat.set_item.
  assert (Hrow : forall (m0 : list (list Q)) r c,
             (i, j) <> (r, c) -> (<[r := <[c := v]> (m0 !!! r)]> m0 !!! i) !!! j = (m0 !!! i) !!! j).
  { intros m0 r c Hne. rewrite list_lookup_total_insert. case_decide as Hd; [|reflexivity].
    destruct Hd as [-> _]. apply list_lookup_total_insert_ne. congruence. }
  destruct b.
  - rewrite Hrow by auto. by apply Hrow.
  - by apply Hrow.
Qed.

Lemma get_set_item_mirror (m : list (list Q)) x y v (n : nat) :
  length m = n -> Forall (fun row => length row = n) m ->
  (x < n)%nat -> (y < n)%nat ->
  SquareMat.get_item (SquareMat.set_item m x y v true) y x = v.
Proof.
  intros Hlen Hrows Hx Hy.
  unfold SquareMat.get_item, SquareMat.set_item.
  rewrite list_lookup_total_insert_eq by (rewrite length_insert; lia).
  apply list_lookup_total_insert_eq.
  pose proof (set_item_row_length m x y v false n Hrows) as Hr.
  unfold SquareMat.set_item in Hr.
  rewrite Forall_forall in Hr. rewrite (Hr (_ !!! y)); [lia|].
  apply list_elem_of_lookup. exists y. apply list_lookup_lookup_total_lt.
  rewrite length_insert. lia.
Qed.

Lemma squared_distance_sym (a b : Vec2D.t) :
  Vec2D.squared_magnitude (Vec2D.sub a b) = Vec2D.squared_magnitude (Vec2D.sub b a).
Proof.
  destruct a as [[a1 a2] [a3 a4]], b as [[b1 b2] [b3 b4]].
  unfold Vec2D.squared_magnitude, Vec2D.sub, Qminus, Qplus, Qmult, Qopp; simpl.
  f_equal; lia.
Qed.

Lemma distance_between_sym (sqrt : Q -> Q) (a b : Vec2D.t) :
  Vec2D.distance_between sqrt a b = Vec2D.distance_between sqrt b a.
Proof. unfold Vec2D.distance_between, Vec2D.magnitude. by rewrite squared_distance_sym. Qed.

(** One [set_edge(vert1, vert2, weight, bi_directional,
    update_heuristic_scale=True)] call. *)
Record set_edge_call : Type := mkCall {
  call_vert1 : nat;
  call_vert2 : nat;
  call_weight : Q;
  call_bi_directional : bool
}.

Section HeuristicScale.
Variable sqrt : Q -> Q.
Hypothesis sqrt_nonneg : forall q, 0 <= sqrt q.

(** A sequence of such calls on the same graph object. *)
Fixpoint set_edges (g : Graph.t) (calls : list set_edge_call) : outcome Graph.t :=
  match calls with
  | [] => Returns g
  | c :: rest =>
      g' ← Graph.set_edge_update_heuristic_scale sqrt g (call_vert1 c) (call_vert2 c)
             (call_weight c) (call_bi_directional c);
      set_edges g' rest
  end.

Definition vertex_distance (g : Graph.t) (u v : nat) : Q :=
  Vec2D.distance_between sqrt (Graph.vertex_positions g !!! u) (Graph.vertex_positions g !!! v).

Lemma set_edges_app (g : Graph.t) (calls1 calls2 : list set_edge_call) :
  set_edges g (calls1 ++ calls2) = (g1 ← set_edges g calls1; set_edges g1 calls2).
Proof.
  revert g. induction calls1 as [|c calls1 IH]; intros g; simpl; [reflexivity|].
  destruct (Graph.set_edge_update_heuristic_scale _ _ _ _ _ _); simpl; auto.
Qed.

(** What one successful call does. *)
Lemma set_edge_update_spec (g g' : Graph.t) u v w b :
  Graph.wf g ->
  Graph.set_edge_update_heuristic_scale sqrt g u v w b = Returns g' ->
  Graph.wf g'
  /\ Graph.vertex_positions g' = Graph.vertex_positions g
  /\ Graph.adjacency_matrix g' = SquareMat.set_item (Graph.adjacency_matrix g) u v w b
  /\ (u < Graph.vertices g)%nat /\ (v < Graph.vertices g)%nat
  /\ Graph.heuristic_scale g' <= Graph.heuristic_scale g
  /\ Graph.heuristic_scale g' * vertex_distance g u v <= w
  /\ 0 < vertex_distance g u v.
Proof.
  intros Hwf. unfold Graph.set_edge_update_heuristic_scale.
  destruct (_ || _) eqn:Erange; [discriminate|].
  apply orb_false_iff in Erange as [Hu Hv].
  apply Nat.leb_gt in Hu, Hv.
  fold (vertex_distance g u v).
  destruct (Qeqb _ 0) eqn:Ed; [discriminate|].
  apply Qeqb_neq in Ed.
  assert (Hd : 0 < vertex_distance g u v).
  { pose proof (sqrt_nonneg (Vec2D.squared_magnitude
                 (Vec2D.sub (Graph.vertex_positions g !!! u) (Graph.vertex_positions g !!! v)))) as Hn.
    unfold vertex_distance, Vec2D.distance_between, Vec2D.magnitude in *.
    destruct (Qle_lt_or_eq _ _ Hn) as [Hlt|Heq]; [exact Hlt|].
    exfalso. apply Ed. symmetry. exact Heq. }
  assert (Hdiv : (w / vertex_distance g u v) * vertex_distance g u v == w).
  { field. lra. }
  assert (Hwf' : forall s, Graph.wf (Graph.WeightedGraph
            (SquareMat.set_item (Graph.adjacency_matrix g) u v w b)
            (Graph.vertex_positions g) s)).
  { intros s. exact (wf_set_edge (Graph.WeightedGraph (Graph.adjacency_matrix g)
                                    (Graph.vertex_positions g) s) u v w b Hwf). }
  destruct (Qltb _ _) eqn:Elt; intros [= <-]; cbn [Graph.vertex_positions
    Graph.adjacency_matrix Graph.heuristic_scale];
    (split; [apply Hwf'|]); repeat split; auto.
  - apply Qltb_lt in Elt. lra.
  - lra.
  - lra.
  - apply Qltb_ge in Elt.
    apply Qle_trans with ((w / vertex_distance g u v) * vertex_distance g u v); [|lra].
    apply Qmult_le_compat_r; lra.
Qed.

(** The scale never grows along a sequence of calls. *)
Lemma set_edges_scale_le (g g' : Graph.t) (calls : list set_edge_call) :
  Graph.wf g -> set_edges g calls = Returns g' ->
  Graph.wf g' /\ Graph.vertex_positions g' = Graph.vertex_positions g
  /\ Graph.heuristic_scale g' <= Graph.heuristic_scale g.
Proof.
  revert g. induction calls as [|c calls IH]; intros g Hwf; simpl.
  - intros [= <-]. repeat split; auto; try apply Hwf. lra.
  - destruct (Graph.set_edge_update_heuristic_scale _ _ _ _ _ _) as [g1| |] eqn:E1;
      simpl; try discriminate.
    intros H. apply set_edge_update_spec in E1 as (Hwf1 & Hp1 & _ & _ & _ & Hs1 & _); auto.
    apply IH in H as (Hwf' & Hp' & Hs'); auto.
    repeat split; auto; try apply Hwf'; [congruence|lra].
Qed.

(** An admissible cell stays admissible under one more call. *)
Lemma set_edge_update_keeps (g g' : Graph.t) u v w b i j :
  Graph.wf g ->
  Graph.set_edge_update_heuristic_scale sqrt g u v w b = Returns g' ->
  Graph.heuristic_scale g * vertex_distance g i j <= Graph.get_edge_val g i j ->
  Graph.heuristic_scale g' * vertex_distance g' i j <= Graph.get_edge_val g' i j.
Proof.
  intros Hwf E Hij.
  pose proof (set_edge_update_spec _ _ _ _ _ _ Hwf E)
    as (Hwf' & Hp & Hm & Hu & Hv & Hs & Hw & Hd).
  assert (Hdij : vertex_distance g' i j = vertex_distance g i j).
  { unfold vertex_distance. by rewrite Hp. }
  assert (Hnn : 0 <= vertex_distance g i j).
  { unfold vertex_distance, Vec2D.distance_between, Vec2D.magnitude. apply sqrt_nonneg. }
  rewrite Hdij. unfold Graph.get_edge_val in *. rewrite Hm.
  destruct Hwf as [Hlen Hrows].
  destruct (decide ((i, j) = (u, v))) as [[= -> ->]|Hne].
  { erewrite get_set_item; eauto. }
  destruct b.
  - destruct (decide ((i, j) = (v, u))) as [[= -> ->]|Hne'].
    + erewrite get_set_item_mirror; eauto.
      unfold vertex_distance in *. rewrite distance_between_sym. exact Hw.
    + rewrite get_set_item_other by auto.
      apply Qle_trans with (Graph.heuristic_scale g * vertex_distance g i j); [|exact Hij].
      apply Qmult_le_compat_r; assumption.
  - rewrite get_set_item_other by (auto; discriminate).
    apply Qle_trans with (Graph.heuristic_scale g * vertex_distance g i j); [|exact Hij].
    apply Qmult_le_compat_r; assumption.
Qed.

Lemma set_edges_keeps (g g' : Graph.t) (calls : list set_edge_call) i j :
  Graph.wf g -> set_edges g calls = Returns g' ->
  Graph.heuristic_scale g * vertex_distance g i j <= Graph.get_edge_val g i j ->
  Graph.heuristic_scale g' * vertex_distance g' i j <= Graph.get_edge_val g' i j.
Proof.
  revert g. induction calls as [|c calls IH]; intros g Hwf; simpl.
  - intros [= <-]. auto.
  - destruct (Graph.set_edge_update_heuristic_scale _ _ _ _ _ _) as [g1| |] eqn:E1;
      simpl; try discriminate.
    intros H Hij. apply (IH g1); auto.
    + by eapply set_edge_update_spec.
    + by eapply set_edge_update_keeps.
Qed.

(** In exact arithmetic (not in binary64, see [heuristic_exceeds_weight]
    below): along every sequence of
    [set_edge(..., update_heuristic_scale=True)] calls that return, the
    heuristic scale is non-increasing (the scale after a longer prefix is at
    most the scale after a shorter one), and after the sequence every edge
    [(u, v)] set by one of the calls has
    [heuristic_scale * distance(u, v) <= weight(u, v)], that is
    [heuristic(u, v) <= weight(u, v)]. *)
Theorem heuristic_scale_admissible (g g' : Graph.t) (calls : list set_edge_call) :
  Graph.wf g ->
  set_edges g calls = Returns g' ->
  (forall calls1 calls2 calls3 g1 g2,
      calls = calls1 ++ calls2 ++ calls3 ->
      set_edges g calls1 = Returns g1 ->
      set_edges g1 calls2 = Returns g2 ->
      Graph.heuristic_scale g2 <= Graph.heuristic_scale g1)
  /\ (forall c, c ∈ calls ->
        Graph.heuristic_scale g' * vertex_distance g' (call_vert1 c) (call_vert2 c)
          <= Graph.get_edge_val g' (call_vert1 c) (call_vert2 c)
        /\ Graph.heuristic sqrt g' (call_vert1 c) (call_vert2 c)
          <= Graph.get_edge_val g' (call_vert1 c) (call_vert2 c)).
Proof.
  intros Hwf Hrun. split.
  - intros calls1 calls2 calls3 g1 g2 _ H1 H2.
    apply set_edges_scale_le in H1 as (Hwf1 & _ & _); auto.
    by apply set_edges_scale_le in H2 as (_ & _ & Hs).
  - intros c Hc.
    assert (Hmain : Graph.heuristic_scale g' * vertex_distance g' (call_vert1 c) (call_vert2 c)
                    <= Graph.get_edge_val g' (call_vert1 c) (call_vert2 c)).
    { apply list_elem_of_split in Hc as (calls1 & calls2 & ->).
      rewrite set_edges_app in Hrun.
      destruct (set_edges g calls1) as [g1| |] eqn:E1; simpl in Hrun; try discriminate.
      apply set_edges_scale_le in E1 as (Hwf1 & _ & _); auto.
      cbn [set_edges] in Hrun.
      destruct (Graph.set_edge_update_heuristic_scale _ _ _ _ _ _) as [g2| |] eqn:E2;
        simpl in Hrun; try discriminate.
      pose proof (set_edge_update_spec _ _ _ _ _ _ Hwf1 E2)
        as (Hwf2 & Hp & Hm & Hu & Hv & Hs & Hw & Hd).
      apply (set_edges_keeps g2 g' calls2); auto.
      unfold Graph.get_edge_val. rewrite Hm.
      destruct Hwf1 as [Hlen Hrows]. erewrite get_set_item; eauto.
      unfold vertex_distance in *. rewrite Hp. exact Hw. }
    split; [exact Hmain|].
    unfold Graph.heuristic. fold (vertex_distance g' (call_vert1 c) (call_vert2 c)). lra.
Qed.
End HeuristicScale.

(** A square root on the rationals for worked instances: exact on every
    rational square (in particular on the squared lengths of 3-4-5
    triangles), rounded down on the numerator otherwise. *)
Definition Qsqrt_floor (q : Q) : Q :=
  let r := Qred q in
  Z.sqrt (Qnum r * Z.pos (Qden r)) # Qden r.

Lemma Qsqrt_floor_nonneg (q : Q) : 0 <= Qsqrt_floor q.
Proof.
  unfold Qsqrt_floor, Qle. simpl.
  pose proof (Z.sqrt_nonneg (Qnum (Qred q) * Z.pos (Qden (Qred q)))). lia.
Qed.

Definition triangle_graph : Graph.t :=
  Graph.new [Vec2D.Vec2D 0 0; Vec2D.Vec2D 3 4; Vec2D.Vec2D 3 0] 1.

Definition triangle_calls : list set_edge_call :=
  [mkCall 0 1 2 true; mkCall 1 2 8 false; mkCall 2 0 3 true].

Definition triangle_graph_after : Graph.t :=
  Eval vm_compute in
    match set_edges Qsqrt_floor triangle_graph triangle_calls with
    | Returns g => g
    | _ => triangle_graph
    end.

(** The theorem on a 3-4-5 triangle: after the three calls the scale is 2/5
    and the heuristic of the edge 0-1, of length 5, is at most its weight 2. *)
Lemma heuristic_scale_admissible_witness :
  Graph.wf triangle_graph
  /\ set_edges Qsqrt_floor triangle_graph triangle_calls = Returns triangle_graph_after
  /\ Graph.heuristic Qsqrt_floor triangle_graph_after 0 1
     <= Graph.get_edge_val triangle_graph_after 0 1.
Proof.
  assert (Hwf : Graph.wf triangle_graph) by apply wf_new.
  assert (Hrun : set_edges Qsqrt_floor triangle_graph triangle_calls
                 = Returns triangle_graph_after) by (vm_compute; reflexivity).
  split; [exact Hwf|]. split; [exact Hrun|].
  refine (proj2 (proj2 (heuristic_scale_admissible Qsqrt_floor Qsqrt_floor_nonneg
                          triangle_graph triangle_graph_after triangle_calls Hwf Hrun)
                       (mkCall 0 1 2 true) _)).
  unfold triangle_calls. set_solver.
Defined.

(** ** The order of binary64 numbers *)

Lemma SFcompare_finite_pos (m1 m2 : positive) (e1 e2 : Z) :
  SFcompare (S754_finite false m1 e1) (S754_finite false m2 e2)
  = Some (match (e1 ?= e2)%Z with Lt => Lt | Gt => Gt | Eq => (m1 ?= m2)%positive end).
Proof. reflexivity. Qed.

Lemma SFcompare_finite_neg (m1 m2 : positive) (e1 e2 : Z) :
  SFcompare (S754_finite true m1 e1) (S754_finite true m2 e2)
  = Some (match (e1 ?= e2)%Z with Lt => Gt | Gt => Lt | Eq => CompOpp (m1 ?= m2)%positive end).
Proof. reflexivity. Qed.

Ltac SF_order :=
  repeat match goal with
         | H : context [(?a ?= ?b)%Z] |- _ => destruct (Z.compare_spec a b)
         | |- context [(?a ?= ?b)%Z] => destruct (Z.compare_spec a b)
         | H : context [(?a ?= ?b)%positive] |- _ => destruct (Pos.compare_spec a b)
         | |- context [(?a ?= ?b)%positive] => destruct (Pos.compare_spec a b)
         end;
  cbn in *; try reflexivity; try discriminate; try lia.

Lemma SFleb_trans (a b c : spec_float) :
  SFleb a b = true -> SFleb b c = true -> SFleb a c = true.
Proof.
  unfold SFleb.
  destruct a as [[]|[]| |[] m1 e1], b as [[]|[]| |[] m2 e2], c as [[]|[]| |[] m3 e3];
    try (cbn; congruence);
    rewrite ?SFcompare_finite_pos, ?SFcompare_finite_neg; intros H1 H2; SF_order.
Qed.

Lemma SFltb_leb (a b : spec_float) : SFltb a b = true -> SFleb a b = true.
Proof. unfold SFltb, SFleb. by destruct (SFcompare a b) as [[]|]. Qed.

Lemma SFltb_asym (a b : spec_float) : SFltb a b = true -> SFltb b a = false.
Proof.
  unfold SFltb.
  destruct a as [[]|[]| |[] m1 e1], b as [[]|[]| |[] m2 e2];
    try (cbn; congruence);
    rewrite ?SFcompare_finite_pos, ?SFcompare_finite_neg; intros H1; SF_order.
Qed.

Lemma SFeqb_refl_leb (a : spec_float) : SFeqb a a = true -> SFleb a a = true.
Proof. unfold SFeqb, SFleb. by destruct (SFcompare a a) as [[]|]. Qed.

Lemma SFltb_not_nan (a b : spec_float) :
  SFltb a b = true -> SFeqb a a = true /\ SFeqb b b = true.
Proof.
  unfold SFltb, SFeqb.
  destruct a as [[]|[]| |[] m1 e1], b as [[]|[]| |[] m2 e2];
    try (cbn; intuition congruence);
    rewrite ?SFcompare_finite_pos, ?SFcompare_finite_neg; intros H1;
    rewrite ?Z.compare_refl, ?Pos.compare_refl; cbn; auto.
Qed.

Lemma SFnlt_leb (a b : spec_float) :
  SFeqb a a = true -> SFeqb b b = true -> SFltb a b = false -> SFleb b a = true.
Proof.
  unfold SFltb, SFleb, SFeqb.
  destruct a as [[]|[]| |[] m1 e1], b as [[]|[]| |[] m2 e2];
    try (cbn; congruence);
    rewrite ?SFcompare_finite_pos, ?SFcompare_finite_neg; intros _ _ H1; SF_order.
Qed.

Section FloatOrder.
Local Open Scope float_scope.

Lemma float_ltb_leb (a b : float) : (a <? b) = true -> (a <=? b) = true.
Proof. rewrite FloatAxioms.ltb_spec, FloatAxioms.leb_spec. apply SFltb_leb. Qed.

Lemma float_leb_trans (a b c : float) :
  (a <=? b) = true -> (b <=? c) = true -> (a <=? c) = true.
Proof. rewrite !FloatAxioms.leb_spec. apply SFleb_trans. Qed.

Lemma float_leb_refl (a : float) : is_nan a = false -> (a <=? a) = true.
Proof.
  unfold is_nan. rewrite negb_false_iff, FloatAxioms.eqb_spec, FloatAxioms.leb_spec. apply SFeqb_refl_leb.
Qed.

Lemma float_ltb_asym (a b : float) : (a <? b) = true -> (b <? a) = false.
Proof. rewrite !FloatAxioms.ltb_spec. apply SFltb_asym. Qed.

Lemma float_ltb_not_nan (a b : float) :
  (a <? b) = true -> is_nan a = false /\ is_nan b = false.
Proof.
  unfold is_nan. rewrite !negb_false_iff, FloatAxioms.ltb_spec, !FloatAxioms.eqb_spec. apply SFltb_not_nan.
Qed.

Lemma float_nlt_leb (a b : float) :
  is_nan a = false -> is_nan b = false -> (a <? b) = false -> (b <=? a) = true.
Proof.
  unfold is_nan. rewrite !negb_false_iff, FloatAxioms.ltb_spec, FloatAxioms.leb_spec, !FloatAxioms.eqb_spec. apply SFnlt_leb.
Qed.

End FloatOrder.

Lemma SFleb_not_gt (a b : spec_float) : SFleb a b = true -> SFltb b a = false.
Proof.
  unfold SFltb, SFleb.
  destruct a as [[]|[]| |[] m1 e1], b as [[]|[]| |[] m2 e2];
    try (cbn; congruence);
    rewrite ?SFcompare_finite_pos, ?SFcompare_finite_neg; intros H1; SF_order.
Qed.

Lemma float_leb_not_gt (a b : float) : (a <=? b)%float = true -> (b <? a)%float = false.
Proof. rewrite FloatAxioms.ltb_spec, FloatAxioms.leb_spec. apply SFleb_not_gt. Qed.

(** ** The heuristic scale in binary64
    ([WeightedGraph.set_edge] with the update flag) *)

(** One [set_edge(vert1, vert2, weight, bi_directional,
    update_heuristic_scale=True)] call with a float weight. *)
Record float_call : Type := mkFloatCall {
  float_call_vert1 : nat;
  float_call_vert2 : nat;
  float_call_weight : float;
  float_call_bi_directional : bool
}.

(** A sequence of such calls on the same graph object. *)
Fixpoint set_edges_binary64 (g : Binary64.Graph.t) (calls : list float_call)
    : outcome Binary64.Graph.t :=
  match calls with
  | [] => Returns g
  | c :: rest =>
      g' ← Binary64.Graph.set_edge_update_heuristic_scale g
             (float_call_vert1 c) (float_call_vert2 c)
             (float_call_weight c) (float_call_bi_directional c);
      set_edges_binary64 g' rest
  end.

(** The quotient [new_edge_val / distance_between(...)] that the call
    computes. *)
Definition weight_over_distance (g : Binary64.Graph.t) (c : float_call) : outcome float :=
  d ← Binary64.Vec2D.distance_between
         (Binary64.Graph.vertex_positions g !!! float_call_vert1 c)
         (Binary64.Graph.vertex_positions g !!! float_call_vert2 c);
  Binary64.py_div (float_call_weight c) d.

Lemma set_edges_binary64_app (g : Binary64.Graph.t) (calls1 calls2 : list float_call) :
  set_edges_binary64 g (calls1 ++ calls2)
  = (g1 ← set_edges_binary64 g calls1; set_edges_binary64 g1 calls2).
Proof.
  revert g. induction calls1 as [|c calls1 IH]; intros g; simpl; [reflexivity|].
  destruct (Binary64.Graph.set_edge_update_heuristic_scale _ _ _ _ _); simpl; auto.
Qed.

(** The scale is below a quotient [q], as far as floats can say: [q] is not
    below the scale, and the scale is at most [q] when [q] is a number. *)
Definition scale_below (s q : float) : Prop :=
  (q <? s)%float = false /\ (is_nan q = false -> (s <=? q)%float = true).

(** What one call that returns does. *)
Lemma set_edge_update_binary64_spec (g g' : Binary64.Graph.t) (c : float_call) :
  is_nan (Binary64.Graph.heuristic_scale g) = false ->
  Binary64.Graph.set_edge_update_heuristic_scale g
    (float_call_vert1 c) (float_call_vert2 c)
    (float_call_weight c) (float_call_bi_directional c) = Returns g' ->
  Binary64.Graph.vertex_positions g' = Binary64.Graph.vertex_positions g
  /\ is_nan (Binary64.Graph.heuristic_scale g') = false
  /\ (Binary64.Graph.heuristic_scale g' <=? Binary64.Graph.heuristic_scale g)%float = true
  /\ exists q, weight_over_distance g c = Returns q
       /\ scale_below (Binary64.Graph.heuristic_scale g') q.
Proof.
  intros Hnan. unfold Binary64.Graph.set_edge_update_heuristic_scale, weight_over_distance.
  destruct (_ || _); [discriminate|].
  destruct (Binary64.Vec2D.distance_between _ _) as [d| |]; simpl; try discriminate.
  destruct (Binary64.py_div _ d) as [q| |]; simpl; try discriminate.
  destruct (q <? Binary64.Graph.heuristic_scale g)%float eqn:Elt; intros [= <-]; simpl.
  - destruct (float_ltb_not_nan _ _ Elt) as [Hq _].
    repeat split; auto using float_ltb_leb.
    exists q. split; [reflexivity|]. split.
    + destruct (q <? q)%float eqn:E; [|reflexivity].
      pose proof (float_ltb_asym _ _ E). congruence.
    + intros _. by apply float_leb_refl.
  - repeat split; auto using float_leb_refl.
    exists q. split; [reflexivity|]. split; [exact Elt|].
    intros Hq. by apply float_nlt_leb.
Qed.

(** The scale never grows along a sequence of calls. *)
Lemma set_edges_binary64_scale_le (g g' : Binary64.Graph.t) (calls : list float_call) :
  is_nan (Binary64.Graph.heuristic_scale g) = false ->
  set_edges_binary64 g calls = Returns g' ->
  Binary64.Graph.vertex_positions g' = Binary64.Graph.vertex_positions g
  /\ is_nan (Binary64.Graph.heuristic_scale g') = false
  /\ (Binary64.Graph.heuristic_scale g' <=? Binary64.Graph.heuristic_scale g)%float = true.
Proof.
  revert g. induction calls as [|c calls IH]; intros g Hnan; simpl.
  - intros [= <-]. auto using float_leb_refl.
  - destruct (Binary64.Graph.set_edge_update_heuristic_scale _ _ _ _ _) as [g1| |] eqn:E1;
      simpl; try discriminate.
    intros H.
    apply set_edge_update_binary64_spec in E1 as (Hp1 & Hn1 & Hs1 & _); auto.
    apply IH in H as (Hp' & Hn' & Hs'); auto.
    repeat split; [congruence|assumption|by eapply float_leb_trans].
Qed.

Lemma scale_below_mono (s s' q : float) :
  (s' <=? s)%float = true -> scale_below s q -> scale_below s' q.
Proof.
  intros Hle [Hnlt Hq]. split.
  - destruct (is_nan q) eqn:En.
    + destruct (q <? s')%float eqn:E; [|reflexivity].
      apply float_ltb_not_nan in E as [E _]. congruence.
    + apply float_leb_not_gt. eapply float_leb_trans; eauto.
  - intros En. eapply float_leb_trans; eauto.
Qed.

Lemma set_item_binary64_wf (m : list (list float)) x y v b (n : nat) :
  length m = n -> Forall (fun row => length row = n) m ->
  length (Binary64.SquareMat.set_item m x y v b) = n
  /\ Forall (fun row => length row = n) (Binary64.SquareMat.set_item m x y v b).
Proof.
  intros Hlen Hm.
  assert (Hrow : forall (m0 : list (list float)) k, Forall (fun row => length row = n) m0 ->
                   (k < length m0)%nat -> length (m0 !!! k) = n).
  { intros m0 k H0 Hk. rewrite Forall_forall in H0. apply H0.
    apply list_elem_of_lookup. exists k. by apply list_lookup_lookup_total_lt. }
  assert (Hins : forall (m0 : list (list float)) k c, Forall (fun row => length row = n) m0 ->
                   Forall (fun row => length row = n) (<[k := <[c := v]> (m0 !!! k)]> m0)).
  { intros m0 k c H0. destruct (decide (k < length m0)%nat) as [Hk|Hk].
    - apply Forall_insert; [assumption|]. rewrite length_insert. by apply Hrow.
    - rewrite list_insert_ge by lia. assumption. }
  unfold Binary64.SquareMat.set_item. destruct b; rewrite ?length_insert; auto.
Qed.

Lemma get_set_item_binary64 (m : list (list float)) x y v b (n : nat) :
  length m = n -> Forall (fun row => length row = n) m ->
  (x < n)%nat -> (y < n)%nat ->
  Binary64.SquareMat.get_item (Binary64.SquareMat.set_item m x y v b) x y = v
  /\ (b = true ->
      Binary64.SquareMat.get_item (Binary64.SquareMat.set_item m x y v b) y x = v).
Proof.
  intros Hlen Hrows Hx Hy.
  assert (Hrow : forall k, (k < n)%nat -> length (m !!! k) = n).
  { intros k Hk. rewrite Forall_forall in Hrows. apply Hrows. apply list_elem_of_lookup.
    exists k. apply list_lookup_lookup_total_lt. lia. }
  pose proof (Hrow x Hx) as Hrx. pose proof (Hrow y Hy) as Hry.
  unfold Binary64.SquareMat.get_item, Binary64.SquareMat.set_item.
  destruct b.
  - split; [|intros _].
    + destruct (decide (x = y)) as [->|Hne].
      * rewrite list_lookup_total_insert_eq by (rewrite length_insert; lia).
        apply list_lookup_total_insert_eq.
        rewrite list_lookup_total_insert_eq by lia. rewrite length_insert. lia.
      * rewrite list_lookup_total_insert_ne by congruence.
        rewrite list_lookup_total_insert_eq by lia.
        apply list_lookup_total_insert_eq. lia.
    + rewrite list_lookup_total_insert_eq by (rewrite length_insert; lia).
      apply list_lookup_total_insert_eq.
      destruct (decide (x = y)) as [->|Hne].
      * rewrite list_lookup_total_insert_eq by lia. rewrite length_insert. lia.
      * rewrite list_lookup_total_insert_ne by congruence. lia.
  - split; [|discriminate].
    rewrite list_lookup_total_insert_eq by lia.
    apply list_lookup_total_insert_eq. lia.
Qed.

(** A call that returns keeps the class invariant and stores its weight. *)
Lemma set_edge_update_binary64_stores (g g' : Binary64.Graph.t) (c : float_call) :
  Binary64.Graph.wf g ->
  Binary64.Graph.set_edge_update_heuristic_scale g
    (float_call_vert1 c) (float_call_vert2 c)
    (float_call_weight c) (float_call_bi_directional c) = Returns g' ->
  Binary64.Graph.wf g'
  /\ Binary64.Graph.get_edge_val g' (float_call_vert1 c) (float_call_vert2 c)
     = float_call_weight c
  /\ (float_call_bi_directional c = true ->
      Binary64.Graph.get_edge_val g' (float_call_vert2 c) (float_call_vert1 c)
      = float_call_weight c).
Proof.
  intros [Hlen Hrows]. unfold Binary64.Graph.set_edge_update_heuristic_scale.
  destruct (_ || _) eqn:Erange; [discriminate|].
  apply orb_false_iff in Erange as [Hu Hv]. apply Nat.leb_gt in Hu, Hv.
  destruct (Binary64.Vec2D.distance_between _ _) as [d| |]; simpl; try discriminate.
  destruct (Binary64.py_div _ d) as [q| |]; simpl; try discriminate.
  pose proof (set_item_binary64_wf _ (float_call_vert1 c) (float_call_vert2 c)
                (float_call_weight c) (float_call_bi_directional c) _ Hlen Hrows) as Hwf'.
  pose proof (get_set_item_binary64 _ _ _ (float_call_weight c)
                (float_call_bi_directional c) _ Hlen Hrows Hu Hv) as Hget.
  destruct (q <? _)%float; intros [= <-];
    unfold Binary64.Graph.wf, Binary64.Graph.get_edge_val, Binary64.Graph.vertices in *;
    simpl; auto.
Qed.

Lemma set_edges_binary64_wf (g g' : Binary64.Graph.t) (calls : list float_call) :
  Binary64.Graph.wf g -> set_edges_binary64 g calls = Returns g' -> Binary64.Graph.wf g'.
Proof.
  revert g. induction calls as [|c calls IH]; intros g Hwf; simpl.
  - by intros [= <-].
  - destruct (Binary64.Graph.set_edge_update_heuristic_scale _ _ _ _ _) as [g1| |] eqn:E1;
      simpl; try discriminate.
    apply IH. by eapply set_edge_update_binary64_stores.
Qed.

(** C2, as the code has it.  In binary64, along every sequence of
    [set_edge(..., update_heuristic_scale=True)] calls that return, on a graph
    whose scale is a number: the heuristic scale is non-increasing (the scale
    after a longer prefix is at most the scale after a shorter one); every
    call stores its weight at its edge; and after the sequence the scale is
    at most the quotient [weight / distance(u, v)] that each call computed
    (no quotient is below it).  The product [distance(u, v) * scale] is not
    bounded by the weight: see [heuristic_exceeds_weight]. *)
Theorem heuristic_scale_below_quotients (g g' : Binary64.Graph.t) (calls : list float_call) :
  Binary64.Graph.wf g ->
  is_nan (Binary64.Graph.heuristic_scale g) = false ->
  set_edges_binary64 g calls = Returns g' ->
  (forall calls1 calls2 calls3 g1 g2,
      calls = calls1 ++ calls2 ++ calls3 ->
      set_edges_binary64 g calls1 = Returns g1 ->
      set_edges_binary64 g1 calls2 = Returns g2 ->
      (Binary64.Graph.heuristic_scale g2 <=? Binary64.Graph.heuristic_scale g1)%float = true)
  /\ (forall calls1 c calls2 g1,
        calls = calls1 ++ c :: calls2 ->
        set_edges_binary64 g calls1 = Returns g1 ->
        exists g2,
          set_edges_binary64 g1 [c] = Returns g2
          /\ Binary64.Graph.get_edge_val g2 (float_call_vert1 c) (float_call_vert2 c)
             = float_call_weight c
          /\ (float_call_bi_directional c = true ->
              Binary64.Graph.get_edge_val g2 (float_call_vert2 c) (float_call_vert1 c)
              = float_call_weight c))
  /\ (forall c, c ∈ calls ->
        exists q,
          weight_over_distance g' c = Returns q
          /\ (q <? Binary64.Graph.heuristic_scale g')%float = false
          /\ (is_nan q = false -> (Binary64.Graph.heuristic_scale g' <=? q)%float = true)).
Proof.
  intros Hwf Hnan Hrun. split; [|split].
  - intros calls1 calls2 calls3 g1 g2 _ H1 H2.
    apply set_edges_binary64_scale_le in H1 as (_ & Hn1 & _); auto.
    by apply set_edges_binary64_scale_le in H2 as (_ & _ & Hs).
  - intros calls1 c calls2 g1 -> H1.
    rewrite set_edges_binary64_app, H1 in Hrun. cbn in Hrun.
    destruct (Binary64.Graph.set_edge_update_heuristic_scale _ _ _ _ _) as [g2| |] eqn:E2;
      simpl in Hrun; try discriminate.
    exists g2. cbn. rewrite E2. split; [reflexivity|].
    apply (proj2 (set_edge_update_binary64_stores g1 g2 c
                    (set_edges_binary64_wf g g1 calls1 Hwf H1) E2)).
  - intros c Hc.
    apply list_elem_of_split in Hc as (calls1 & calls2 & ->).
    rewrite set_edges_binary64_app in Hrun.
    destruct (set_edges_binary64 g calls1) as [g1| |] eqn:E1; simpl in Hrun; try discriminate.
    apply set_edges_binary64_scale_le in E1 as (Hp1 & Hn1 & _); auto.
    destruct (Binary64.Graph.set_edge_update_heuristic_scale _ _ _ _ _) as [g2| |] eqn:E2;
      simpl in Hrun; try discriminate.
    apply set_edge_update_binary64_spec in E2 as (Hp2 & Hn2 & _ & q & Hq & Hbelow); auto.
    apply set_edges_binary64_scale_le in Hrun as (Hp' & _ & Hs'); auto.
    exists q. split.
    + unfold weight_over_distance in *. rewrite Hp', Hp2. exact Hq.
    + by apply (scale_below_mono _ _ _ Hs').
Qed.

(** The graph with the two vertices (0, 0) and (7, 24), 25 apart, and the
    default scale 1. *)
Definition two_points : Binary64.Graph.t :=
  Binary64.Graph.new [Binary64.Vec2D.Vec2D 0 0; Binary64.Vec2D.Vec2D 7 24] 1.

Definition two_points_after : Binary64.Graph.t :=
  Binary64.Graph.WeightedGraph [[0; 7]; [7; 0]]%float
    [Binary64.Vec2D.Vec2D 0 0; Binary64.Vec2D.Vec2D 7 24] 0x1.1eb851eb851ecp-2.

(** C2 fails as stated: after [set_edge(0, 1, 7, update_heuristic_scale=True)]
    the scale is the float nearest to 7/25, which is above 7/25; the edge
    has weight 7 and [heuristic(0, 1)] is 7.000000000000001.  In exact
    arithmetic too the scale times the distance 25 is above 7. *)
Lemma heuristic_exceeds_weight :
  set_edges_binary64 two_points [mkFloatCall 0 1 7 true] = Returns two_points_after
  /\ Binary64.Graph.get_edge_val two_points_after 0 1 = 7%float
  /\ Binary64.Vec2D.distance_between (Binary64.Vec2D.Vec2D 0 0) (Binary64.Vec2D.Vec2D 7 24)
     = Returns 25%float
  /\ Binary64.Graph.heuristic two_points_after 0 1 = Returns 0x1.c000000000001p+2%float
  /\ (0x1.c000000000001p+2 <=? 7)%float = false
  /\ (7 < Binary64.exact_value (Binary64.Graph.heuristic_scale two_points_after) * 25)%Q.
Proof. repeat split; vm_compute; reflexivity. Qed.

(** The theorem on the same call: the scale after it is at most the
    quotient 7/25 that the call computed. *)
Lemma heuristic_scale_below_quotients_witness :
  exists q,
    weight_over_distance two_points_after (mkFloatCall 0 1 7 true) = Returns q
    /\ (Binary64.Graph.heuristic_scale two_points_after <=? q)%float = true.
Proof.
  assert (Hwf : Binary64.Graph.wf two_points).
  { split; [reflexivity|]. repeat constructor. }
  assert (Hnan : is_nan (Binary64.Graph.heuristic_scale two_points) = false)
    by (vm_compute; reflexivity).
  assert (Hrun : set_edges_binary64 two_points [mkFloatCall 0 1 7 true]
                 = Returns two_points_after) by (vm_compute; reflexivity).
  destruct (proj2 (proj2 (heuristic_scale_below_quotients two_points two_points_after
                            [mkFloatCall 0 1 7 true] Hwf Hnan Hrun))
                  (mkFloatCall 0 1 7 true)) as (q & Hq & _ & Hle).
  { set_solver. }
  exists q. split; [exact Hq|]. apply Hle.
  vm_compute in Hq. injection Hq as <-. vm_compute. reflexivity.
Defined.

(** ** The binary heap (Queue.py) *)

Module HeapProofs.
Import DynamicBinaryHeap.

(** The heap property on the array: no entry is below its parent. *)
Definition heap_ordered (h : list HeapItem) : Prop :=
  forall j, (0 < j < length h)%nat ->
    priority (h !!! parent_index j) <= priority (h !!! j).

Lemma parent_spec (i : nat) :
  (0 < i)%nat -> i = left_index (parent_index i) \/ i = right_index (parent_index i).
Proof.
  unfold parent_index, left_index, right_index. intros H.
  pose proof (Nat.div_mod_eq (i - 1) 2) as E.
  pose proof (Nat.mod_upper_bound (i - 1) 2 ltac:(lia)) as B.
  lia.
Qed.

Lemma parent_left (i : nat) : parent_index (left_index i) = i.
Proof.
  unfold parent_index, left_index.
  pose proof (Nat.div_mod_eq (i * 2 + 1 - 1) 2) as E.
  pose proof (Nat.mod_upper_bound (i * 2 + 1 - 1) 2 ltac:(lia)) as B. lia.
Qed.

Lemma parent_right (i : nat) : parent_index (right_index i) = i.
Proof.
  unfold parent_index, right_index.
  pose proof (Nat.div_mod_eq (i * 2 + 2 - 1) 2) as E.
  pose proof (Nat.mod_upper_bound (i * 2 + 2 - 1) 2 ltac:(lia)) as B. lia.
Qed.

Lemma parent_lt (i : nat) : (0 < i)%nat -> (parent_index i < i)%nat.
Proof.
  intros H. destruct (parent_spec i H) as [E|E]; unfold left_index, right_index in E; lia.
Qed.

Lemma swap_length (h : list HeapItem) i j : length (swap h i j) = length h.
Proof. unfold swap. by rewrite !length_insert. Qed.

Lemma swap_lookup (h : list HeapItem) i j k :
  (i < length h)%nat -> (j < length h)%nat ->
  swap h i j !!! k
  = if decide (k = j) then h !!! i else if decide (k = i) then h !!! j else h !!! k.
Proof.
  intros Hi Hj. unfold swap.
  rewrite list_lookup_total_insert, length_insert.
  destruct (decide (k = j)) as [->|Hkj].
  - rewrite decide_True by auto. reflexivity.
  - rewrite decide_False by (intros [? _]; congruence).
    rewrite list_lookup_total_insert.
    destruct (decide (k = i)) as [->|Hki].
    + rewrite decide_True by auto. reflexivity.
    + rewrite decide_False by (intros [? _]; congruence). reflexivity.
Qed.

Lemma swap_Permutation (h : list HeapItem) i j :
  (i < length h)%nat -> (j < length h)%nat -> swap h i j ≡ₚ h.
Proof.
  intros Hi Hj. unfold swap.
  apply Permutation_insert_swap; by apply list_lookup_lookup_total_lt.
Qed.

(** The state of the array when [__up_heapify(i)] is entered: the heap
    property can only fail between [i] and its parent, and the children of
    [i] are not below the parent of [i]. *)
Definition up_ok (h : list HeapItem) (i : nat) : Prop :=
  (forall j, (0 < j < length h)%nat -> j <> i ->
     priority (h !!! parent_index j) <= priority (h !!! j))
  /\ (forall j, (0 < j < length h)%nat -> parent_index j = i -> (0 < i)%nat ->
        priority (h !!! parent_index i) <= priority (h !!! j)).

Lemma up_heapify_loop_ordered (steps : nat) (h : list HeapItem) (i : nat) :
  (i < steps)%nat -> (i < length h)%nat -> up_ok h i ->
  heap_ordered (up_heapify_loop steps h i) /\ up_heapify_loop steps h i ≡ₚ h.
Proof.
  revert h i. induction steps as [|steps IH]; intros h i Hsteps Hi [Hrest Hkids]; [lia|].
  simpl.
  destruct (negb (i =? 0)%nat && Qltb _ _) eqn:Etest.
  - apply andb_true_iff in Etest as [Hi0 Hlt].
    apply negb_true_iff, Nat.eqb_neq in Hi0. apply Qltb_lt in Hlt.
    assert (Hp : (parent_index i < i)%nat) by (apply parent_lt; lia).
    destruct (IH (swap h i (parent_index i)) (parent_index i)) as [Ho Hperm].
    + lia.
    + rewrite swap_length. lia.
    + split.
      * intros j Hj Hjp. rewrite swap_length in Hj.
        rewrite !swap_lookup by lia.
        assert (Hpj : (parent_index j < j)%nat) by (apply parent_lt; lia).
        destruct (decide (j = parent_index i)) as [->|_]; [congruence|].
        destruct (decide (j = i)) as [->|Hji].
        { rewrite decide_True by reflexivity. lra. }
        destruct (decide (parent_index j = parent_index i)) as [Epp|Hne].
        { specialize (Hrest j Hj Hji). rewrite Epp in Hrest. lra. }
        destruct (decide (parent_index j = i)) as [Epi|Hne2].
        { apply (Hkids j Hj Epi). lia. }
        by apply Hrest.
      * intros j Hj Hjp Hpos. rewrite swap_length in Hj.
        assert (Hpp : (parent_index (parent_index i) < parent_index i)%nat)
          by (by apply parent_lt).
        rewrite !swap_lookup by lia.
        rewrite decide_False by lia. rewrite decide_False by lia.
        destruct (decide (j = parent_index i)) as [->|Hjpi]; [lia|].
        assert (Hgp : priority (h !!! parent_index (parent_index i))
                      <= priority (h !!! parent_index i)) by (apply Hrest; lia).
        destruct (decide (j = i)) as [->|Hji]; [exact Hgp|].
        specialize (Hrest j Hj Hji). rewrite Hjp in Hrest. lra.
    + split; [exact Ho|]. rewrite Hperm. apply swap_Permutation; lia.
  - split; [|reflexivity].
    intros j Hj. destruct (decide (j = i)) as [->|Hji]; [|by apply Hrest].
    apply andb_false_iff in Etest as [Hi0|Hge].
    + apply negb_false_iff, Nat.eqb_eq in Hi0. lia.
    + by apply Qltb_ge in Hge.
Qed.

Lemma up_heapify_ordered (h : list HeapItem) (i : nat) :
  (i < length h)%nat -> up_ok h i ->
  heap_ordered (up_heapify h i) /\ up_heapify h i ≡ₚ h.
Proof. intros. apply up_heapify_loop_ordered; auto. Qed.

(** [up_heapify] is the [while] loop of the source: one test, one swap, and
    the loop again from the parent. *)
Lemma up_heapify_unfold (h : list HeapItem) (i : nat) :
  up_heapify h i
  = if negb (i =? 0)%nat
       && Qltb (priority (h !!! i)) (priority (h !!! parent_index i))
    then up_heapify (swap h i (parent_index i)) (parent_index i)
    else h.
Proof.
  assert (Hfuel : forall steps1 steps2 h0 i0, (i0 < steps1)%nat -> (i0 < steps2)%nat ->
            up_heapify_loop steps1 h0 i0 = up_heapify_loop steps2 h0 i0).
  { induction steps1 as [|s1 IH]; intros [|s2] h0 i0 H1 H2; try lia. simpl.
    destruct (negb (i0 =? 0)%nat && Qltb _ _) eqn:Etest; [|reflexivity].
    apply andb_true_iff in Etest as [Hi0 _].
    apply negb_true_iff, Nat.eqb_neq in Hi0.
    assert ((parent_index i0 < i0)%nat) by (apply parent_lt; lia).
    apply IH; lia. }
  unfold up_heapify at 1. simpl.
  destruct (negb (i =? 0)%nat && Qltb _ _) eqn:Etest; [|reflexivity].
  apply andb_true_iff in Etest as [Hi0 _].
  apply negb_true_iff, Nat.eqb_neq in Hi0.
  assert ((parent_index i < i)%nat) by (apply parent_lt; lia).
  apply Hfuel; lia.
Qed.

(** The state of the array when [__down_heapify(i)] is entered: the heap
    property can only fail between [i] and its children, and the children of
    [i] are not below the parent of [i]. *)
Definition down_ok (h : list HeapItem) (i : nat) : Prop :=
  (forall j, (0 < j < length h)%nat -> parent_index j <> i ->
     priority (h !!! parent_index j) <= priority (h !!! j))
  /\ (forall j, (0 < j < length h)%nat -> parent_index j = i -> (0 < i)%nat ->
        priority (h !!! parent_index i) <= priority (h !!! j)).

(** What the body of [__down_heapify] selects. *)
Lemma down_min_index_spec (h : list HeapItem) (i : nat) :
  (left_index i < length h)%nat ->
  let m := down_min_index h i in
  (m = i \/ m = left_index i \/ (m = right_index i /\ (right_index i < length h)%nat))
  /\ priority (h !!! m) <= priority (h !!! i)
  /\ priority (h !!! m) <= priority (h !!! left_index i)
  /\ ((right_index i < length h)%nat -> priority (h !!! m) <= priority (h !!! right_index i))
  /\ (m <> i -> priority (h !!! m) < priority (h !!! i)).
Proof.
  intros Hl. unfold down_min_index.
  destruct (Qltb (priority (h !!! left_index i)) (priority (h !!! i))) eqn:E1.
  - apply Qltb_lt in E1.
    destruct ((right_index i <? length h)%nat && Qltb _ _) eqn:E2.
    + apply andb_true_iff in E2 as [Hr E2]. apply Nat.ltb_lt in Hr. apply Qltb_lt in E2.
      cbv zeta. repeat split; auto; try lra.
    + cbv zeta. repeat split; auto; try lra.
      intros Hr. apply andb_false_iff in E2 as [E2|E2].
      * apply Nat.ltb_ge in E2. lia.
      * by apply Qltb_ge in E2.
  - apply Qltb_ge in E1.
    destruct ((right_index i <? length h)%nat && Qltb _ _) eqn:E2.
    + apply andb_true_iff in E2 as [Hr E2]. apply Nat.ltb_lt in Hr. apply Qltb_lt in E2.
      cbv zeta. repeat split; auto; try lra.
    + cbv zeta. repeat split; auto; try lra.
      * intros Hr. apply andb_false_iff in E2 as [E2|E2].
        -- apply Nat.ltb_ge in E2. lia.
        -- by apply Qltb_ge in E2.
      * congruence.
Qed.

Lemma down_heapify_loop_ordered (steps : nat) (h : list HeapItem) (i : nat) :
  (length h - i <= steps)%nat -> down_ok h i ->
  heap_ordered (down_heapify_loop steps h i) /\ down_heapify_loop steps h i ≡ₚ h.
Proof.
  revert h i. induction steps as [|steps IH]; intros h i Hsteps [Hrest Hkids].
  - simpl. split; [|reflexivity]. intros j Hj. apply Hrest; [exact Hj|].
    assert ((parent_index j < j)%nat) by (apply parent_lt; lia). lia.
  - simpl. destruct (left_index i <? length h)%nat eqn:El.
    + apply Nat.ltb_lt in El.
      pose proof (down_min_index_spec h i El) as (Hm & Hmi & Hml & Hmr & Hlt).
      cbv zeta in *. set (m := down_min_index h i) in *.
      assert (Hil : (i < left_index i)%nat) by (unfold left_index; lia).
      assert (Hir : right_index i = S (left_index i))
        by (unfold left_index, right_index; lia).
      destruct (m =? i)%nat eqn:Emi.
      * apply Nat.eqb_eq in Emi. split; [|reflexivity].
        intros j Hj. destruct (decide (parent_index j = i)) as [Ep|Hne]; [|by apply Hrest].
        rewrite Ep. rewrite Emi in *.
        destruct (parent_spec j ltac:(lia)) as [E|E]; rewrite Ep in E; subst j; auto.
        apply Hmr. lia.
      * apply Nat.eqb_neq in Emi. specialize (Hlt Emi).
        assert (Hmlen : (m < length h)%nat) by (destruct Hm as [?|[?|[? ?]]]; lia).
        assert (Hmp : parent_index m = i).
        { destruct Hm as [?|[->|[-> _]]]; [lia|apply parent_left|apply parent_right]. }
        assert (Him : (i < m)%nat) by (destruct Hm as [?|[?|[? ?]]]; lia).
        destruct (IH (swap h m i) m) as [Ho Hperm].
        -- rewrite swap_length. lia.
        -- split.
           ++ intros j Hj Hjp. rewrite swap_length in Hj.
              assert (Hpj : (parent_index j < j)%nat) by (apply parent_lt; lia).
              rewrite !swap_lookup by lia.
              destruct (decide (j = i)) as [->|Hji].
              { rewrite decide_False by lia. rewrite decide_False by lia.
                apply (Hkids m); auto; lia. }
              destruct (decide (j = m)) as [->|Hjm].
              { rewrite Hmp. rewrite decide_True by reflexivity. lra. }
              destruct (decide (parent_index j = i)) as [Ep|Hne].
              { destruct (parent_spec j ltac:(lia)) as [E|E]; rewrite Ep in E; subst j.
                - exact Hml.
                - apply Hmr. lia. }
              rewrite decide_False by auto. by apply Hrest.
           ++ intros j Hj Hjp _. rewrite swap_length in Hj.
              rewrite Hmp. rewrite !swap_lookup by lia.
              rewrite decide_True by reflexivity.
              assert (Hpj : (parent_index j < j)%nat) by (apply parent_lt; lia).
              rewrite decide_False by lia. rewrite decide_False by lia.
              assert (Hjm : priority (h !!! parent_index j) <= priority (h !!! j))
                by (apply Hrest; lia).
              rewrite Hjp in Hjm. exact Hjm.
        -- split; [exact Ho|]. rewrite Hperm. apply swap_Permutation; lia.
    + apply Nat.ltb_ge in El. split; [|reflexivity].
      intros j Hj. apply Hrest; [exact Hj|]. intros Ep.
      destruct (parent_spec j ltac:(lia)) as [E|E]; rewrite Ep in E;
        unfold left_index, right_index in *; lia.
Qed.

Lemma down_heapify_ordered (h : list HeapItem) (i : nat) :
  down_ok h i -> heap_ordered (down_heapify h i) /\ down_heapify h i ≡ₚ h.
Proof. intros. apply down_heapify_loop_ordered; auto. lia. Qed.

(** The root of an ordered heap is minimal. *)
Lemma heap_ordered_root (h : list HeapItem) (i : nat) :
  heap_ordered h -> (i < length h)%nat ->
  priority (h !!! 0%nat) <= priority (h !!! i).
Proof.
  intros Ho. induction i as [i IH] using lt_wf_ind. intros Hi.
  destruct (decide (i = 0%nat)) as [->|Hne]; [lra|].
  assert (Hp : (parent_index i < i)%nat) by (apply parent_lt; lia).
  specialize (IH (parent_index i) Hp ltac:(lia)).
  specialize (Ho i ltac:(lia)). lra.
Qed.

Lemma heap_ordered_min (h : list HeapItem) (root e : HeapItem) (rest : list HeapItem) :
  heap_ordered h -> h = root :: rest -> e ∈ h -> priority root <= priority e.
Proof.
  intros Ho -> He. apply list_elem_of_lookup in He as [i Hi].
  pose proof (lookup_lt_Some _ _ _ Hi) as Hlt.
  pose proof (heap_ordered_root _ i Ho Hlt) as H.
  rewrite (list_lookup_total_correct _ _ _ Hi) in H. exact H.
Qed.

Lemma heap_ordered_nil : heap_ordered [].
Proof. intros j Hj. simpl in Hj. lia. Qed.

(** [insert_item] keeps the heap ordered and adds exactly the new entry. *)
Lemma insert_item_ordered (h : list HeapItem) (it : nat) (p : Q) :
  heap_ordered h ->
  heap_ordered (insert_item h it p) /\ insert_item h it p ≡ₚ mkHeapItem it p :: h.
Proof.
  intros Ho. unfold insert_item.
  replace (length (h ++ [mkHeapItem it p]) - 1)%nat with (length h)
    by (rewrite length_app; simpl; lia).
  destruct (up_heapify_ordered (h ++ [mkHeapItem it p]) (length h)) as [Ho' Hperm].
  - rewrite length_app. simpl. lia.
  - split.
    + intros j Hj Hne. rewrite length_app in Hj. simpl in Hj.
      assert (Hpj : (parent_index j < j)%nat) by (apply parent_lt; lia).
      rewrite !lookup_total_app_l by lia. apply Ho. lia.
    + intros j Hj Hp _. rewrite length_app in Hj. simpl in Hj.
      assert (Hpj : (parent_index j < j)%nat) by (apply parent_lt; lia). lia.
  - split; [exact Ho'|]. rewrite Hperm. by rewrite Permutation_app_comm.
Qed.

Lemma delete_last {A} (l : list A) (x : A) :
  delete (length (l ++ [x]) - 1)%nat (l ++ [x]) = l.
Proof.
  rewrite length_app. simpl.
  replace (length l + 1 - 1)%nat with (length l) by lia.
  rewrite delete_middle. apply app_nil_r.
Qed.

(** [extract_root] on a non-empty ordered heap returns the first entry,
    which is minimal, and leaves the other entries in an ordered heap. *)
Lemma extract_root_ordered (h : list HeapItem) (root : HeapItem) (rest : list HeapItem) :
  heap_ordered h -> h = root :: rest ->
  exists h', extract_root h = Returns (root, h')
             /\ heap_ordered h' /\ h ≡ₚ root :: h'
             /\ (forall e, e ∈ h -> priority root <= priority e).
Proof.
  intros Ho ->. eexists. split; [reflexivity|].
  assert (Hmin : forall e, e ∈ root :: rest -> priority root <= priority e).
  { intros e He. by eapply heap_ordered_min. }
  destruct rest as [|x rest'] using rev_ind.
  { split; [apply heap_ordered_nil|]. split; [reflexivity|exact Hmin]. }
  clear IHrest'.
  assert (Hlast : (root :: rest' ++ [x]) !!! (length (root :: rest' ++ [x]) - 1)%nat = x).
  { simpl. rewrite length_app. simpl. rewrite Nat.sub_0_r.
    replace (length rest' + 1)%nat with (S (length rest')) by lia.
    rewrite lookup_total_cons_ne_0 by lia. simpl.
    rewrite lookup_total_app_r by lia. by rewrite Nat.sub_diag. }
  rewrite Hlast. cbn [insert list_insert].
  assert (Hdel : delete (length (x :: rest' ++ [x]) - 1)%nat (x :: rest' ++ [x]) = x :: rest').
  { exact (delete_last (x :: rest') x). }
  rewrite Hdel.
  destruct (down_heapify_ordered (x :: rest') 0) as [Ho' Hperm].
  - split.
    + intros j Hj Hp. simpl in Hj.
      assert (Hpj : (parent_index j < j)%nat) by (apply parent_lt; lia).
      specialize (Ho j). simpl in Ho. rewrite length_app in Ho. simpl in Ho.
      specialize (Ho ltac:(lia)).
      rewrite (lookup_total_cons_ne_0 (rest' ++ [x]) root (parent_index j)) in Ho by lia.
      rewrite (lookup_total_cons_ne_0 (rest' ++ [x]) root j) in Ho by lia.
      rewrite (lookup_total_cons_ne_0 rest' x (parent_index j)) by lia.
      rewrite (lookup_total_cons_ne_0 rest' x j) by lia.
      rewrite !lookup_total_app_l in Ho by lia. exact Ho.
    + intros j _ _ H0. lia.
  - split; [exact Ho'|]. split; [|exact Hmin].
    rewrite Hperm. apply perm_skip. by rewrite Permutation_app_comm.
Qed.

Lemma extract_root_nil : extract_root [] = Raises.
Proof. reflexivity. Qed.

(** [__get_index] finds the first entry of the item. *)
Lemma get_index_from_Some (h : list HeapItem) (it k i : nat) :
  get_index_from h it k = Some i ->
  exists j, i = (k + j)%nat /\ (j < length h)%nat /\ item (h !!! j) = it
            /\ forall j', (j' < j)%nat -> item (h !!! j') <> it.
Proof.
  revert k. induction h as [|e h IH]; intros k; simpl; [discriminate|].
  destruct (item e =? it)%nat eqn:E.
  - intros [= <-]. exists 0%nat. apply Nat.eqb_eq in E. repeat split; auto; lia.
  - intros H. apply IH in H as (j & -> & Hj & Hit & Hfirst).
    exists (S j). apply Nat.eqb_neq in E. repeat split; auto; try lia.
    intros [|j'] Hj'; simpl; auto. apply Hfirst. lia.
Qed.

Lemma get_index_from_None (h : list HeapItem) (it k : nat) :
  get_index_from h it k = None -> it ∉ map item h.
Proof.
  revert k. induction h as [|e h IH]; intros k; simpl; [set_solver|].
  destruct (item e =? it)%nat eqn:E; [discriminate|].
  apply Nat.eqb_neq in E. intros H. apply IH in H. rewrite not_elem_of_cons. auto.
Qed.

Lemma get_index_Some (h : list HeapItem) (it i : nat) :
  get_index h it = Some i ->
  (i < length h)%nat /\ item (h !!! i) = it
  /\ forall j, (j < i)%nat -> item (h !!! j) <> it.
Proof.
  intros H. apply get_index_from_Some in H as (j & -> & Hj & Hit & Hfirst). auto.
Qed.

(** [decrease_priority_or_insert] with a priority that does not exceed the
    one stored for the item keeps the heap ordered; the entry found for the
    item is replaced, or the item is added when it is not stored. *)
Lemma decrease_priority_or_insert_ordered (h : list HeapItem) (it : nat) (p : Q) :
  heap_ordered h ->
  (forall i, get_index h it = Some i -> p <= priority (h !!! i)) ->
  heap_ordered (decrease_priority_or_insert h it p)
  /\ match get_index h it with
     | Some i => decrease_priority_or_insert h it p ≡ₚ mkHeapItem it p :: delete i h
     | None => decrease_priority_or_insert h it p ≡ₚ mkHeapItem it p :: h
     end.
Proof.
  intros Ho Hle. unfold decrease_priority_or_insert.
  destruct (get_index h it) as [i|] eqn:Ei; [|by apply insert_item_ordered].
  specialize (Hle i eq_refl).
  apply get_index_Some in Ei as (Hi & Hit & _).
  destruct (up_heapify_ordered (<[i := mkHeapItem it p]> h) i) as [Ho' Hperm].
  - by rewrite length_insert.
  - split.
    + intros j Hj Hne. rewrite length_insert in Hj.
      rewrite (list_lookup_total_insert_ne h i j) by auto.
      specialize (Ho j Hj).
      rewrite list_lookup_total_insert. case_decide as Hd; [cbn [priority]|exact Ho].
      destruct Hd as [Hd _]. rewrite <- Hd in Ho. lra.
    + intros j Hj Hp Hpos. rewrite length_insert in Hj.
      assert (Hpi : (parent_index i < i)%nat) by (by apply parent_lt).
      assert (Hpj : (parent_index j < j)%nat) by (apply parent_lt; lia).
      rewrite !list_lookup_total_insert_ne by lia.
      pose proof (Ho j Hj) as H1. pose proof (Ho i ltac:(lia)) as H2.
      rewrite Hp in H1. lra.
  - split; [exact Ho'|]. rewrite Hperm.
    rewrite (delete_Permutation (<[i := mkHeapItem it p]> h) i (mkHeapItem it p))
      by (by apply list_lookup_insert_eq).
    apply perm_skip.
    assert (Hd : delete i (<[i := mkHeapItem it p]> h) = delete i h); [|by rewrite Hd].
    clear. revert i. induction h as [|e h IH]; intros [|i]; simpl; auto.
    by rewrite IH.
Qed.

(** The heaps that the three operations build from the empty heap, with
    [decrease_priority_or_insert] called on a stored item only with a
    priority that does not exceed the stored one. *)
Inductive built : list HeapItem -> Prop :=
| built_new : built []
| built_insert_item h it p :
    built h -> built (insert_item h it p)
| built_extract_root h root h' :
    built h -> extract_root h = Returns (root, h') -> built h'
| built_decrease h it p :
    built h ->
    (forall i, get_index h it = Some i -> p <= priority (h !!! i)) ->
    built (decrease_priority_or_insert h it p).

(** Emptying a heap by repeated [extract_root]. *)
Fixpoint extract_all (steps : nat) (h : list HeapItem) : list HeapItem :=
  match steps with
  | O => []
  | S steps' =>
      match extract_root h with
      | Returns (root, h') => root :: extract_all steps' h'
      | _ => []
      end
  end.

Definition priority_le (a b : HeapItem) : Prop := priority a <= priority b.

Lemma built_ordered (h : list HeapItem) : built h -> heap_ordered h.
Proof.
  induction 1 as [|h it p Hr IH|h root h' Hr IH E|h it p Hr IH Hle].
  - apply heap_ordered_nil.
  - by apply insert_item_ordered.
  - destruct h as [|r rest]; [discriminate|].
    destruct (extract_root_ordered _ r rest IH eq_refl) as (h'' & E' & Ho & _).
    rewrite E in E'. by injection E' as _ <-.
  - by apply decrease_priority_or_insert_ordered.
Qed.

Lemma extract_all_sorted (n : nat) (h : list HeapItem) :
  heap_ordered h -> length h = n ->
  StronglySorted priority_le (extract_all n h) /\ extract_all n h ≡ₚ h.
Proof.
  revert h. induction n as [|n IH]; intros h Ho Hlen.
  - destruct h; [|discriminate]. simpl. split; [constructor|reflexivity].
  - destruct h as [|root rest]; [discriminate|].
    destruct (extract_root_ordered _ root rest Ho eq_refl) as (h' & E & Ho' & Hperm & Hmin).
    cbn [extract_all]. rewrite E.
    assert (Hlen' : length h' = n).
    { apply Permutation_length in Hperm. simpl in *. lia. }
    destruct (IH h' Ho' Hlen') as [Hsorted Hperm'].
    split.
    + constructor; [exact Hsorted|].
      rewrite Forall_forall. intros e He. apply Hmin.
      rewrite Hperm. rewrite <- Hperm' at 1. rewrite elem_of_cons. by right.
    + rewrite Hperm. by apply perm_skip.
Qed.

(** C10.  Every heap built by [insert_item], [extract_root] and
    [decrease_priority_or_insert] (the latter never raising a stored
    priority) is ordered; [extract_root] on it, when it is not empty, returns
    its first entry, whose priority is minimal among all stored entries, and
    keeps exactly the other entries; hence emptying the heap dequeues all
    its entries in non-decreasing priority order. *)
Theorem extract_root_minimal (h : list HeapItem) :
  built h ->
  heap_ordered h
  /\ (forall root rest, h = root :: rest ->
        exists h', extract_root h = Returns (root, h')
                   /\ (forall e, e ∈ h -> priority root <= priority e)
                   /\ h ≡ₚ root :: h'
                   /\ built h')
  /\ StronglySorted priority_le (extract_all (length h) h)
  /\ extract_all (length h) h ≡ₚ h.
Proof.
  intros Hr. pose proof (built_ordered h Hr) as Ho.
  split; [exact Ho|]. split.
  - intros root rest E.
    destruct (extract_root_ordered h root rest Ho E) as (h' & E' & Ho' & Hperm & Hmin).
    exists h'. repeat split; auto. by eapply built_extract_root.
  - by apply extract_all_sorted.
Qed.

(** The theorem on the heap holding items 7, 8, 9 with priorities 5, 2, 4,
    item 7 then lowered to priority 1. *)
Definition sample_heap : list HeapItem :=
  decrease_priority_or_insert
    (insert_item (insert_item (insert_item [] 7 5) 8 2) 9 4) 7 1.

Lemma extract_root_minimal_witness :
  built sample_heap
  /\ map item (extract_all (length sample_heap) sample_heap) = [7; 8; 9]%nat
  /\ StronglySorted priority_le (extract_all (length sample_heap) sample_heap).
Proof.
  assert (Hr : built sample_heap).
  { unfold sample_heap. apply built_decrease.
    - repeat apply built_insert_item. apply built_new.
    - intros i Hi. vm_compute in Hi. injection Hi as <-. vm_compute. discriminate. }
  split; [exact Hr|]. split; [vm_compute; reflexivity|].
  exact (proj1 (proj2 (proj2 (extract_root_minimal sample_heap Hr)))).
Defined.
End HeapProofs.

(** ** Walks in a graph *)

(** An edge of the graph, as the searches see it: both ends are vertices and
    [get_edge] holds. *)
Definition edge (g : Graph.t) (u v : nat) : Prop :=
  (u < Graph.vertices g)%nat /\ (v < Graph.vertices g)%nat /\ Graph.get_edge g u v = true.

(** [walk g u v len]: a sequence of edges leads from [u] to [v] and the
    weights of its edges add up to [len]. *)
Inductive walk (g : Graph.t) : nat -> nat -> Q -> Prop :=
| walk_refl u : (u < Graph.vertices g)%nat -> walk g u u 0
| walk_snoc u v w len :
    walk g u v len -> edge g v w -> walk g u w (len + Graph.get_edge_val g v w).

(** [hops g u v k]: a sequence of [k] edges leads from [u] to [v]. *)
Inductive hops (g : Graph.t) : nat -> nat -> nat -> Prop :=
| hops_refl u : (u < Graph.vertices g)%nat -> hops g u u 0
| hops_snoc u v w k : hops g u v k -> edge g v w -> hops g u w (S k).

Definition reachable (g : Graph.t) (u v : nat) : Prop := exists len, walk g u v len.

(** [d] is the shortest-path distance from [u] to [v]. *)
Definition shortest_distance (g : Graph.t) (u v : nat) (d : Q) : Prop :=
  (exists len, walk g u v len /\ len == d) /\ (forall len, walk g u v len -> d <= len).

Lemma edge_weight_pos (g : Graph.t) (u v : nat) :
  Graph.get_edge g u v = true -> 0 < Graph.get_edge_val g u v.
Proof.
  unfold Graph.get_edge, Graph.get_edge_val.
  destruct (Qltb _ 0) eqn:E1; [discriminate|].
  apply Qltb_ge in E1. rewrite negb_true_iff. intros E2. apply Qeqb_neq in E2.
  destruct (Qle_lt_or_eq _ _ E1) as [H|H]; [exact H|].
  exfalso. apply E2. symmetry. exact H.
Qed.

Lemma walk_nonneg (g : Graph.t) (u v : nat) (len : Q) : walk g u v len -> 0 <= len.
Proof.
  induction 1 as [u Hu|u v w len Hw IH (Hv & Hw' & He)]; [lra|].
  pose proof (edge_weight_pos g v w He). lra.
Qed.

Lemma walk_end_lt (g : Graph.t) (u v : nat) (len : Q) :
  walk g u v len -> (v < Graph.vertices g)%nat.
Proof. induction 1 as [u Hu|u v w len Hw IH (Hv & Hw' & He)]; auto. Qed.

Lemma walk_trans (g : Graph.t) (u v w : nat) (l1 l2 : Q) :
  walk g u v l1 -> walk g v w l2 -> exists l, walk g u w l /\ l == l1 + l2.
Proof.
  intros H1 H2. induction H2 as [v Hv|v x w l2 Hw IH He].
  - exists l1. split; [exact H1|lra].
  - destruct (IH H1) as (l & Hl & El).
    exists (l + Graph.get_edge_val g x w). split; [by eapply walk_snoc|lra].
Qed.

Lemma shortest_distance_unique (g : Graph.t) (u v : nat) (d1 d2 : Q) :
  shortest_distance g u v d1 -> shortest_distance g u v d2 -> d1 == d2.
Proof.
  intros [(l1 & W1 & E1) M1] [(l2 & W2 & E2) M2].
  pose proof (M1 l2 W2). pose proof (M2 l1 W1). lra.
Qed.

(** ** Distance lists with the sentinel [-1] *)

Definition is_set (distances : list Q) (v : nat) : Prop := ~ distances !!! v == -1.

Lemma Qeqb_unset (distances : list Q) (v : nat) :
  Qeqb (distances !!! v) (-1) = false <-> is_set distances v.
Proof. apply Qeqb_neq. Qed.

Lemma lookup_total_insert_Q (l : list Q) (k v : nat) (x : Q) :
  (k < length l)%nat ->
  <[k := x]> l !!! v = if decide (v = k) then x else l !!! v.
Proof.
  intros Hk. rewrite list_lookup_total_insert.
  destruct (decide (v = k)) as [->|Hne].
  - by rewrite decide_True.
  - rewrite decide_False; [reflexivity|]. intros [? _]. congruence.
Qed.

Lemma lookup_total_replicate_Q (n v : nat) (x : Q) :
  (v < n)%nat -> replicate n x !!! v = x.
Proof. intros H. apply list_lookup_total_correct. by apply lookup_replicate_2. Qed.

Lemma lookup_total_insert_Z (l : list Z) (k v : nat) (x : Z) :
  (k < length l)%nat ->
  <[k := x]> l !!! v = if decide (v = k) then x else l !!! v.
Proof.
  intros Hk. rewrite list_lookup_total_insert.
  destruct (decide (v = k)) as [->|Hne].
  - by rewrite decide_True.
  - rewrite decide_False; [reflexivity|]. intros [? _]. congruence.
Qed.

(** ** The priority queue seen as a set of entries *)

Section QueueEntries.
Import DynamicBinaryHeap HeapProofs.

Lemma decrease_priority_or_insert_entries (h : list HeapItem) (k : nat) (p : Q) :
  heap_ordered h -> NoDup (map item h) ->
  (forall e, e ∈ h -> item e = k -> p <= priority e) ->
  heap_ordered (decrease_priority_or_insert h k p)
  /\ NoDup (map item (decrease_priority_or_insert h k p))
  /\ (forall e, e ∈ decrease_priority_or_insert h k p
                <-> e = mkHeapItem k p \/ (e ∈ h /\ item e <> k))
  /\ (length (decrease_priority_or_insert h k p) <= S (length h))%nat.
Proof.
  intros Ho Hnd Hle.
  destruct (decrease_priority_or_insert_ordered h k p Ho) as [Ho' Hperm].
  { intros i Hi. apply get_index_Some in Hi as (Hi & Hit & _).
    apply Hle; [|exact Hit]. apply list_elem_of_lookup. exists i.
    by apply list_lookup_lookup_total_lt. }
  split; [exact Ho'|].
  destruct (get_index h k) as [i|] eqn:Ei.
  - apply get_index_Some in Ei as (Hi & Hit & _).
    pose proof (delete_Permutation h i (h !!! i) (list_lookup_lookup_total_lt _ _ Hi)) as Hh.
    assert (Hnd' : NoDup (k :: map item (delete i h))).
    { rewrite <- Hit. change (NoDup (map item (h !!! i :: delete i h))). by rewrite <- Hh. }
    apply NoDup_cons in Hnd' as [Hnotin Hnd'].
    split; [rewrite Hperm; simpl; by apply NoDup_cons|].
    split.
    + intros e. rewrite Hperm, elem_of_cons. split.
      * intros [He|He]; [by left|right]. split.
        -- rewrite Hh. rewrite elem_of_cons. by right.
        -- intros Hk. apply Hnotin. rewrite <- Hk. apply list_elem_of_fmap. by exists e.
      * intros [He|[He Hk]]; [by left|right].
        rewrite Hh, elem_of_cons in He. destruct He as [->|He]; [congruence|exact He].
    + apply Permutation_length in Hperm, Hh. simpl in *. lia.
  - apply get_index_from_None in Ei.
    split; [rewrite Hperm; simpl; by apply NoDup_cons|].
    split.
    + intros e. rewrite Hperm, elem_of_cons. split.
      * intros [He|He]; [by left|right]. split; [exact He|].
        intros Hk. apply Ei. rewrite <- Hk. apply list_elem_of_fmap. by exists e.
      * intros [He|[He _]]; auto.
    + apply Permutation_length in Hperm. simpl in *. lia.
Qed.

Lemma insert_item_entries (h : list HeapItem) (k : nat) (p : Q) :
  heap_ordered h -> NoDup (map item h) -> k ∉ map item h ->
  heap_ordered (insert_item h k p)
  /\ NoDup (map item (insert_item h k p))
  /\ (forall e, e ∈ insert_item h k p <-> e = mkHeapItem k p \/ e ∈ h)
  /\ length (insert_item h k p) = S (length h).
Proof.
  intros Ho Hnd Hk. destruct (insert_item_ordered h k p Ho) as [Ho' Hperm].
  split; [exact Ho'|]. split; [rewrite Hperm; simpl; by apply NoDup_cons|].
  split.
  - intros e. by rewrite Hperm, elem_of_cons.
  - apply Permutation_length in Hperm. exact Hperm.
Qed.

Lemma dequeue_entries (h : list HeapItem) :
  heap_ordered h -> NoDup (map item h) -> h <> [] ->
  exists root h',
    DynamicPriorityQueue.dequeue (DynamicPriorityQueue.PQ h)
    = Returns (item root, DynamicPriorityQueue.PQ h')
    /\ heap_ordered h' /\ NoDup (map item h')
    /\ (forall e, e ∈ h <-> e = root \/ e ∈ h')
    /\ (item root ∉ map item h')
    /\ (forall e, e ∈ h -> priority root <= priority e)
    /\ length h = S (length h').
Proof.
  intros Ho Hnd Hne. destruct h as [|root rest]; [congruence|].
  destruct (extract_root_ordered _ root rest Ho eq_refl) as (h' & E & Ho' & Hperm & Hmin).
  exists root, h'. unfold DynamicPriorityQueue.dequeue. cbn [DynamicPriorityQueue.heap].
  rewrite E. split; [reflexivity|]. split; [exact Ho'|].
  assert (Hnd' : NoDup (map item (root :: h'))) by (by rewrite <- Hperm).
  simpl in Hnd'. apply NoDup_cons in Hnd' as [Hnotin Hnd'].
  repeat split; auto.
  - rewrite Hperm, elem_of_cons. auto.
  - rewrite Hperm, elem_of_cons. auto.
  - apply Permutation_length in Hperm. exact Hperm.
Qed.
End QueueEntries.

(** ** Dijkstra and A*: the common relaxation search

    [dijkstra] and [a_star] are the same loop up to the priority given to a
    vertex: its tentative distance for [dijkstra], the tentative distance
    plus the heuristic to the target for [a_star].  The loop is stated once,
    over a priority function, and the two searches are instances of it. *)

Section RelaxationSearch.
Import DynamicBinaryHeap HeapProofs.

Variable g : Graph.t.
Variable vert2_id : nat.
Variable prio : nat -> Q -> Q.

Fixpoint relax_for (current_vert : nat) (next_verts : list nat)
    (st : Graph.search_state) : Graph.search_state :=
  match next_verts with
  | [] => st
  | next_vert :: rest =>
      let '(prev, distances, to_visit) := st in
      if Graph.get_edge g current_vert next_vert then
        let dist := distances !!! current_vert + Graph.get_edge_val g current_vert next_vert in
        if Qeqb (distances !!! next_vert) (-1) || Qltb dist (distances !!! next_vert) then
          relax_for current_vert rest
            (<[next_vert := Z.of_nat current_vert]> prev,
             <[next_vert := dist]> distances,
             DynamicPriorityQueue.decrease_priority_or_enqueue to_visit next_vert
               (prio next_vert dist))
        else relax_for current_vert rest st
      else relax_for current_vert rest st
  end.

Fixpoint search_while (fuel : nat) (st : Graph.search_state)
    : outcome (option (list Z * list Q)) :=
  match fuel with
  | O => Diverges
  | S fuel' =>
      let '(prev, distances, to_visit) := st in
      if DynamicPriorityQueue.empty to_visit then
        if negb (Qeqb (distances !!! vert2_id) (-1)) then Returns (Some (prev, distances))
        else Returns None
      else
        '(current_vert, to_visit) ← DynamicPriorityQueue.dequeue to_visit;
        if negb (Qeqb (distances !!! vert2_id) (-1))
           && Qltb (distances !!! vert2_id) (prio current_vert (distances !!! current_vert))
        then Returns (Some (prev, distances))
        else search_while fuel' (relax_for current_vert (range (Graph.vertices g))
                                            (prev, distances, to_visit))
  end.

(** More fuel does not change a result. *)
Lemma search_while_fuel (fuel fuel' : nat) (st : Graph.search_state) r :
  search_while fuel st = Returns r -> (fuel <= fuel')%nat ->
  search_while fuel' st = Returns r.
Proof.
  revert fuel' st. induction fuel as [|fuel IH]; intros fuel' st H Hle; [discriminate|].
  destruct fuel' as [|fuel']; [lia|].
  simpl in *. destruct st as [[prev distances] to_visit].
  destruct (DynamicPriorityQueue.empty to_visit); [exact H|].
  destruct (DynamicPriorityQueue.dequeue to_visit) as [[cur q]| |]; simpl in *;
    try discriminate.
  destruct (_ && _); [exact H|]. apply IH; [exact H|lia].
Qed.
End RelaxationSearch.

Lemma dijkstra_for_relax (g : Graph.t) (current_vert : nat) (next_verts : list nat)
    (st : Graph.search_state) :
  Graph.dijkstra_for g current_vert next_verts st
  = relax_for g (fun _ d => d) current_vert next_verts st.
Proof.
  revert st. induction next_verts as [|next_vert rest IH]; intros st; [reflexivity|].
  destruct st as [[prev distances] to_visit]. simpl.
  destruct (Graph.get_edge _ _ _); [|apply IH].
  destruct (_ || _); apply IH.
Qed.

Lemma dijkstra_while_search (g : Graph.t) (vert2_id fuel : nat) (st : Graph.search_state) :
  Graph.dijkstra_while fuel g vert2_id st = search_while g vert2_id (fun _ d => d) fuel st.
Proof.
  revert st. induction fuel as [|fuel IH]; intros st; [reflexivity|].
  destruct st as [[prev distances] to_visit]. simpl.
  destruct (DynamicPriorityQueue.empty to_visit); [reflexivity|].
  destruct (DynamicPriorityQueue.dequeue to_visit) as [[cur q]| |]; simpl; try reflexivity.
  destruct (_ && _); [reflexivity|]. rewrite dijkstra_for_relax. apply IH.
Qed.

Lemma a_star_for_relax (sqrt : Q -> Q) (g : Graph.t) (vert2_id current_vert : nat)
    (next_verts : list nat) (st : Graph.search_state) :
  Graph.a_star_for sqrt g vert2_id current_vert next_verts st
  = relax_for g (fun v d => d + Graph.heuristic sqrt g v vert2_id) current_vert next_verts st.
Proof.
  revert st. induction next_verts as [|next_vert rest IH]; intros st; [reflexivity|].
  destruct st as [[prev distances] to_visit]. simpl.
  destruct (Graph.get_edge _ _ _); [|apply IH].
  destruct (_ || _); apply IH.
Qed.

Lemma a_star_while_search (sqrt : Q -> Q) (g : Graph.t) (vert2_id fuel : nat)
    (st : Graph.search_state) :
  Graph.a_star_while sqrt fuel g vert2_id st
  = search_while g vert2_id (fun v d => d + Graph.heuristic sqrt g v vert2_id) fuel st.
Proof.
  revert st. induction fuel as [|fuel IH]; intros st; [reflexivity|].
  destruct st as [[prev distances] to_visit]. simpl.
  destruct (DynamicPriorityQueue.empty to_visit); [reflexivity|].
  destruct (DynamicPriorityQueue.dequeue to_visit) as [[cur q]| |]; simpl; try reflexivity.
  destruct (_ && _); [reflexivity|]. rewrite a_star_for_relax. apply IH.
Qed.

(** ** A grid that holds every tentative distance

    All weights of a graph are multiples of [1 / D] for the product [D] of
    their denominators, hence so is every walk length.  A strictly smaller
    walk length is smaller by at least one grid step, which bounds the number
    of times a tentative distance can be lowered. *)

Section Grid.
Variable D : positive.

Definition on_grid (q : Q) : Prop := exists z : Z, q == z # D.

Definition grid_num (q : Q) : Z := ((Qnum q * Z.pos D) / Z.pos (Qden q))%Z.

Lemma grid_num_spec (q : Q) (z : Z) : q == z # D -> grid_num q = z.
Proof.
  unfold Qeq, grid_num. simpl. intros H. rewrite H. apply Z.div_mul. lia.
Qed.

Lemma on_grid_0 : on_grid 0.
Proof. exists 0%Z. reflexivity. Qed.

Lemma on_grid_eq (q q' : Q) : q == q' -> on_grid q -> on_grid q'.
Proof. intros E [z Hz]. exists z. by rewrite <- E. Qed.

Lemma on_grid_plus (q1 q2 : Q) : on_grid q1 -> on_grid q2 -> on_grid (q1 + q2).
Proof.
  intros [z1 H1] [z2 H2]. exists (z1 + z2)%Z. rewrite H1, H2.
  unfold Qeq, Qplus. simpl. nia.
Qed.

Lemma grid_num_lt (q1 q2 : Q) :
  on_grid q1 -> on_grid q2 -> q1 < q2 -> (grid_num q1 < grid_num q2)%Z.
Proof.
  intros [z1 H1] [z2 H2] Hlt.
  rewrite (grid_num_spec _ _ H1), (grid_num_spec _ _ H2).
  rewrite H1, H2 in Hlt. unfold Qlt in Hlt. simpl in Hlt. nia.
Qed.

Lemma grid_num_nonneg (q : Q) : on_grid q -> 0 <= q -> (0 <= grid_num q)%Z.
Proof.
  intros [z H] Hq. rewrite (grid_num_spec _ _ H).
  rewrite H in Hq. unfold Qle in Hq. simpl in Hq. lia.
Qed.
End Grid.

Definition den_product (l : list Q) : positive :=
  fold_right (fun q acc => (Qden q * acc)%positive) 1%positive l.

Lemma den_product_grid (l : list Q) (q : Q) : q ∈ l -> on_grid (den_product l) q.
Proof.
  induction l as [|x l IH]; [by intros ?%elem_of_nil|].
  rewrite elem_of_cons. intros [->|Hq].
  - exists (Qnum x * Z.pos (den_product l))%Z.
    unfold Qeq. simpl. lia.
  - destruct (IH Hq) as [z Hz]. exists (z * Z.pos (Qden x))%Z.
    unfold Qeq in *. simpl in *. nia.
Qed.

Definition graph_grid (g : Graph.t) : positive :=
  den_product (concat (Graph.adjacency_matrix g)).

Lemma edge_val_on_grid (g : Graph.t) (u v : nat) :
  on_grid (graph_grid g) (Graph.get_edge_val g u v).
Proof.
  unfold Graph.get_edge_val, SquareMat.get_item.
  rewrite (list_lookup_total_alt (Graph.adjacency_matrix g) u).
  destruct (Graph.adjacency_matrix g !! u) as [row|] eqn:Erow; simpl.
  - rewrite (list_lookup_total_alt row v).
    destruct (row !! v) as [q|] eqn:Eq; simpl; [|apply on_grid_0].
    apply den_product_grid. apply list_elem_of_In, in_concat. exists row.
    split; apply list_elem_of_In; by eapply list_elem_of_lookup_2.
  - apply on_grid_0.
Qed.

Lemma walk_on_grid (g : Graph.t) (u v : nat) (len : Q) :
  walk g u v len -> on_grid (graph_grid g) len.
Proof.
  induction 1 as [u Hu|u v w len Hw IH He].
  - apply on_grid_0.
  - apply on_grid_plus; [exact IH|apply edge_val_on_grid].
Qed.

(** Sums over a list that is updated at one index. *)
Lemma sum_list_with_insert {A} (f : A -> nat) (l : list A) (k : nat) (x y : A) :
  l !! k = Some x ->
  (sum_list_with f (<[k := y]> l) + f x = sum_list_with f l + f y)%nat.
Proof.
  revert k. induction l as [|a l IH]; intros [|k] H; simpl in *; try discriminate.
  - injection H as ->. lia.
  - specialize (IH k H). lia.
Qed.

Definition unset_count (distances : list Q) : nat :=
  sum_list_with (fun q => if Qeqb q (-1) then 1%nat else 0%nat) distances.

Definition grid_total (D : positive) (distances : list Q) : nat :=
  sum_list_with (fun q => if Qeqb q (-1) then 0%nat else Z.to_nat (grid_num D q)) distances.

(** ** Correctness and termination of the relaxation search *)

Definition lex_le (a' b' a b : nat) : Prop := (a' < a)%nat \/ (a' = a /\ (b' <= b)%nat).

Lemma lex_le_trans (a1 b1 a2 b2 a3 b3 : nat) :
  lex_le a1 b1 a2 b2 -> lex_le a2 b2 a3 b3 -> lex_le a1 b1 a3 b3.
Proof. unfold lex_le. lia. Qed.

Lemma lex_le_refl (a b : nat) : lex_le a b a b.
Proof. unfold lex_le. lia. Qed.

(** The result of a weighted search, read against the graph: a returned
    distance list holds the shortest-path distance at the target, and "no
    path" is returned only when the target cannot be reached. *)
Definition search_result_ok (g : Graph.t) (vert1_id vert2_id : nat)
    (r : option (list Z * list Q)) : Prop :=
  match r with
  | Some (_, distances) => shortest_distance g vert1_id vert2_id (distances !!! vert2_id)
  | None => ~ reachable g vert1_id vert2_id
  end.

Section RelaxationProof.
Import DynamicBinaryHeap HeapProofs.

Variable g : Graph.t.
Variables vert1_id vert2_id : nat.
Variable prio : nat -> Q -> Q.
Variable hh : nat -> Q.
Hypothesis prio_spec : forall v d, prio v d == d + hh v.
Hypothesis hh_admissible : forall u len, walk g u vert2_id len -> hh u <= len.
Hypothesis source_lt : (vert1_id < Graph.vertices g)%nat.
Hypothesis target_lt : (vert2_id < Graph.vertices g)%nat.

(** Every tentative distance is the length of a walk from the source. *)
Definition base_ok (distances : list Q) : Prop :=
  length distances = Graph.vertices g
  /\ distances !!! vert1_id == 0
  /\ forall v, (v < Graph.vertices g)%nat -> is_set distances v ->
       exists len, walk g vert1_id v len /\ len == distances !!! v.

Definition entry_ok (distances : list Q) (e : HeapItem) : Prop :=
  (item e < Graph.vertices g)%nat /\ is_set distances (item e)
  /\ priority e == prio (item e) (distances !!! item e).

(** The queue while a vertex is expanded. *)
Definition scan_queue_ok (distances : list Q) (h : list HeapItem) : Prop :=
  heap_ordered h /\ NoDup (map item h) /\ forall e, e ∈ h -> entry_ok distances e.

(** The queue at the head of the loop; the first entry (the source, with
    priority 0) is the only one whose priority may differ from [prio]. *)
Definition loop_queue_ok (distances : list Q) (h : list HeapItem) : Prop :=
  heap_ordered h /\ NoDup (map item h)
  /\ forall e, e ∈ h ->
       (item e < Graph.vertices g)%nat /\ is_set distances (item e)
       /\ (priority e == prio (item e) (distances !!! item e) \/ h = [e]).

Definition relaxed (distances : list Q) (u v : nat) : Prop :=
  is_set distances v /\ distances !!! v <= distances !!! u + Graph.get_edge_val g u v.

(** Every edge that leaves a reached vertex is relaxed, unless the vertex
    is queued or it is the vertex being expanded and the edge is still to
    be looked at. *)
Definition scan_ok (cur k : nat) (distances : list Q) (h : list HeapItem) : Prop :=
  forall u v, edge g u v -> is_set distances u ->
    u ∈ map item h \/ (u = cur /\ (k <= v)%nat) \/ relaxed distances u v.

Definition loop_ok (distances : list Q) (h : list HeapItem) : Prop :=
  forall u v, edge g u v -> is_set distances u -> u ∈ map item h \/ relaxed distances u v.

Definition measure2 (distances : list Q) (h : list HeapItem) : nat :=
  (2 * grid_total (graph_grid g) distances + length h)%nat.

Lemma base_ok_nonneg (distances : list Q) (v : nat) :
  base_ok distances -> (v < Graph.vertices g)%nat -> is_set distances v ->
  0 <= distances !!! v /\ on_grid (graph_grid g) (distances !!! v).
Proof.
  intros (_ & _ & Hw) Hv Hs. destruct (Hw v Hv Hs) as (len & Hwalk & E).
  split.
  - pose proof (walk_nonneg _ _ _ _ Hwalk). lra.
  - eapply on_grid_eq; [exact E|]. by eapply walk_on_grid.
Qed.

(** The vertices that can still lower a distance lie on every walk whose
    end is not yet at its final distance. *)
Lemma frontier (opn : nat -> Prop) (distances : list Q) :
  distances !!! vert1_id == 0 ->
  (forall u v, edge g u v -> is_set distances u -> opn u \/ relaxed distances u v) ->
  forall x len, walk g vert1_id x len ->
    (is_set distances x /\ distances !!! x <= len)
    \/ (exists u l1 l2, opn u /\ is_set distances u /\ distances !!! u <= l1
                        /\ walk g u x l2 /\ l1 + l2 <= len).
Proof.
  intros Hs Hrel x len Hwalk.
  remember vert1_id as a eqn:Ea.
  induction Hwalk as [u Hu|u v w len Hwalk IH He].
  - left. split; [|lra]. unfold is_set. lra.
  - specialize (IH Ea source_lt Hs).
    destruct IH as [[Hset Hle]|(x & l1 & l2 & Hx & Hxs & Hxl & Hxw & Hsum)].
    + destruct (Hrel v w He Hset) as [Hopen|[Hws Hwl]].
      * right. exists v, len, (0 + Graph.get_edge_val g v w).
        repeat split; auto; [|lra].
        apply walk_snoc; [|exact He]. apply walk_refl. apply He.
      * left. split; [exact Hws|lra].
    + right. exists x, l1, (l2 + Graph.get_edge_val g v w).
      repeat split; auto; [by apply walk_snoc|lra].
Qed.

(** One relaxation that lowers (or sets) the distance of [k]. *)
Lemma relax_update_ok (cur k : nat) (distances : list Q) (h : list HeapItem) :
  (k < Graph.vertices g)%nat -> (cur < Graph.vertices g)%nat ->
  is_set distances cur -> base_ok distances -> scan_queue_ok distances h ->
  scan_ok cur k distances h ->
  Graph.get_edge g cur k = true ->
  Qeqb (distances !!! k) (-1)
  || Qltb (distances !!! cur + Graph.get_edge_val g cur k) (distances !!! k) = true ->
  let d' := distances !!! cur + Graph.get_edge_val g cur k in
  let distances' := <[k := d']> distances in
  let h' := decrease_priority_or_insert h k (prio k d') in
  is_set distances' cur /\ base_ok distances' /\ scan_queue_ok distances' h'
  /\ scan_ok cur (S k) distances' h'
  /\ lex_le (unset_count distances') (measure2 distances' h')
            (unset_count distances) (measure2 distances h).
Proof.
  intros Hk Hcur Hcs Hbase (Ho & Hnd & Hent) Hscan Hedge Htest d' distances' h'.
  pose proof Hbase as (Hlen & Hsrc & Hwalks).
  pose proof (edge_weight_pos _ _ _ Hedge) as Hw.
  destruct (base_ok_nonneg _ _ Hbase Hcur Hcs) as [Hc0 Hcgrid].
  assert (Hd'pos : 0 < d') by (unfold d'; lra).
  assert (Hlook : forall v, distances' !!! v = if decide (v = k) then d' else distances !!! v).
  { intros v. unfold distances'. apply lookup_total_insert_Q. lia. }
  assert (Hset' : forall v, is_set distances v -> is_set distances' v).
  { intros v Hv. unfold is_set. rewrite Hlook. destruct (decide (v = k)); [lra|exact Hv]. }
  assert (Hsetk : is_set distances' k).
  { unfold is_set. rewrite Hlook, decide_True by reflexivity. lra. }
  assert (Hold : forall v, v <> k -> is_set distances' v -> is_set distances v).
  { intros v Hne. unfold is_set. rewrite Hlook, decide_False by exact Hne. auto. }
  assert (Hcase : ~ is_set distances k \/ (is_set distances k /\ d' < distances !!! k)).
  { destruct (Qeqb (distances !!! k) (-1)) eqn:Ek.
    - left. apply Qeqb_eq in Ek. unfold is_set. tauto.
    - right. apply Qeqb_unset in Ek. split; [exact Ek|].
      simpl in Htest. by apply Qltb_lt in Htest. }
  assert (Hks : k <> vert1_id).
  { intros ->. destruct Hcase as [Hn|[_ Hlt]]; [|lra]. apply Hn. unfold is_set. lra. }
  assert (Hwalkk : exists len, walk g vert1_id k len /\ len == d').
  { destruct (Hwalks cur Hcur Hcs) as (len & Hwalk & E).
    exists (len + Graph.get_edge_val g cur k). split; [|unfold d'; lra].
    apply walk_snoc; [exact Hwalk|]. repeat split; auto. }
  destruct (decrease_priority_or_insert_entries h k (prio k d') Ho Hnd)
    as (Ho' & Hnd' & Hmem & Hlen').
  { intros e He Hit. destruct (Hent e He) as (_ & Hes & Hep).
    rewrite Hit in Hes, Hep. destruct Hcase as [Hn|[_ Hlt]]; [contradiction|].
    rewrite Hep, !prio_spec. lra. }
  fold h' in Ho', Hnd', Hmem, Hlen'.
  split; [by apply Hset'|]. split; [|split; [|split]].
  - split; [unfold distances'; by rewrite length_insert|]. split.
    + rewrite Hlook, decide_False by auto. exact Hsrc.
    + intros v Hv Hvs. rewrite Hlook. destruct (decide (v = k)) as [->|Hne].
      * exact Hwalkk.
      * apply Hwalks; auto.
  - split; [exact Ho'|]. split; [exact Hnd'|].
    intros e He. apply Hmem in He as [->|[He Hne]].
    + split; [exact Hk|]. split; [exact Hsetk|]. simpl.
      rewrite Hlook, decide_True by reflexivity. reflexivity.
    + destruct (Hent e He) as (He1 & He2 & He3).
      split; [exact He1|]. split; [by apply Hset'|].
      rewrite Hlook, decide_False by exact Hne. exact He3.
  - intros u v He Hus.
    assert (Hitems : forall x, x ∈ map item h -> x ∈ map item h').
    { intros x Hx. apply list_elem_of_fmap in Hx as (e & -> & He').
      apply list_elem_of_fmap. destruct (decide (item e = k)) as [Ek|Ek].
      - exists (mkHeapItem k (prio k d')). split; [by rewrite Ek|]. apply Hmem. by left.
      - exists e. split; [reflexivity|]. apply Hmem. by right. }
    destruct (decide (u = k)) as [->|Huk].
    { left. apply list_elem_of_fmap. exists (mkHeapItem k (prio k d')).
      split; [reflexivity|]. apply Hmem. by left. }
    destruct (Hscan u v He (Hold u Huk Hus)) as [Hin|[[-> Hkv]|[Hvs Hvle]]].
    + left. by apply Hitems.
    + destruct (decide (v = k)) as [->|Hvk].
      * right. right. split; [exact Hsetk|].
        rewrite !Hlook, decide_True, decide_False by auto. unfold d'. lra.
      * right. left. split; [reflexivity|lia].
    + right. right. split; [by apply Hset'|].
      rewrite !Hlook. rewrite (decide_False _ _ Huk).
      destruct (decide (v = k)) as [->|Hvk]; [|exact Hvle].
      destruct Hcase as [Hn|[_ Hlt]]; [contradiction|]. lra.
  - assert (Hk' : distances !! k = Some (distances !!! k)).
    { apply list_lookup_lookup_total_lt. lia. }
    unfold unset_count, measure2, grid_total, distances'.
    pose proof (sum_list_with_insert
      (fun q => if Qeqb q (-1) then 1%nat else 0%nat) distances k _ d' Hk') as H1.
    pose proof (sum_list_with_insert
      (fun q => if Qeqb q (-1) then 0%nat else Z.to_nat (grid_num (graph_grid g) q))
      distances k _ d' Hk') as H2.
    cbv beta in H1, H2.
    assert (Ed' : Qeqb d' (-1) = false) by (apply Qeqb_neq; lra).
    rewrite Ed' in H1, H2.
    destruct Hcase as [Hn|[Hs Hlt]].
    + assert (Ek : Qeqb (distances !!! k) (-1) = true).
      { destruct (Qeqb (distances !!! k) (-1)) eqn:Ek; [reflexivity|].
        apply Qeqb_unset in Ek. contradiction. }
      rewrite Ek in H1. left. lia.
    + apply Qeqb_unset in Hs as Ek. rewrite Ek in H1, H2.
      destruct (base_ok_nonneg _ _ Hbase Hk Hs) as [Hk0 Hkgrid].
      assert (Hd'grid : on_grid (graph_grid g) d').
      { destruct Hwalkk as (len & Hwalk & E). eapply on_grid_eq; [exact E|].
        by eapply walk_on_grid. }
      pose proof (grid_num_lt _ _ _ Hd'grid Hkgrid Hlt) as Hnum.
      pose proof (grid_num_nonneg _ _ Hd'grid ltac:(lra)) as Hnum0.
      right. split; [lia|]. fold h'. lia.
Qed.

(** The whole expansion of [cur], from the neighbour [k] on. *)
Lemma relax_for_ok (m k cur : nat) (prev : list Z) (distances : list Q) (h : list HeapItem) :
  (k + m = Graph.vertices g)%nat -> (cur < Graph.vertices g)%nat ->
  is_set distances cur -> base_ok distances -> scan_queue_ok distances h ->
  scan_ok cur k distances h ->
  exists prev' distances' h',
    relax_for g prio cur (seq k m) (prev, distances, DynamicPriorityQueue.PQ h)
    = (prev', distances', DynamicPriorityQueue.PQ h')
    /\ base_ok distances' /\ scan_queue_ok distances' h'
    /\ scan_ok cur (Graph.vertices g) distances' h'
    /\ lex_le (unset_count distances') (measure2 distances' h')
              (unset_count distances) (measure2 distances h).
Proof.
  revert k prev distances h.
  induction m as [|m IH]; intros k prev distances h Hkm Hcur Hcs Hbase Hq Hscan.
  - exists prev, distances, h. simpl.
    split; [reflexivity|]. split; [exact Hbase|]. split; [exact Hq|].
    split; [|apply lex_le_refl].
    replace (Graph.vertices g) with k by lia. exact Hscan.
  - cbn [seq relax_for].
    assert (Hskip : scan_ok cur k distances h ->
              (Graph.get_edge g cur k = true -> relaxed distances cur k) ->
              scan_ok cur (S k) distances h).
    { intros Hsc Hrel u v He Hus.
      destruct (Hsc u v He Hus) as [Hin|[[-> Hkv]|Hr]]; auto.
      destruct (decide (v = k)) as [->|Hne].
      - right. right. apply Hrel. apply He.
      - right. left. split; [reflexivity|lia]. }
    destruct (Graph.get_edge g cur k) eqn:Hedge.
    + destruct (Qeqb (distances !!! k) (-1)
                || Qltb (distances !!! cur + Graph.get_edge_val g cur k) (distances !!! k))
        eqn:Htest.
      * destruct (relax_update_ok cur k distances h ltac:(lia) Hcur Hcs Hbase Hq Hscan
                    Hedge Htest) as (Hcs' & Hbase' & Hq' & Hscan' & Hlex).
        destruct (IH (S k) (<[k := Z.of_nat cur]> prev) _ _ ltac:(lia) Hcur Hcs' Hbase' Hq'
                     Hscan') as (prev' & distances' & h' & E & Hb & Hqq & Hsc & Hl).
        exists prev', distances', h'. split; [exact E|].
        split; [exact Hb|]. split; [exact Hqq|]. split; [exact Hsc|].
        eapply lex_le_trans; [exact Hl|exact Hlex].
      * apply orb_false_iff in Htest as [Hk1 Hk2].
        apply Qeqb_unset in Hk1. apply Qltb_ge in Hk2.
        apply (IH (S k)); auto; [lia|].
        apply Hskip; [exact Hscan|]. intros _. split; [exact Hk1|exact Hk2].
    + apply (IH (S k)); auto; [lia|].
      apply Hskip; [exact Hscan|]. discriminate.
Qed.

Lemma search_while_step (fuel : nat) (prev : list Z) (distances : list Q)
    (h h' : list HeapItem) (cur : nat) :
  h <> [] ->
  DynamicPriorityQueue.dequeue (DynamicPriorityQueue.PQ h)
  = Returns (cur, DynamicPriorityQueue.PQ h') ->
  search_while g vert2_id prio (S fuel) (prev, distances, DynamicPriorityQueue.PQ h)
  = if negb (Qeqb (distances !!! vert2_id) (-1))
       && Qltb (distances !!! vert2_id) (prio cur (distances !!! cur))
    then Returns (Some (prev, distances))
    else search_while g vert2_id prio fuel
           (relax_for g prio cur (range (Graph.vertices g))
                      (prev, distances, DynamicPriorityQueue.PQ h')).
Proof.
  intros Hne E. cbn [search_while].
  unfold DynamicPriorityQueue.empty. cbn [DynamicPriorityQueue.heap].
  destruct h as [|e h0]; [congruence|]. cbn [length Nat.eqb].
  rewrite E. reflexivity.
Qed.

(** The search returns, and its result is right: from every state of the
    loop some amount of fuel is enough. *)
Lemma search_while_correct (a b : nat) :
  forall (prev : list Z) (distances : list Q) (h : list HeapItem),
    base_ok distances -> loop_queue_ok distances h -> loop_ok distances h ->
    unset_count distances = a -> measure2 distances h = b ->
    exists fuel r,
      search_while g vert2_id prio fuel (prev, distances, DynamicPriorityQueue.PQ h)
      = Returns r
      /\ search_result_ok g vert1_id vert2_id r.
Proof.
  revert b. induction a as [a IHa] using lt_wf_ind.
  induction b as [b IHb] using lt_wf_ind.
  intros prev distances h Hbase (Ho & Hnd & Hent) Hloop Ea Eb.
  pose proof Hbase as (Hlen & Hsrc & Hwalks).
  destruct (decide (h = [])) as [->|Hne].
  - (* The queue is empty: every edge is relaxed. *)
    assert (Hfinal : forall x len, walk g vert1_id x len ->
                       is_set distances x /\ distances !!! x <= len).
    { intros x len Hw.
      destruct (frontier (fun _ => False) distances Hsrc) with (x := x) (len := len)
        as [H|(u & _ & _ & [] & _)]; auto.
      intros u v He Hus. destruct (Hloop u v He Hus) as [Hin|Hr]; [|by right].
      simpl in Hin. by apply elem_of_nil in Hin. }
    exists 1%nat. cbn [search_while DynamicPriorityQueue.empty DynamicPriorityQueue.heap
                     length Nat.eqb].
    destruct (Qeqb (distances !!! vert2_id) (-1)) eqn:Et; cbn [negb].
    + eexists. split; [reflexivity|]. intros [len Hw].
      apply Hfinal in Hw as [Hs _]. apply Qeqb_eq in Et. contradiction.
    + eexists. split; [reflexivity|]. apply Qeqb_unset in Et.
      split; [by apply Hwalks|]. intros len Hw. by apply Hfinal in Hw as [_ Hle].
  - destruct (dequeue_entries h Ho Hnd Hne)
      as (root & h' & Edeq & Ho' & Hnd' & Hmem & Hnotin & Hmin & Hlenh).
    set (cur := item root) in *.
    assert (Hroot : root ∈ h) by (apply Hmem; by left).
    destruct (Hent root Hroot) as (Hcur & Hcs & Hrootp).
    assert (Hq' : scan_queue_ok distances h').
    { split; [exact Ho'|]. split; [exact Hnd'|]. intros e He.
      assert (Heh : e ∈ h) by (apply Hmem; by right).
      destruct (Hent e Heh) as (He1 & He2 & [He3|He3]); [by repeat split|].
      exfalso. rewrite He3 in Hlenh. simpl in Hlenh.
      destruct h'; [by apply elem_of_nil in He|discriminate]. }
    assert (Hitems : forall u, u ∈ map item h -> u = cur \/ u ∈ map item h').
    { intros u Hu. apply list_elem_of_fmap in Hu as (e & -> & He).
      apply Hmem in He as [->|He]; [by left|right].
      apply list_elem_of_fmap. by exists e. }
    destruct (negb (Qeqb (distances !!! vert2_id) (-1))
              && Qltb (distances !!! vert2_id) (prio cur (distances !!! cur))) eqn:Etest.
    + (* Early exit: no queued vertex can still improve the target. *)
      exists 1%nat, (Some (prev, distances)).
      split; [rewrite (search_while_step 0 prev distances h h' cur Hne Edeq), Etest;
              reflexivity|].
      apply andb_true_iff in Etest as [Et Hlt].
      apply negb_true_iff, Qeqb_unset in Et. apply Qltb_lt in Hlt.
      rewrite prio_spec in Hlt.
      split; [by apply Hwalks|]. intros len Hw.
      destruct (frontier (fun u => u ∈ map item h) distances Hsrc Hloop _ _ Hw)
        as [[_ Hle]|(u & l1 & l2 & Hu & Hus & Hul & Huw & Hsum)]; [exact Hle|].
      pose proof (hh_admissible u l2 Huw) as Hadm.
      destruct (Hitems u Hu) as [->|Hu'].
      * lra.
      * apply list_elem_of_fmap in Hu' as (e & -> & He).
        destruct Hq' as (_ & _ & Hent').
        destruct (Hent' e He) as (_ & _ & Hep).
        assert (Heh : e ∈ h) by (apply Hmem; by right).
        pose proof (Hmin e Heh) as Hre.
        destruct Hrootp as [Hrp|Hrp].
        -- rewrite Hep, Hrp, !prio_spec in Hre. fold cur in Hre. lra.
        -- exfalso. rewrite Hrp in Hlenh. simpl in Hlenh.
           destruct h'; [by apply elem_of_nil in He|discriminate].
    + (* One more expansion. *)
      destruct (relax_for_ok (Graph.vertices g) 0 cur prev distances h')
        as (prev' & distances' & h'' & Erel & Hb' & Hqq' & Hsc' & Hlex); auto.
      { intros u v He Hus. destruct (Hloop u v He Hus) as [Hin|Hr]; [|by right; right].
        destruct (Hitems u Hin) as [->|Hu']; [|by left].
        right. left. split; [reflexivity|lia]. }
      assert (Hmeas : (measure2 distances h' < b)%nat).
      { unfold measure2 in *. lia. }
      assert (Hloop' : loop_ok distances' h'').
      { intros u v He Hus. destruct (Hsc' u v He Hus) as [Hin|[[-> Hkv]|Hr]]; auto.
        destruct He as (_ & Hv & _). lia. }
      assert (Hlq' : loop_queue_ok distances' h'').
      { destruct Hqq' as (H1 & H2 & H3). split; [exact H1|]. split; [exact H2|].
        intros e He. destruct (H3 e He) as (? & ? & ?). auto. }
      assert (Hnext : exists fuel r,
                 search_while g vert2_id prio fuel
                   (prev', distances', DynamicPriorityQueue.PQ h'') = Returns r
                 /\ search_result_ok g vert1_id vert2_id r).
      { destruct Hlex as [Hlt|[Heq Hle]].
        - apply (IHa (unset_count distances') ltac:(lia) (measure2 distances' h'') prev'
                     distances' h''); auto.
        - apply (IHb (measure2 distances' h'') ltac:(lia) prev' distances' h''); auto.
          lia. }
      destruct Hnext as (fuel & r & Erun & Hr).
      exists (S fuel), r. split; [|exact Hr].
      rewrite (search_while_step fuel prev distances h h' cur Hne Edeq), Etest.
      unfold range. rewrite Erel. exact Erun.
Qed.

(** The state in which [dijkstra] and [a_star] enter their loop. *)
Definition initial_state : Graph.search_state :=
  (replicate (Graph.vertices g) 0%Z,
   <[vert1_id := 0]> (replicate (Graph.vertices g) (-1)),
   DynamicPriorityQueue.enqueue DynamicPriorityQueue.new vert1_id 0).

Lemma initial_distances (v : nat) :
  (v < Graph.vertices g)%nat ->
  <[vert1_id := 0]> (replicate (Graph.vertices g) (-1)) !!! v
  = if decide (v = vert1_id) then 0 else -1.
Proof.
  intros Hv. rewrite lookup_total_insert_Q by (rewrite length_replicate; lia).
  destruct (decide (v = vert1_id)); [reflexivity|]. by apply lookup_total_replicate_Q.
Qed.

Lemma initial_state_ok :
  base_ok (<[vert1_id := 0]> (replicate (Graph.vertices g) (-1)))
  /\ loop_queue_ok (<[vert1_id := 0]> (replicate (Graph.vertices g) (-1)))
                   [mkHeapItem vert1_id 0]
  /\ loop_ok (<[vert1_id := 0]> (replicate (Graph.vertices g) (-1)))
             [mkHeapItem vert1_id 0].
Proof.
  assert (Hset : forall v, (v < Graph.vertices g)%nat ->
            is_set (<[vert1_id := 0]> (replicate (Graph.vertices g) (-1))) v ->
            v = vert1_id).
  { intros v Hv Hs. unfold is_set in Hs. rewrite initial_distances in Hs by exact Hv.
    destruct (decide (v = vert1_id)); [assumption|]. exfalso. apply Hs. reflexivity. }
  split; [|split].
  - split; [by rewrite length_insert, length_replicate|]. split.
    + rewrite initial_distances, decide_True by auto. reflexivity.
    + intros v Hv Hs. rewrite (Hset v Hv Hs). exists 0. split; [by apply walk_refl|].
      rewrite initial_distances, decide_True by auto. reflexivity.
  - split; [|split].
    + intros j Hj. simpl in Hj. lia.
    + simpl. apply NoDup_singleton.
    + intros e He. apply list_elem_of_singleton in He as ->. simpl.
      split; [exact source_lt|]. split; [|by right].
      unfold is_set. rewrite initial_distances, decide_True by auto. lra.
  - intros u v (Hu & _ & _) Hs. left. rewrite (Hset u Hu Hs). simpl.
    apply list_elem_of_singleton. reflexivity.
Qed.

Lemma search_from_source :
  exists fuel r,
    search_while g vert2_id prio fuel initial_state = Returns r
    /\ search_result_ok g vert1_id vert2_id r.
Proof.
  unfold initial_state.
  change (DynamicPriorityQueue.enqueue DynamicPriorityQueue.new vert1_id 0)
    with (DynamicPriorityQueue.PQ [mkHeapItem vert1_id 0]).
  destruct initial_state_ok as (Hbase & Hqueue & Hloop).
  by eapply (search_while_correct _ _ _ _ [mkHeapItem vert1_id 0]).
Qed.

(** *** The predecessors *)

(** Every vertex with a distance, the source apart, has a predecessor with a
    distance, joined to it by an edge over which its own distance could not
    be lowered; distances are not negative and lie on the grid of the
    weights. *)
Definition prev_inv (prev : list Z) (distances : list Q) : Prop :=
  length prev = Graph.vertices g /\ length distances = Graph.vertices g
  /\ distances !!! vert1_id == 0
  /\ (forall v, (v < Graph.vertices g)%nat -> is_set distances v ->
        0 <= distances !!! v /\ on_grid (graph_grid g) (distances !!! v))
  /\ (forall v, (v < Graph.vertices g)%nat -> is_set distances v -> v <> vert1_id ->
        exists u, prev !!! v = Z.of_nat u /\ edge g u v /\ is_set distances u
                  /\ distances !!! u + Graph.get_edge_val g u v <= distances !!! v).

Lemma prev_inv_update (cur k : nat) (prev : list Z) (distances : list Q) :
  prev_inv prev distances ->
  (cur < Graph.vertices g)%nat -> (k < Graph.vertices g)%nat -> is_set distances cur ->
  Graph.get_edge g cur k = true ->
  Qeqb (distances !!! k) (-1)
  || Qltb (distances !!! cur + Graph.get_edge_val g cur k) (distances !!! k) = true ->
  prev_inv (<[k := Z.of_nat cur]> prev)
           (<[k := distances !!! cur + Graph.get_edge_val g cur k]> distances)
  /\ is_set (<[k := distances !!! cur + Graph.get_edge_val g cur k]> distances) cur.
Proof.
  intros (Hlp & Hld & Hsrc & Hpos & Hpred) Hcur Hk Hcs Hedge Htest.
  set (d' := distances !!! cur + Graph.get_edge_val g cur k).
  pose proof (edge_weight_pos _ _ _ Hedge) as Hw.
  destruct (Hpos cur Hcur Hcs) as [Hc0 Hcgrid].
  assert (Hd' : 0 < d') by (unfold d'; lra).
  assert (Hlower : is_set distances k -> d' < distances !!! k).
  { intros Hks. apply orb_true_iff in Htest as [E|E].
    - apply Qeqb_eq in E. contradiction.
    - by apply Qltb_lt in E. }
  assert (Hkcur : k <> cur).
  { intros ->. specialize (Hlower Hcs). unfold d' in Hlower. lra. }
  assert (Hks : k <> vert1_id).
  { intros ->. assert (Hss : is_set distances vert1_id) by (unfold is_set; lra).
    specialize (Hlower Hss). lra. }
  assert (Hlook : forall v, <[k := d']> distances !!! v
                            = if decide (v = k) then d' else distances !!! v).
  { intros v. apply lookup_total_insert_Q. lia. }
  assert (Hother : forall v, v <> k -> <[k := d']> distances !!! v = distances !!! v).
  { intros v Hv. by rewrite Hlook, decide_False. }
  assert (Hnew : <[k := d']> distances !!! k = d') by (by rewrite Hlook, decide_True).
  assert (Hmono : forall v, is_set distances v -> is_set (<[k := d']> distances) v).
  { intros v Hv. unfold is_set. rewrite Hlook. destruct (decide (v = k)); [lra|exact Hv]. }
  assert (Hback : forall v, v <> k -> is_set (<[k := d']> distances) v -> is_set distances v).
  { intros v Hne Hv. unfold is_set in *. by rewrite Hother in Hv. }
  split; [|by apply Hmono].
  split; [by rewrite length_insert|]. split; [by rewrite length_insert|].
  split; [by rewrite Hother by auto|].
  split.
  - intros v Hv Hvs. destruct (decide (v = k)) as [->|Hne].
    + rewrite Hnew. split; [lra|]. apply on_grid_plus; [exact Hcgrid|apply edge_val_on_grid].
    + rewrite Hother by exact Hne. apply Hpos; [exact Hv|by apply Hback].
  - intros v Hv Hvs Hvsrc. destruct (decide (v = k)) as [->|Hne].
    + exists cur. split; [by rewrite lookup_total_insert_Z, decide_True by lia|].
      split; [by repeat split|]. split; [by apply Hmono|].
      rewrite Hnew, Hother by auto. unfold d'. lra.
    + destruct (Hpred v Hv (Hback v Hne Hvs) Hvsrc) as (u & Eu & He & Hus & Hle).
      exists u. split; [by rewrite lookup_total_insert_Z, decide_False by (lia || auto)|].
      split; [exact He|]. split; [by apply Hmono|].
      rewrite (Hother v) by exact Hne. destruct (decide (u = k)) as [->|Huk].
      * rewrite Hnew. specialize (Hlower Hus). lra.
      * by rewrite Hother.
Qed.

Lemma relax_for_prev (next_verts : list nat) :
  forall (cur : nat) (prev : list Z) (distances : list Q) (q : DynamicPriorityQueue.t),
    (cur < Graph.vertices g)%nat -> is_set distances cur ->
    Forall (fun k => (k < Graph.vertices g)%nat) next_verts ->
    prev_inv prev distances ->
    prev_inv (relax_for g prio cur next_verts (prev, distances, q)).1.1
             (relax_for g prio cur next_verts (prev, distances, q)).1.2.
Proof.
  induction next_verts as [|k rest IH]; intros cur prev distances q Hcur Hcs Hall Hinv;
    [exact Hinv|].
  apply Forall_cons in Hall as [Hk Hall]. cbn [relax_for].
  destruct (Graph.get_edge g cur k) eqn:Hedge; [|by apply IH].
  destruct (_ || _) eqn:Htest; [|by apply IH].
  destruct (prev_inv_update cur k prev distances Hinv Hcur Hk Hcs Hedge Htest) as [Hinv' Hcs'].
  by apply IH.
Qed.

(** Whatever pair the search returns satisfies the invariant of the
    predecessors. *)
Lemma search_while_prev (fuel : nat) :
  forall (prev : list Z) (distances : list Q) (h : list HeapItem) (r : list Z * list Q),
    base_ok distances -> loop_queue_ok distances h -> loop_ok distances h ->
    prev_inv prev distances ->
    search_while g vert2_id prio fuel (prev, distances, DynamicPriorityQueue.PQ h)
    = Returns (Some r) ->
    prev_inv r.1 r.2.
Proof.
  induction fuel as [|fuel IH]; intros prev distances h r Hbase Hqueue Hloop Hinv Hrun;
    [discriminate|].
  pose proof Hqueue as (Ho & Hnd & Hent).
  destruct (decide (h = [])) as [->|Hne].
  - cbn [search_while DynamicPriorityQueue.empty DynamicPriorityQueue.heap length Nat.eqb]
      in Hrun.
    destruct (negb _); [|discriminate]. by injection Hrun as <-.
  - destruct (dequeue_entries h Ho Hnd Hne)
      as (root & h' & Edeq & Ho' & Hnd' & Hmem & Hnotin & Hmin & Hlenh).
    rewrite (search_while_step fuel prev distances h h' (item root) Hne Edeq) in Hrun.
    destruct (_ && _); [by injection Hrun as <-|].
    assert (Hroot : root ∈ h) by (apply Hmem; by left).
    destruct (Hent root Hroot) as (Hcur & Hcs & _).
    assert (Hq' : scan_queue_ok distances h').
    { split; [exact Ho'|]. split; [exact Hnd'|]. intros e He.
      assert (Heh : e ∈ h) by (apply Hmem; by right).
      destruct (Hent e Heh) as (He1 & He2 & [He3|He3]); [by repeat split|].
      exfalso. rewrite He3 in Hlenh. simpl in Hlenh.
      destruct h'; [by apply elem_of_nil in He|discriminate]. }
    destruct (relax_for_ok (Graph.vertices g) 0 (item root) prev distances h')
      as (prev' & distances' & h'' & Erel & Hb' & Hqq' & Hsc' & _); auto.
    { intros u v He Hus. destruct (Hloop u v He Hus) as [Hin|Hr]; [|by right; right].
      apply list_elem_of_fmap in Hin as (e & -> & Hin).
      apply Hmem in Hin as [->|Hin]; [right; left; split; [reflexivity|lia]|].
      left. apply list_elem_of_fmap. by exists e. }
    pose proof (relax_for_prev (range (Graph.vertices g)) (item root) prev distances
                  (DynamicPriorityQueue.PQ h') Hcur Hcs) as Hprev.
    unfold range in Hprev, Hrun. rewrite Erel in Hprev, Hrun.
    cbn [fst snd] in Hprev.
    apply (IH prev' distances' h'' r); auto.
    + destruct Hqq' as (H1 & H2 & H3). split; [exact H1|]. split; [exact H2|].
      intros e He. destruct (H3 e He) as (? & ? & ?). auto.
    + intros u v He Hus. destruct (Hsc' u v He Hus) as [Hin|[[-> Hkv]|Hr]]; auto.
      destruct He as (_ & Hv & _). lia.
    + apply Hprev; [|exact Hinv]. apply Forall_forall. intros k Hk.
      apply elem_of_seq in Hk. lia.
Qed.

Lemma search_from_source_prev (fuel : nat) (r : list Z * list Q) :
  search_while g vert2_id prio fuel initial_state = Returns (Some r) -> prev_inv r.1 r.2.
Proof.
  unfold initial_state.
  change (DynamicPriorityQueue.enqueue DynamicPriorityQueue.new vert1_id 0)
    with (DynamicPriorityQueue.PQ [mkHeapItem vert1_id 0]).
  destruct initial_state_ok as (Hbase & Hqueue & Hloop).
  apply search_while_prev; auto.
  pose proof Hbase as (Hlen & Hsrc & _).
  assert (Hset : forall v, (v < Graph.vertices g)%nat ->
            is_set (<[vert1_id := 0]> (replicate (Graph.vertices g) (-1))) v ->
            v = vert1_id).
  { intros v Hv Hs. unfold is_set in Hs. rewrite initial_distances in Hs by exact Hv.
    destruct (decide (v = vert1_id)); [assumption|]. exfalso. apply Hs. reflexivity. }
  split; [by rewrite length_replicate|]. split; [exact Hlen|]. split; [exact Hsrc|].
  split.
  - intros v Hv Hs. by apply base_ok_nonneg.
  - intros v Hv Hs Hne. by destruct (Hne (Hset v Hv Hs)).
Qed.
End RelaxationProof.

(** [dijkstra] returns, and returns the shortest-path distance to the
    target, or "no path" exactly when the target cannot be reached. *)
Lemma dijkstra_returns (g : Graph.t) (vert1_id vert2_id : nat) :
  (vert1_id < Graph.vertices g)%nat -> (vert2_id < Graph.vertices g)%nat ->
  exists fuel0 r,
    search_result_ok g vert1_id vert2_id r
    /\ forall fuel, (fuel0 <= fuel)%nat -> Graph.dijkstra fuel g vert1_id vert2_id = Returns r.
Proof.
  intros H1 H2.
  destruct (search_from_source g vert1_id vert2_id (fun _ d => d) (fun _ => 0))
    as (fuel0 & r & Erun & Hr); auto.
  - intros v d. lra.
  - intros u len Hw. by eapply walk_nonneg.
  - exists fuel0, r. split; [exact Hr|]. intros fuel Hle.
    unfold Graph.dijkstra.
    replace (Graph.vertices g <=? vert1_id)%nat with false by (symmetry; apply Nat.leb_gt; lia).
    replace (Graph.vertices g <=? vert2_id)%nat with false by (symmetry; apply Nat.leb_gt; lia).
    cbn [orb]. rewrite dijkstra_while_search. by eapply search_while_fuel.
Qed.

Section AStar.
Variable sqrt : Q -> Q.
Variable g : Graph.t.

(** What the proofs use of the Euclidean distance between the vertices of
    the graph, and the admissibility of the heuristic on every edge. *)
Hypothesis distance_nonneg : forall u v,
  (u < Graph.vertices g)%nat -> (v < Graph.vertices g)%nat -> 0 <= vertex_distance sqrt g u v.
Hypothesis distance_refl : forall u,
  (u < Graph.vertices g)%nat -> vertex_distance sqrt g u u == 0.
Hypothesis distance_triangle : forall u v w,
  (u < Graph.vertices g)%nat -> (v < Graph.vertices g)%nat -> (w < Graph.vertices g)%nat ->
  vertex_distance sqrt g u w <= vertex_distance sqrt g u v + vertex_distance sqrt g v w.
Hypothesis edge_admissible : forall u v,
  edge g u v -> Graph.heuristic_scale g * vertex_distance sqrt g u v <= Graph.get_edge_val g u v.

Lemma walk_start_lt (u v : nat) (len : Q) : walk g u v len -> (u < Graph.vertices g)%nat.
Proof. induction 1; auto. Qed.

(** The heuristic never overestimates the length of a walk. *)
Lemma heuristic_le_walk (u v : nat) (len : Q) :
  walk g u v len -> Graph.heuristic sqrt g u v <= len.
Proof.
  unfold Graph.heuristic. fold (vertex_distance sqrt g).
  induction 1 as [u Hu|u v w len Hwalk IH He].
  - change (vertex_distance sqrt g u u * Graph.heuristic_scale g <= 0).
    rewrite (distance_refl u Hu). lra.
  - change (vertex_distance sqrt g u w * Graph.heuristic_scale g
            <= len + Graph.get_edge_val g v w).
    change (vertex_distance sqrt g u v * Graph.heuristic_scale g <= len) in IH.
    pose proof (walk_start_lt _ _ _ Hwalk) as Hu.
    pose proof He as (Hv & Hw & Hedge).
    pose proof (edge_weight_pos _ _ _ Hedge) as Hpos.
    pose proof (walk_nonneg _ _ _ _ Hwalk) as Hlen.
    pose proof (edge_admissible v w He) as Hadm.
    pose proof (distance_triangle u v w Hu Hv Hw) as Htri.
    pose proof (distance_nonneg u w Hu Hw) as Hd.
    destruct (Qlt_le_dec (Graph.heuristic_scale g) 0) as [Hneg|Hnn].
    + assert (vertex_distance sqrt g u w * Graph.heuristic_scale g <= 0); [|lra].
      assert (E : vertex_distance sqrt g u w * Graph.heuristic_scale g
                  == - (vertex_distance sqrt g u w * - Graph.heuristic_scale g)) by ring.
      rewrite E.
      assert (0 <= vertex_distance sqrt g u w * - Graph.heuristic_scale g); [|lra].
      apply Qmult_le_0_compat; lra.
    + apply Qle_trans with
        ((vertex_distance sqrt g u v + vertex_distance sqrt g v w) * Graph.heuristic_scale g).
      * apply Qmult_le_compat_r; assumption.
      * assert (E : (vertex_distance sqrt g u v + vertex_distance sqrt g v w)
                    * Graph.heuristic_scale g
                    == vertex_distance sqrt g u v * Graph.heuristic_scale g
                       + Graph.heuristic_scale g * vertex_distance sqrt g v w) by ring.
        rewrite E. lra.
Qed.

(** [a_star] returns, and with an admissible heuristic it returns the
    shortest-path distance to the target, or "no path" exactly when the
    target cannot be reached. *)
Lemma a_star_returns (vert1_id vert2_id : nat) :
  (vert1_id < Graph.vertices g)%nat -> (vert2_id < Graph.vertices g)%nat ->
  exists fuel0 r,
    search_result_ok g vert1_id vert2_id r
    /\ forall fuel, (fuel0 <= fuel)%nat ->
         Graph.a_star sqrt fuel g vert1_id vert2_id = Returns r.
Proof.
  intros H1 H2.
  destruct (search_from_source g vert1_id vert2_id
              (fun v d => d + Graph.heuristic sqrt g v vert2_id)
              (fun v => Graph.heuristic sqrt g v vert2_id))
    as (fuel0 & r & Erun & Hr); auto.
  - intros v d. lra.
  - intros u len Hw. by apply heuristic_le_walk.
  - exists fuel0, r. split; [exact Hr|]. intros fuel Hle.
    unfold Graph.a_star.
    replace (Graph.vertices g <=? vert1_id)%nat with false by (symmetry; apply Nat.leb_gt; lia).
    replace (Graph.vertices g <=? vert2_id)%nat with false by (symmetry; apply Nat.leb_gt; lia).
    cbn [orb]. rewrite a_star_while_search. by eapply search_while_fuel.
Qed.
End AStar.

(** [dijkstra] on a graph with valid source and target always returns; it
    returns "no path" exactly when the target cannot be reached from the
    source, and otherwise a distance list that holds the shortest-path
    distance at the target. *)
Theorem dijkstra_shortest (g : Graph.t) (vert1_id vert2_id : nat) :
  (vert1_id < Graph.vertices g)%nat -> (vert2_id < Graph.vertices g)%nat ->
  exists fuel0 r,
    (forall fuel, (fuel0 <= fuel)%nat -> Graph.dijkstra fuel g vert1_id vert2_id = Returns r)
    /\ (r = None <-> ~ reachable g vert1_id vert2_id)
    /\ (forall prev distances, r = Some (prev, distances) ->
          shortest_distance g vert1_id vert2_id (distances !!! vert2_id)).
Proof.
  intros H1 H2. destruct (dijkstra_returns g vert1_id vert2_id H1 H2) as (fuel0 & r & Hr & Hrun).
  exists fuel0, r. split; [exact Hrun|]. split.
  - split.
    + intros ->. exact Hr.
    + intros Hn. destruct r as [[prev distances]|]; [|reflexivity].
      exfalso. apply Hn. destruct Hr as [(len & Hw & _) _]. by exists len.
  - intros prev distances ->. exact Hr.
Qed.

(** In exact arithmetic, [a_star] with an admissible heuristic: the same
    statement as for [dijkstra].  (In binary64 it fails, see
    [a_star_misses_shortest_path] below: the sum [dist + heuristic] of the
    early exit is rounded.) *)
Theorem a_star_shortest (sqrt : Q -> Q) (g : Graph.t) (vert1_id vert2_id : nat) :
  (forall u v, (u < Graph.vertices g)%nat -> (v < Graph.vertices g)%nat ->
     0 <= vertex_distance sqrt g u v) ->
  (forall u, (u < Graph.vertices g)%nat -> vertex_distance sqrt g u u == 0) ->
  (forall u v w, (u < Graph.vertices g)%nat -> (v < Graph.vertices g)%nat ->
     (w < Graph.vertices g)%nat ->
     vertex_distance sqrt g u w <= vertex_distance sqrt g u v + vertex_distance sqrt g v w) ->
  (forall u v, edge g u v ->
     Graph.heuristic_scale g * vertex_distance sqrt g u v <= Graph.get_edge_val g u v) ->
  (vert1_id < Graph.vertices g)%nat -> (vert2_id < Graph.vertices g)%nat ->
  exists fuel0 r,
    (forall fuel, (fuel0 <= fuel)%nat ->
       Graph.a_star sqrt fuel g vert1_id vert2_id = Returns r)
    /\ (r = None <-> ~ reachable g vert1_id vert2_id)
    /\ (forall prev distances, r = Some (prev, distances) ->
          shortest_distance g vert1_id vert2_id (distances !!! vert2_id)).
Proof.
  intros Hnn Hrefl Htri Hadm H1 H2.
  destruct (a_star_returns sqrt g Hnn Hrefl Htri Hadm vert1_id vert2_id H1 H2)
    as (fuel0 & r & Hr & Hrun).
  exists fuel0, r. split; [exact Hrun|]. split.
  - split.
    + intros ->. exact Hr.
    + intros Hn. destruct r as [[prev distances]|]; [|reflexivity].
      exfalso. apply Hn. destruct Hr as [(len & Hw & _) _]. by exists len.
  - intros prev distances ->. exact Hr.
Qed.

(** In exact arithmetic [dijkstra] and [a_star] agree: with an admissible
    heuristic both return "no path" or both return a distance list, and the
    two lists hold the same distance at the target, the shortest-path
    distance.  (In binary64 they can differ, see
    [a_star_misses_shortest_path] below.) *)
Theorem dijkstra_a_star_same_distance (sqrt : Q -> Q) (g : Graph.t)
    (vert1_id vert2_id : nat) :
  (forall u v, (u < Graph.vertices g)%nat -> (v < Graph.vertices g)%nat ->
     0 <= vertex_distance sqrt g u v) ->
  (forall u, (u < Graph.vertices g)%nat -> vertex_distance sqrt g u u == 0) ->
  (forall u v w, (u < Graph.vertices g)%nat -> (v < Graph.vertices g)%nat ->
     (w < Graph.vertices g)%nat ->
     vertex_distance sqrt g u w <= vertex_distance sqrt g u v + vertex_distance sqrt g v w) ->
  (forall u v, edge g u v ->
     Graph.heuristic_scale g * vertex_distance sqrt g u v <= Graph.get_edge_val g u v) ->
  (vert1_id < Graph.vertices g)%nat -> (vert2_id < Graph.vertices g)%nat ->
  exists fuel0 rd ra,
    (forall fuel, (fuel0 <= fuel)%nat ->
       Graph.dijkstra fuel g vert1_id vert2_id = Returns rd
       /\ Graph.a_star sqrt fuel g vert1_id vert2_id = Returns ra)
    /\ (rd = None <-> ~ reachable g vert1_id vert2_id)
    /\ (rd = None <-> ra = None)
    /\ (forall pd dd pa da, rd = Some (pd, dd) -> ra = Some (pa, da) ->
          dd !!! vert2_id == da !!! vert2_id
          /\ shortest_distance g vert1_id vert2_id (dd !!! vert2_id)).
Proof.
  intros Hnn Hrefl Htri Hadm H1 H2.
  destruct (dijkstra_returns g vert1_id vert2_id H1 H2) as (fd & rd & Hrd & Hrund).
  destruct (a_star_returns sqrt g Hnn Hrefl Htri Hadm vert1_id vert2_id H1 H2)
    as (fa & ra & Hra & Hruna).
  exists (Nat.max fd fa), rd, ra. split; [|split; [|split]].
  - intros fuel Hle. split; [apply Hrund|apply Hruna]; lia.
  - split.
    + intros ->. exact Hrd.
    + intros Hn. destruct rd as [[pd dd]|]; [|reflexivity].
      exfalso. apply Hn. destruct Hrd as [(len & Hw & _) _]. by exists len.
  - destruct rd as [[pd dd]|], ra as [[pa da]|]; simpl in *; split; try congruence.
    + intros _. exfalso. apply Hra. destruct Hrd as [(len & Hw & _) _]. by exists len.
    + intros _. exfalso. apply Hrd. destruct Hra as [(len & Hw & _) _]. by exists len.
  - intros pd dd pa da -> ->. simpl in *. split; [|exact Hrd].
    by eapply shortest_distance_unique.
Qed.

(** A worked instance: the right triangle (0,0), (3,4), (3,0) with the two
    legs as edges of weight 3 and 4 and the hypotenuse as an edge of
    weight 8; the shortest route from vertex 0 to vertex 1 takes the legs. *)
Definition route_graph : Graph.t :=
  Graph.set_edge
    (Graph.set_edge
       (Graph.set_edge (Graph.new [Vec2D.Vec2D 0 0; Vec2D.Vec2D 3 4; Vec2D.Vec2D 3 0] 1)
                       0 2 3 true)
       2 1 4 true)
    0 1 8 true.

Lemma forall_lt_3 (P : nat -> Prop) :
  P 0%nat -> P 1%nat -> P 2%nat -> forall u, (u < 3)%nat -> P u.
Proof.
  intros P0 P1 P2 u Hu.
  destruct u as [|[|[|u]]]; [assumption|assumption|assumption|lia].
Qed.

Lemma route_graph_distance_nonneg (u v : nat) :
  (u < Graph.vertices route_graph)%nat -> (v < Graph.vertices route_graph)%nat ->
  0 <= vertex_distance Qsqrt_floor route_graph u v.
Proof. intros _ _. apply Qsqrt_floor_nonneg. Qed.

Lemma route_graph_distance_refl (u : nat) :
  (u < Graph.vertices route_graph)%nat -> vertex_distance Qsqrt_floor route_graph u u == 0.
Proof.
  revert u. change (Graph.vertices route_graph) with 3%nat.
  refine (forall_lt_3 _ _ _ _); vm_compute; reflexivity.
Qed.

Lemma route_graph_distance_triangle (u v w : nat) :
  (u < Graph.vertices route_graph)%nat -> (v < Graph.vertices route_graph)%nat ->
  (w < Graph.vertices route_graph)%nat ->
  vertex_distance Qsqrt_floor route_graph u w
  <= vertex_distance Qsqrt_floor route_graph u v + vertex_distance Qsqrt_floor route_graph v w.
Proof.
  intros Hu Hv Hw. revert u Hu v Hv w Hw. change (Graph.vertices route_graph) with 3%nat.
  refine (forall_lt_3 _ _ _ _); refine (forall_lt_3 _ _ _ _); refine (forall_lt_3 _ _ _ _);
    vm_compute; discriminate.
Qed.

Lemma route_graph_admissible (u v : nat) :
  edge route_graph u v ->
  Graph.heuristic_scale route_graph * vertex_distance Qsqrt_floor route_graph u v
  <= Graph.get_edge_val route_graph u v.
Proof.
  intros (Hu & Hv & He). revert u Hu v Hv He. change (Graph.vertices route_graph) with 3%nat.
  refine (forall_lt_3 _ _ _ _); refine (forall_lt_3 _ _ _ _); intros He;
    vm_compute in He; try discriminate He; vm_compute; discriminate.
Qed.

Lemma dijkstra_shortest_witness :
  ((0 < Graph.vertices route_graph)%nat /\ (1 < Graph.vertices route_graph)%nat)
  /\ Graph.dijkstra 10 route_graph 0 1 = Returns (Some ([0; 2; 0]%Z, [0; 7; 3]))
  /\ exists fuel0 r,
       (forall fuel, (fuel0 <= fuel)%nat -> Graph.dijkstra fuel route_graph 0 1 = Returns r)
       /\ (r = None <-> ~ reachable route_graph 0 1)
       /\ (forall prev distances, r = Some (prev, distances) ->
             shortest_distance route_graph 0 1 (distances !!! 1%nat)).
Proof.
  assert (H0 : (0 < Graph.vertices route_graph)%nat) by (vm_compute; lia).
  assert (H1 : (1 < Graph.vertices route_graph)%nat) by (vm_compute; lia).
  split; [split; assumption|]. split; [vm_compute; reflexivity|].
  exact (dijkstra_shortest route_graph 0 1 H0 H1).
Defined.

Lemma a_star_shortest_witness :
  Graph.a_star Qsqrt_floor 10 route_graph 0 1 = Returns (Some ([0; 2; 0]%Z, [0; 7; 3]))
  /\ exists fuel0 r,
       (forall fuel, (fuel0 <= fuel)%nat ->
          Graph.a_star Qsqrt_floor fuel route_graph 0 1 = Returns r)
       /\ (r = None <-> ~ reachable route_graph 0 1)
       /\ (forall prev distances, r = Some (prev, distances) ->
             shortest_distance route_graph 0 1 (distances !!! 1%nat)).
Proof.
  assert (H0 : (0 < Graph.vertices route_graph)%nat) by (vm_compute; lia).
  assert (H1 : (1 < Graph.vertices route_graph)%nat) by (vm_compute; lia).
  split; [vm_compute; reflexivity|].
  exact (a_star_shortest Qsqrt_floor route_graph 0 1 route_graph_distance_nonneg
           route_graph_distance_refl route_graph_distance_triangle route_graph_admissible
           H0 H1).
Defined.

Lemma dijkstra_a_star_same_distance_witness :
  exists fuel0 rd ra,
    (forall fuel, (fuel0 <= fuel)%nat ->
       Graph.dijkstra fuel route_graph 0 1 = Returns rd
       /\ Graph.a_star Qsqrt_floor fuel route_graph 0 1 = Returns ra)
    /\ (rd = None <-> ~ reachable route_graph 0 1)
    /\ (rd = None <-> ra = None)
    /\ (forall pd dd pa da, rd = Some (pd, dd) -> ra = Some (pa, da) ->
          dd !!! 1%nat == da !!! 1%nat
          /\ shortest_distance route_graph 0 1 (dd !!! 1%nat)).
Proof.
  assert (H0 : (0 < Graph.vertices route_graph)%nat) by (vm_compute; lia).
  assert (H1 : (1 < Graph.vertices route_graph)%nat) by (vm_compute; lia).
  exact (dijkstra_a_star_same_distance Qsqrt_floor route_graph 0 1
           route_graph_distance_nonneg route_graph_distance_refl
           route_graph_distance_triangle route_graph_admissible H0 H1).
Defined.

(** ** Dijkstra and A* in binary64 *)








(** ** Breadth-first search *)

(** The part of the queue that is still to be dequeued. *)
Definition pending (q : DynamicQueue.t) : list nat :=
  drop (DynamicQueue.back_pointer q) (DynamicQueue.queue_data q).

Lemma pending_enqueue (q : DynamicQueue.t) (x : nat) :
  (DynamicQueue.back_pointer q <= length (DynamicQueue.queue_data q))%nat ->
  pending (DynamicQueue.enqueue q x) = pending q ++ [x].
Proof. intros H. unfold pending, DynamicQueue.enqueue. simpl. by rewrite drop_app_le. Qed.

Lemma queue_empty_pending (q : DynamicQueue.t) :
  (DynamicQueue.back_pointer q <= length (DynamicQueue.queue_data q))%nat ->
  DynamicQueue.empty q = true <-> pending q = [].
Proof.
  intros H. unfold DynamicQueue.empty, pending. rewrite Z.eqb_eq. split.
  - intros E. apply drop_ge. lia.
  - intros E. apply (f_equal length) in E. rewrite length_drop in E. simpl in E. lia.
Qed.

Lemma queue_dequeue_pending (q : DynamicQueue.t) :
  (DynamicQueue.back_pointer q <= length (DynamicQueue.queue_data q))%nat ->
  DynamicQueue.empty q = false ->
  exists x q', DynamicQueue.dequeue q = Returns (x, q')
               /\ pending q = x :: pending q'
               /\ (DynamicQueue.back_pointer q' <= length (DynamicQueue.queue_data q'))%nat.
Proof.
  intros H E. unfold DynamicQueue.dequeue. rewrite E.
  eexists _, _. split; [reflexivity|].
  assert (Hlt : (DynamicQueue.back_pointer q < length (DynamicQueue.queue_data q))%nat).
  { unfold DynamicQueue.empty in E. apply Z.eqb_neq in E. lia. }
  unfold pending. simpl. split; [|lia].
  rewrite (drop_S _ (DynamicQueue.queue_data q !!! DynamicQueue.back_pointer q)).
  - by rewrite Nat.add_1_r.
  - by apply list_lookup_lookup_total_lt.
Qed.

Section BfsProof.

Variable g : Graph.t.
Variables vert1_id vert2_id : nat.
Hypothesis source_lt : (vert1_id < Graph.vertices g)%nat.

Definition discovered (distances : list Z) (v : nat) : Prop := distances !!! v <> (-1)%Z.

(** A vertex the search has reached: the source, or a vertex that was given
    a distance. *)
Definition reached (distances : list Z) (v : nat) : Prop :=
  v = vert1_id \/ discovered distances v.

Definition undiscovered_count (distances : list Z) : nat :=
  sum_list_with (fun z => if (z =? -1)%Z then 1%nat else 0%nat) distances.

Definition bfs_measure (st : Graph.bfs_state) : nat :=
  (2 * undiscovered_count st.1.2 + length (pending st.2))%nat.

(** The invariant of [bfs] while [cur] is expanded and the neighbours below
    [k] have been looked at. *)
Definition bfs_inv (cur k : nat) (st : Graph.bfs_state) : Prop :=
  let '(prev, distances, to_visit) := st in
  length prev = Graph.vertices g
  /\ length distances = Graph.vertices g
  /\ (DynamicQueue.back_pointer to_visit <= length (DynamicQueue.queue_data to_visit))%nat
  /\ (forall v, (v < Graph.vertices g)%nat -> (-1 <= distances !!! v)%Z)
  /\ (forall x, x ∈ pending to_visit -> (x < Graph.vertices g)%nat /\ reached distances x)
  /\ (forall v, (v < Graph.vertices g)%nat -> discovered distances v ->
        exists j, hops g vert1_id v (S j))
  /\ (forall u v, edge g u v -> reached distances u ->
        u ∈ pending to_visit \/ (u = cur /\ (k <= v)%nat) \/ discovered distances v)
  /\ ((vert2_id < Graph.vertices g)%nat -> ~ discovered distances vert2_id).

(** What a returned pair tells: the target was discovered from its
    predecessor, a reached vertex with an edge to the target. *)
Definition bfs_found (r : list Z * list Z) : Prop :=
  (vert2_id < Graph.vertices g)%nat
  /\ discovered r.2 vert2_id
  /\ exists u, r.1 !!! vert2_id = Z.of_nat u /\ edge g u vert2_id
               /\ exists j, hops g vert1_id u j.

Definition bfs_result_ok (r : option (list Z * list Z)) : Prop :=
  match r with
  | Some found => bfs_found found
  | None => forall j, ~ hops g vert1_id vert2_id (S j)
  end.

Lemma reached_hops (distances : list Z) (v : nat) :
  (forall v, (v < Graph.vertices g)%nat -> discovered distances v ->
     exists j, hops g vert1_id v (S j)) ->
  (v < Graph.vertices g)%nat -> reached distances v -> exists j, hops g vert1_id v j.
Proof.
  intros H Hv [->|Hd].
  - exists 0%nat. by apply hops_refl.
  - destruct (H v Hv Hd) as [j Hj]. by exists (S j).
Qed.

(** The expansion of [cur] from the neighbour [k] on: it either returns
    with the target found, or ends in a state of the loop whose measure has
    not grown. *)
Lemma bfs_for_ok (m k cur : nat) (st : Graph.bfs_state) :
  (k + m <= Graph.vertices g)%nat -> (cur < Graph.vertices g)%nat ->
  reached st.1.2 cur -> bfs_inv cur k st ->
  match Graph.bfs_for g vert2_id cur (seq k m) st with
  | Return r => bfs_found r
  | Continue st' =>
      bfs_inv cur (k + m) st' /\ (bfs_measure st' <= bfs_measure st)%nat
  end.
Proof.
  revert k st. induction m as [|m IH]; intros k [[prev distances] q] Hkm Hcur Hreach Hinv.
  - simpl. split; [|lia]. rewrite Nat.add_0_r. exact Hinv.
  - replace (k + S m)%nat with (S k + m)%nat by lia. cbn [seq Graph.bfs_for].
    destruct Hinv as (Hlp & Hld & Hback & Hge & Hpend & Hhops & Hclosed & Htarget).
    assert (Hskip : discovered distances k \/ Graph.get_edge g cur k = false ->
              bfs_inv cur (S k) (prev, distances, q)).
    { intros Hor. repeat split; auto.
      - apply Hpend. assumption.
      - apply Hpend. assumption.
      - intros u v He Hu. destruct (Hclosed u v He Hu) as [Hin|[[-> Hkv]|Hd]]; auto.
        destruct (decide (v = k)) as [->|Hne]; [|right; left; split; [reflexivity|lia]].
        destruct Hor as [Hd|Hne]; [by right; right|].
        destruct He as (_ & _ & He). congruence. }
    destruct ((distances !!! k =? -1)%Z && Graph.get_edge g cur k) eqn:Etest.
    + apply andb_true_iff in Etest as [Ek Hedge]. apply Z.eqb_eq in Ek.
      set (distances' := <[k := (distances !!! cur + 1)%Z]> distances).
      set (prev' := <[k := Z.of_nat cur]> prev).
      assert (Hlook : forall v, distances' !!! v
                = if decide (v = k) then (distances !!! cur + 1)%Z else distances !!! v).
      { intros v. apply lookup_total_insert_Z. lia. }
      assert (Hdk : discovered distances' k).
      { unfold discovered. rewrite Hlook, decide_True by reflexivity.
        specialize (Hge cur Hcur). lia. }
      assert (Hmono : forall v, discovered distances v -> discovered distances' v).
      { intros v Hv. destruct (decide (v = k)) as [->|Hne]; [exact Hdk|].
        unfold discovered. rewrite Hlook, decide_False by exact Hne. exact Hv. }
      assert (Hrmono : forall v, reached distances v -> reached distances' v).
      { intros v [->|Hv]; [by left|right; by apply Hmono]. }
      assert (Hhk : exists j, hops g vert1_id k (S j)).
      { destruct (reached_hops distances cur Hhops Hcur Hreach) as [j Hj].
        exists j. eapply hops_snoc; [exact Hj|]. repeat split; auto. lia. }
      destruct (k =? vert2_id)%nat eqn:Ekt.
      * apply Nat.eqb_eq in Ekt. unfold bfs_found. rewrite <- Ekt.
        split; [lia|]. split; [exact Hdk|].
        exists cur. simpl. split.
        -- unfold prev'. rewrite lookup_total_insert_Z by lia. by rewrite decide_True.
        -- split; [repeat split; auto; lia|].
           by apply (reached_hops distances cur Hhops Hcur Hreach).
      * apply Nat.eqb_neq in Ekt.
        assert (Hinv' : bfs_inv cur (S k) (prev', distances', DynamicQueue.enqueue q k)).
        { split; [unfold prev'; by rewrite length_insert|].
          split; [unfold distances'; by rewrite length_insert|].
          split; [simpl; rewrite length_app; simpl; lia|].
          split.
          { intros v Hv. rewrite Hlook. destruct (decide (v = k)); [|by apply Hge].
            specialize (Hge cur Hcur). lia. }
          split.
          { intros x Hx. rewrite pending_enqueue in Hx by exact Hback.
            apply elem_of_app in Hx as [Hx|Hx].
            - destruct (Hpend x Hx) as [Hx1 Hx2]. split; [exact Hx1|by apply Hrmono].
            - apply list_elem_of_singleton in Hx as ->. split; [lia|by right]. }
          split.
          { intros v Hv Hd. destruct (decide (v = k)) as [->|Hne]; [exact Hhk|].
            apply Hhops; [exact Hv|]. unfold discovered in *.
            by rewrite Hlook, decide_False in Hd. }
          split.
          { intros u v He Hu. rewrite pending_enqueue by exact Hback.
            destruct (decide (u = k)) as [->|Huk].
            { left. apply elem_of_app. right. by apply list_elem_of_singleton. }
            assert (Hu' : reached distances u).
            { destruct Hu as [->|Hu]; [by left|right].
              unfold discovered in *. by rewrite Hlook, decide_False in Hu. }
            destruct (Hclosed u v He Hu') as [Hin|[[-> Hkv]|Hd]].
            - left. apply elem_of_app. by left.
            - destruct (decide (v = k)) as [->|Hne]; [by right; right|].
              right. left. split; [reflexivity|lia].
            - right. right. by apply Hmono. }
          intros Ht Hd. apply (Htarget Ht). unfold discovered in *.
          by rewrite Hlook, decide_False in Hd. }
        assert (Hreach' : reached distances' cur) by (by apply Hrmono).
        specialize (IH (S k) (prev', distances', DynamicQueue.enqueue q k)
                       ltac:(lia) Hcur Hreach' Hinv').
        destruct (Graph.bfs_for g vert2_id cur (seq (S k) m)
                    (prev', distances', DynamicQueue.enqueue q k)) as [r|st'];
          [exact IH|].
        destruct IH as [Hi Hm]. split; [exact Hi|].
        assert (Hk' : distances !! k = Some (distances !!! k)).
        { apply list_lookup_lookup_total_lt. lia. }
        pose proof (sum_list_with_insert
          (fun z => if (z =? -1)%Z then 1%nat else 0%nat) distances k _
          (distances !!! cur + 1)%Z Hk') as Hsum.
        cbv beta in Hsum. rewrite Ek in Hsum. cbn [Z.eqb] in Hsum.
        assert (Enew : ((distances !!! cur + 1 =? -1)%Z = false)).
        { apply Z.eqb_neq. specialize (Hge cur Hcur). lia. }
        rewrite Enew in Hsum.
        unfold bfs_measure, undiscovered_count in *. cbn [fst snd] in *.
        rewrite pending_enqueue in Hm by exact Hback. rewrite length_app in Hm.
        simpl in Hm. fold distances' in Hsum.
        change ((1 =? 1)%positive) with true in Hsum. cbv iota in Hsum. lia.
    + apply (IH (S k) (prev, distances, q)); auto; [lia|].
      apply Hskip. apply andb_false_iff in Etest as [Ek|He]; [|by right].
      left. apply Z.eqb_neq in Ek. exact Ek.
Qed.

(** Every vertex a path from the source leads to is reached, once every
    edge out of a reached vertex outside the queue leads to a discovered
    vertex. *)
Lemma hops_reached (distances : list Z) (to_visit : list nat) (v j : nat) :
  (forall u v, edge g u v -> reached distances u ->
     u ∈ to_visit \/ discovered distances v) ->
  to_visit = [] -> hops g vert1_id v j -> reached distances v.
Proof.
  intros Hclosed -> Hh. remember vert1_id as a eqn:Ea.
  induction Hh as [u Hu|u v w k Hh IH He]; [by left|].
  right. destruct (Hclosed v w He (IH Ea source_lt)) as [Hin|Hd]; [|exact Hd].
  by apply elem_of_nil in Hin.
Qed.

(** Once a vertex is expanded, every edge out of a reached vertex that is
    not in the queue leads to a discovered vertex. *)
Lemma bfs_inv_closed (cur : nat) (st : Graph.bfs_state) :
  bfs_inv cur (Graph.vertices g) st ->
  forall u v, edge g u v -> reached st.1.2 u ->
    u ∈ pending st.2 \/ discovered st.1.2 v.
Proof.
  destruct st as [[prev distances] q].
  intros (_ & _ & _ & _ & _ & _ & Hclosed & _) u v He Hu.
  destruct (Hclosed u v He Hu) as [Hin|[[_ Hn]|Hd]]; auto.
  destruct He as (_ & Hv & _). lia.
Qed.

(** Taking the next vertex from the queue starts its expansion. *)
Lemma bfs_inv_dequeue (cur x : nat) (prev distances : list Z) (q q' : DynamicQueue.t) :
  bfs_inv cur (Graph.vertices g) (prev, distances, q) ->
  pending q = x :: pending q' ->
  (DynamicQueue.back_pointer q' <= length (DynamicQueue.queue_data q'))%nat ->
  bfs_inv x 0 (prev, distances, q')
  /\ (x < Graph.vertices g)%nat /\ reached distances x.
Proof.
  intros Hinv Epend Hback'.
  pose proof (bfs_inv_closed cur _ Hinv) as Hclosed'. cbn [fst snd] in Hclosed'.
  destruct Hinv as (Hlp & Hld & Hback & Hge & Hpend & Hhops & Hclosed & Htarget).
  split; [|apply Hpend; rewrite Epend; by left].
  repeat split; auto.
  - apply Hpend. rewrite Epend. by right.
  - apply Hpend. rewrite Epend. by right.
  - intros u v He Hu. destruct (Hclosed' u v He Hu) as [Hin|Hd]; [|by right; right].
    rewrite Epend in Hin. apply elem_of_cons in Hin as [->|Hin]; [|by left].
    right. left. split; [reflexivity|lia].
Qed.

(** The loop of [bfs] returns from every state that satisfies the invariant,
    with fuel above the measure, and its result is right. *)
Lemma bfs_while_ok (b : nat) :
  forall (cur : nat) (st : Graph.bfs_state),
    bfs_inv cur (Graph.vertices g) st -> (bfs_measure st < b)%nat ->
    exists r, bfs_result_ok r
              /\ forall fuel, (b <= fuel)%nat -> Graph.bfs_while fuel g vert2_id st = Returns r.
Proof.
  induction b as [|b IH]; intros cur [[prev distances] q] Hinv Hb; [lia|].
  pose proof Hinv as (Hlp & Hld & Hback & Hge & Hpend & Hhops & Hclosed & Htarget).
  pose proof (bfs_inv_closed cur _ Hinv) as Hclosed'. cbn [fst snd] in Hclosed'.
  destruct (DynamicQueue.empty q) eqn:Eempty.
  - exists None. split.
    + intros j Hh. inversion Hh as [|u v w k Hh' He]; subst.
      apply queue_empty_pending in Eempty; [|exact Hback].
      pose proof (hops_reached distances (pending q) v j Hclosed' Eempty Hh') as Hv.
      destruct (Hclosed' v vert2_id He Hv) as [Hin|Hd].
      * rewrite Eempty in Hin. by apply elem_of_nil in Hin.
      * destruct He as (_ & Ht & _). by apply (Htarget Ht).
    + intros [|fuel] Hf; [lia|]. cbn [Graph.bfs_while]. by rewrite Eempty.
  - destruct (queue_dequeue_pending q Hback Eempty) as (x & q' & Edeq & Epend & Hback').
    destruct (bfs_inv_dequeue cur x prev distances q q' Hinv Epend Hback')
      as (Hinv0 & Hx & Hrx).
    pose proof (bfs_for_ok (Graph.vertices g) 0 x (prev, distances, q')
                  ltac:(lia) Hx Hrx Hinv0) as Hfor.
    assert (Hm : (bfs_measure (prev, distances, q') < b)%nat).
    { unfold bfs_measure in *. cbn [fst snd] in *. rewrite Epend in Hb. simpl in Hb. lia. }
    destruct (Graph.bfs_for g vert2_id x (seq 0 (Graph.vertices g)) (prev, distances, q'))
      as [r|st'] eqn:Efor.
    + exists (Some r). split; [exact Hfor|].
      intros [|fuel] Hf; [lia|]. cbn [Graph.bfs_while]. rewrite Eempty, Edeq.
      unfold range. cbn [mbind outcome_bind]. by rewrite Efor.
    + destruct Hfor as [Hinv' Hm'].
      destruct (IH x st' Hinv' ltac:(lia)) as (r & Hr & Hrun).
      exists r. split; [exact Hr|].
      intros [|fuel] Hf; [lia|]. cbn [Graph.bfs_while]. rewrite Eempty, Edeq.
      unfold range. cbn [mbind outcome_bind]. rewrite Efor. apply Hrun. lia.
Qed.

Lemma undiscovered_count_replicate (n : nat) :
  undiscovered_count (replicate n (-1)%Z) = n.
Proof. induction n as [|n IH]; [reflexivity|]. unfold undiscovered_count in *. simpl. lia. Qed.

Lemma bfs_inv_initial :
  bfs_inv 0 (Graph.vertices g)
    (replicate (Graph.vertices g) (-1)%Z, replicate (Graph.vertices g) (-1)%Z,
     DynamicQueue.enqueue DynamicQueue.new vert1_id).
Proof.
  set (n := Graph.vertices g).
  { assert (Hnone : forall v, (v < n)%nat -> ~ discovered (replicate n (-1)%Z) v).
    { intros v Hv Hd. apply Hd. by rewrite lookup_total_replicate_2. }
    split; [by rewrite length_replicate|]. split; [by rewrite length_replicate|].
    split; [simpl; lia|].
    split; [intros v Hv; rewrite lookup_total_replicate_2 by exact Hv; lia|].
    split.
    { intros x Hx. change (x ∈ [vert1_id]) in Hx. apply list_elem_of_singleton in Hx as ->.
      split; [exact source_lt|by left]. }
    split; [intros v Hv Hd; by destruct (Hnone v Hv)|].
    split.
    { intros u v He [->|Hd]; [left; change (vert1_id ∈ [vert1_id]); by left|].
      destruct He as (Hu & _ & _). by destruct (Hnone u Hu). }
    intros Ht. by apply Hnone. }
Qed.

Lemma bfs_returns :
  exists r, bfs_result_ok r
            /\ forall fuel, (2 * Graph.vertices g + 2 <= fuel)%nat ->
                 Graph.bfs fuel g vert1_id vert2_id = Returns r.
Proof.
  set (n := Graph.vertices g).
  destruct (bfs_while_ok (2 * n + 2) 0 _ bfs_inv_initial) as (r & Hr & Hrun).
  { unfold bfs_measure. cbn [fst snd]. rewrite undiscovered_count_replicate.
    change (pending (DynamicQueue.enqueue DynamicQueue.new vert1_id)) with [vert1_id].
    simpl. lia. }
  exists r. split; [exact Hr|]. intros fuel Hf. unfold Graph.bfs.
  fold n. replace (n <=? vert1_id)%nat with false; [by apply Hrun|].
  symmetry. apply Nat.leb_gt. exact source_lt.
Qed.
End BfsProof.

(** [bfs] from a vertex of the graph returns within [2 * vertices + 2]
    rounds of its loop.  It returns [None] exactly when no path of one edge
    or more leads from the source to the target; otherwise the target is in
    the graph and its entry of [prev] is a vertex that a path from the source
    leads to and that has an edge to the target. *)
Theorem bfs_finds_target (g : Graph.t) (vert1_id vert2_id : nat) :
  (vert1_id < Graph.vertices g)%nat ->
  exists r,
    (forall fuel, (2 * Graph.vertices g + 2 <= fuel)%nat ->
       Graph.bfs fuel g vert1_id vert2_id = Returns r)
    /\ (r = None <-> forall j, ~ hops g vert1_id vert2_id (S j))
    /\ (forall prev distances, r = Some (prev, distances) ->
          (vert2_id < Graph.vertices g)%nat
          /\ distances !!! vert2_id <> (-1)%Z
          /\ exists u, prev !!! vert2_id = Z.of_nat u /\ edge g u vert2_id
                       /\ exists j, hops g vert1_id u j).
Proof.
  intros Hs. destruct (bfs_returns g vert1_id vert2_id Hs) as (r & Hr & Hrun).
  exists r. split; [exact Hrun|]. split.
  - split.
    + intros ->. exact Hr.
    + intros Hno. destruct r as [[prev distances]|]; [|reflexivity].
      destruct Hr as (_ & _ & u & _ & He & j & Hj).
      destruct (Hno j). by eapply hops_snoc.
  - intros prev distances ->. exact Hr.
Qed.

Lemma bfs_finds_target_witness :
  exists r,
    (forall fuel, (2 * Graph.vertices route_graph + 2 <= fuel)%nat ->
       Graph.bfs fuel route_graph 0 1 = Returns r)
    /\ (r = None <-> forall j, ~ hops route_graph 0 1 (S j))
    /\ (forall prev distances, r = Some (prev, distances) ->
          (1 < Graph.vertices route_graph)%nat
          /\ distances !!! 1%nat <> (-1)%Z
          /\ exists u, prev !!! 1%nat = Z.of_nat u /\ edge route_graph u 1
                       /\ exists j, hops route_graph 0 u j).
Proof. apply (bfs_finds_target route_graph 0 1). vm_compute. lia. Defined.

(** ** Greedy best-first search *)

(** [tree_path g s prev distances v]: following [prev] back from [v] leads
    to the source [s] along edges of the graph, and [distances] adds up the
    weights of these edges. *)
Inductive tree_path (g : Graph.t) (s : nat) (prev : list Z) (distances : list Q)
  : nat -> Prop :=
| tree_path_source :
    (s < Graph.vertices g)%nat -> distances !!! s = 0 -> tree_path g s prev distances s
| tree_path_step u v :
    tree_path g s prev distances u -> edge g u v ->
    prev !!! v = Z.of_nat u ->
    distances !!! v = distances !!! u + Graph.get_edge_val g u v ->
    tree_path g s prev distances v.

Lemma tree_path_walk (g : Graph.t) (s : nat) (prev : list Z) (distances : list Q) (v : nat) :
  tree_path g s prev distances v -> walk g s v (distances !!! v).
Proof.
  induction 1 as [Hs E|u v Hp IH He Eprev E].
  - rewrite E. by apply walk_refl.
  - rewrite E. by apply walk_snoc.
Qed.

Lemma tree_path_set (g : Graph.t) (s : nat) (prev : list Z) (distances : list Q) (v : nat) :
  tree_path g s prev distances v -> is_set distances v.
Proof.
  intros Hp. apply tree_path_walk, walk_nonneg in Hp. unfold is_set. lra.
Qed.

(** Giving an unset vertex its entries leaves the paths of the tree as they
    are. *)
Lemma tree_path_insert (g : Graph.t) (s : nat) (prev : list Z) (distances : list Q)
    (k v : nat) (p : Z) (d : Q) :
  ~ is_set distances k -> tree_path g s prev distances v ->
  tree_path g s (<[k := p]> prev) (<[k := d]> distances) v.
Proof.
  intros Hk. induction 1 as [Hs E|u v Hp IH He Eprev E].
  - apply tree_path_source; [exact Hs|].
    rewrite list_lookup_total_insert_ne; [exact E|].
    intros ->. apply Hk. unfold is_set. rewrite E. lra.
  - assert (Hu : u <> k).
    { intros ->. by apply Hk, (tree_path_set g s prev). }
    assert (Hv : v <> k).
    { intros ->. apply Hk, (tree_path_set g s prev). by eapply tree_path_step. }
    eapply tree_path_step; [exact IH|exact He| |].
    + by rewrite list_lookup_total_insert_ne.
    + by rewrite !list_lookup_total_insert_ne.
Qed.

Section GreedyProof.
Import DynamicBinaryHeap HeapProofs.

Variable sqrt : Q -> Q.
Variable g : Graph.t.
Variables vert1_id vert2_id : nat.
Hypothesis source_lt : (vert1_id < Graph.vertices g)%nat.
Hypothesis target_lt : (vert2_id < Graph.vertices g)%nat.

Definition greedy_measure (st : Graph.search_state) : nat :=
  (2 * unset_count st.1.2 + length (DynamicPriorityQueue.heap st.2))%nat.

(** The invariant of [greedy] while [cur] is expanded and the neighbours
    below [k] have been looked at. *)
Definition greedy_inv (cur k : nat) (st : Graph.search_state) : Prop :=
  let '(prev, distances, to_visit) := st in
  let h := DynamicPriorityQueue.heap to_visit in
  length prev = Graph.vertices g
  /\ length distances = Graph.vertices g
  /\ heap_ordered h /\ NoDup (map item h)
  /\ (forall e, e ∈ h -> (item e < Graph.vertices g)%nat /\ is_set distances (item e))
  /\ (forall v, (v < Graph.vertices g)%nat -> is_set distances v ->
        tree_path g vert1_id prev distances v)
  /\ (forall u v, edge g u v -> is_set distances u ->
        u ∈ map item h \/ (u = cur /\ (k <= v)%nat) \/ is_set distances v)
  /\ is_set distances vert1_id
  /\ (vert1_id <> vert2_id -> ~ is_set distances vert2_id).

Definition greedy_found (r : list Z * list Q) : Prop :=
  vert1_id <> vert2_id /\ length r.1 = Graph.vertices g
  /\ tree_path g vert1_id r.1 r.2 vert2_id.

Definition greedy_result_ok (r : option (list Z * list Q)) : Prop :=
  match r with
  | Some found => greedy_found found
  | None => vert1_id = vert2_id \/ ~ reachable g vert1_id vert2_id
  end.

Lemma greedy_for_ok (m k cur : nat) (st : Graph.search_state) :
  (k + m = Graph.vertices g)%nat -> (cur < Graph.vertices g)%nat ->
  is_set st.1.2 cur -> greedy_inv cur k st ->
  match Graph.greedy_for sqrt g vert2_id cur (seq k m) st with
  | Return r => greedy_found r
  | Continue st' =>
      greedy_inv cur (Graph.vertices g) st' /\ (greedy_measure st' <= greedy_measure st)%nat
  end.
Proof.
  revert k st. induction m as [|m IH]; intros k [[prev distances] [h]] Hkm Hcur Hreach Hinv.
  - simpl. split; [|lia]. rewrite Nat.add_0_r in Hkm. subst k. exact Hinv.
  - cbn [seq Graph.greedy_for].
    destruct Hinv as (Hlp & Hld & Ho & Hnd & Hent & Htree & Hclosed & Hsrc & Htarget).
    cbn [DynamicPriorityQueue.heap] in *. cbn [fst snd] in Hreach.
    assert (Hskip : is_set distances k \/ Graph.get_edge g cur k = false ->
              greedy_inv cur (S k) (prev, distances, DynamicPriorityQueue.PQ h)).
    { intros Hor. split; [exact Hlp|]. split; [exact Hld|]. split; [exact Ho|].
      split; [exact Hnd|]. split; [exact Hent|]. split; [exact Htree|].
      split; [|split; assumption].
      intros u v He Hu. destruct (Hclosed u v He Hu) as [Hin|[[-> Hkv]|Hd]]; auto.
      destruct (decide (v = k)) as [->|Hne]; [|right; left; split; [reflexivity|lia]].
      destruct Hor as [Hd|Hne]; [by right; right|].
      destruct He as (_ & _ & He). congruence. }
    destruct (Graph.get_edge g cur k && Qeqb (distances !!! k) (-1)) eqn:Etest.
    + apply andb_true_iff in Etest as [Hedge Ek].
      assert (Hunset : ~ is_set distances k).
      { intros Hs. apply Qeqb_unset in Hs. congruence. }
      assert (Hk : (k < Graph.vertices g)%nat) by lia.
      assert (Hkcur : k <> cur) by (intros ->; contradiction).
      set (d := distances !!! cur + Graph.get_edge_val g cur k).
      set (distances' := <[k := d]> distances).
      set (prev' := <[k := Z.of_nat cur]> prev).
      set (h' := insert_item h k (Graph.heuristic sqrt g k vert2_id)).
      assert (Hlook : forall v, distances' !!! v
                = if decide (v = k) then d else distances !!! v).
      { intros v. apply lookup_total_insert_Q. lia. }
      assert (Hother : forall v, v <> k -> distances' !!! v = distances !!! v).
      { intros v Hv. by rewrite Hlook, decide_False. }
      assert (Hcurpath : tree_path g vert1_id prev' distances' cur).
      { apply tree_path_insert; [exact Hunset|]. by apply Htree. }
      assert (Hkpath : tree_path g vert1_id prev' distances' k).
      { eapply tree_path_step; [exact Hcurpath|by repeat split| |].
        - unfold prev'. rewrite lookup_total_insert_Z by lia. by rewrite decide_True.
        - rewrite (Hother cur) by auto. rewrite Hlook. by rewrite decide_True. }
      assert (Hdk : is_set distances' k) by (by apply (tree_path_set g vert1_id prev')).
      assert (Hmono : forall v, is_set distances v -> is_set distances' v).
      { intros v Hv. destruct (decide (v = k)) as [->|Hne]; [exact Hdk|].
        unfold is_set. by rewrite Hother. }
      assert (Hback : forall v, v <> k -> is_set distances' v -> is_set distances v).
      { intros v Hne Hv. unfold is_set in *. by rewrite Hother in Hv. }
      destruct (k =? vert2_id)%nat eqn:Ekt.
      * apply Nat.eqb_eq in Ekt. split; [|split].
        -- intros E. apply Hunset. rewrite Ekt, <- E. exact Hsrc.
        -- cbn [fst]. unfold prev'. by rewrite length_insert.
        -- cbn [fst snd]. rewrite <- Ekt. exact Hkpath.
      * apply Nat.eqb_neq in Ekt.
        assert (Hnotin : k ∉ map item h).
        { intros Hin. apply list_elem_of_fmap in Hin as (e & -> & He).
          by apply Hunset, Hent. }
        destruct (insert_item_entries h k (Graph.heuristic sqrt g k vert2_id) Ho Hnd Hnotin)
          as (Ho' & Hnd' & Hmem & Hlen). fold h' in Ho', Hnd', Hmem, Hlen.
        assert (Hinv' : greedy_inv cur (S k) (prev', distances', DynamicPriorityQueue.PQ h')).
        { split; [unfold prev'; by rewrite length_insert|].
          split; [unfold distances'; by rewrite length_insert|].
          cbn [DynamicPriorityQueue.heap].
          split; [exact Ho'|]. split; [exact Hnd'|].
          split.
          { intros e He. apply Hmem in He as [->|He]; [split; [exact Hk|exact Hdk]|].
            destruct (Hent e He) as [H1 H2]. split; [exact H1|by apply Hmono]. }
          split.
          { intros v Hv Hd. destruct (decide (v = k)) as [->|Hne]; [exact Hkpath|].
            apply tree_path_insert; [exact Hunset|]. apply Htree; [exact Hv|].
            by apply Hback. }
          split.
          { intros u v He Hu.
            destruct (decide (u = k)) as [->|Huk].
            { left. apply list_elem_of_fmap. exists (mkHeapItem k (Graph.heuristic sqrt g k vert2_id)).
              split; [reflexivity|]. apply Hmem. by left. }
            destruct (Hclosed u v He (Hback u Huk Hu)) as [Hin|[[-> Hkv]|Hd]].
            - left. apply list_elem_of_fmap in Hin as (e & -> & Hin).
              apply list_elem_of_fmap. exists e. split; [reflexivity|]. apply Hmem. by right.
            - destruct (decide (v = k)) as [->|Hne]; [by right; right|].
              right. left. split; [reflexivity|lia].
            - right. right. by apply Hmono. }
          split; [by apply Hmono|].
          intros Hne Hd. apply (Htarget Hne). apply Hback; [congruence|exact Hd]. }
        assert (Hreach' : is_set distances' cur) by (by apply Hmono).
        specialize (IH (S k) (prev', distances', DynamicPriorityQueue.PQ h')
                       ltac:(lia) Hcur Hreach' Hinv').
        unfold DynamicPriorityQueue.enqueue. cbn [DynamicPriorityQueue.heap].
        fold d. fold distances'. fold prev'. fold h'.
        destruct (Graph.greedy_for sqrt g vert2_id cur (seq (S k) m)
                    (prev', distances', DynamicPriorityQueue.PQ h')) as [r|st'];
          [exact IH|].
        destruct IH as [Hi Hm]. split; [exact Hi|].
        assert (Hk' : distances !! k = Some (distances !!! k)).
        { apply list_lookup_lookup_total_lt. lia. }
        pose proof (sum_list_with_insert
          (fun q => if Qeqb q (-1) then 1%nat else 0%nat) distances k _ d Hk') as Hsum.
        cbv beta in Hsum. rewrite Ek in Hsum.
        assert (Enew : Qeqb d (-1) = false).
        { apply Qeqb_neq. intros E. apply Hdk. unfold is_set.
          rewrite Hlook, decide_True by reflexivity. exact E. }
        rewrite Enew in Hsum.
        unfold greedy_measure, unset_count in *. cbn [fst snd DynamicPriorityQueue.heap] in *.
        fold distances' in Hsum. lia.
    + apply (IH (S k) (prev, distances, DynamicPriorityQueue.PQ h)); auto; [lia|].
      apply Hskip. apply andb_false_iff in Etest as [He|Ek]; [by right|].
      left. by apply Qeqb_unset.
Qed.

(** Every vertex a walk from the source leads to has a distance, once every
    edge out of a set vertex leads to a set vertex. *)
Lemma walk_set (distances : list Q) (v : nat) (len : Q) :
  is_set distances vert1_id ->
  (forall u v, edge g u v -> is_set distances u -> is_set distances v) ->
  walk g vert1_id v len -> is_set distances v.
Proof.
  intros Hsrc Hclosed Hw. remember vert1_id as a eqn:Ea.
  induction Hw as [u Hu|u v w len Hw IH He]; [exact Hsrc|].
  apply (Hclosed v w He). by apply IH.
Qed.

Lemma greedy_while_ok (b : nat) :
  forall (cur : nat) (st : Graph.search_state),
    greedy_inv cur (Graph.vertices g) st -> (greedy_measure st < b)%nat ->
    exists r, greedy_result_ok r
              /\ forall fuel, (b <= fuel)%nat ->
                   Graph.greedy_while sqrt fuel g vert2_id st = Returns r.
Proof.
  induction b as [|b IH]; intros cur [[prev distances] [h]] Hinv Hb; [lia|].
  pose proof Hinv as (Hlp & Hld & Ho & Hnd & Hent & Htree & Hclosed & Hsrc & Htarget).
  cbn [DynamicPriorityQueue.heap] in *.
  assert (Hclosed' : forall u v, edge g u v -> is_set distances u ->
            u ∈ map item h \/ is_set distances v).
  { intros u v He Hu. destruct (Hclosed u v He Hu) as [Hin|[[_ Hn]|Hd]]; auto.
    destruct He as (_ & Hv & _). lia. }
  destruct (decide (h = [])) as [->|Hne].
  - exists None. split.
    + destruct (decide (vert1_id = vert2_id)) as [E|E]; [by left|right].
      intros [len Hw]. apply (Htarget E). apply (walk_set distances _ len Hsrc); [|exact Hw].
      intros u v He Hu. destruct (Hclosed' u v He Hu) as [Hin|Hd]; [|exact Hd].
      simpl in Hin. by apply elem_of_nil in Hin.
    + intros [|fuel] Hf; [lia|]. reflexivity.
  - destruct (dequeue_entries h Ho Hnd Hne)
      as (root & h' & Edeq & Ho' & Hnd' & Hmem & Hnotin & _ & Hlenh).
    assert (Hroot : (item root < Graph.vertices g)%nat /\ is_set distances (item root)).
    { apply Hent, Hmem. by left. }
    destruct Hroot as [Hx Hrx].
    assert (Hinv0 : greedy_inv (item root) 0 (prev, distances, DynamicPriorityQueue.PQ h')).
    { split; [exact Hlp|]. split; [exact Hld|]. cbn [DynamicPriorityQueue.heap].
      split; [exact Ho'|]. split; [exact Hnd'|].
      split; [intros e He; apply Hent, Hmem; by right|].
      split; [exact Htree|]. split; [|split; assumption].
      intros u v He Hu. destruct (Hclosed' u v He Hu) as [Hin|Hd]; [|by right; right].
      apply list_elem_of_fmap in Hin as (e & -> & Hin).
      apply Hmem in Hin as [->|Hin]; [right; left; split; [reflexivity|lia]|].
      left. apply list_elem_of_fmap. by exists e. }
    pose proof (greedy_for_ok (Graph.vertices g) 0 (item root)
                  (prev, distances, DynamicPriorityQueue.PQ h')
                  ltac:(lia) Hx Hrx Hinv0) as Hfor.
    assert (Hm : (greedy_measure (prev, distances, DynamicPriorityQueue.PQ h') < b)%nat).
    { unfold greedy_measure in *. cbn [fst snd DynamicPriorityQueue.heap] in *. lia. }
    assert (Eempty : DynamicPriorityQueue.empty (DynamicPriorityQueue.PQ h) = false).
    { unfold DynamicPriorityQueue.empty. cbn [DynamicPriorityQueue.heap].
      apply Nat.eqb_neq. lia. }
    destruct (Graph.greedy_for sqrt g vert2_id (item root) (seq 0 (Graph.vertices g))
                (prev, distances, DynamicPriorityQueue.PQ h')) as [r|st'] eqn:Efor.
    + exists (Some r). split; [exact Hfor|].
      intros [|fuel] Hf; [lia|]. cbn [Graph.greedy_while]. rewrite Eempty, Edeq.
      unfold range. cbn [mbind outcome_bind]. by rewrite Efor.
    + destruct Hfor as [Hinv' Hm'].
      destruct (IH (item root) st' Hinv' ltac:(lia)) as (r & Hr & Hrun).
      exists r. split; [exact Hr|].
      intros [|fuel] Hf; [lia|]. cbn [Graph.greedy_while]. rewrite Eempty, Edeq.
      unfold range. cbn [mbind outcome_bind]. rewrite Efor. apply Hrun. lia.
Qed.
End GreedyProof.

Lemma unset_count_source (n s : nat) :
  (s < n)%nat -> (unset_count (<[s := 0%Q]> (replicate n (-1)%Q)) + 1 = n)%nat.
Proof.
  intros Hs.
  pose proof (sum_list_with_insert (fun q => if Qeqb q (-1) then 1%nat else 0%nat)
                (replicate n (-1)) s (-1) 0 (lookup_replicate_2 n (-1) s Hs)) as H.
  cbv beta in H.
  change (if Qeqb (-1) (-1) then 1%nat else 0%nat) with 1%nat in H.
  change (if Qeqb 0 (-1) then 1%nat else 0%nat) with 0%nat in H.
  assert (Hall : sum_list_with (fun q => if Qeqb q (-1) then 1%nat else 0%nat)
                   (replicate n (-1)) = n).
  { clear. induction n as [|n IH]; [reflexivity|].
    cbn [replicate sum_list_with]. rewrite IH. reflexivity. }
  unfold unset_count. lia.
Qed.

Lemma greedy_returns (sqrt : Q -> Q) (g : Graph.t) (vert1_id vert2_id : nat) :
  (vert1_id < Graph.vertices g)%nat -> (vert2_id < Graph.vertices g)%nat ->
  exists r, greedy_result_ok g vert1_id vert2_id r
            /\ forall fuel, (2 * Graph.vertices g <= fuel)%nat ->
                 Graph.greedy sqrt fuel g vert1_id vert2_id = Returns r.
Proof.
  intros Hs Ht. set (n := Graph.vertices g).
  set (p := Graph.heuristic sqrt g vert1_id vert2_id).
  set (distances := <[vert1_id := 0]> (replicate n (-1))).
  set (h := DynamicBinaryHeap.insert_item [] vert1_id p).
  assert (Hlook : forall v, (v < n)%nat ->
            distances !!! v = if decide (v = vert1_id) then 0 else -1).
  { intros v Hv. unfold distances.
    rewrite lookup_total_insert_Q by (rewrite length_replicate; exact Hs).
    destruct (decide (v = vert1_id)); [reflexivity|]. by apply lookup_total_replicate_Q. }
  assert (Hset : forall v, (v < n)%nat -> is_set distances v -> v = vert1_id).
  { intros v Hv Hd. unfold is_set in Hd. rewrite Hlook in Hd by exact Hv.
    destruct (decide (v = vert1_id)); [assumption|]. destruct Hd. reflexivity. }
  assert (Hsrc : is_set distances vert1_id).
  { unfold is_set. rewrite Hlook, decide_True by auto. lra. }
  destruct (insert_item_entries [] vert1_id p HeapProofs.heap_ordered_nil (NoDup_nil_2 (A:=nat)))
    as (Ho & Hnd & Hmem & Hlen); [apply not_elem_of_nil|]. fold h in Ho, Hnd, Hmem, Hlen.
  assert (Hinit : greedy_inv g vert1_id vert2_id 0 n
                    (replicate n 0%Z, distances, DynamicPriorityQueue.PQ h)).
  { split; [by rewrite length_replicate|].
    split; [unfold distances; by rewrite length_insert, length_replicate|].
    cbn [DynamicPriorityQueue.heap]. split; [exact Ho|]. split; [exact Hnd|].
    split.
    { intros e He. apply Hmem in He as [->|He]; [|by apply elem_of_nil in He].
      split; [exact Hs|exact Hsrc]. }
    split.
    { intros v Hv Hd. rewrite (Hset v Hv Hd). apply tree_path_source; [exact Hs|].
      by rewrite Hlook, decide_True. }
    split.
    { intros u v (Hu & _ & _) Hd. left. rewrite (Hset u Hu Hd).
      apply list_elem_of_fmap. exists (DynamicBinaryHeap.mkHeapItem vert1_id p).
      split; [reflexivity|]. apply Hmem. by left. }
    split; [exact Hsrc|].
    intros Hne Hd. apply Hne. symmetry. by apply Hset. }
  destruct (greedy_while_ok sqrt g vert1_id vert2_id Hs Ht (2 * n)%nat 0%nat _ Hinit) as (r & Hr & Hrun).
  { unfold greedy_measure. cbn [fst snd DynamicPriorityQueue.heap].
    pose proof (unset_count_source n vert1_id Hs) as Hc. fold distances in Hc.
    rewrite Hlen. simpl length. lia. }
  exists r. split; [exact Hr|]. intros fuel Hf. unfold Graph.greedy. fold n.
  replace (n <=? vert1_id)%nat with false by (symmetry; apply Nat.leb_gt; exact Hs).
  replace (n <=? vert2_id)%nat with false by (symmetry; apply Nat.leb_gt; exact Ht).
  by apply Hrun.
Qed.

(** [greedy] between two vertices of the graph returns within
    [2 * vertices] rounds of its loop.  It returns [None] exactly when the
    source is the target or no path leads to the target; otherwise following
    [prev] back from the target leads to the source along edges of the graph,
    with [distances] adding up their weights. *)
Theorem greedy_finds_path (sqrt : Q -> Q) (g : Graph.t) (vert1_id vert2_id : nat) :
  (vert1_id < Graph.vertices g)%nat -> (vert2_id < Graph.vertices g)%nat ->
  exists r,
    (forall fuel, (2 * Graph.vertices g <= fuel)%nat ->
       Graph.greedy sqrt fuel g vert1_id vert2_id = Returns r)
    /\ (r = None <-> vert1_id = vert2_id \/ ~ reachable g vert1_id vert2_id)
    /\ (forall prev distances, r = Some (prev, distances) ->
          tree_path g vert1_id prev distances vert2_id).
Proof.
  intros Hs Ht. destruct (greedy_returns sqrt g vert1_id vert2_id Hs Ht) as (r & Hr & Hrun).
  exists r. split; [exact Hrun|]. split.
  - split.
    + intros ->. exact Hr.
    + intros Hno. destruct r as [[prev distances]|]; [|reflexivity].
      destruct Hr as (Hne & _ & Hp). destruct Hno as [E|Hno]; [contradiction|].
      destruct Hno. eexists. apply (tree_path_walk _ _ _ _ _ Hp).
  - intros prev distances ->. apply Hr.
Qed.

(** When the target is another vertex and can be reached, [greedy] and
    [dijkstra] both return a pair; the distance [greedy] gives for the target
    is the weight of a path to it, and is not below the one of [dijkstra]. *)
Theorem greedy_not_shorter (sqrt : Q -> Q) (g : Graph.t) (vert1_id vert2_id : nat) :
  (vert1_id < Graph.vertices g)%nat -> (vert2_id < Graph.vertices g)%nat ->
  vert1_id <> vert2_id -> reachable g vert1_id vert2_id ->
  exists fuel0 prev_g distances_g prev_d distances_d,
    (forall fuel, (fuel0 <= fuel)%nat ->
       Graph.greedy sqrt fuel g vert1_id vert2_id = Returns (Some (prev_g, distances_g))
       /\ Graph.dijkstra fuel g vert1_id vert2_id = Returns (Some (prev_d, distances_d)))
    /\ walk g vert1_id vert2_id (distances_g !!! vert2_id)
    /\ distances_d !!! vert2_id <= distances_g !!! vert2_id.
Proof.
  intros Hs Ht Hne Hreach.
  destruct (greedy_returns sqrt g vert1_id vert2_id Hs Ht) as (rg & Hrg & Hrung).
  destruct (dijkstra_returns g vert1_id vert2_id Hs Ht) as (fuel0 & rd & Hrd & Hrund).
  destruct rg as [[prev_g distances_g]|]; [|by destruct Hrg].
  destruct rd as [[prev_d distances_d]|]; [|by destruct Hrd].
  destruct Hrg as (_ & _ & Hp). apply tree_path_walk in Hp. cbn [fst snd] in Hp.
  exists (max fuel0 (2 * Graph.vertices g)), prev_g, distances_g, prev_d, distances_d.
  split; [|split; [exact Hp|]].
  - intros fuel Hf. split; [apply Hrung|apply Hrund]; lia.
  - destruct Hrd as [_ Hmin]. by apply Hmin.
Qed.

Lemma greedy_finds_path_witness :
  Graph.greedy Qsqrt_floor 6 route_graph 0 1 = Returns (Some ([0; 0; 0]%Z, [0; 8; -1]))
  /\ exists r,
    (forall fuel, (2 * Graph.vertices route_graph <= fuel)%nat ->
       Graph.greedy Qsqrt_floor fuel route_graph 0 1 = Returns r)
    /\ (r = None <-> 0%nat = 1%nat \/ ~ reachable route_graph 0 1)
    /\ (forall prev distances, r = Some (prev, distances) ->
          tree_path route_graph 0 prev distances 1).
Proof.
  split; [vm_compute; reflexivity|].
  apply (greedy_finds_path Qsqrt_floor route_graph 0 1); vm_compute; lia.
Defined.

Lemma route_graph_reachable : reachable route_graph 0 1.
Proof.
  exists (0 + Graph.get_edge_val route_graph 0 1).
  apply walk_snoc; [apply walk_refl; vm_compute; lia|].
  split; [vm_compute; lia|]. split; [vm_compute; lia|]. vm_compute. reflexivity.
Qed.

Lemma greedy_not_shorter_witness :
  exists fuel0 prev_g distances_g prev_d distances_d,
    (forall fuel, (fuel0 <= fuel)%nat ->
       Graph.greedy Qsqrt_floor fuel route_graph 0 1
       = Returns (Some (prev_g, distances_g))
       /\ Graph.dijkstra fuel route_graph 0 1 = Returns (Some (prev_d, distances_d)))
    /\ walk route_graph 0 1 (distances_g !!! 1%nat)
    /\ distances_d !!! 1%nat <= distances_g !!! 1%nat.
Proof.
  apply (greedy_not_shorter Qsqrt_floor route_graph 0 1);
    [vm_compute; lia|vm_compute; lia|discriminate|exact route_graph_reachable].
Defined.

(** ** Depth-first search *)

Section DfsProof.

Variable g : Graph.t.
Variable vert1_id : nat.
Hypothesis source_lt : (vert1_id < Graph.vertices g)%nat.

Definition unfound_count (found_verts : list bool) : nat :=
  sum_list_with (fun b : bool => if b then 0%nat else 1%nat) found_verts.

Definition dfs_measure (st : list bool * DynamicStack.t) : nat :=
  (2 * unfound_count st.1 + length (DynamicStack.stack_data st.2))%nat.

(** The invariant of [dfs] while [cur] is expanded and the neighbours below
    [k] have been looked at. *)
Definition dfs_inv (cur k : nat) (st : list bool * DynamicStack.t) : Prop :=
  let '(found_verts, to_visit) := st in
  length found_verts = Graph.vertices g
  /\ (forall x, x ∈ DynamicStack.stack_data to_visit ->
        (x < Graph.vertices g)%nat /\ found_verts !!! x = true)
  /\ (forall v, (v < Graph.vertices g)%nat -> found_verts !!! v = true ->
        reachable g vert1_id v)
  /\ (forall u v, edge g u v -> found_verts !!! u = true ->
        u ∈ DynamicStack.stack_data to_visit \/ (u = cur /\ (k <= v)%nat)
        \/ found_verts !!! v = true)
  /\ found_verts !!! vert1_id = true.

Lemma lookup_total_insert_bool (l : list bool) (k v : nat) (x : bool) :
  (k < length l)%nat ->
  <[k := x]> l !!! v = if decide (v = k) then x else l !!! v.
Proof.
  intros Hk. rewrite list_lookup_total_insert.
  destruct (decide (v = k)) as [->|Hne].
  - by rewrite decide_True.
  - rewrite decide_False; [reflexivity|]. intros [? _]. congruence.
Qed.

Lemma dfs_for_ok (m k cur : nat) (st : list bool * DynamicStack.t) :
  (k + m = Graph.vertices g)%nat -> (cur < Graph.vertices g)%nat ->
  st.1 !!! cur = true -> dfs_inv cur k st ->
  dfs_inv cur (Graph.vertices g) (Graph.dfs_for g cur (seq k m) st)
  /\ (dfs_measure (Graph.dfs_for g cur (seq k m) st) <= dfs_measure st)%nat.
Proof.
  revert k st. induction m as [|m IH]; intros k [found_verts [stack]] Hkm Hcur Hfc Hinv.
  - simpl. split; [|lia]. rewrite Nat.add_0_r in Hkm. subst k. exact Hinv.
  - cbn [seq Graph.dfs_for]. cbn [fst] in Hfc.
    destruct Hinv as (Hlen & Hstack & Hreach & Hclosed & Hsrc).
    cbn [DynamicStack.stack_data] in *.
    destruct (negb (found_verts !!! k) && Graph.get_edge g cur k) eqn:Etest.
    + apply andb_true_iff in Etest as [Ek Hedge]. apply negb_true_iff in Ek.
      set (found' := <[k := true]> found_verts).
      assert (Hlook : forall v, found' !!! v
                = if decide (v = k) then true else found_verts !!! v).
      { intros v. apply lookup_total_insert_bool. lia. }
      assert (Hmono : forall v, found_verts !!! v = true -> found' !!! v = true).
      { intros v Hv. rewrite Hlook. by destruct (decide (v = k)). }
      assert (Hinv' : dfs_inv cur (S k) (found', DynamicStack.push (DynamicStack.Stack stack) k)).
      { split; [unfold found'; by rewrite length_insert|].
        cbn [DynamicStack.push DynamicStack.stack_data].
        split.
        { intros x Hx. apply elem_of_app in Hx as [Hx|Hx].
          - destruct (Hstack x Hx) as [H1 H2]. split; [exact H1|by apply Hmono].
          - apply list_elem_of_singleton in Hx as ->. split; [lia|].
            by rewrite Hlook, decide_True. }
        split.
        { intros v Hv Hf. rewrite Hlook in Hf. destruct (decide (v = k)) as [->|Hne].
          - destruct (Hreach cur Hcur Hfc) as [len Hw].
            eexists. eapply walk_snoc; [exact Hw|]. repeat split; auto; lia.
          - by apply Hreach. }
        split; [|by apply Hmono].
        intros u v He Hu. rewrite Hlook in Hu. destruct (decide (u = k)) as [->|Huk].
        { left. apply elem_of_app. right. by apply list_elem_of_singleton. }
        destruct (Hclosed u v He Hu) as [Hin|[[-> Hkv]|Hd]].
        - left. apply elem_of_app. by left.
        - destruct (decide (v = k)) as [->|Hne].
          + right. right. by rewrite Hlook, decide_True.
          + right. left. split; [reflexivity|lia].
        - right. right. by apply Hmono. }
      destruct (IH (S k) (found', DynamicStack.push (DynamicStack.Stack stack) k)
                   ltac:(lia) Hcur (Hmono cur Hfc) Hinv') as [Hi Hm].
      split; [exact Hi|].
      assert (Hk' : found_verts !! k = Some (found_verts !!! k)).
      { apply list_lookup_lookup_total_lt. lia. }
      pose proof (sum_list_with_insert (fun b : bool => if b then 0%nat else 1%nat)
                    found_verts k _ true Hk') as Hsum.
      cbv beta in Hsum. rewrite Ek in Hsum. fold found' in Hsum.
      unfold dfs_measure, unfound_count in *.
      cbn [fst snd DynamicStack.push DynamicStack.stack_data] in *.
      rewrite length_app in Hm. simpl in Hm. lia.
    + apply (IH (S k) (found_verts, DynamicStack.Stack stack)); auto; [lia|].
      split; [exact Hlen|]. split; [exact Hstack|]. split; [exact Hreach|].
      split; [|exact Hsrc].
      intros u v He Hu. destruct (Hclosed u v He Hu) as [Hin|[[-> Hkv]|Hd]]; auto.
      destruct (decide (v = k)) as [->|Hne]; [|right; left; split; [reflexivity|lia]].
      apply andb_false_iff in Etest as [Ek|Hne].
      * right. right. by apply negb_false_iff in Ek.
      * destruct He as (_ & _ & He). congruence.
Qed.

Definition dfs_result_ok (found_verts : list bool) : Prop :=
  length found_verts = Graph.vertices g
  /\ forall v, (v < Graph.vertices g)%nat ->
       found_verts !!! v = true <-> reachable g vert1_id v.

Lemma dfs_while_ok (b : nat) :
  forall (cur : nat) (st : list bool * DynamicStack.t),
    dfs_inv cur (Graph.vertices g) st -> (dfs_measure st < b)%nat ->
    exists r, dfs_result_ok r
              /\ forall fuel, (b <= fuel)%nat -> Graph.dfs_while fuel g st = Returns r.
Proof.
  induction b as [|b IH]; intros cur [found_verts [stack]] Hinv Hb; [lia|].
  pose proof Hinv as (Hlen & Hstack & Hreach & Hclosed & Hsrc).
  cbn [DynamicStack.stack_data] in *.
  assert (Hclosed' : forall u v, edge g u v -> found_verts !!! u = true ->
            u ∈ stack \/ found_verts !!! v = true).
  { intros u v He Hu. destruct (Hclosed u v He Hu) as [Hin|[[_ Hn]|Hd]]; auto.
    destruct He as (_ & Hv & _). lia. }
  destruct (last stack) as [x|] eqn:Elast.
  - apply last_Some in Elast as [stack' ->].
    assert (Hx : (x < Graph.vertices g)%nat /\ found_verts !!! x = true).
    { apply Hstack. apply elem_of_app. right. by apply list_elem_of_singleton. }
    destruct Hx as [Hx Hfx].
    assert (Hinv0 : dfs_inv x 0 (found_verts, DynamicStack.Stack stack')).
    { split; [exact Hlen|]. cbn [DynamicStack.stack_data].
      split; [intros y Hy; apply Hstack, elem_of_app; by left|].
      split; [exact Hreach|]. split; [|exact Hsrc].
      intros u v He Hu. destruct (Hclosed' u v He Hu) as [Hin|Hd]; [|by right; right].
      apply elem_of_app in Hin as [Hin|Hin]; [by left|].
      apply list_elem_of_singleton in Hin as ->. right. left. split; [reflexivity|lia]. }
    destruct (dfs_for_ok (Graph.vertices g) 0 x (found_verts, DynamicStack.Stack stack')
                ltac:(lia) Hx Hfx Hinv0) as [Hinv' Hm'].
    assert (Hm : (dfs_measure (found_verts, DynamicStack.Stack stack') < b)%nat).
    { unfold dfs_measure in *. cbn [fst snd DynamicStack.stack_data] in *.
      rewrite length_app in Hb. simpl in Hb. lia. }
    destruct (IH x _ Hinv' ltac:(lia)) as (r & Hr & Hrun).
    exists r. split; [exact Hr|].
    intros [|fuel] Hf; [lia|]. cbn [Graph.dfs_while].
    unfold DynamicStack.empty, DynamicStack.pop. cbn [DynamicStack.stack_data].
    rewrite length_app, Nat.add_1_r. cbn [Nat.eqb].
    rewrite last_snoc, removelast_last. cbn [mbind outcome_bind].
    apply Hrun. lia.
  - apply last_None in Elast as ->. exists found_verts. split.
    + split; [exact Hlen|]. intros v Hv. split; [by apply Hreach|].
      intros [len Hw]. clear Hv.
      assert (Hall : forall a x l, walk g a x l -> a = vert1_id -> found_verts !!! x = true).
      { clear v len Hw. intros a x l Hw.
        induction Hw as [u Hu|u v w len Hw IHw He]; intros Ea; [by rewrite Ea|].
        destruct (Hclosed' v w He (IHw Ea)) as [Hin|Hd]; [|exact Hd].
        by apply elem_of_nil in Hin. }
      by apply (Hall vert1_id v len).
    + intros [|fuel] Hf; [lia|]. reflexivity.
Qed.
End DfsProof.

(** [dfs] from a vertex of the graph returns within [2 * vertices] rounds of
    its loop, and marks exactly the vertices that a path leads to from the
    source. *)
Theorem dfs_marks_reachable (g : Graph.t) (vert1_id : nat) :
  (vert1_id < Graph.vertices g)%nat ->
  exists found_verts,
    (forall fuel, (2 * Graph.vertices g <= fuel)%nat ->
       Graph.dfs fuel g vert1_id = Returns found_verts)
    /\ length found_verts = Graph.vertices g
    /\ forall v, (v < Graph.vertices g)%nat ->
         found_verts !!! v = true <-> reachable g vert1_id v.
Proof.
  intros Hs. set (n := Graph.vertices g).
  set (found := <[vert1_id := true]> (replicate n false)).
  assert (Hlook : forall v, (v < n)%nat ->
            found !!! v = if decide (v = vert1_id) then true else false).
  { intros v Hv. unfold found.
    rewrite lookup_total_insert_bool by (rewrite length_replicate; exact Hs).
    destruct (decide (v = vert1_id)); [reflexivity|]. by apply lookup_total_replicate_2. }
  assert (Hset : forall v, (v < n)%nat -> found !!! v = true -> v = vert1_id).
  { intros v Hv Hd. rewrite Hlook in Hd by exact Hv.
    destruct (decide (v = vert1_id)); [assumption|discriminate]. }
  assert (Hsrc : found !!! vert1_id = true) by (by rewrite Hlook, decide_True).
  assert (Hinit : dfs_inv g vert1_id 0 n (found, DynamicStack.push DynamicStack.new vert1_id)).
  { split; [unfold found; by rewrite length_insert, length_replicate|].
    cbn [DynamicStack.push DynamicStack.new DynamicStack.stack_data app].
    split.
    { intros x Hx. apply list_elem_of_singleton in Hx as ->. by split. }
    split.
    { intros v Hv Hd. rewrite (Hset v Hv Hd). exists 0. by apply walk_refl. }
    split; [|exact Hsrc].
    intros u v (Hu & _ & _) Hd. left. rewrite (Hset u Hu Hd). by apply list_elem_of_singleton. }
  destruct (dfs_while_ok g vert1_id Hs (2 * n)%nat 0%nat _ Hinit) as (r & Hr & Hrun).
  { unfold dfs_measure, unfound_count. cbn [fst snd].
    pose proof (sum_list_with_insert (fun b : bool => if b then 0%nat else 1%nat)
                  (replicate n false) vert1_id false true
                  (lookup_replicate_2 n false vert1_id Hs)) as H.
    cbv beta iota in H. fold found in H.
    assert (Hall : sum_list_with (fun b : bool => if b then 0%nat else 1%nat)
                     (replicate n false) = n).
    { clear. induction n as [|n IH]; [reflexivity|].
      cbn [replicate sum_list_with]. rewrite IH. reflexivity. }
    cbn [DynamicStack.push DynamicStack.new DynamicStack.stack_data app length]. lia. }
  exists r. split; [|exact Hr]. intros fuel Hf. unfold Graph.dfs. fold n.
  replace (n <=? vert1_id)%nat with false by (symmetry; apply Nat.leb_gt; exact Hs).
  by apply Hrun.
Qed.

Lemma dfs_marks_reachable_witness :
  Graph.dfs 6 route_graph 0 = Returns [true; true; true]
  /\ exists found_verts,
    (forall fuel, (2 * Graph.vertices route_graph <= fuel)%nat ->
       Graph.dfs fuel route_graph 0 = Returns found_verts)
    /\ length found_verts = Graph.vertices route_graph
    /\ forall v, (v < Graph.vertices route_graph)%nat ->
         found_verts !!! v = true <-> reachable route_graph 0 v.
Proof.
  split; [vm_compute; reflexivity|].
  apply (dfs_marks_reachable route_graph 0). vm_compute. lia.
Defined.

(** ** The distances of [bfs] *)

(** [least_hops g s v j]: [j] is the least number of edges, one at least, of
    a path from [s] to [v]. *)
Definition least_hops (g : Graph.t) (s v j : nat) : Prop :=
  (1 <= j)%nat /\ hops g s v j
  /\ forall j', (1 <= j')%nat -> hops g s v j' -> (j <= j')%nat.

Section BfsLevels.

Variable g : Graph.t.
Variables vert1_id vert2_id : nat.
Hypothesis source_lt : (vert1_id < Graph.vertices g)%nat.
Hypothesis no_self_loop : Graph.get_edge g vert1_id vert1_id = false.

(** The invariant of [bfs] on the distances, while [cur], whose entry is
    [d], is expanded: the queue holds vertices at [d] followed by vertices at
    [d + 1], every vertex within [d + 1] edges is discovered, and the entry
    of a discovered vertex is one below its least number of edges. *)
Definition level_inv (cur k : nat) (d : Z) (st : Graph.bfs_state) : Prop :=
  let '(prev, distances, to_visit) := st in
  bfs_inv g vert1_id vert2_id cur k st
  /\ (-1 <= d)%Z
  /\ distances !!! cur = d
  /\ (exists A B, pending to_visit = A ++ B
        /\ (forall x, x ∈ A -> distances !!! x = d)
        /\ (forall x, x ∈ B -> distances !!! x = (d + 1)%Z))
  /\ (forall x, x ∈ pending to_visit -> discovered distances x)
  /\ (forall v j, hops g vert1_id v j -> (1 <= j)%nat -> (Z.of_nat j <= d + 1)%Z ->
        discovered distances v)
  /\ (forall v, (v < Graph.vertices g)%nat -> discovered distances v ->
        hops g vert1_id v (Z.to_nat (distances !!! v + 1)))
  /\ (forall v j, (v < Graph.vertices g)%nat -> discovered distances v ->
        (1 <= j)%nat -> hops g vert1_id v j -> (distances !!! v + 1 <= Z.of_nat j)%Z).

Definition level_found (r : list Z * list Z) : Prop :=
  (0 <= r.2 !!! vert2_id)%Z
  /\ least_hops g vert1_id vert2_id (Z.to_nat (r.2 !!! vert2_id + 1)).

Lemma hops_0 (u v : nat) : hops g u v 0 -> v = u.
Proof. intros H. by inversion H. Qed.

Lemma bfs_for_levels (m k cur : nat) (d : Z) (st : Graph.bfs_state) :
  (k + m <= Graph.vertices g)%nat -> (cur < Graph.vertices g)%nat ->
  reached vert1_id st.1.2 cur -> level_inv cur k d st ->
  match Graph.bfs_for g vert2_id cur (seq k m) st with
  | Return r => level_found r
  | Continue st' => level_inv cur (k + m) d st'
  end.
Proof.
  revert k st. induction m as [|m IH]; intros k [[prev distances] q] Hkm Hcur Hreach Hinv.
  - simpl. rewrite Nat.add_0_r. exact Hinv.
  - replace (k + S m)%nat with (S k + m)%nat by lia.
    destruct Hinv as (Hinv & Hd & Hcurd & (A & B & Epend & HA & HB) & Hpd & Hnear & Hhops & Hleast).
    cbn [fst snd] in Hreach.
    pose proof (bfs_for_ok g vert1_id vert2_id source_lt 1 k cur (prev, distances, q)
                  ltac:(lia) Hcur Hreach Hinv) as Hstep.
    rewrite Nat.add_1_r in Hstep. cbn [seq Graph.bfs_for] in Hstep |- *.
    pose proof Hinv as (Hlp & Hld & Hback & Hge & _).
    destruct ((distances !!! k =? -1)%Z && Graph.get_edge g cur k) eqn:Etest.
    + apply andb_true_iff in Etest as [Ek Hedge]. apply Z.eqb_eq in Ek.
      assert (Hk : (k < Graph.vertices g)%nat) by lia.
      assert (Hunset : ~ discovered distances k) by (intros H; by apply H).
      assert (Hkcur : k <> cur).
      { intros ->. destruct Hreach as [->|Hdc]; [congruence|contradiction]. }
      rewrite Hcurd in Hstep |- *.
      set (distances' := <[k := (d + 1)%Z]> distances) in *.
      set (prev' := <[k := Z.of_nat cur]> prev) in *.
      assert (Hother : forall v, v <> k -> distances' !!! v = distances !!! v).
      { intros v Hv. unfold distances'. rewrite lookup_total_insert_Z by lia.
        by rewrite decide_False. }
      assert (Hnew : distances' !!! k = (d + 1)%Z).
      { unfold distances'. rewrite lookup_total_insert_Z by lia. by rewrite decide_True. }
      assert (Hdk : discovered distances' k) by (unfold discovered; rewrite Hnew; lia).
      assert (Hmono : forall v, discovered distances v -> discovered distances' v).
      { intros v Hv. destruct (decide (v = k)) as [->|Hne]; [exact Hdk|].
        unfold discovered. by rewrite Hother. }
      assert (Hback' : forall v, v <> k -> discovered distances' v -> discovered distances v).
      { intros v Hne Hv. unfold discovered in *. by rewrite Hother in Hv. }
      assert (Hcurhops : hops g vert1_id cur (Z.to_nat (d + 1))).
      { destruct (decide (distances !!! cur = (-1)%Z)) as [E|E].
        - destruct Hreach as [->|Hdc]; [|contradiction].
          replace d with (-1)%Z by congruence. by apply hops_refl.
        - rewrite <- Hcurd. by apply Hhops. }
      assert (Hkhops : hops g vert1_id k (Z.to_nat (d + 1 + 1))).
      { replace (Z.to_nat (d + 1 + 1)) with (S (Z.to_nat (d + 1))) by lia.
        eapply hops_snoc; [exact Hcurhops|]. by repeat split. }
      assert (Hkleast : forall j, (1 <= j)%nat -> hops g vert1_id k j ->
                (d + 1 + 1 <= Z.of_nat j)%Z).
      { intros j Hj Hh. destruct (decide (Z.of_nat j <= d + 1)%Z) as [Hle|]; [|lia].
        destruct Hunset. by apply (Hnear k j). }
      destruct (k =? vert2_id)%nat eqn:Ekt.
      * apply Nat.eqb_eq in Ekt. unfold level_found. cbn [fst snd]. rewrite <- Ekt, Hnew.
        split; [lia|]. split; [lia|]. split; [exact Hkhops|].
        intros j Hj Hh. specialize (Hkleast j Hj Hh). lia.
      * destruct Hstep as [Hinv' _].
        apply (IH (S k) (prev', distances', DynamicQueue.enqueue q k));
          [lia|exact Hcur| |].
        { cbn [fst snd]. destruct Hreach as [->|Hdc]; [by left|right; by apply Hmono]. }
        split; [exact Hinv'|]. split; [exact Hd|].
        split; [by rewrite Hother|].
        rewrite pending_enqueue by exact Hback.
        split.
        { exists A, (B ++ [k]). split; [by rewrite Epend, app_assoc|]. split.
          - intros x Hx. rewrite Hother; [by apply HA|].
            intros ->. apply Hunset, Hpd. rewrite Epend. apply elem_of_app. by left.
          - intros x Hx. apply elem_of_app in Hx as [Hx|Hx].
            + rewrite Hother; [by apply HB|].
              intros ->. apply Hunset, Hpd. rewrite Epend. apply elem_of_app. by right.
            + apply list_elem_of_singleton in Hx as ->. exact Hnew. }
        split.
        { intros x Hx. apply elem_of_app in Hx as [Hx|Hx]; [by apply Hmono, Hpd|].
          apply list_elem_of_singleton in Hx as ->. exact Hdk. }
        split; [intros v j Hh Hj Hle; by apply Hmono, (Hnear v j)|].
        split.
        { intros v Hv Hdv. destruct (decide (v = k)) as [->|Hne].
          - rewrite Hnew. exact Hkhops.
          - rewrite Hother by exact Hne. apply Hhops; [exact Hv|by apply Hback']. }
        intros v j Hv Hdv Hj Hh. destruct (decide (v = k)) as [->|Hne].
        -- rewrite Hnew. by apply Hkleast.
        -- rewrite Hother by exact Hne. apply Hleast; auto.
    + destruct Hstep as [Hinv' _].
      apply (IH (S k) (prev, distances, q)); [lia|exact Hcur|exact Hreach|].
      split; [exact Hinv'|]. split; [exact Hd|]. split; [exact Hcurd|].
      split; [by exists A, B|]. split; [exact Hpd|]. split; [exact Hnear|].
      split; assumption.
Qed.

(** Whatever pair the loop of [bfs] returns, the entry of the target is
    one below the least number of edges of a path to it. *)
Lemma bfs_while_levels (fuel : nat) :
  forall (cur : nat) (d : Z) (st : Graph.bfs_state) (r : list Z * list Z),
    level_inv cur (Graph.vertices g) d st ->
    Graph.bfs_while fuel g vert2_id st = Returns (Some r) -> level_found r.
Proof.
  induction fuel as [|fuel IH]; intros cur d [[prev distances] q] r Hlev Hrun;
    [discriminate|].
  destruct Hlev as (Hinv & Hd & Hcurd & (A & B & Epart & HA & HB) & Hpd & Hnear & Hhops & Hleast).
  pose proof (bfs_inv_closed g vert1_id vert2_id source_lt cur _ Hinv) as Hclosed.
  cbn [fst snd] in Hclosed.
  pose proof Hinv as (Hlp & Hld & Hback & Hge & _).
  cbn [Graph.bfs_while] in Hrun.
  destruct (DynamicQueue.empty q) eqn:Eempty; [discriminate|].
  destruct (queue_dequeue_pending q Hback Eempty) as (x & q' & Edeq & Epend & Hback').
  rewrite Edeq in Hrun. unfold range in Hrun. cbn [mbind outcome_bind] in Hrun.
  destruct (bfs_inv_dequeue g vert1_id vert2_id source_lt cur x prev distances q q' Hinv Epend Hback')
    as (Hinv0 & Hx & Hrx).
  assert (Hpd' : forall y, y ∈ pending q' -> discovered distances y).
  { intros y Hy. apply Hpd. rewrite Epend. by right. }
  assert (Hlev0 : exists d', level_inv x 0 d' (prev, distances, q')).
  { destruct A as [|a A'].
    - (* the vertices at [d] are used up: the next level starts *)
      simpl in Epart. clear Hcurd. exists (d + 1)%Z.
      assert (Hall : forall y, y ∈ pending q -> distances !!! y = (d + 1)%Z).
      { intros y Hy. apply HB. by rewrite <- Epart. }
      split; [exact Hinv0|]. split; [lia|].
      split; [apply Hall; rewrite Epend; by left|].
      split.
      { exists (pending q'), []. rewrite app_nil_r. split; [reflexivity|]. split.
        - intros y Hy. apply Hall. rewrite Epend. by right.
        - intros y Hy. by apply elem_of_nil in Hy. }
      split; [exact Hpd'|]. split; [|split; assumption].
      intros v j Hh Hj Hle.
      destruct (decide (Z.of_nat j <= d + 1)%Z) as [Hle'|Hgt]; [by apply (Hnear v j)|].
      inversion Hh as [|? u ? j0 Hh0 He]; subst; [lia|].
      assert (Hu : reached vert1_id distances u).
      { destruct j0 as [|j0].
        - left. by apply hops_0 in Hh0.
        - right. apply (Hnear u (S j0)); [exact Hh0|lia|lia]. }
      destruct (Hclosed u v He Hu) as [Hin|Hdv]; [|exact Hdv].
      pose proof (Hall u Hin) as Edu. pose proof (Hpd u Hin) as Hdu.
      destruct He as (Hun & _ & _).
      destruct j0 as [|j0].
      + apply hops_0 in Hh0. subst u.
        pose proof (Hhops vert1_id Hun Hdu) as Hloop. rewrite Edu in Hloop.
        replace (Z.to_nat (d + 1 + 1)) with 1%nat in Hloop by lia.
        inversion Hloop as [|? w ? ? Hw0 Hew]; subst.
        apply hops_0 in Hw0. subst w. destruct Hew as (_ & _ & Hew). congruence.
      + pose proof (Hleast u (S j0) Hun Hdu ltac:(lia) Hh0). lia.
    - (* another vertex at [d] *)
      simpl in Epart. rewrite Epend in Epart. injection Epart as -> Epart.
      exists d. split; [exact Hinv0|]. split; [exact Hd|].
      split; [apply HA; by left|].
      split.
      { exists A', B. split; [exact Epart|]. split; [|exact HB].
        intros y Hy. apply HA. by right. }
      split; [exact Hpd'|]. split; [exact Hnear|]. split; assumption. }
  destruct Hlev0 as [d' Hlev0].
  pose proof (bfs_for_levels (Graph.vertices g) 0 x d' (prev, distances, q')
                ltac:(lia) Hx Hrx Hlev0) as Hfor.
  destruct (Graph.bfs_for g vert2_id x (seq 0 (Graph.vertices g)) (prev, distances, q'))
    as [r0|st'].
  - injection Hrun as <-. exact Hfor.
  - by apply (IH x d' st' r).
Qed.
End BfsLevels.

(** When the source has no edge to itself, the pair that [bfs] returns
    holds at the target one less than the least number of edges of a path
    from the source to the target: [distances[source]] is never set to 0, so
    the neighbours of the source get 0. *)
Theorem bfs_distance_least_hops (g : Graph.t) (vert1_id vert2_id : nat) :
  (vert1_id < Graph.vertices g)%nat ->
  Graph.get_edge g vert1_id vert1_id = false ->
  exists r,
    (forall fuel, (2 * Graph.vertices g + 2 <= fuel)%nat ->
       Graph.bfs fuel g vert1_id vert2_id = Returns r)
    /\ forall prev distances, r = Some (prev, distances) ->
         (0 <= distances !!! vert2_id)%Z
         /\ least_hops g vert1_id vert2_id (Z.to_nat (distances !!! vert2_id + 1)).
Proof.
  intros Hs Hloop.
  destruct (bfs_returns g vert1_id vert2_id Hs) as (r & _ & Hrun).
  exists r. split; [exact Hrun|]. intros prev distances ->.
  specialize (Hrun (S (2 * Graph.vertices g + 1)) ltac:(lia)).
  unfold Graph.bfs in Hrun.
  replace (Graph.vertices g <=? vert1_id)%nat with false in Hrun
    by (symmetry; apply Nat.leb_gt; exact Hs).
  cbn [andb Graph.bfs_while] in Hrun.
  set (q0 := DynamicQueue.enqueue DynamicQueue.new vert1_id) in *.
  assert (Eempty : DynamicQueue.empty q0 = false) by reflexivity.
  assert (Hback : (DynamicQueue.back_pointer q0 <= length (DynamicQueue.queue_data q0))%nat)
    by (simpl; lia).
  destruct (queue_dequeue_pending q0 Hback Eempty) as (x & q' & Edeq & Epend & Hback').
  rewrite Eempty, Edeq in Hrun. unfold range in Hrun. cbn [mbind outcome_bind] in Hrun.
  change (pending q0) with [vert1_id] in Epend. injection Epend as <- Epend.
  destruct (bfs_inv_dequeue g vert1_id vert2_id Hs 0 vert1_id _ _ q0 q'
              (bfs_inv_initial g vert1_id vert2_id Hs))
    as (Hinv0 & _ & Hrx); [by rewrite <- Epend|exact Hback'|].
  set (n := Graph.vertices g) in *.
  assert (Hnone : forall v, (v < n)%nat -> ~ discovered (replicate n (-1)%Z) v).
  { intros v Hv Hd. apply Hd. by rewrite lookup_total_replicate_2. }
  assert (Hlev0 : level_inv g vert1_id vert2_id vert1_id 0 (-1)
                    (replicate n (-1)%Z, replicate n (-1)%Z, q')).
  { split; [exact Hinv0|]. split; [lia|].
    split; [by rewrite lookup_total_replicate_2|].
    split.
    { exists [], []. rewrite <- Epend. split; [reflexivity|].
      split; intros y Hy; by apply elem_of_nil in Hy. }
    split; [intros y Hy; rewrite <- Epend in Hy; by apply elem_of_nil in Hy|].
    split; [intros v j _ Hj Hle; lia|].
    split; [intros v Hv Hd; by destruct (Hnone v Hv)|].
    intros v j Hv Hd. by destruct (Hnone v Hv). }
  pose proof (bfs_for_levels g vert1_id vert2_id Hs Hloop n 0 vert1_id (-1)
                (replicate n (-1)%Z, replicate n (-1)%Z, q')
                ltac:(lia) Hs Hrx Hlev0) as Hfor.
  destruct (Graph.bfs_for g vert2_id vert1_id (seq 0 n)
              (replicate n (-1)%Z, replicate n (-1)%Z, q')) as [r0|st'].
  - injection Hrun as ->. exact Hfor.
  - exact (bfs_while_levels g vert1_id vert2_id Hs Hloop _ vert1_id (-1)%Z st' (prev, distances)
             Hfor Hrun).
Qed.

Lemma bfs_distance_least_hops_witness :
  Graph.bfs 8 route_graph 0 1 = Returns (Some ([-1; 0; -1]%Z, [-1; 0; -1]%Z))
  /\ exists r,
    (forall fuel, (2 * Graph.vertices route_graph + 2 <= fuel)%nat ->
       Graph.bfs fuel route_graph 0 1 = Returns r)
    /\ forall prev distances, r = Some (prev, distances) ->
         (0 <= distances !!! 1%nat)%Z
         /\ least_hops route_graph 0 1 (Z.to_nat (distances !!! 1%nat + 1)).
Proof.
  split; [vm_compute; reflexivity|].
  apply (bfs_distance_least_hops route_graph 0 1); [vm_compute; lia|vm_compute; reflexivity].
Defined.

(** ** Adding and deleting the last vertex of a graph *)

Lemma delete_insert_same {A} (l : list A) (n : nat) (x : A) :
  delete n (<[n := x]> l) = delete n l.
Proof.
  revert n. induction l as [|a l IH]; intros [|n]; simpl; try reflexivity.
  f_equal. apply IH.
Qed.

Lemma delete_length_app {A} (l : list A) (x : A) : delete (length l) (l ++ [x]) = l.
Proof. induction l as [|a l IH]; simpl; [reflexivity|]. by rewrite IH. Qed.

(** Writing one cell of row [n] or of column [n] is lost when row and
    column [n] are deleted. *)
Lemma delete_row_column_set_cell (m : list (list Q)) (x y n : nat) (w : Q) :
  x = n \/ y = n ->
  SquareMat.delete_row_column (<[x := <[y := w]> (m !!! x)]> m) n
  = SquareMat.delete_row_column m n.
Proof.
  intros [->| ->]; unfold SquareMat.delete_row_column.
  - by rewrite delete_insert_same.
  - change (delete n <$> delete n (<[x := <[n := w]> (m !!! x)]> m) = delete n <$> delete n m).
    rewrite !list_fmap_delete, list_fmap_insert, delete_insert_same.
    f_equal. apply list_insert_id'. intros Hx.
    rewrite list_lookup_fmap. rewrite length_fmap in Hx.
    by rewrite (list_lookup_lookup_total_lt m x Hx).
Qed.

Lemma delete_row_column_set_item (m : list (list Q)) (x y n : nat) (w : Q) (mirrored : bool) :
  x = n \/ y = n ->
  SquareMat.delete_row_column (SquareMat.set_item m x y w mirrored) n
  = SquareMat.delete_row_column m n.
Proof.
  intros H. unfold SquareMat.set_item. destruct mirrored.
  - rewrite delete_row_column_set_cell by tauto. by apply delete_row_column_set_cell.
  - by apply delete_row_column_set_cell.
Qed.

Lemma delete_vertex_set_edge (g : Graph.t) (a b n : nat) (w : Q) (flag : bool) :
  a = n \/ b = n ->
  Graph.delete_vertex (Graph.set_edge g a b w flag) n = Graph.delete_vertex g n.
Proof.
  intros H. unfold Graph.delete_vertex, Graph.set_edge. simpl.
  by rewrite delete_row_column_set_item.
Qed.

Lemma wf_delete_vertex (g : Graph.t) (n : nat) :
  Graph.wf g -> (n < Graph.vertices g)%nat -> Graph.wf (Graph.delete_vertex g n).
Proof.
  intros [Hlen Hrows] Hn.
  unfold Graph.wf, Graph.delete_vertex, Graph.vertices, SquareMat.delete_row_column in *.
  simpl. rewrite length_map.
  rewrite !length_delete by (apply lookup_lt_is_Some; lia).
  split; [lia|].
  apply Forall_map. apply Forall_delete. eapply Forall_impl; [exact Hrows|].
  intros row Hrow. simpl in *. rewrite length_delete by (apply lookup_lt_is_Some; lia). lia.
Qed.

Lemma delete_vertex_add_vertex (g : Graph.t) (p : Vec2D.t) :
  Graph.wf g -> Graph.delete_vertex (Graph.add_vertex g p) (Graph.vertices g) = g.
Proof.
  destruct g as [m ps scale]. intros [Hlen Hrows].
  unfold Graph.delete_vertex, Graph.add_vertex, Graph.vertices, SquareMat.delete_row_column,
    SquareMat.expand in *. simpl in *.
  rewrite (delete_length_app ps p). f_equal.
  pose proof (delete_length_app (map (fun row : list Q => row ++ [0]) m)
                (replicate (SquareMat.size m + 1) 0)) as E.
  rewrite length_map, Hlen in E. rewrite E, map_map.
  rewrite <- (map_id m) at 2. apply map_ext_Forall.
  eapply Forall_impl; [exact Hrows|]. intros row Hrow. simpl in *.
  rewrite <- Hrow. apply delete_length_app.
Qed.

(** [grown g g']: [g'] is [g] with one more vertex, the last one. *)
Definition grown (g g' : Graph.t) : Prop :=
  Graph.vertices g' = S (Graph.vertices g) /\ Graph.wf g'
  /\ Graph.delete_vertex g' (Graph.vertices g) = g.

Lemma grown_add_vertex (g : Graph.t) (p : Vec2D.t) :
  Graph.wf g -> grown g (Graph.add_vertex g p).
Proof.
  intros Hwf. split; [apply vertices_add_vertex|].
  split; [by apply wf_add_vertex|by apply delete_vertex_add_vertex].
Qed.

Lemma grown_set_edge (g g' : Graph.t) (a b : nat) (w : Q) (flag : bool) :
  grown g g' -> a = Graph.vertices g \/ b = Graph.vertices g ->
  grown g (Graph.set_edge g' a b w flag).
Proof.
  intros (Hv & Hwf & Hdel) H. split; [exact Hv|]. split; [by apply wf_set_edge|].
  by rewrite delete_vertex_set_edge.
Qed.

(** ** What a path query leaves behind *)

Lemma bind_returns {A B} (c : outcome A) (k : A -> outcome B) (r : B) :
  mbind k c = Returns r -> exists a, c = Returns a /\ k a = Returns r.
Proof. destruct c as [a| |]; try discriminate. intros H. by exists a. Qed.

Lemma dict_get_returns {K A} `{Countable K} (d : gmap K A) (k : K) (a : A) :
  dict_get d k = Returns a -> d !! k = Some a.
Proof. unfold dict_get. destruct (d !! k); [|discriminate]. by intros [= ->]. Qed.

(** A property that every round of a loop keeps holds after the loop. *)
Lemma for_each_invariant {A S} (P : S -> Prop) (l : list A) (body : S -> A -> outcome S) :
  (forall s a s', P s -> body s a = Returns s' -> P s') ->
  forall s s', P s -> for_each l body s = Returns s' -> P s'.
Proof.
  intros Hbody. induction l as [|a l IH]; intros s s' Hs Hrun; simpl in Hrun.
  - by injection Hrun as <-.
  - apply bind_returns in Hrun as (s1 & H1 & Hrun). eauto.
Qed.

Section PathfindFrame.
Variable sqrt : Q -> Q.
Variable fuel : nat.

Lemma grown_relax_link (g lg : Graph.t) (a b : nat) (w : Q) :
  grown g lg -> a = Graph.vertices g \/ b = Graph.vertices g ->
  grown g (Map.relax_link lg a b w).
Proof.
  intros Hg H. unfold Map.relax_link.
  destruct (_ || _); [by apply grown_set_edge|exact Hg].
Qed.

Lemma grown_add_link_same_floor (g lg lg' : Graph.t) (nm : NavMesh.t) (link_num : nat)
    (precompute_link_dist : bool) (primary_algorithm : string) (prev_link : Map.LinkTuple) :
  grown g lg ->
  Map.add_link_same_floor sqrt fuel nm link_num precompute_link_dist primary_algorithm
                          lg prev_link = Returns lg' ->
  grown g lg'.
Proof.
  intros Hg Hrun. pose proof Hg as (Hv & _ & _).
  assert (Hnew : (Graph.vertices lg - 1)%nat = Graph.vertices g) by lia.
  unfold Map.add_link_same_floor in Hrun. rewrite Hnew in Hrun.
  destruct precompute_link_dist.
  - apply bind_returns in Hrun as (r1 & _ & Hrun).
    apply bind_returns in Hrun as (r2 & _ & Hrun).
    injection Hrun as <-.
    assert (H1 : grown g match r1 with
                         | Some (_, distances) =>
                             Map.relax_link lg (Graph.vertices g) (Map.lt_vert_id prev_link)
                               (distances !!! NavMesh.get_nav_graph_link_id nm
                                                (Map.lt_link_num prev_link))
                         | None => lg
                         end).
    { destruct r1 as [[? ?]|]; [apply grown_relax_link; auto|exact Hg]. }
    destruct r2 as [[? ?]|]; [apply grown_relax_link; auto|exact H1].
  - apply bind_returns in Hrun as (found & _ & Hrun).
    apply bind_returns in Hrun as (found2 & _ & Hrun).
    injection Hrun as <-.
    assert (H1 : grown g (if found !!! NavMesh.get_nav_graph_link_id nm
                                         (Map.lt_link_num prev_link) : bool
                          then Map.relax_link lg (Graph.vertices g) (Map.lt_vert_id prev_link)
                                 (Graph.heuristic sqrt (NavMesh.nav_graph nm)
                                    (NavMesh.get_nav_graph_link_id nm link_num)
                                    (NavMesh.get_nav_graph_link_id nm
                                       (Map.lt_link_num prev_link)))
                          else lg)).
    { destruct (found !!! _); [apply grown_relax_link; auto|exact Hg]. }
    destruct (found2 !!! _); [apply grown_relax_link; auto|exact H1].
Qed.

(** [__add_link] leaves the floors and the navigation meshes alone, and
    only adds one vertex, with its edges, to the link graph. *)
Lemma add_link_frame (m m' : Map.t) (floor_num : Z) (link_num : nat)
    (precompute_link_dist : bool) (primary_algorithm : string) (link_weight : Q) :
  Graph.wf (Map.link_graph m) ->
  Map.add_link sqrt fuel m floor_num link_num precompute_link_dist primary_algorithm
               link_weight = Returns m' ->
  Map.floors m' = Map.floors m /\ Map.nav_meshes m' = Map.nav_meshes m
  /\ Map.reset_data m' = Map.reset_data m
  /\ grown (Map.link_graph m) (Map.link_graph m').
Proof.
  intros Hwf Hrun. unfold Map.add_link in Hrun.
  apply bind_returns in Hrun as (f & _ & Hrun).
  apply bind_returns in Hrun as (link & _ & Hrun).
  set (g := Map.link_graph m) in *.
  set (lg0 := Graph.add_vertex g (Vec2D.Vec2D 0 (inject_Z floor_num))) in *.
  assert (Hg0 : grown g lg0) by (by apply grown_add_vertex).
  assert (Hnew : (Graph.vertices lg0 - 1)%nat = Graph.vertices g).
  { destruct Hg0 as (Hv & _). lia. }
  rewrite Hnew in Hrun.
  assert (Hfold : forall l lg, grown g lg ->
            grown g (fold_left (fun lg prev_link_id =>
                                  Graph.set_edge lg (Graph.vertices g) prev_link_id
                                                 link_weight true) l lg)).
  { induction l as [|a l IH]; intros lg Hlg; [exact Hlg|].
    simpl. apply IH. apply grown_set_edge; auto. }
  destruct (Map.id_indexed_nodes m !! Floor.link_id link) as [prev_link_ids|];
    (destruct (Map.floor_indexed_nodes m !! floor_num) as [prev_links|];
     [ apply bind_returns in Hrun as ([lg fin] & Hloop & Hrun);
       apply bind_returns in Hloop as (lg1 & Hloop & Hret);
       injection Hret as <- <-; injection Hrun as <-; cbn;
       split; [reflexivity|]; split; [reflexivity|]; split; [reflexivity|];
       refine (for_each_invariant (grown g) _ _ _ _ _ _ Hloop); [|by auto];
       intros s a s' Hs Hbody;
       apply bind_returns in Hbody as (nm & _ & Hbody);
       by eapply grown_add_link_same_floor
     | cbn in Hrun; injection Hrun as <-; cbn;
       split; [reflexivity|]; split; [reflexivity|]; split; [reflexivity|]; by auto ]).
Qed.
End PathfindFrame.

Lemma pop_link_add_link (fs : gmap Z Floor.t) (k : Z) (f : Floor.t)
    (id : Floor.link_id_t) (pos : Vec2D.t) :
  fs !! k = Some (Floor.add_link f id pos) ->
  Map.pop_link fs k = Returns (<[k := f]> fs).
Proof.
  intros H. unfold Map.pop_link, dict_get. rewrite H. cbn [mbind outcome_bind].
  unfold Floor.add_link. cbn [Floor.links Floor.walls].
  destruct (Floor.links f ++ [Floor.mkLink id pos]) as [|l ls] eqn:E.
  - by apply app_eq_nil in E as [_ ?].
  - rewrite <- E, removelast_last. by destruct f.
Qed.

(** Popping the two links that [pathfind] appended gives the floors back. *)
Lemma floors_restored (fs fs3 fs4 : gmap Z Floor.t) (s e : Z) (f fe : Floor.t)
    (id1 id2 : Floor.link_id_t) (p1 p2 : Vec2D.t) :
  fs !! s = Some f ->
  <[s := Floor.add_link f id1 p1]> fs !! e = Some fe ->
  Map.pop_link (<[e := Floor.add_link fe id2 p2]> (<[s := Floor.add_link f id1 p1]> fs)) s
  = Returns fs3 ->
  Map.pop_link fs3 e = Returns fs4 ->
  fs4 = fs.
Proof.
  intros Hs He H3 H4. destruct (decide (s = e)) as [<-|Hne].
  - rewrite lookup_insert_eq in He. injection He as <-.
    rewrite (pop_link_add_link _ s (Floor.add_link f id1 p1) id2 p2) in H3
      by apply lookup_insert_eq.
    injection H3 as <-.
    rewrite (pop_link_add_link _ s f id1 p1) in H4 by apply lookup_insert_eq.
    injection H4 as <-. rewrite !insert_insert_eq. by apply insert_id.
  - rewrite lookup_insert_ne in He by exact Hne.
    rewrite (pop_link_add_link _ s f id1 p1) in H3
      by (rewrite lookup_insert_ne by auto; apply lookup_insert_eq).
    injection H3 as <-.
    rewrite (pop_link_add_link _ e fe id2 p2) in H4
      by (rewrite lookup_insert_ne by auto; apply lookup_insert_eq).
    injection H4 as <-.
    apply map_eq. intros k.
    destruct (decide (k = e)) as [->|Hke]; [by rewrite lookup_insert_eq|].
    rewrite lookup_insert_ne by auto.
    destruct (decide (k = s)) as [->|Hks]; [by rewrite lookup_insert_eq|].
    by rewrite !lookup_insert_ne by auto.
Qed.

(** Writing the two saved meshes back undoes the two mesh updates of
    [pathfind]. *)
Lemma nav_meshes_restored (nms : gmap Z NavMesh.t) (s e : Z)
    (copy1 copy2 nm1 nm2 : NavMesh.t) :
  nms !! s = Some copy1 ->
  (if (e =? s)%Z then Returns copy1 else dict_get nms e) = Returns copy2 ->
  <[e := copy2]> (<[s := copy1]> (<[e := nm2]> (<[s := nm1]> nms))) = nms.
Proof.
  intros Hs He. apply map_eq. intros k.
  destruct (e =? s)%Z eqn:Ees.
  - apply Z.eqb_eq in Ees. subst e. injection He as <-.
    destruct (decide (k = s)) as [->|Hks]; [by rewrite lookup_insert_eq|].
    by rewrite !lookup_insert_ne by auto.
  - apply Z.eqb_neq in Ees. apply dict_get_returns in He.
    destruct (decide (k = e)) as [->|Hke]; [by rewrite lookup_insert_eq|].
    rewrite lookup_insert_ne by auto.
    destruct (decide (k = s)) as [->|Hks]; [by rewrite lookup_insert_eq|].
    by rewrite !lookup_insert_ne by auto.
Qed.

Lemma dict_pop_returns {K A} `{Countable K} (d d' : gmap K A) (k : K) :
  Map.dict_pop d k = Returns d' -> d' = delete k d.
Proof. unfold Map.dict_pop. destruct (d !! k); [|discriminate]. by intros [= <-]. Qed.

Section PathfindRestores.
Variable sqrt : Q -> Q.
Variable fuel : nat.

(** [__add_link] changes [id_indexed_nodes] at the id of the link it adds
    only. *)
Lemma add_link_ids (m m' : Map.t) (floor_num : Z) (link_num : nat)
    (precompute_link_dist : bool) (primary_algorithm : string) (link_weight : Q) :
  Map.add_link sqrt fuel m floor_num link_num precompute_link_dist primary_algorithm
               link_weight = Returns m' ->
  exists f link,
    Map.floors m !! floor_num = Some f /\ Floor.links f !! link_num = Some link
    /\ forall k, k <> Floor.link_id link ->
         Map.id_indexed_nodes m' !! k = Map.id_indexed_nodes m !! k.
Proof.
  intros Hrun. unfold Map.add_link in Hrun.
  apply bind_returns in Hrun as (f & Hf & Hrun). apply dict_get_returns in Hf.
  apply bind_returns in Hrun as (link & Hlink & Hrun).
  exists f, link. split; [exact Hf|]. split.
  { destruct (Floor.links f !! link_num); [|discriminate]. by injection Hlink as ->. }
  intros k Hk.
  destruct (Map.id_indexed_nodes m !! Floor.link_id link) as [prev_link_ids|];
    apply bind_returns in Hrun as ([lg fin] & _ & Hrun);
    injection Hrun as <-; cbn [Map.id_indexed_nodes];
    by rewrite !lookup_insert_ne by auto.
Qed.

(** What [pathfind] undoes before it returns, and what [reset_nav_meshes]
    undoes after it: the two temporary links leave the floors, the link
    graph and the dictionaries; the entries of [id_indexed_nodes] for their
    ids are popped. *)
Lemma pathfind_frame (m m' : Map.t) (start_pos : Vec2D.t)
    (start_floor_num : Z) (end_pos : Vec2D.t) (end_floor_num : Z)
    (primary_algorithm link_algorithm : string) (precompute_link_dist : bool)
    (link_weight : Q) (paths : option (gmap (nat * Z) (list Z))) :
  Graph.wf (Map.link_graph m) ->
  Map.pathfind sqrt fuel m start_pos start_floor_num end_pos end_floor_num
               primary_algorithm link_algorithm precompute_link_dist link_weight
  = Returns (paths, m') ->
  Map.floors m' = Map.floors m
  /\ Map.link_graph m' = Map.link_graph m
  /\ Map.floor_indexed_nodes m' = Map.floor_indexed_nodes m
  /\ Map.link_graph_id_indexed_nodes m' = Map.link_graph_id_indexed_nodes m
  /\ Map.floors (Map.reset_nav_meshes m') = Map.floors m
  /\ Map.link_graph (Map.reset_nav_meshes m') = Map.link_graph m
  /\ Map.nav_meshes (Map.reset_nav_meshes m') = Map.nav_meshes m
  /\ Map.reset_data (Map.reset_nav_meshes m') = None
  /\ Map.floor_indexed_nodes (Map.reset_nav_meshes m') = Map.floor_indexed_nodes m
  /\ Map.link_graph_id_indexed_nodes (Map.reset_nav_meshes m')
     = Map.link_graph_id_indexed_nodes m
  /\ Map.id_indexed_nodes (Map.reset_nav_meshes m') !! Map.START = None
  /\ Map.id_indexed_nodes (Map.reset_nav_meshes m') !! Map.END_ = None
  /\ (forall k, k <> Map.START -> k <> Map.END_ ->
        Map.id_indexed_nodes (Map.reset_nav_meshes m') !! k = Map.id_indexed_nodes m !! k).
Proof.
  intros Hwf Hrun. unfold Map.pathfind in Hrun.
  apply bind_returns in Hrun as (f1 & Hf1 & Hrun). apply dict_get_returns in Hf1.
  apply bind_returns in Hrun as (f2 & Hf2 & Hrun). apply dict_get_returns in Hf2.
  apply bind_returns in Hrun as (f3 & Hf3 & Hrun). apply dict_get_returns in Hf3.
  apply bind_returns in Hrun as (f4 & Hf4 & Hrun). apply dict_get_returns in Hf4.
  apply bind_returns in Hrun as (copy1 & Hc1 & Hrun). apply dict_get_returns in Hc1.
  apply bind_returns in Hrun as (copy2 & Hc2 & Hrun).
  apply bind_returns in Hrun as (nm0 & _ & Hrun).
  apply bind_returns in Hrun as (nm1 & _ & Hrun).
  apply bind_returns in Hrun as (nm2 & _ & Hrun).
  apply bind_returns in Hrun as (nm3 & _ & Hrun).
  apply bind_returns in Hrun as (m2 & Hadd1 & Hrun).
  apply bind_returns in Hrun as (m3 & Hadd2 & Hrun).
  apply bind_returns in Hrun as (returned & _ & Hrun).
  apply bind_returns in Hrun as (final_paths & _ & Hrun).
  apply bind_returns in Hrun as (fs3 & Hpop1 & Hrun).
  apply bind_returns in Hrun as (fs4 & Hpop2 & Hrun).
  apply bind_returns in Hrun as (idn1 & Hidn1 & Hrun). apply dict_pop_returns in Hidn1.
  apply bind_returns in Hrun as (idn2 & Hidn2 & Hrun). apply dict_pop_returns in Hidn2.
  injection Hrun as _ <-.
  rewrite lookup_insert_eq in Hf2. injection Hf2 as <-.
  rewrite lookup_insert_eq in Hf4. injection Hf4 as <-.
  set (fs1 := <[start_floor_num := Floor.add_link f1 Map.START start_pos]> (Map.floors m)) in *.
  set (fs2 := <[end_floor_num := Floor.add_link f3 Map.END_ end_pos]> fs1) in *.
  pose proof (fun H => add_link_frame sqrt fuel _ _ _ _ _ _ _ H Hadd1) as Hframe.
  destruct (Hframe Hwf) as (Hfl2 & Hnm2 & _ & Hg2). clear Hframe.
  cbn [Map.floors Map.nav_meshes Map.link_graph] in Hfl2, Hnm2, Hg2.
  pose proof Hg2 as (Hv2 & Hwf2 & Hdel2).
  destruct (add_link_frame sqrt fuel _ _ _ _ _ _ _ Hwf2 Hadd2) as (Hfl3 & Hnm3 & _ & Hg3).
  pose proof Hg3 as (Hv3 & Hwf3 & Hdel3).
  rewrite Hfl3, Hfl2 in Hpop1.
  assert (Hfloors : fs4 = Map.floors m).
  { by eapply (floors_restored (Map.floors m) fs3 fs4 start_floor_num end_floor_num f1 f3). }
  assert (Hlg : Graph.delete_vertex
                  (Graph.delete_vertex (Map.link_graph m3)
                     (Graph.vertices (Map.link_graph m3) - 1))
                  (Graph.vertices
                     (Graph.delete_vertex (Map.link_graph m3)
                        (Graph.vertices (Map.link_graph m3) - 1)) - 1)
                = Map.link_graph m).
  { replace (Graph.vertices (Map.link_graph m3) - 1)%nat
      with (Graph.vertices (Map.link_graph m2)) by lia.
    rewrite Hdel3.
    replace (Graph.vertices (Map.link_graph m2) - 1)%nat
      with (Graph.vertices (Map.link_graph m)) by lia.
    exact Hdel2. }
  unfold Map.reset_nav_meshes.
  cbn [Map.floors Map.link_graph Map.floor_indexed_nodes Map.link_graph_id_indexed_nodes
       Map.reset_data Map.nav_meshes Map.id_indexed_nodes].
  split; [exact Hfloors|]. split; [exact Hlg|]. split; [reflexivity|].
  split; [reflexivity|]. split; [exact Hfloors|]. split; [exact Hlg|].
  split.
  { rewrite Hnm3, Hnm2. by apply nav_meshes_restored. }
  split; [reflexivity|]. split; [reflexivity|]. split; [reflexivity|].
  destruct (add_link_ids _ _ _ _ _ _ _ Hadd1) as (fa & la & Hfa & Hla & Hids1).
  destruct (add_link_ids _ _ _ _ _ _ _ Hadd2) as (fb & lb & Hfb & Hlb & Hids2).
  cbn [Map.floors Map.id_indexed_nodes] in Hfa, Hids1. rewrite Hfl2 in Hfb.
  assert (Hla' : Floor.link_id la = Map.START).
  { unfold fs2 in Hfa. destruct (decide (start_floor_num = end_floor_num)) as [E|E].
    - rewrite <- E in Hfa. rewrite lookup_insert_eq in Hfa. injection Hfa as <-.
      rewrite <- E in Hf3. unfold fs1 in Hf3. rewrite lookup_insert_eq in Hf3.
      injection Hf3 as <-. cbn [Floor.add_link Floor.links] in Hla.
      rewrite length_app, Nat.add_sub in Hla.
      rewrite lookup_app_l in Hla by (rewrite length_app; simpl; lia).
      rewrite list_lookup_middle in Hla by reflexivity. by injection Hla as <-.
    - rewrite lookup_insert_ne in Hfa by auto. unfold fs1 in Hfa.
      rewrite lookup_insert_eq in Hfa. injection Hfa as <-.
      cbn [Floor.add_link Floor.links] in Hla.
      rewrite length_app, Nat.add_sub in Hla.
      rewrite list_lookup_middle in Hla by reflexivity. by injection Hla as <-. }
  assert (Hlb' : Floor.link_id lb = Map.END_).
  { unfold fs2 in Hfb. rewrite lookup_insert_eq in Hfb. injection Hfb as <-.
    cbn [Floor.add_link Floor.links] in Hlb.
    rewrite length_app, Nat.add_sub in Hlb.
    rewrite list_lookup_middle in Hlb by reflexivity. by injection Hlb as <-. }
  rewrite Hla' in Hids1. rewrite Hlb' in Hids2.
  subst idn2 idn1. split; [|split].
  - rewrite lookup_delete_ne by discriminate. apply lookup_delete_eq.
  - apply lookup_delete_eq.
  - intros k Hks Hke. rewrite !lookup_delete_ne by auto.
    rewrite Hids2 by auto. by apply Hids1.
Qed.

(** After [pathfind] and [reset_nav_meshes] the map is as it was before the
    query: the floors with their links, the link graph and the dictionaries
    that index it are restored by [pathfind] itself, the navigation meshes by
    [reset_nav_meshes]; [id_indexed_nodes] is as before when it held no
    entry for the ids of the two temporary links. *)
Theorem pathfind_then_reset_restores (m m' : Map.t) (start_pos : Vec2D.t)
    (start_floor_num : Z) (end_pos : Vec2D.t) (end_floor_num : Z)
    (primary_algorithm link_algorithm : string) (precompute_link_dist : bool)
    (link_weight : Q) (paths : option (gmap (nat * Z) (list Z))) :
  Graph.wf (Map.link_graph m) ->
  Map.pathfind sqrt fuel m start_pos start_floor_num end_pos end_floor_num
               primary_algorithm link_algorithm precompute_link_dist link_weight
  = Returns (paths, m') ->
  Map.floors m' = Map.floors m
  /\ Map.link_graph m' = Map.link_graph m
  /\ Map.floor_indexed_nodes m' = Map.floor_indexed_nodes m
  /\ Map.link_graph_id_indexed_nodes m' = Map.link_graph_id_indexed_nodes m
  /\ Map.floors (Map.reset_nav_meshes m') = Map.floors m
  /\ Map.link_graph (Map.reset_nav_meshes m') = Map.link_graph m
  /\ Map.nav_meshes (Map.reset_nav_meshes m') = Map.nav_meshes m
  /\ Map.reset_data (Map.reset_nav_meshes m') = None
  /\ (Map.id_indexed_nodes m !! Map.START = None ->
      Map.id_indexed_nodes m !! Map.END_ = None ->
      Map.id_indexed_nodes (Map.reset_nav_meshes m') = Map.id_indexed_nodes m).
Proof.
  intros Hwf Hrun.
  destruct (pathfind_frame _ _ _ _ _ _ _ _ _ _ _ Hwf Hrun)
    as (H1 & H2 & H3 & H4 & H5 & H6 & H7 & H8 & _ & _ & Hs & He & Hk).
  do 8 (split; [assumption|]).
  intros Hstart Hend. apply map_eq. intros k.
  destruct (decide (k = Map.END_)) as [->|Hke]; [congruence|].
  destruct (decide (k = Map.START)) as [->|Hks]; [congruence|].
  by apply Hk.
Qed.

(** C7.  Whenever [pathfind] returns (on a map whose link graph is a square
    matrix of its vertex count, as every graph object of the program is),
    then after the caller's [reset_nav_meshes] the floors with their link
    lists, the link graph and the navigation meshes are equal to what they
    were before the call.  Nothing of the two temporary links is kept: they
    are gone from the link lists and from the link graph, the dictionary of
    link ids has no entry for [START] or [END] and is as before at every
    other id, and the two dictionaries that index the link graph are as
    before. *)
Theorem pathfind_leaves_no_trace (m m' : Map.t) (start_pos : Vec2D.t)
    (start_floor_num : Z) (end_pos : Vec2D.t) (end_floor_num : Z)
    (primary_algorithm link_algorithm : string) (precompute_link_dist : bool)
    (link_weight : Q) (paths : option (gmap (nat * Z) (list Z))) :
  Graph.wf (Map.link_graph m) ->
  Map.pathfind sqrt fuel m start_pos start_floor_num end_pos end_floor_num
               primary_algorithm link_algorithm precompute_link_dist link_weight
  = Returns (paths, m') ->
  Map.floors (Map.reset_nav_meshes m') = Map.floors m
  /\ Map.link_graph (Map.reset_nav_meshes m') = Map.link_graph m
  /\ Map.nav_meshes (Map.reset_nav_meshes m') = Map.nav_meshes m
  /\ Map.id_indexed_nodes (Map.reset_nav_meshes m') !! Map.START = None
  /\ Map.id_indexed_nodes (Map.reset_nav_meshes m') !! Map.END_ = None
  /\ (forall k, k <> Map.START -> k <> Map.END_ ->
        Map.id_indexed_nodes (Map.reset_nav_meshes m') !! k = Map.id_indexed_nodes m !! k)
  /\ Map.floor_indexed_nodes (Map.reset_nav_meshes m') = Map.floor_indexed_nodes m
  /\ Map.link_graph_id_indexed_nodes (Map.reset_nav_meshes m')
     = Map.link_graph_id_indexed_nodes m.
Proof.
  intros Hwf Hrun.
  destruct (pathfind_frame _ _ _ _ _ _ _ _ _ _ _ Hwf Hrun)
    as (_ & _ & _ & _ & H5 & H6 & H7 & _ & H9 & H10 & Hs & He & Hk).
  repeat split; assumption.
Qed.
End PathfindRestores.

(** A map of one floor whose navigation mesh is one triangular region, and a
    query between two points of the region. *)
Definition sample_mesh : NavMesh.t :=
  let walls :=
    Graph.set_edge
      (Graph.set_edge
         (Graph.set_edge
            (Graph.new [Vec2D.Vec2D 0 0; Vec2D.Vec2D 10 0; Vec2D.Vec2D 0 10] 1)
            0 1 1 true)
         1 2 1 true)
      2 0 1 true in
  NavMesh.mkNavMesh 0 walls [[0; 1; 2]%nat] [Vec2D.Vec2D (10 # 3) (10 # 3)]
                    (Graph.new [] 1) ∅ ∅.

Definition sample_map : Map.t :=
  Map.mkMap ∅ ∅ ∅ None {[ 0%Z := Floor.new true ]} {[ 0%Z := sample_mesh ]}
            (Graph.new [] 1).

Definition sample_query : outcome (option (gmap (nat * Z) (list Z)) * Map.t) :=
  Map.pathfind Qsqrt_floor 10 sample_map (Vec2D.Vec2D 1 1) 0 (Vec2D.Vec2D 5 1) 0
               Map.DIJKSTRA Map.BFS false 1.

Lemma pathfind_then_reset_restores_witness :
  exists paths m',
    sample_query = Returns (Some paths, m')
    /\ paths !! (0%nat, 0%Z) = Some [0%Z; 1%Z]
    /\ Map.floors m' = Map.floors sample_map
    /\ Map.link_graph m' = Map.link_graph sample_map
    /\ Map.floor_indexed_nodes m' = Map.floor_indexed_nodes sample_map
    /\ Map.link_graph_id_indexed_nodes m' = Map.link_graph_id_indexed_nodes sample_map
    /\ Map.floors (Map.reset_nav_meshes m') = Map.floors sample_map
    /\ Map.link_graph (Map.reset_nav_meshes m') = Map.link_graph sample_map
    /\ Map.nav_meshes (Map.reset_nav_meshes m') = Map.nav_meshes sample_map
    /\ Map.reset_data (Map.reset_nav_meshes m') = None
    /\ (Map.id_indexed_nodes sample_map !! Map.START = None ->
        Map.id_indexed_nodes sample_map !! Map.END_ = None ->
        Map.id_indexed_nodes (Map.reset_nav_meshes m') = Map.id_indexed_nodes sample_map).
Proof.
  destruct sample_query as [[[paths|] m']| |] eqn:E;
    try (vm_compute in E; discriminate E).
  exists paths, m'. split; [reflexivity|]. split.
  - vm_compute in E. injection E as <- _. vm_compute. reflexivity.
  - unfold sample_query in E.
    apply (pathfind_then_reset_restores Qsqrt_floor 10 sample_map m' _ _ _ _ _ _ _ _ _
             (wf_new [] 1) E).
Defined.

(** The same query, with the floor's link list before the call: empty, and
    so again after it, although the call appended two links. *)
Lemma pathfind_leaves_no_trace_witness :
  exists paths m',
    sample_query = Returns (Some paths, m')
    /\ Map.floors sample_map !! 0%Z = Some (Floor.new true)
    /\ Map.floors (Map.reset_nav_meshes m') = Map.floors sample_map
    /\ Map.link_graph (Map.reset_nav_meshes m') = Map.link_graph sample_map
    /\ Map.nav_meshes (Map.reset_nav_meshes m') = Map.nav_meshes sample_map
    /\ Map.id_indexed_nodes (Map.reset_nav_meshes m') !! Map.START = None
    /\ Map.id_indexed_nodes (Map.reset_nav_meshes m') !! Map.END_ = None.
Proof.
  destruct sample_query as [[[paths|] m']| |] eqn:E;
    try (vm_compute in E; discriminate E).
  exists paths, m'. split; [reflexivity|]. split; [reflexivity|].
  unfold sample_query in E.
  destruct (pathfind_leaves_no_trace Qsqrt_floor 10 sample_map m' _ _ _ _ _ _ _ _ _
              (wf_new [] 1) E) as (H1 & H2 & H3 & H4 & H5 & _).
  repeat split; assumption.
Defined.

(** ** Adding a link to a navigation mesh *)

Section NavMeshAddLink.
Variable sqrt : Q -> Q.

(** A property of the navigation graph that joining a vertex to the new
    one keeps. *)
Variable P : Graph.t -> Prop.
Hypothesis P_join_to_new : forall g vert_id, P g -> P (NavMesh.join_to_new sqrt g vert_id).

Lemma fold_join_to_new_keeps (vert_ids : list nat) :
  forall g, P g -> P (fold_left (NavMesh.join_to_new sqrt) vert_ids g).
Proof.
  induction vert_ids as [|v l IH]; intros g Hg; [exact Hg|].
  simpl. by apply IH, P_join_to_new.
Qed.

Lemma add_link_edges_keeps (g g' : Graph.t) (m : NavMesh.t) (region : list nat) :
  P g -> NavMesh.add_link_edges sqrt m region g = Returns g' -> P g'.
Proof.
  intros Hg Hrun. unfold NavMesh.add_link_edges in Hrun.
  refine (for_each_invariant P _ _ _ _ _ Hg Hrun).
  intros s a s' Hs Hbody. destruct (Qeqb _ 3).
  - apply bind_returns in Hbody as (vert_ids & _ & Hbody). injection Hbody as <-.
    by apply fold_join_to_new_keeps.
  - by injection Hbody as <-.
Qed.

Lemma add_link_regions_frame (point : Vec2D.t) (region_nums : list nat) :
  forall m m', P (NavMesh.nav_graph m) ->
    NavMesh.add_link_regions sqrt m point region_nums = Returns m' ->
    NavMesh.num_of_links m' = NavMesh.num_of_links m
    /\ NavMesh.nav_mesh m' = NavMesh.nav_mesh m
    /\ NavMesh.regions m' = NavMesh.regions m
    /\ NavMesh.region_positions m' = NavMesh.region_positions m
    /\ NavMesh.edge_vert_ids m' = NavMesh.edge_vert_ids m
    /\ P (NavMesh.nav_graph m').
Proof.
  induction region_nums as [|region_num rest IH]; intros m m' Hg Hrun; simpl in Hrun.
  - injection Hrun as <-. repeat (split; [reflexivity|]). exact Hg.
  - destruct (Vec2D.point_in_polygon _ _); [|by apply IH].
    destruct (NavMesh.region_indexed_links m !! region_num) as [vert_ids|];
      apply bind_returns in Hrun as (g & Hedges & Hrun); injection Hrun as <-; cbn;
      repeat (split; [reflexivity|]);
      (eapply add_link_edges_keeps; [|exact Hedges]);
      [by apply fold_join_to_new_keeps|exact Hg].
Qed.
End NavMeshAddLink.

(** [NavMesh.add_link] adds one vertex, the last, at the point given, to the
    navigation graph, with edges at this vertex only, and leaves the mesh and
    its regions alone.  The links stay the last [num_of_links] vertices of
    the navigation graph: the new link gets the new vertex, and the earlier
    links keep theirs. *)
Theorem nav_mesh_add_link_frame (sqrt : Q -> Q) (m m' : NavMesh.t) (point : Vec2D.t) :
  Graph.wf (NavMesh.nav_graph m) ->
  (NavMesh.num_of_links m <= Graph.vertices (NavMesh.nav_graph m))%nat ->
  NavMesh.add_link sqrt m point = Returns m' ->
  NavMesh.nav_mesh m' = NavMesh.nav_mesh m
  /\ NavMesh.regions m' = NavMesh.regions m
  /\ NavMesh.region_positions m' = NavMesh.region_positions m
  /\ NavMesh.edge_vert_ids m' = NavMesh.edge_vert_ids m
  /\ NavMesh.num_of_links m' = S (NavMesh.num_of_links m)
  /\ Graph.vertices (NavMesh.nav_graph m') = S (Graph.vertices (NavMesh.nav_graph m))
  /\ Graph.wf (NavMesh.nav_graph m')
  /\ Graph.delete_vertex (NavMesh.nav_graph m') (Graph.vertices (NavMesh.nav_graph m))
     = NavMesh.nav_graph m
  /\ Graph.vertex_positions (NavMesh.nav_graph m')
     = Graph.vertex_positions (NavMesh.nav_graph m) ++ [point]
  /\ NavMesh.get_nav_graph_link_id m' (NavMesh.num_of_links m)
     = Graph.vertices (NavMesh.nav_graph m)
  /\ forall link_num, NavMesh.get_nav_graph_link_id m' link_num
                      = NavMesh.get_nav_graph_link_id m link_num.
Proof.
  intros Hwf Hle Hrun. unfold NavMesh.add_link in Hrun.
  apply (add_link_regions_frame sqrt
           (fun g => grown (NavMesh.nav_graph m) g
                     /\ Graph.vertex_positions g
                        = Graph.vertex_positions (NavMesh.nav_graph m) ++ [point]))
    in Hrun.
  - cbn in Hrun.
    destruct Hrun as (Hn & Hmesh & Hreg & Hpos & Hids & (Hv & Hwf' & Hdel) & Hps).
    split; [exact Hmesh|]. split; [exact Hreg|]. split; [exact Hpos|]. split; [exact Hids|].
    split; [lia|]. split; [exact Hv|]. split; [exact Hwf'|]. split; [exact Hdel|].
    split; [exact Hps|].
    unfold NavMesh.get_nav_graph_link_id. rewrite Hn, Hv. split; [lia|intros; lia].
  - intros g vert_id [Hg Hps]. split; [|exact Hps].
    unfold NavMesh.join_to_new. apply grown_set_edge; [exact Hg|].
    right. destruct Hg as (Hv & _). lia.
  - cbn. split; [by apply grown_add_vertex|reflexivity].
Qed.

Lemma nav_mesh_add_link_frame_witness :
  exists m',
    NavMesh.add_link Qsqrt_floor sample_mesh (Vec2D.Vec2D 1 1) = Returns m'
    /\ NavMesh.nav_mesh m' = NavMesh.nav_mesh sample_mesh
    /\ NavMesh.regions m' = NavMesh.regions sample_mesh
    /\ NavMesh.region_positions m' = NavMesh.region_positions sample_mesh
    /\ NavMesh.edge_vert_ids m' = NavMesh.edge_vert_ids sample_mesh
    /\ NavMesh.num_of_links m' = S (NavMesh.num_of_links sample_mesh)
    /\ Graph.vertices (NavMesh.nav_graph m')
       = S (Graph.vertices (NavMesh.nav_graph sample_mesh))
    /\ Graph.wf (NavMesh.nav_graph m')
    /\ Graph.delete_vertex (NavMesh.nav_graph m')
         (Graph.vertices (NavMesh.nav_graph sample_mesh))
       = NavMesh.nav_graph sample_mesh
    /\ Graph.vertex_positions (NavMesh.nav_graph m')
       = Graph.vertex_positions (NavMesh.nav_graph sample_mesh) ++ [Vec2D.Vec2D 1 1]
    /\ NavMesh.get_nav_graph_link_id m' (NavMesh.num_of_links sample_mesh)
       = Graph.vertices (NavMesh.nav_graph sample_mesh)
    /\ forall link_num, NavMesh.get_nav_graph_link_id m' link_num
                        = NavMesh.get_nav_graph_link_id sample_mesh link_num.
Proof.
  destruct (NavMesh.add_link Qsqrt_floor sample_mesh (Vec2D.Vec2D 1 1)) as [m'| |] eqn:E;
    try (vm_compute in E; discriminate E).
  exists m'. split; [reflexivity|].
  apply (nav_mesh_add_link_frame Qsqrt_floor sample_mesh m' (Vec2D.Vec2D 1 1));
    [apply wf_new|vm_compute; lia|exact E].
Defined.

(** ** Following [prev] back from the target *)

(** [back_edges g l]: every vertex of [l] has an edge of [g] from the one
    that follows it. *)
Fixpoint back_edges (g : Graph.t) (l : list nat) : Prop :=
  match l with
  | a :: (b :: _) as rest => edge g b a /\ back_edges g rest
  | _ => True
  end.

Lemma tree_path_source_zero (g : Graph.t) (s : nat) (prev : list Z) (distances : list Q)
    (v : nat) :
  tree_path g s prev distances v -> distances !!! s = 0.
Proof. induction 1; assumption. Qed.

Lemma py_get_nat (l : list Z) (v : nat) :
  (v < length l)%nat -> py_get l (Z.of_nat v) = Returns (l !!! v).
Proof.
  intros Hv. unfold py_get, py_index.
  replace (0 <=? Z.of_nat v)%Z with true by (symmetry; apply Z.leb_le; lia).
  replace (Z.of_nat v <? Z.of_nat (length l))%Z with true by (symmetry; apply Z.ltb_lt; lia).
  cbn [andb mbind outcome_bind]. by rewrite Nat2Z.id.
Qed.

(** The loop [while path[-1] != stop: path.append(prev[path[-1]])] of
    [pathfind], run on a tree of predecessors, walks back to the source. *)
Lemma follow_prev_tree_path (g : Graph.t) (s : nat) (prev : list Z) (distances : list Q)
    (v : nat) :
  length prev = Graph.vertices g ->
  tree_path g s prev distances v ->
  forall pre, exists steps0 chain,
    (forall steps, (steps0 <= steps)%nat ->
       Map.follow_prev steps prev (Z.of_nat s) (pre ++ [Z.of_nat v])
       = Returns (pre ++ map Z.of_nat (v :: chain)))
    /\ last (v :: chain) = Some s /\ back_edges g (v :: chain).
Proof.
  intros Hlen Hp. pose proof (tree_path_source_zero _ _ _ _ _ Hp) as Hzero.
  induction Hp as [Hs E|u v Hp IH He Eprev E]; intros pre.
  - exists 1%nat, []. split; [|by split].
    intros [|steps] Hsteps; [lia|]. cbn [Map.follow_prev]. rewrite last_snoc.
    by rewrite Z.eqb_refl.
  - destruct (IH (pre ++ [Z.of_nat v])) as (steps0 & chain & Hrun & Hlast & Hedges).
    exists (S steps0), (u :: chain). split; [|split].
    + intros [|steps] Hsteps; [lia|]. cbn [Map.follow_prev]. rewrite last_snoc.
      assert (Hvs : v <> s).
      { intros ->. pose proof (tree_path_walk _ _ _ _ _ Hp) as Hw.
        apply walk_nonneg in Hw. destruct He as (_ & _ & He).
        apply edge_weight_pos in He. rewrite Hzero in E.
        assert (0 == distances !!! u + Graph.get_edge_val g u s) by (by rewrite <- E).
        lra. }
      replace (Z.of_nat v =? Z.of_nat s)%Z with false by (symmetry; apply Z.eqb_neq; lia).
      rewrite py_get_nat by (destruct He as (_ & Hv & _); lia).
      cbn [mbind outcome_bind]. rewrite Eprev, Hrun by lia.
      by rewrite <- app_assoc.
    + exact Hlast.
    + split; assumption.
Qed.

(** When the target is another vertex and can be reached, the predecessor
    list of [greedy] leads the reconstruction loop of [pathfind] from the
    target back to the source along edges of the graph. *)
Theorem greedy_path_reconstruction (sqrt : Q -> Q) (g : Graph.t) (vert1_id vert2_id : nat) :
  (vert1_id < Graph.vertices g)%nat -> (vert2_id < Graph.vertices g)%nat ->
  vert1_id <> vert2_id -> reachable g vert1_id vert2_id ->
  exists prev distances chain steps0,
    (forall fuel, (2 * Graph.vertices g <= fuel)%nat ->
       Graph.greedy sqrt fuel g vert1_id vert2_id = Returns (Some (prev, distances)))
    /\ (forall steps, (steps0 <= steps)%nat ->
          Map.follow_prev steps prev (Z.of_nat vert1_id) [Z.of_nat vert2_id]
          = Returns (map Z.of_nat (vert2_id :: chain)))
    /\ last (vert2_id :: chain) = Some vert1_id
    /\ back_edges g (vert2_id :: chain).
Proof.
  intros Hs Ht Hne Hreach.
  destruct (greedy_returns sqrt g vert1_id vert2_id Hs Ht) as (r & Hr & Hrun).
  destruct r as [[prev distances]|]; [|by destruct Hr].
  destruct Hr as (_ & Hlen & Hp). cbn [fst snd] in Hlen, Hp.
  destruct (follow_prev_tree_path g vert1_id prev distances vert2_id Hlen Hp [])
    as (steps0 & chain & Hfollow & Hlast & Hedges).
  exists prev, distances, chain, steps0. by repeat split.
Qed.

Lemma greedy_path_reconstruction_witness :
  Map.follow_prev 5 [0; 0; 0]%Z 0 [1%Z] = Returns [1; 0]%Z
  /\ exists prev distances chain steps0,
    (forall fuel, (2 * Graph.vertices route_graph <= fuel)%nat ->
       Graph.greedy Qsqrt_floor fuel route_graph 0 1 = Returns (Some (prev, distances)))
    /\ (forall steps, (steps0 <= steps)%nat ->
          Map.follow_prev steps prev (Z.of_nat 0) [Z.of_nat 1]
          = Returns (map Z.of_nat (1%nat :: chain)))
    /\ last (1%nat :: chain) = Some 0%nat
    /\ back_edges route_graph (1%nat :: chain).
Proof.
  split; [vm_compute; reflexivity|].
  apply (greedy_path_reconstruction Qsqrt_floor route_graph 0 1);
    [vm_compute; lia|vm_compute; lia|discriminate|exact route_graph_reachable].
Defined.

(** ** Points computed on lines, in exact arithmetic *)

Lemma py_min_le (a b : Q) : py_min a b <= a /\ py_min a b <= b.
Proof.
  unfold py_min. destruct (Qltb b a) eqn:E.
  - apply Qltb_lt in E. lra.
  - apply Qltb_ge in E. lra.
Qed.

Lemma py_max_ge (a b : Q) : a <= py_max a b /\ b <= py_max a b.
Proof.
  unfold py_max. destruct (Qltb a b) eqn:E.
  - apply Qltb_lt in E. lra.
  - apply Qltb_ge in E. lra.
Qed.

(** The point where two lines of different gradients meet lies on both. *)
Lemma lines_meet (vx1 vy1 vx2 vy2 sx1 sy1 sx2 sy2 : Q) :
  ~ vx1 == 0 -> ~ vx2 == 0 -> ~ vy1 / vx1 == vy2 / vx2 ->
  let c1 := sy1 - sx1 * (vy1 / vx1) in
  let c2 := sy2 - sx2 * (vy2 / vx2) in
  let px := (c2 - c1) / (vy1 / vx1 - vy2 / vx2) in
  let py := vy1 / vx1 * px + c1 in
  vx1 * (py - sy1) - vy1 * (px - sx1) == 0
  /\ vx2 * (py - sy2) - vy2 * (px - sx2) == 0.
Proof.
  intros H1 H2 Hne.
  remember (vy1 / vx1) as m1 eqn:Em1. remember (vy2 / vx2) as m2 eqn:Em2.
  assert (Hm1 : vy1 == m1 * vx1) by (subst m1; field; exact H1).
  assert (Hm2 : vy2 == m2 * vx2) by (subst m2; field; exact H2).
  clear Em1 Em2. intros c1 c2 px py.
  assert (Hd : ~ m1 - m2 == 0) by (intros E; apply Hne; lra).
  assert (Hpx : px * (m1 - m2) == c2 - c1) by (unfold px; field; exact Hd).
  clearbody px. subst py. split.
  - rewrite Hm1. unfold c1. ring.
  - rewrite Hm2.
    assert (E : vx2 * (m1 * px + c1 - sy2) - m2 * vx2 * (px - sx2)
                == vx2 * (px * (m1 - m2) - (c2 - c1))) by (unfold c2; ring).
    rewrite E, Hpx. ring.
Qed.

(** In exact arithmetic: when [intersect] gives a point, the point lies on
    the lines of both segments and inside the bounding box of each, that is
    on both segments.  (For binary64 see [intersect_misses_crossing].) *)
Theorem intersect_point_on_both_segments (a b c d p : Vec2D.t) :
  Vec2D.intersect a b c d = (true, Some p) ->
  Vec2D.perp_dot_prod (Vec2D.sub b a) (Vec2D.sub p a) == 0
  /\ Vec2D.perp_dot_prod (Vec2D.sub d c) (Vec2D.sub p c) == 0
  /\ (py_min (Vec2D.x a) (Vec2D.x b) <= Vec2D.x p <= py_max (Vec2D.x a) (Vec2D.x b))
  /\ (py_min (Vec2D.y a) (Vec2D.y b) <= Vec2D.y p <= py_max (Vec2D.y a) (Vec2D.y b))
  /\ (py_min (Vec2D.x c) (Vec2D.x d) <= Vec2D.x p <= py_max (Vec2D.x c) (Vec2D.x d))
  /\ (py_min (Vec2D.y c) (Vec2D.y d) <= Vec2D.y p <= py_max (Vec2D.y c) (Vec2D.y d)).
Proof.
  intros H. unfold Vec2D.intersect in H. cbv zeta in H.
  destruct (Qleb _ _ || Qleb _ _) eqn:E1 in H; [discriminate|]. clear E1.
  destruct (Qleb _ _ || Qleb _ _) eqn:E2 in H; [discriminate|]. clear E2.
  destruct (Qeqb _ 0 || Qeqb _ 0) eqn:E3 in H; [discriminate|].
  destruct (Qeqb _ _) eqn:E4 in H; [destruct (Qeqb _ _) in H; discriminate|].
  destruct (Qltb _ _ || Qltb _ _) eqn:E5 in H; [discriminate|].
  destruct (Qltb _ _ || Qltb _ _) eqn:E6 in H; [discriminate|].
  injection H as <-.
  apply orb_false_iff in E3 as [E3a E3b]. apply Qeqb_neq in E3a, E3b, E4.
  apply orb_false_iff in E5 as [E5a E5b]. apply Qltb_ge in E5a, E5b.
  apply orb_false_iff in E6 as [E6a E6b]. apply Qltb_ge in E6a, E6b.
  cbn [Vec2D.sub Vec2D.x Vec2D.y] in *.
  pose proof (lines_meet _ _ _ _ (Vec2D.x a) (Vec2D.y a) (Vec2D.x c) (Vec2D.y c) E3a E3b E4)
    as Hmeet.
  cbv zeta in Hmeet. destruct Hmeet as [L1 L2].
  unfold Vec2D.perp_dot_prod. cbn [Vec2D.sub Vec2D.x Vec2D.y].
  split; [exact L1|]. split; [exact L2|].
  pose proof (py_max_ge (py_min (Vec2D.x a) (Vec2D.x b)) (py_min (Vec2D.x c) (Vec2D.x d))).
  pose proof (py_min_le (py_max (Vec2D.x a) (Vec2D.x b)) (py_max (Vec2D.x c) (Vec2D.x d))).
  pose proof (py_max_ge (py_min (Vec2D.y a) (Vec2D.y b)) (py_min (Vec2D.y c) (Vec2D.y d))).
  pose proof (py_min_le (py_max (Vec2D.y a) (Vec2D.y b)) (py_max (Vec2D.y c) (Vec2D.y d))).
  repeat split; lra.
Qed.

Lemma intersect_point_on_both_segments_witness :
  let a := Vec2D.Vec2D 0 0 in
  let b := Vec2D.Vec2D 2 2 in
  let c := Vec2D.Vec2D 0 2 in
  let d := Vec2D.Vec2D 2 0 in
  exists p,
    Vec2D.intersect a b c d = (true, Some p)
    /\ Vec2D.x p == 1 /\ Vec2D.y p == 1
    /\ Vec2D.perp_dot_prod (Vec2D.sub b a) (Vec2D.sub p a) == 0
    /\ Vec2D.perp_dot_prod (Vec2D.sub d c) (Vec2D.sub p c) == 0
    /\ (py_min (Vec2D.x a) (Vec2D.x b) <= Vec2D.x p <= py_max (Vec2D.x a) (Vec2D.x b))
    /\ (py_min (Vec2D.y a) (Vec2D.y b) <= Vec2D.y p <= py_max (Vec2D.y a) (Vec2D.y b))
    /\ (py_min (Vec2D.x c) (Vec2D.x d) <= Vec2D.x p <= py_max (Vec2D.x c) (Vec2D.x d))
    /\ (py_min (Vec2D.y c) (Vec2D.y d) <= Vec2D.y p <= py_max (Vec2D.y c) (Vec2D.y d)).
Proof.
  intros a b c d.
  destruct (Vec2D.intersect a b c d) as [[|] [p|]] eqn:E;
    try (vm_compute in E; discriminate E).
  exists p. split; [reflexivity|].
  split; [vm_compute in E; injection E as <-; vm_compute; reflexivity|].
  split; [vm_compute in E; injection E as <-; vm_compute; reflexivity|].
  exact (intersect_point_on_both_segments a b c d p E).
Defined.

Lemma Qsq_pos (a : Q) : ~ a == 0 -> 0 < a * a.
Proof.
  intros Ha. destruct (Qlt_le_dec a 0) as [H|H].
  - assert (E : a * a == (- a) * (- a)) by ring.
    rewrite E. apply Qmult_lt_0_compat; lra.
  - assert (0 < a) by (apply Qle_lteq in H as [H|H]; [exact H|by destruct Ha]).
    by apply Qmult_lt_0_compat.
Qed.

(** In exact arithmetic the point that [__get_closest_point_vector] gives
    lies on the line through the two ends of the wall, and the line from it
    to the point given is perpendicular to the wall: it is the foot of the
    perpendicular (for a vertical or horizontal wall too).  (For binary64
    see [closest_point_near_foot].) *)
Theorem closest_point_is_foot (wall_start_pos wall_end_pos point_pos : Vec2D.t) :
  let p := Vec2D.get_closest_point_vector wall_start_pos wall_end_pos point_pos in
  Vec2D.perp_dot_prod (Vec2D.sub wall_end_pos wall_start_pos) (Vec2D.sub p wall_start_pos)
  == 0
  /\ Vec2D.dot_prod (Vec2D.sub point_pos p) (Vec2D.sub wall_end_pos wall_start_pos) == 0.
Proof.
  destruct wall_start_pos as [xa ya], wall_end_pos as [xb yb], point_pos as [qx qy].
  unfold Vec2D.get_closest_point_vector. cbn [Vec2D.x Vec2D.y Vec2D.sub].
  destruct (Qeqb (xb - xa) 0) eqn:E1.
  - apply Qeqb_eq in E1. unfold Vec2D.perp_dot_prod, Vec2D.dot_prod.
    cbn [Vec2D.x Vec2D.y Vec2D.sub]. rewrite E1. split; ring.
  - destruct (Qeqb (yb - ya) 0) eqn:E2.
    + apply Qeqb_eq in E2. unfold Vec2D.perp_dot_prod, Vec2D.dot_prod.
      cbn [Vec2D.x Vec2D.y Vec2D.sub]. rewrite E2. split; ring.
    + apply Qeqb_neq in E1, E2. cbv zeta.
      unfold Vec2D.perp_dot_prod, Vec2D.dot_prod. cbn [Vec2D.x Vec2D.y Vec2D.sub].
      assert (Hsum : ~ (yb - ya) * (yb - ya) - -1 * (xb - xa) * (xb - xa) == 0).
      { pose proof (Qsq_pos _ E1). pose proof (Qsq_nonneg (yb - ya)). lra. }
      split; field; auto.
Qed.

(** In exact arithmetic [lerp] gives a point of the line through its two
    arguments: the first at factor 0, the second at factor 1.  (For
    binary64 see [lerp_near_line].) *)
Theorem lerp_on_line (vec1 vec2 : Vec2D.t) (lerp_factor : Q) :
  Vec2D.perp_dot_prod (Vec2D.sub vec2 vec1)
                      (Vec2D.sub (Vec2D.lerp vec1 vec2 lerp_factor) vec1) == 0
  /\ Vec2D.x (Vec2D.lerp vec1 vec2 0) == Vec2D.x vec1
  /\ Vec2D.y (Vec2D.lerp vec1 vec2 0) == Vec2D.y vec1
  /\ Vec2D.x (Vec2D.lerp vec1 vec2 1) == Vec2D.x vec2
  /\ Vec2D.y (Vec2D.lerp vec1 vec2 1) == Vec2D.y vec2.
Proof.
  destruct vec1 as [x1 y1], vec2 as [x2 y2].
  unfold Vec2D.lerp, Vec2D.perp_dot_prod, Vec2D.add, Vec2D.scalar_multiply, Vec2D.sub.
  cbn [Vec2D.x Vec2D.y]. repeat split; ring.
Qed.

(** ** Points computed on lines, in binary64 *)

(** The point with the exact coordinates of a float point. *)
Definition exact_point (v : Binary64.Vec2D.t) : Vec2D.t :=
  Vec2D.Vec2D (Binary64.exact_value (Binary64.Vec2D.x v))
              (Binary64.exact_value (Binary64.Vec2D.y v)).

(** In binary64 [intersect] misses a crossing.  The segment from (0.25, 0)
    to (1, 0.5) and the horizontal segment from (0, 0.25) to (1, 0.25) cross
    at (0.625, 0.25), half way along the first and five eighths along the
    second; all six numbers are floats.  [intersect] computes the ordinate
    of the crossing as 0.24999999999999997, below the horizontal segment,
    and returns (False, None); over exact rationals it returns (True, point)
    with the crossing. *)
Theorem intersect_misses_crossing :
  let a := Binary64.Vec2D.Vec2D 0x1p-2 0 in
  let b := Binary64.Vec2D.Vec2D 1 0x1p-1 in
  let c := Binary64.Vec2D.Vec2D 0 0x1p-2 in
  let d := Binary64.Vec2D.Vec2D 1 0x1p-2 in
  Binary64.Vec2D.intersect a b c d = Returns (false, None)
  /\ (exists line1_grad line1_intercept intersect_x,
        Binary64.py_div 0x1p-1 0x1.8p-1 = Returns line1_grad
        /\ line1_intercept = (0 - 0x1p-2 * line1_grad)%float
        /\ Binary64.py_div (0x1p-2 - line1_intercept) (line1_grad - 0) = Returns intersect_x
        /\ (line1_grad * intersect_x + line1_intercept)%float = 0x1.fffffffffffffp-3%float
        /\ (0x1.fffffffffffffp-3 <? 0x1p-2)%float = true)
  /\ exact_point a = Vec2D.Vec2D (1 # 4) 0
  /\ exact_point b = Vec2D.Vec2D 1 (1 # 2)
  /\ exact_point c = Vec2D.Vec2D 0 (1 # 4)
  /\ exact_point d = Vec2D.Vec2D 1 (1 # 4)
  /\ Vec2D.x (Vec2D.lerp (exact_point a) (exact_point b) (1 # 2)) == 5 # 8
  /\ Vec2D.y (Vec2D.lerp (exact_point a) (exact_point b) (1 # 2)) == 1 # 4
  /\ Vec2D.x (Vec2D.lerp (exact_point c) (exact_point d) (5 # 8)) == 5 # 8
  /\ Vec2D.y (Vec2D.lerp (exact_point c) (exact_point d) (5 # 8)) == 1 # 4
  /\ exists p,
       Vec2D.intersect (exact_point a) (exact_point b) (exact_point c) (exact_point d)
       = (true, Some p)
       /\ Vec2D.x p == 5 # 8 /\ Vec2D.y p == 1 # 4.
Proof.
  intros a b c d. split; [vm_compute; reflexivity|]. split.
  { do 3 eexists. repeat split; vm_compute; reflexivity. }
  do 8 (split; [vm_compute; reflexivity|]).
  eexists. split; [vm_compute; reflexivity|]. split; vm_compute; reflexivity.
Qed.

(** In binary64 the point [__get_closest_point_vector] returns is near the
    foot of the perpendicular, not on it: for the wall from (0, 0) to (7, 3)
    and the point (2, 5) the foot is (7/2, 3/2); the code returns
    (3.5000000000000004, 1.5), which is off the line of the wall and whose
    join to (2, 5) is not perpendicular to the wall. *)
Theorem closest_point_near_foot :
  let wall_start_pos := Binary64.Vec2D.Vec2D 0 0 in
  let wall_end_pos := Binary64.Vec2D.Vec2D 7 3 in
  let point_pos := Binary64.Vec2D.Vec2D 2 5 in
  let point := Binary64.Vec2D.Vec2D 0x1.c000000000001p+1 0x1.8p+0 in
  Binary64.Vec2D.get_closest_point_vector wall_start_pos wall_end_pos point_pos
  = Returns point
  /\ Vec2D.get_closest_point_vector (exact_point wall_start_pos) (exact_point wall_end_pos)
       (exact_point point_pos)
     = Vec2D.Vec2D (4263 # 1218) (89523 # 59682)
  /\ 4263 # 1218 == 7 # 2 /\ 89523 # 59682 == 3 # 2
  /\ ~ Vec2D.perp_dot_prod
         (Vec2D.sub (exact_point point) (exact_point wall_start_pos))
         (Vec2D.sub (exact_point wall_end_pos) (exact_point wall_start_pos)) == 0
  /\ ~ Vec2D.dot_prod
         (Vec2D.sub (exact_point point_pos) (exact_point point))
         (Vec2D.sub (exact_point wall_end_pos) (exact_point wall_start_pos)) == 0
  /\ (Binary64.Vec2D.perp_dot_prod
        (Binary64.Vec2D.sub point wall_start_pos)
        (Binary64.Vec2D.sub wall_end_pos wall_start_pos) =? 0)%float = false
  /\ (Binary64.Vec2D.dot_prod
        (Binary64.Vec2D.sub point_pos point)
        (Binary64.Vec2D.sub wall_end_pos wall_start_pos) =? 0)%float = false.
Proof.
  intros wall_start_pos wall_end_pos point_pos point.
  repeat split; try (vm_compute; reflexivity); vm_compute; intros H; discriminate H.
Qed.

(** In binary64 [lerp] leaves the line through its two points: from (0, 0)
    to (3, 7) with the float nearest to 0.1 as factor it returns
    (0.30000000000000004, 0.7000000000000001), and 7 times the first
    coordinate is not 3 times the second; over exact rationals the point for
    the same factor is on the line. *)
Theorem lerp_near_line :
  let vec1 := Binary64.Vec2D.Vec2D 0 0 in
  let vec2 := Binary64.Vec2D.Vec2D 3 7 in
  let lerp_factor := 0x1.999999999999ap-4%float in
  let point := Binary64.Vec2D.Vec2D 0x1.3333333333334p-2 0x1.6666666666667p-1 in
  Binary64.Vec2D.lerp vec1 vec2 lerp_factor = point
  /\ ~ Vec2D.perp_dot_prod (Vec2D.sub (exact_point point) (exact_point vec1))
                           (Vec2D.sub (exact_point vec2) (exact_point vec1)) == 0
  /\ (Binary64.Vec2D.perp_dot_prod (Binary64.Vec2D.sub point vec1)
                                   (Binary64.Vec2D.sub vec2 vec1) =? 0)%float = false
  /\ Vec2D.perp_dot_prod
       (Vec2D.sub (Vec2D.lerp (exact_point vec1) (exact_point vec2)
                              (Binary64.exact_value lerp_factor))
                  (exact_point vec1))
       (Vec2D.sub (exact_point vec2) (exact_point vec1)) == 0.
Proof.
  intros vec1 vec2 lerp_factor point.
  repeat split; try (vm_compute; reflexivity); vm_compute; intros H; discriminate H.
Qed.

(** ** Reading back an edge, and undoing a new vertex *)

(** After [set_edge(u, v, w)] on a graph, [get_edge_val] gives [w] at
    [(u, v)], and at [(v, u)] when the edge is set in both directions, and
    what it gave before everywhere else. *)
Theorem get_edge_val_after_set_edge (g : Graph.t) (u v i j : nat) (w : Q) (b : bool) :
  Graph.wf g -> (u < Graph.vertices g)%nat -> (v < Graph.vertices g)%nat ->
  Graph.get_edge_val (Graph.set_edge g u v w b) i j
  = if bool_decide ((i, j) = (u, v) \/ (b = true /\ (i, j) = (v, u)))
    then w else Graph.get_edge_val g i j.
Proof.
  intros [Hlen Hrows] Hu Hv. unfold Graph.get_edge_val, Graph.set_edge.
  cbn [Graph.adjacency_matrix]. case_bool_decide as Hd.
  - destruct Hd as [[= -> ->]|[-> [= -> ->]]].
    + by apply (get_set_item _ _ _ _ _ (Graph.vertices g)).
    + by apply (get_set_item_mirror _ _ _ _ (Graph.vertices g)).
  - apply get_set_item_other.
    + intros E. apply Hd. by left.
    + intros Eb E. apply Hd. by right.
Qed.

Lemma get_edge_val_after_set_edge_witness :
  Graph.get_edge_val (Graph.set_edge route_graph 0 1 5 true) 1 0
  = (if bool_decide ((1, 0) = (0, 1) \/ (true = true /\ (1, 0) = (1, 0)))%nat
     then 5 else Graph.get_edge_val route_graph 1 0).
Proof.
  apply (get_edge_val_after_set_edge route_graph 0 1 1 0 5 true).
  - unfold route_graph. repeat apply wf_set_edge. apply wf_new.
  - vm_compute. lia.
  - vm_compute. lia.
Defined.

(** Deleting the vertex that [add_vertex] added undoes [add_vertex] and every
    [set_edge] at the new vertex made since. *)
Theorem delete_vertex_undoes_add_vertex (g : Graph.t) (position : Vec2D.t)
    (calls : list (nat * nat * Q * bool)) :
  Graph.wf g ->
  Forall (fun c => c.1.1.1 = Graph.vertices g \/ c.1.1.2 = Graph.vertices g) calls ->
  Graph.delete_vertex
    (fold_left (fun g' c => Graph.set_edge g' c.1.1.1 c.1.1.2 c.1.2 c.2) calls
               (Graph.add_vertex g position))
    (Graph.vertices g)
  = g.
Proof.
  intros Hwf Hcalls.
  assert (Hfold : forall g', grown g g' ->
            grown g (fold_left (fun g' c => Graph.set_edge g' c.1.1.1 c.1.1.2 c.1.2 c.2)
                               calls g')).
  { induction Hcalls as [|c calls Hc Hcalls IH]; intros g' Hg'; [exact Hg'|].
    simpl. apply IH. by apply grown_set_edge. }
  by destruct (Hfold _ (grown_add_vertex g position Hwf)) as (_ & _ & Hdel).
Qed.

Lemma route_graph_wf : Graph.wf route_graph.
Proof. unfold route_graph. repeat apply wf_set_edge. apply wf_new. Qed.

Lemma delete_vertex_undoes_add_vertex_witness :
  Graph.delete_vertex
    (fold_left (fun g' c => Graph.set_edge g' c.1.1.1 c.1.1.2 c.1.2 c.2)
               [(3%nat, 0%nat, 5, true); (1%nat, 3%nat, 2, false)]
               (Graph.add_vertex route_graph (Vec2D.Vec2D 1 1)))
    (Graph.vertices route_graph)
  = route_graph.
Proof.
  apply (delete_vertex_undoes_add_vertex route_graph (Vec2D.Vec2D 1 1)); [exact route_graph_wf|].
  constructor; [left; reflexivity|]. constructor; [right; reflexivity|]. constructor.
Defined.

(** ** First in first out, last in first out *)

(** [dequeue] called [n] times. *)
Fixpoint dequeue_many (n : nat) (q : DynamicQueue.t) : outcome (list nat * DynamicQueue.t) :=
  match n with
  | O => Returns ([], q)
  | S n' =>
      '(x, q1) ← DynamicQueue.dequeue q;
      '(xs, q2) ← dequeue_many n' q1;
      Returns (x :: xs, q2)
  end.

(** [pop] called [n] times. *)
Fixpoint pop_many (n : nat) (s : DynamicStack.t) : outcome (list nat * DynamicStack.t) :=
  match n with
  | O => Returns ([], s)
  | S n' =>
      '(x, s1) ← DynamicStack.pop s;
      '(xs, s2) ← pop_many n' s1;
      Returns (x :: xs, s2)
  end.

Lemma dequeue_many_pending (n : nat) :
  forall q, (DynamicQueue.back_pointer q <= length (DynamicQueue.queue_data q))%nat ->
    length (pending q) = n ->
    exists q', dequeue_many n q = Returns (pending q, q')
               /\ DynamicQueue.empty q' = true /\ DynamicQueue.dequeue q' = Raises.
Proof.
  induction n as [|n IH]; intros q Hback Hlen.
  - apply nil_length_inv in Hlen. exists q. simpl. rewrite Hlen.
    apply queue_empty_pending in Hlen; [|exact Hback].
    split; [reflexivity|]. split; [exact Hlen|]. unfold DynamicQueue.dequeue. by rewrite Hlen.
  - assert (Eempty : DynamicQueue.empty q = false).
    { destruct (DynamicQueue.empty q) eqn:E; [|reflexivity].
      apply queue_empty_pending in E; [|exact Hback]. rewrite E in Hlen. discriminate. }
    destruct (queue_dequeue_pending q Hback Eempty) as (x & q1 & Edeq & Epend & Hback1).
    rewrite Epend in Hlen. injection Hlen as Hlen.
    destruct (IH q1 Hback1 Hlen) as (q' & Hrun & Hempty & Hraise).
    exists q'. cbn [dequeue_many]. rewrite Edeq. cbn [mbind outcome_bind].
    rewrite Hrun. cbn [mbind outcome_bind]. by rewrite Epend.
Qed.

Lemma pending_enqueue_all (items : list nat) :
  forall q, (DynamicQueue.back_pointer q <= length (DynamicQueue.queue_data q))%nat ->
    pending (fold_left DynamicQueue.enqueue items q) = pending q ++ items
    /\ (DynamicQueue.back_pointer (fold_left DynamicQueue.enqueue items q)
        <= length (DynamicQueue.queue_data (fold_left DynamicQueue.enqueue items q)))%nat.
Proof.
  induction items as [|x items IH]; intros q Hback; simpl.
  - by rewrite app_nil_r.
  - destruct (IH (DynamicQueue.enqueue q x)) as [E Hb].
    { simpl. rewrite length_app. simpl. lia. }
    split; [|exact Hb]. rewrite E, pending_enqueue by exact Hback. by rewrite <- app_assoc.
Qed.

(** A queue gives its items back in the order of their arrival: after any
    dequeues, enqueueing a list of items and then dequeueing everything
    gives what was left in the queue followed by the list, and one more
    [dequeue] raises. *)
Theorem queue_first_in_first_out (q : DynamicQueue.t) (items : list nat) :
  (DynamicQueue.back_pointer q <= length (DynamicQueue.queue_data q))%nat ->
  exists q',
    dequeue_many (length (pending q) + length items)
                 (fold_left DynamicQueue.enqueue items q)
    = Returns (pending q ++ items, q')
    /\ DynamicQueue.empty q' = true /\ DynamicQueue.dequeue q' = Raises.
Proof.
  intros Hback. destruct (pending_enqueue_all items q Hback) as [E Hb].
  destruct (dequeue_many_pending (length (pending q) + length items) _ Hb)
    as (q' & Hrun & Hempty & Hraise).
  { by rewrite E, length_app. }
  exists q'. by rewrite <- E.
Qed.

Lemma queue_first_in_first_out_witness :
  exists q',
    dequeue_many (length (pending DynamicQueue.new) + length [4; 7; 1]%nat)
                 (fold_left DynamicQueue.enqueue [4; 7; 1]%nat DynamicQueue.new)
    = Returns (pending DynamicQueue.new ++ [4; 7; 1]%nat, q')
    /\ DynamicQueue.empty q' = true /\ DynamicQueue.dequeue q' = Raises.
Proof. apply (queue_first_in_first_out DynamicQueue.new [4; 7; 1]%nat). simpl. lia. Defined.

Lemma pop_push (s : DynamicStack.t) (x : nat) :
  DynamicStack.pop (DynamicStack.push s x) = Returns (x, s).
Proof.
  destruct s as [l]. unfold DynamicStack.pop, DynamicStack.push.
  cbn [DynamicStack.stack_data]. by rewrite last_snoc, removelast_last.
Qed.

(** A stack gives its items back in the reverse order of their arrival:
    pushing a list of items and popping as many gives the list reversed and
    the stack as it was; [pop] on the new stack raises. *)
Theorem stack_last_in_first_out (s : DynamicStack.t) (items : list nat) :
  pop_many (length items) (fold_left DynamicStack.push items s) = Returns (rev items, s)
  /\ DynamicStack.pop DynamicStack.new = Raises.
Proof.
  split; [|reflexivity].
  revert s. induction items as [|x items IH] using rev_ind; intros s; [reflexivity|].
  rewrite fold_left_app, length_app, Nat.add_1_r, rev_unit. cbn [fold_left pop_many].
  rewrite pop_push. cbn [mbind outcome_bind]. by rewrite IH.
Qed.

(** ** What [add_wall] keeps *)

Lemma place_vertex_links (f : Floor.t) (p : Vec2D.t) :
  Floor.links (Floor.place_vertex f p).2 = Floor.links f.
Proof.
  unfold Floor.place_vertex.
  destruct (Floor.place_vertex_case_1 _ _ _); [reflexivity|].
  destruct (Floor.place_vertex_case_2 _ _ _) as [[v f']|] eqn:E2; [|reflexivity].
  by apply place_vertex_case_2_split in E2 as (q & v1 & v2 & -> & ->).
Qed.

(** Where [__check_if_remove] returns, the vertex is in the graph and the
    total [check_if_remove] gives the same pair. *)
Lemma check_if_remove_outcome_returns (f : Floor.t) (vert_id : nat) (r : bool * Floor.t) :
  Floor.check_if_remove_outcome f vert_id = Returns r ->
  (vert_id < Graph.vertices (Floor.walls f))%nat /\ Floor.check_if_remove f vert_id = r.
Proof.
  unfold Floor.check_if_remove_outcome, Floor.check_if_remove.
  destruct (Graph.vertices (Floor.walls f) <=? vert_id)%nat eqn:E; [discriminate|].
  apply Nat.leb_gt in E.
  destruct (existsb _ _); intros [= <-]; by split.
Qed.

Lemma check_if_remove_outcome_keeps (f f' : Floor.t) (vert_id : nat) (removed : bool) :
  Graph.wf (Floor.walls f) ->
  Floor.check_if_remove_outcome f vert_id = Returns (removed, f') ->
  Graph.wf (Floor.walls f') /\ Floor.links f' = Floor.links f.
Proof.
  intros Hwf. unfold Floor.check_if_remove_outcome.
  destruct (Graph.vertices (Floor.walls f) <=? vert_id)%nat eqn:E; [discriminate|].
  apply Nat.leb_gt in E.
  destruct (existsb _ _); intros [= <- <-]; cbn; [by split|].
  split; [by apply wf_delete_vertex|reflexivity].
Qed.

(** Where [add_wall] returns, the total [Floor.add_wall] gives the same
    pair. *)
Lemma add_wall_outcome_returns (f : Floor.t) (wall_start_pos wall_end_pos : Vec2D.t)
    (r : bool * Floor.t) :
  Floor.add_wall_outcome f wall_start_pos wall_end_pos = Returns r ->
  Floor.add_wall f wall_start_pos wall_end_pos = r.
Proof.
  unfold Floor.add_wall_outcome, Floor.add_wall.
  destruct (Qltb _ Floor.THRESHOLD_DIST); [by intros [= <-]|].
  destruct (Floor.place_vertex f wall_start_pos) as [i f1].
  destruct (Floor.place_vertex f1 wall_end_pos) as [j f2].
  destruct (Floor.check_for_intersections _ _ _ _).
  - destruct (Floor.check_if_remove_outcome f2 i) as [[removed f3]| |] eqn:E1;
      cbn; try discriminate.
    apply check_if_remove_outcome_returns in E1 as [_ ->].
    match goal with
    | |- context [Floor.check_if_remove_outcome f3 ?v] =>
        destruct (Floor.check_if_remove_outcome f3 v) as [[removed' f4]| |] eqn:E2
    end; cbn; try discriminate.
    apply check_if_remove_outcome_returns in E2 as [_ ->]. by intros [= <-].
  - destruct (Floor.on_floor_edge _ _); by intros [= <-].
Qed.

(** Whenever [add_wall] returns, whether it accepts the wall or not, the
    wall graph is still a square matrix of its vertex count and the links
    of the floor are untouched.  (It does not always return: see
    [add_wall_clean_up_raises].) *)
Theorem add_wall_keeps_floor_invariants (f f' : Floor.t)
    (wall_start_pos wall_end_pos : Vec2D.t) (added : bool) :
  Graph.wf (Floor.walls f) ->
  Floor.add_wall_outcome f wall_start_pos wall_end_pos = Returns (added, f') ->
  Graph.wf (Floor.walls f') /\ Floor.links f' = Floor.links f.
Proof.
  intros Hwf. unfold Floor.add_wall_outcome.
  destruct (Qltb _ Floor.THRESHOLD_DIST); [by intros [= <- <-]|].
  pose proof (place_vertex_wf f wall_start_pos Hwf) as [Hwf1 _].
  pose proof (place_vertex_links f wall_start_pos) as Hl1.
  destruct (Floor.place_vertex f wall_start_pos) as [i f1]. cbn [fst snd] in Hwf1, Hl1.
  pose proof (place_vertex_wf f1 wall_end_pos Hwf1) as [Hwf2 _].
  pose proof (place_vertex_links f1 wall_end_pos) as Hl2.
  destruct (Floor.place_vertex f1 wall_end_pos) as [j f2]. cbn [fst snd] in Hwf2, Hl2.
  destruct (Floor.check_for_intersections _ _ _ _).
  - destruct (Floor.check_if_remove_outcome f2 i) as [[removed f3]| |] eqn:E1;
      cbn; try discriminate.
    apply check_if_remove_outcome_keeps in E1 as [Hwf3 Hl3]; [|exact Hwf2].
    match goal with
    | |- context [Floor.check_if_remove_outcome f3 ?v] =>
        destruct (Floor.check_if_remove_outcome f3 v) as [[removed' f4]| |] eqn:E2
    end; cbn; try discriminate.
    apply check_if_remove_outcome_keeps in E2 as [Hwf4 Hl4]; [|exact Hwf3].
    intros [= <- <-]. split; [exact Hwf4|congruence].
  - destruct (Floor.on_floor_edge _ _); intros [= <- <-];
      cbn [Floor.walls Floor.links]; (split; [by apply wf_set_edge|congruence]).
Qed.

Lemma add_wall_keeps_floor_invariants_witness :
  exists f',
    Floor.add_wall_outcome (Floor.new false) (Vec2D.Vec2D (1 # 2) 0) (Vec2D.Vec2D (1 # 2) 1)
    = Returns (true, f')
    /\ Graph.wf (Floor.walls f')
    /\ Floor.links f' = Floor.links (Floor.new false).
Proof.
  eexists. split; [vm_compute; reflexivity|].
  eapply (add_wall_keeps_floor_invariants (Floor.new false) _ (Vec2D.Vec2D (1 # 2) 0)
            (Vec2D.Vec2D (1 # 2) 1) true wf_floor_new).
  vm_compute. reflexivity.
Defined.

(** The two rejected walls of [add_wall_rejects_clear_segment] and
    [add_wall_rejected_keeps_split] are rejected without an error: there the
    code returns what the total [Floor.add_wall] returns. *)
Lemma add_wall_outcome_at_rejected_walls :
  Floor.add_wall_outcome floor_one_wall (Vec2D.Vec2D (5 # 10) (5 # 100))
                         (Vec2D.Vec2D (15 # 10) (25 # 100))
  = Returns (Floor.add_wall floor_one_wall (Vec2D.Vec2D (5 # 10) (5 # 100))
                            (Vec2D.Vec2D (15 # 10) (25 # 100)))
  /\ Floor.add_wall_outcome floor_one_wall (Vec2D.Vec2D (5 # 10) 0)
                            (Vec2D.Vec2D (15 # 10) (6 # 10))
     = Returns (Floor.add_wall floor_one_wall (Vec2D.Vec2D (5 # 10) 0)
                               (Vec2D.Vec2D (15 # 10) (6 # 10))).
Proof. split; vm_compute; reflexivity. Qed.

(** A floor with the wall from (0, 0) to (1, 1) and a third vertex at
    (0.5, 0.25) that no wall ends at. *)
Definition floor_lone_vertex : Floor.t :=
  Floor.mkFloor
    (Graph.set_edge
       (Graph.new [Vec2D.Vec2D 0 0; Vec2D.Vec2D 1 1; Vec2D.Vec2D (1 # 2) (1 # 4)] 1)
       0 1 1 true)
    [].

(** [add_wall] can raise.  On [floor_lone_vertex] the two ends
    (31/64, 0.25) and (33/64, 0.25) are 1/32 apart, above the threshold
    0.03, and both at 1/64 from the lone vertex 2, so both are placed on it.  The wall
    0 - 1 has the lone vertex inside its bounding box, so an intersection
    is reported; the first [__check_if_remove(2)] deletes vertex 2 and the
    second [__check_if_remove(2)] reads outside the two vertices left:
    IndexError.  The total [Floor.add_wall] returns [false] there. *)
Theorem add_wall_clean_up_raises :
  let wall_start_pos := Vec2D.Vec2D (31 # 64) (1 # 4) in
  let wall_end_pos := Vec2D.Vec2D (33 # 64) (1 # 4) in
  Graph.wf (Floor.walls floor_lone_vertex)
  /\ Graph.get_edge (Floor.walls floor_lone_vertex) 0 1 = true
  /\ (forall v, Graph.get_edge (Floor.walls floor_lone_vertex) 2 v = false)
  /\ Floor.place_vertex floor_lone_vertex wall_start_pos = (2%nat, floor_lone_vertex)
  /\ Floor.place_vertex floor_lone_vertex wall_end_pos = (2%nat, floor_lone_vertex)
  /\ Floor.check_for_intersections (Floor.walls floor_lone_vertex) 2 2 false = true
  /\ (exists f, Floor.check_if_remove_outcome floor_lone_vertex 2 = Returns (true, f)
                /\ Graph.vertices (Floor.walls f) = 2%nat
                /\ Floor.check_if_remove_outcome f 2 = Raises)
  /\ Floor.add_wall_outcome floor_lone_vertex wall_start_pos wall_end_pos = Raises
  /\ (Floor.add_wall floor_lone_vertex wall_start_pos wall_end_pos).1 = false.
Proof.
  intros wall_start_pos wall_end_pos.
  split; [apply wf_set_edge, wf_new|].
  split; [vm_compute; reflexivity|].
  split.
  { intros v. do 3 (destruct v as [|v]; [vm_compute; reflexivity|]).
    unfold Graph.get_edge, SquareMat.get_item, floor_lone_vertex. cbn.
    reflexivity. }
  do 3 (split; [vm_compute; reflexivity|]).
  split; [|split; vm_compute; reflexivity].
  eexists. repeat split; vm_compute; reflexivity.
Qed.

(** ** What a loaded map satisfies *)

Section LoadInvariant.
Variable py_int : string -> option Z.
Variable py_float : string -> option Q.

Definition floors_wf (floors : gmap Z Floor.t) : Prop :=
  map_Forall (fun _ f => Graph.wf (Floor.walls f)) floors.

Lemma load_line_floors_wf (st st' : option Z * gmap Z Floor.t) (text : string) :
  floors_wf st.2 -> Map.load_line py_int py_float st text = Returns st' -> floors_wf st'.2.
Proof.
  destruct st as [floor_num floors]. cbn [snd]. intros Hwf Hrun.
  unfold Map.load_line in Hrun.
  destruct (length (Map.split_space text) =? 0)%nat; [discriminate|].
  destruct (String.eqb _ "F").
  { destruct (_ && _); [|discriminate].
    apply bind_returns in Hrun as (n & _ & Hrun). injection Hrun as <-. cbn [snd].
    apply map_Forall_insert_2; [|exact Hwf]. apply wf_new. }
  destruct (String.eqb _ "L").
  { destruct floor_num as [n|]; [|discriminate]. destruct (_ && _); [|discriminate].
    apply bind_returns in Hrun as (f & Hf & Hrun). apply dict_get_returns in Hf.
    apply bind_returns in Hrun as (px & _ & Hrun).
    apply bind_returns in Hrun as (py & _ & Hrun). injection Hrun as <-. cbn [snd].
    apply map_Forall_insert_2; [|exact Hwf]. exact (Hwf n f Hf). }
  destruct (String.eqb _ "V").
  { destruct floor_num as [n|]; [|discriminate]. destruct (_ && _); [|discriminate].
    apply bind_returns in Hrun as (f & Hf & Hrun). apply dict_get_returns in Hf.
    apply bind_returns in Hrun as (px & _ & Hrun).
    apply bind_returns in Hrun as (py & _ & Hrun). injection Hrun as <-. cbn [snd].
    apply map_Forall_insert_2; [|exact Hwf]. apply wf_add_vertex. exact (Hwf n f Hf). }
  destruct (String.eqb _ "W"); [|discriminate].
  destruct floor_num as [n|]; [|by injection Hrun as <-].
  destruct (_ && _); [|by injection Hrun as <-].
  apply bind_returns in Hrun as (v1 & _ & Hrun).
  apply bind_returns in Hrun as (f & Hf & Hrun). apply dict_get_returns in Hf.
  destruct (v1 <? _)%Z; [|by injection Hrun as <-].
  apply bind_returns in Hrun as (v2 & _ & Hrun).
  destruct (v2 <? _)%Z; [|by injection Hrun as <-].
  apply bind_returns in Hrun as (weight & _ & Hrun).
  apply bind_returns in Hrun as (w & Hw & Hrun). injection Hrun as <-. cbn [snd].
  apply map_Forall_insert_2; [|exact Hwf].
  unfold Map.set_edge_int in Hw.
  apply bind_returns in Hw as (i & _ & Hw). apply bind_returns in Hw as (j & _ & Hw).
  injection Hw as <-. apply wf_set_edge. exact (Hwf n f Hf).
Qed.

(** Whatever file [Map(data)] accepts, the wall graph of every floor of the
    map is a square matrix of its vertex count, and the map has no navigation
    mesh, no link-graph vertex and nothing to reset yet. *)
Theorem load_floors_wf (data : list string) (m : Map.t) :
  Map.load py_int py_float data = Returns m ->
  (forall n f, Map.floors m !! n = Some f -> Graph.wf (Floor.walls f))
  /\ Map.nav_meshes m = ∅ /\ Graph.vertices (Map.link_graph m) = 0%nat
  /\ Graph.wf (Map.link_graph m) /\ Map.reset_data m = None.
Proof.
  intros Hrun. unfold Map.load in Hrun.
  apply bind_returns in Hrun as ([floor_num floors] & Hloop & Hrun). injection Hrun as <-.
  cbn. split; [|split; [reflexivity|split; [reflexivity|split; [apply wf_new|reflexivity]]]].
  change (floors_wf (floor_num, floors).2).
  refine (for_each_invariant (fun st => floors_wf st.2) _ _ _ _ _ _ Hloop).
  - intros s a s'. apply load_line_floors_wf.
  - cbn. apply map_Forall_empty.
Qed.
End LoadInvariant.

(** A reader of numbers that knows 0 and 1 only, and a file of one floor
    with two vertices and one wall. *)
Definition sample_int (s : string) : option Z :=
  if String.eqb s "0" then Some 0%Z else if String.eqb s "1" then Some 1%Z else None.
Definition sample_float (s : string) : option Q :=
  if String.eqb s "0" then Some 0 else if String.eqb s "1" then Some 1 else None.
Definition sample_file : list string := ["MAP FILE"; "F 0"; "V 0 0"; "V 1 0"; "W 1 0 1"].

Lemma load_floors_wf_witness :
  exists m,
    Map.load sample_int sample_float sample_file = Returns m
    /\ (forall n f, Map.floors m !! n = Some f -> Graph.wf (Floor.walls f))
    /\ Map.nav_meshes m = ∅ /\ Graph.vertices (Map.link_graph m) = 0%nat
    /\ Graph.wf (Map.link_graph m) /\ Map.reset_data m = None.
Proof.
  destruct (Map.load sample_int sample_float sample_file) as [m| |] eqn:E;
    try (vm_compute in E; discriminate E).
  exists m. split; [reflexivity|].
  exact (load_floors_wf sample_int sample_float sample_file m E).
Defined.

(** ** The path that the predecessors of a shortest-path search give *)

(** The weights of the edges of a path listed from its end back to its
    start, added up. *)
Fixpoint back_weight (g : Graph.t) (l : list nat) : Q :=
  match l with
  | a :: (b :: _) as rest => Graph.get_edge_val g b a + back_weight g rest
  | _ => 0
  end.

Lemma back_edges_walk (g : Graph.t) (s : nat) (chain : list nat) :
  forall v, (v < Graph.vertices g)%nat -> last (v :: chain) = Some s ->
    back_edges g (v :: chain) ->
    exists len, walk g s v len /\ len == back_weight g (v :: chain).
Proof.
  induction chain as [|u chain IH]; intros v Hv Hlast Hedges.
  - injection Hlast as <-. exists 0. split; [by apply walk_refl|reflexivity].
  - destruct Hedges as [He Hedges].
    destruct (IH u) as (len & Hw & Hlen); [apply He|exact Hlast|exact Hedges|].
    exists (len + Graph.get_edge_val g u v). split; [by apply walk_snoc|].
    change (back_weight g (v :: u :: chain))
      with (Graph.get_edge_val g u v + back_weight g (u :: chain)).
    rewrite Hlen. ring.
Qed.

(** Under the invariant of the predecessors, the reconstruction loop of
    [pathfind] walks from any vertex with a distance back to the source,
    along edges whose weights add up to the distance of the vertex at
    most. *)
Lemma follow_prev_to_source (g : Graph.t) (s : nat) (prev : list Z) (distances : list Q) :
  prev_inv g s prev distances ->
  forall (N v : nat), (v < Graph.vertices g)%nat -> is_set distances v ->
    (Z.to_nat (grid_num (graph_grid g) (distances !!! v)) <= N)%nat ->
    forall pre, exists steps0 chain,
      (forall steps, (steps0 <= steps)%nat ->
         Map.follow_prev steps prev (Z.of_nat s) (pre ++ [Z.of_nat v])
         = Returns (pre ++ map Z.of_nat (v :: chain)))
      /\ last (v :: chain) = Some s /\ back_edges g (v :: chain)
      /\ back_weight g (v :: chain) <= distances !!! v.
Proof.
  intros (Hlp & Hld & Hsrc & Hpos & Hpred).
  induction N as [|N IH]; intros v Hv Hvs HN pre.
  all: destruct (decide (v = s)) as [->|Hne];
    [ exists 1%nat, []; split; [|split; [reflexivity|split; [exact I|simpl; lra]]];
      intros [|steps] Hsteps; [lia|]; cbn [Map.follow_prev]; rewrite last_snoc;
      by rewrite Z.eqb_refl
    | ].
  all: destruct (Hpred v Hv Hvs Hne) as (u & Eu & He & Hus & Hle).
  all: pose proof He as (Hu & _ & Hedge).
  all: pose proof (edge_weight_pos _ _ _ Hedge) as Hw.
  all: destruct (Hpos v Hv Hvs) as [Hv0 Hvgrid].
  all: destruct (Hpos u Hu Hus) as [Hu0 Hugrid].
  all: assert (Hlt : (grid_num (graph_grid g) (distances !!! u)
                      < grid_num (graph_grid g) (distances !!! v))%Z)
         by (apply grid_num_lt; [assumption|assumption|lra]).
  all: pose proof (grid_num_nonneg _ _ Hugrid Hu0) as Hnn.
  - lia.
  - destruct (IH u Hu Hus ltac:(lia) (pre ++ [Z.of_nat v]))
      as (steps0 & chain & Hrun & Hlast & Hedges & Hweight).
    exists (S steps0), (u :: chain). split; [|split; [exact Hlast|split; [by split|]]].
    + intros [|steps] Hsteps; [lia|]. cbn [Map.follow_prev]. rewrite last_snoc.
      replace (Z.of_nat v =? Z.of_nat s)%Z with false by (symmetry; apply Z.eqb_neq; lia).
      rewrite py_get_nat by lia. cbn [mbind outcome_bind]. rewrite Eu, Hrun by lia.
      by rewrite <- app_assoc.
    + change (back_weight g (v :: u :: chain))
        with (Graph.get_edge_val g u v + back_weight g (u :: chain)).
      lra.
Qed.

(** From the predecessors of a search that gave the shortest distance, the
    reconstruction loop builds a shortest path. *)
Lemma prev_path_shortest (g : Graph.t) (s t : nat) (prev : list Z) (distances : list Q) :
  (t < Graph.vertices g)%nat ->
  prev_inv g s prev distances ->
  shortest_distance g s t (distances !!! t) ->
  exists chain steps0,
    (forall steps, (steps0 <= steps)%nat ->
       Map.follow_prev steps prev (Z.of_nat s) [Z.of_nat t]
       = Returns (map Z.of_nat (t :: chain)))
    /\ last (t :: chain) = Some s /\ back_edges g (t :: chain)
    /\ shortest_distance g s t (back_weight g (t :: chain)).
Proof.
  intros Ht Hinv [(len & Hw & Hlen) Hmin].
  assert (Hts : is_set distances t).
  { unfold is_set. pose proof (walk_nonneg _ _ _ _ Hw). lra. }
  destruct (follow_prev_to_source g s prev distances Hinv _ t Ht Hts (Nat.le_refl _) [])
    as (steps0 & chain & Hrun & Hlast & Hedges & Hweight).
  exists chain, steps0. split; [exact Hrun|]. split; [exact Hlast|]. split; [exact Hedges|].
  destruct (back_edges_walk g s chain t Ht Hlast Hedges) as (len' & Hw' & Hlen').
  pose proof (Hmin len' Hw') as Hle.
  split.
  - exists len'. by split.
  - intros l Hl. specialize (Hmin l Hl). lra.
Qed.

(** When the target can be reached, the reconstruction loop of [pathfind],
    run on the predecessors that [dijkstra] returns, builds a path from the
    target back to the source whose weight is the least weight of a path
    from the source to the target. *)
Theorem dijkstra_prev_shortest_path (g : Graph.t) (vert1_id vert2_id : nat) :
  (vert1_id < Graph.vertices g)%nat -> (vert2_id < Graph.vertices g)%nat ->
  reachable g vert1_id vert2_id ->
  exists fuel0 prev distances chain steps0,
    (forall fuel, (fuel0 <= fuel)%nat ->
       Graph.dijkstra fuel g vert1_id vert2_id = Returns (Some (prev, distances)))
    /\ (forall steps, (steps0 <= steps)%nat ->
          Map.follow_prev steps prev (Z.of_nat vert1_id) [Z.of_nat vert2_id]
          = Returns (map Z.of_nat (vert2_id :: chain)))
    /\ last (vert2_id :: chain) = Some vert1_id
    /\ back_edges g (vert2_id :: chain)
    /\ shortest_distance g vert1_id vert2_id (back_weight g (vert2_id :: chain)).
Proof.
  intros Hs Ht Hreach.
  destruct (dijkstra_returns g vert1_id vert2_id Hs Ht) as (fuel0 & r & Hr & Hrun).
  destruct r as [[prev distances]|]; [|by destruct Hr].
  pose proof (Hrun fuel0 (Nat.le_refl _)) as Hrun0. unfold Graph.dijkstra in Hrun0.
  replace (Graph.vertices g <=? vert1_id)%nat with false in Hrun0
    by (symmetry; apply Nat.leb_gt; lia).
  replace (Graph.vertices g <=? vert2_id)%nat with false in Hrun0
    by (symmetry; apply Nat.leb_gt; lia).
  cbn [orb] in Hrun0. rewrite dijkstra_while_search in Hrun0.
  assert (Hinv : prev_inv g vert1_id (prev, distances).1 (prev, distances).2).
  { eapply (search_from_source_prev g vert1_id vert2_id (fun _ d => d) (fun _ => 0));
      try exact Hrun0; try assumption;
      [intros v d; lra | intros u len Hw; by eapply walk_nonneg ..]. }
  cbn [fst snd] in Hinv.
  destruct (prev_path_shortest g vert1_id vert2_id prev distances Ht Hinv Hr)
    as (chain & steps0 & Hfollow & Hlast & Hedges & Hshort).
  exists fuel0, prev, distances, chain, steps0.
  split; [exact Hrun|]. split; [exact Hfollow|]. split; [exact Hlast|]. by split.
Qed.

Lemma dijkstra_prev_shortest_path_witness :
  Graph.dijkstra 10 route_graph 0 1 = Returns (Some ([0; 2; 0]%Z, [0; 7; 3]))
  /\ Map.follow_prev 5 [0; 2; 0]%Z 0 [1%Z] = Returns [1; 2; 0]%Z
  /\ exists fuel0 prev distances chain steps0,
    (forall fuel, (fuel0 <= fuel)%nat ->
       Graph.dijkstra fuel route_graph 0 1 = Returns (Some (prev, distances)))
    /\ (forall steps, (steps0 <= steps)%nat ->
          Map.follow_prev steps prev (Z.of_nat 0) [Z.of_nat 1]
          = Returns (map Z.of_nat (1%nat :: chain)))
    /\ last (1%nat :: chain) = Some 0%nat
    /\ back_edges route_graph (1%nat :: chain)
    /\ shortest_distance route_graph 0 1 (back_weight route_graph (1%nat :: chain)).
Proof.
  split; [vm_compute; reflexivity|]. split; [vm_compute; reflexivity|].
  apply (dijkstra_prev_shortest_path route_graph 0 1);
    [vm_compute; lia|vm_compute; lia|exact route_graph_reachable].
Defined.

(** In exact arithmetic, with an admissible heuristic the predecessors that
    [a_star] returns give a shortest path too.  (In binary64 they need not,
    see [a_star_misses_shortest_path].) *)
Theorem a_star_prev_shortest_path (sqrt : Q -> Q) (g : Graph.t) (vert1_id vert2_id : nat) :
  (forall u v, (u < Graph.vertices g)%nat -> (v < Graph.vertices g)%nat ->
     0 <= vertex_distance sqrt g u v) ->
  (forall u, (u < Graph.vertices g)%nat -> vertex_distance sqrt g u u == 0) ->
  (forall u v w, (u < Graph.vertices g)%nat -> (v < Graph.vertices g)%nat ->
     (w < Graph.vertices g)%nat ->
     vertex_distance sqrt g u w <= vertex_distance sqrt g u v + vertex_distance sqrt g v w) ->
  (forall u v, edge g u v ->
     Graph.heuristic_scale g * vertex_distance sqrt g u v <= Graph.get_edge_val g u v) ->
  (vert1_id < Graph.vertices g)%nat -> (vert2_id < Graph.vertices g)%nat ->
  reachable g vert1_id vert2_id ->
  exists fuel0 prev distances chain steps0,
    (forall fuel, (fuel0 <= fuel)%nat ->
       Graph.a_star sqrt fuel g vert1_id vert2_id = Returns (Some (prev, distances)))
    /\ (forall steps, (steps0 <= steps)%nat ->
          Map.follow_prev steps prev (Z.of_nat vert1_id) [Z.of_nat vert2_id]
          = Returns (map Z.of_nat (vert2_id :: chain)))
    /\ last (vert2_id :: chain) = Some vert1_id
    /\ back_edges g (vert2_id :: chain)
    /\ shortest_distance g vert1_id vert2_id (back_weight g (vert2_id :: chain)).
Proof.
  intros Hnn Hrefl Htri Hadm Hs Ht Hreach.
  destruct (a_star_returns sqrt g Hnn Hrefl Htri Hadm vert1_id vert2_id Hs Ht)
    as (fuel0 & r & Hr & Hrun).
  destruct r as [[prev distances]|]; [|by destruct Hr].
  pose proof (Hrun fuel0 (Nat.le_refl _)) as Hrun0. unfold Graph.a_star in Hrun0.
  replace (Graph.vertices g <=? vert1_id)%nat with false in Hrun0
    by (symmetry; apply Nat.leb_gt; lia).
  replace (Graph.vertices g <=? vert2_id)%nat with false in Hrun0
    by (symmetry; apply Nat.leb_gt; lia).
  cbn [orb] in Hrun0. rewrite a_star_while_search in Hrun0.
  assert (Hinv : prev_inv g vert1_id (prev, distances).1 (prev, distances).2).
  { eapply (search_from_source_prev g vert1_id vert2_id
              (fun v d => d + Graph.heuristic sqrt g v vert2_id)
              (fun v => Graph.heuristic sqrt g v vert2_id));
      try exact Hrun0; try assumption;
      [intros v d; lra | intros u len Hw; by apply heuristic_le_walk ..]. }
  cbn [fst snd] in Hinv.
  destruct (prev_path_shortest g vert1_id vert2_id prev distances Ht Hinv Hr)
    as (chain & steps0 & Hfollow & Hlast & Hedges & Hshort).
  exists fuel0, prev, distances, chain, steps0.
  split; [exact Hrun|]. split; [exact Hfollow|]. split; [exact Hlast|]. by split.
Qed.

Lemma a_star_prev_shortest_path_witness :
  Map.follow_prev 5 [0; 2; 0]%Z 0 [1%Z] = Returns [1; 2; 0]%Z
  /\ exists fuel0 prev distances chain steps0,
    (forall fuel, (fuel0 <= fuel)%nat ->
       Graph.a_star Qsqrt_floor fuel route_graph 0 1 = Returns (Some (prev, distances)))
    /\ (forall steps, (steps0 <= steps)%nat ->
          Map.follow_prev steps prev (Z.of_nat 0) [Z.of_nat 1]
          = Returns (map Z.of_nat (1%nat :: chain)))
    /\ last (1%nat :: chain) = Some 0%nat
    /\ back_edges route_graph (1%nat :: chain)
    /\ shortest_distance route_graph 0 1 (back_weight route_graph (1%nat :: chain)).
Proof.
  assert (H0 : (0 < Graph.vertices route_graph)%nat) by (vm_compute; lia).
  assert (H1 : (1 < Graph.vertices route_graph)%nat) by (vm_compute; lia).
  split; [vm_compute; reflexivity|].
  exact (a_star_prev_shortest_path Qsqrt_floor route_graph 0 1 route_graph_distance_nonneg
           route_graph_distance_refl route_graph_distance_triangle route_graph_admissible
           H0 H1 route_graph_reachable).
Defined.

(** ** The path that the predecessors of [bfs] give *)

Section BfsPrev.

Variable g : Graph.t.
Variables vert1_id vert2_id : nat.
Hypothesis source_lt : (vert1_id < Graph.vertices g)%nat.

(** Every discovered vertex has a predecessor with an edge to it, which is
    the source or was discovered before it. *)
Definition bfs_prev_inv (prev distances : list Z) : Prop :=
  length prev = Graph.vertices g /\ length distances = Graph.vertices g
  /\ (forall v, (v < Graph.vertices g)%nat -> (-1 <= distances !!! v)%Z)
  /\ forall v, (v < Graph.vertices g)%nat -> discovered distances v ->
       exists u, prev !!! v = Z.of_nat u /\ edge g u v
                 /\ (u = vert1_id
                     \/ (discovered distances u /\ (distances !!! u < distances !!! v)%Z)).

Lemma bfs_for_prev (m k cur : nat) (st : Graph.bfs_state) :
  (k + m <= Graph.vertices g)%nat -> (cur < Graph.vertices g)%nat ->
  reached vert1_id st.1.2 cur ->
  bfs_inv g vert1_id vert2_id cur k st -> bfs_prev_inv st.1.1 st.1.2 ->
  match Graph.bfs_for g vert2_id cur (seq k m) st with
  | Return r => bfs_prev_inv r.1 r.2
  | Continue st' => bfs_inv g vert1_id vert2_id cur (k + m) st' /\ bfs_prev_inv st'.1.1 st'.1.2
  end.
Proof.
  revert k st. induction m as [|m IH];
    intros k [[prev distances] q] Hkm Hcur Hreach Hinv Hprev.
  - simpl. rewrite Nat.add_0_r. by split.
  - replace (k + S m)%nat with (S k + m)%nat by lia. cbn [fst snd] in Hreach, Hprev.
    pose proof (bfs_for_ok g vert1_id vert2_id source_lt 1 k cur (prev, distances, q)
                  ltac:(lia) Hcur Hreach Hinv) as Hstep.
    rewrite Nat.add_1_r in Hstep. cbn [seq Graph.bfs_for] in Hstep |- *.
    destruct ((distances !!! k =? -1)%Z && Graph.get_edge g cur k) eqn:Etest.
    + apply andb_true_iff in Etest as [Ek Hedge]. apply Z.eqb_eq in Ek.
      destruct Hprev as (Hlp & Hld & Hge & Hpred).
      assert (Hk : (k < Graph.vertices g)%nat) by lia.
      assert (Hunset : ~ discovered distances k) by (intros H; by apply H).
      set (distances' := <[k := (distances !!! cur + 1)%Z]> distances) in *.
      set (prev' := <[k := Z.of_nat cur]> prev) in *.
      assert (Hother : forall v, v <> k -> distances' !!! v = distances !!! v).
      { intros v Hv. unfold distances'. rewrite lookup_total_insert_Z by lia.
        by rewrite decide_False. }
      assert (Hnew : distances' !!! k = (distances !!! cur + 1)%Z).
      { unfold distances'. rewrite lookup_total_insert_Z by lia. by rewrite decide_True. }
      assert (Hprev' : bfs_prev_inv prev' distances').
      { split; [unfold prev'; by rewrite length_insert|].
        split; [unfold distances'; by rewrite length_insert|].
        split.
        { intros v Hv. destruct (decide (v = k)) as [->|Hne].
          - rewrite Hnew. specialize (Hge cur Hcur). lia.
          - rewrite Hother by exact Hne. by apply Hge. }
        intros v Hv Hdv. destruct (decide (v = k)) as [->|Hne].
        - exists cur. split.
          { unfold prev'. rewrite lookup_total_insert_Z by lia. by rewrite decide_True. }
          split; [by repeat split|].
          destruct Hreach as [->|Hdc]; [by left|right].
          assert (Hck : cur <> k) by (intros ->; contradiction).
          unfold discovered. rewrite Hnew, (Hother cur Hck). split; [exact Hdc|lia].
        - assert (Hdv' : discovered distances v).
          { unfold discovered in *. by rewrite Hother in Hdv. }
          destruct (Hpred v Hv Hdv') as (u & Eu & He & Hu).
          exists u. split.
          { unfold prev'. rewrite lookup_total_insert_Z by lia. by rewrite decide_False. }
          split; [exact He|]. destruct Hu as [->|[Hdu Hlt]]; [by left|right].
          assert (Huk : u <> k) by (intros ->; contradiction).
          unfold discovered. rewrite (Hother u Huk), (Hother v Hne). by split. }
      destruct (k =? vert2_id)%nat; [exact Hprev'|].
      destruct Hstep as [Hinv' _].
      apply (IH (S k) (prev', distances', DynamicQueue.enqueue q k));
        [lia|exact Hcur| |exact Hinv'|exact Hprev'].
      cbn [fst snd]. destruct Hreach as [->|Hdc]; [by left|right].
      destruct (decide (cur = k)) as [->|Hck]; [contradiction|].
      unfold discovered. by rewrite (Hother cur Hck).
    + destruct Hstep as [Hinv' _].
      by apply (IH (S k) (prev, distances, q)); [lia|exact Hcur|exact Hreach|exact Hinv'|].
Qed.

Lemma bfs_while_prev (fuel : nat) :
  forall (cur : nat) (st : Graph.bfs_state) (r : list Z * list Z),
    bfs_inv g vert1_id vert2_id cur (Graph.vertices g) st -> bfs_prev_inv st.1.1 st.1.2 ->
    Graph.bfs_while fuel g vert2_id st = Returns (Some r) -> bfs_prev_inv r.1 r.2.
Proof.
  induction fuel as [|fuel IH]; intros cur [[prev distances] q] r Hinv Hprev Hrun;
    [discriminate|].
  pose proof Hinv as (Hlp & Hld & Hback & _).
  cbn [Graph.bfs_while] in Hrun.
  destruct (DynamicQueue.empty q) eqn:Eempty; [discriminate|].
  destruct (queue_dequeue_pending q Hback Eempty) as (x & q' & Edeq & Epend & Hback').
  rewrite Edeq in Hrun. unfold range in Hrun. cbn [mbind outcome_bind] in Hrun.
  destruct (bfs_inv_dequeue g vert1_id vert2_id source_lt cur x prev distances q q'
              Hinv Epend Hback') as (Hinv0 & Hx & Hrx).
  pose proof (bfs_for_prev (Graph.vertices g) 0 x (prev, distances, q')
                ltac:(lia) Hx Hrx Hinv0 Hprev) as Hfor.
  destruct (Graph.bfs_for g vert2_id x (seq 0 (Graph.vertices g)) (prev, distances, q'))
    as [r0|st'].
  - by injection Hrun as <-.
  - destruct Hfor as [Hinv' Hprev']. by apply (IH x st' r).
Qed.

(** From a discovered vertex the reconstruction loop of [pathfind] walks
    back to the source along edges of the graph. *)
Lemma bfs_follow_prev (prev distances : list Z) :
  bfs_prev_inv prev distances ->
  forall (N v : nat), (v < Graph.vertices g)%nat -> discovered distances v ->
    (Z.to_nat (distances !!! v + 1) <= N)%nat ->
    forall pre, exists steps0 chain,
      (forall steps, (steps0 <= steps)%nat ->
         Map.follow_prev steps prev (Z.of_nat vert1_id) (pre ++ [Z.of_nat v])
         = Returns (pre ++ map Z.of_nat (v :: chain)))
      /\ last (v :: chain) = Some vert1_id /\ back_edges g (v :: chain).
Proof.
  intros (Hlp & Hld & Hge & Hpred).
  assert (Hstop : forall pre, forall steps, (1 <= steps)%nat ->
            Map.follow_prev steps prev (Z.of_nat vert1_id) (pre ++ [Z.of_nat vert1_id])
            = Returns (pre ++ [Z.of_nat vert1_id])).
  { intros pre [|steps] Hsteps; [lia|]. cbn [Map.follow_prev]. rewrite last_snoc.
    by rewrite Z.eqb_refl. }
  induction N as [|N IH]; intros v Hv Hdv HN pre.
  all: destruct (decide (v = vert1_id)) as [->|Hne];
    [ exists 1%nat, []; split; [apply Hstop|by split] | ].
  all: destruct (Hpred v Hv Hdv) as (u & Eu & He & Hu).
  all: pose proof He as (Hun & _ & _).
  all: pose proof (Hge v Hv) as Hgev.
  all: assert (Hstep : forall steps chain,
         Map.follow_prev steps prev (Z.of_nat vert1_id) ((pre ++ [Z.of_nat v]) ++ [Z.of_nat u])
         = Returns ((pre ++ [Z.of_nat v]) ++ map Z.of_nat (u :: chain)) ->
         Map.follow_prev (S steps) prev (Z.of_nat vert1_id) (pre ++ [Z.of_nat v])
         = Returns (pre ++ map Z.of_nat (v :: u :: chain)))
    by (intros steps chain Hrun; cbn [Map.follow_prev]; rewrite last_snoc;
        replace (Z.of_nat v =? Z.of_nat vert1_id)%Z with false
          by (symmetry; apply Z.eqb_neq; lia);
        rewrite py_get_nat by lia; cbn [mbind outcome_bind]; rewrite Eu, Hrun;
        by rewrite <- app_assoc).
  all: destruct Hu as [->|[Hdu Hlt]];
    [ exists 2%nat, [vert1_id]; split; [|by split];
      intros [|steps] Hsteps; [lia|]; apply (Hstep steps []); apply Hstop; lia | ].
  - unfold discovered in Hdv. lia.
  - pose proof (Hge u Hun) as Hgeu.
    destruct (IH u Hun Hdu ltac:(lia) (pre ++ [Z.of_nat v]))
      as (steps0 & chain & Hrun & Hlast & Hedges).
    exists (S steps0), (u :: chain). split; [|split; [exact Hlast|by split]].
    intros [|steps] Hsteps; [lia|]. apply Hstep, Hrun. lia.
Qed.
End BfsPrev.

(** When [bfs] returns a pair, the reconstruction loop of [pathfind], run on
    its predecessors, builds a path from the target back to the source along
    edges of the graph. *)
Theorem bfs_prev_path (g : Graph.t) (vert1_id vert2_id : nat) :
  (vert1_id < Graph.vertices g)%nat ->
  (exists j, hops g vert1_id vert2_id (S j)) ->
  exists prev distances chain steps0,
    (forall fuel, (2 * Graph.vertices g + 2 <= fuel)%nat ->
       Graph.bfs fuel g vert1_id vert2_id = Returns (Some (prev, distances)))
    /\ (forall steps, (steps0 <= steps)%nat ->
          Map.follow_prev steps prev (Z.of_nat vert1_id) [Z.of_nat vert2_id]
          = Returns (map Z.of_nat (vert2_id :: chain)))
    /\ last (vert2_id :: chain) = Some vert1_id
    /\ back_edges g (vert2_id :: chain).
Proof.
  intros Hs [j Hj].
  destruct (bfs_returns g vert1_id vert2_id Hs) as (r & Hr & Hrun).
  destruct r as [[prev distances]|]; [|by destruct (Hr j)].
  destruct Hr as (Ht & Hdt & _). cbn [fst snd] in Hdt.
  pose proof (Hrun _ (Nat.le_refl _)) as Hrun0. unfold Graph.bfs in Hrun0.
  replace (Graph.vertices g <=? vert1_id)%nat with false in Hrun0
    by (symmetry; apply Nat.leb_gt; exact Hs).
  cbn [andb] in Hrun0.
  assert (Hprev0 : bfs_prev_inv g vert1_id (replicate (Graph.vertices g) (-1)%Z)
                                (replicate (Graph.vertices g) (-1)%Z)).
  { split; [by rewrite length_replicate|]. split; [by rewrite length_replicate|].
    split; [intros v Hv; rewrite lookup_total_replicate_2 by exact Hv; lia|].
    intros v Hv Hd. destruct Hd. by rewrite lookup_total_replicate_2. }
  pose proof (bfs_while_prev g vert1_id vert2_id Hs _ 0 _ (prev, distances)
                (bfs_inv_initial g vert1_id vert2_id Hs) Hprev0 Hrun0) as Hprev.
  cbn [fst snd] in Hprev.
  destruct (bfs_follow_prev g vert1_id Hs prev distances Hprev _ vert2_id Ht Hdt
              (Nat.le_refl _) []) as (steps0 & chain & Hfollow & Hlast & Hedges).
  exists prev, distances, chain, steps0.
  split; [exact Hrun|]. split; [exact Hfollow|]. by split.
Qed.

Lemma bfs_prev_path_witness :
  Map.follow_prev 5 [-1; 0; -1]%Z 0 [1%Z] = Returns [1; 0]%Z
  /\ exists prev distances chain steps0,
    (forall fuel, (2 * Graph.vertices route_graph + 2 <= fuel)%nat ->
       Graph.bfs fuel route_graph 0 1 = Returns (Some (prev, distances)))
    /\ (forall steps, (steps0 <= steps)%nat ->
          Map.follow_prev steps prev (Z.of_nat 0) [Z.of_nat 1]
          = Returns (map Z.of_nat (1%nat :: chain)))
    /\ last (1%nat :: chain) = Some 0%nat
    /\ back_edges route_graph (1%nat :: chain).
Proof.
  split; [vm_compute; reflexivity|].
  apply (bfs_prev_path route_graph 0 1); [vm_compute; lia|].
  exists 0%nat. eapply hops_snoc; [apply hops_refl; vm_compute; lia|].
  split; [vm_compute; lia|]. split; [vm_compute; lia|]. vm_compute. reflexivity.
Defined.

(** ** Peeking at a queue, and freeing its memory *)

(** [peek] on a [DynamicQueue] gives the item that was enqueued last, while
    [dequeue] gives the one that was enqueued first. *)
Theorem queue_peek_gives_newest (q : DynamicQueue.t) (first last_item : nat)
    (between : list nat) :
  (DynamicQueue.back_pointer q <= length (DynamicQueue.queue_data q))%nat ->
  pending q = first :: between ++ [last_item] ->
  DynamicQueue.peek q = Returns last_item
  /\ exists q', DynamicQueue.dequeue q = Returns (first, q')
                /\ pending q' = between ++ [last_item].
Proof.
  intros Hback Hpend.
  assert (Eempty : DynamicQueue.empty q = false).
  { destruct (DynamicQueue.empty q) eqn:E; [|reflexivity].
    apply queue_empty_pending in E; [|exact Hback]. rewrite E in Hpend. discriminate. }
  split.
  - unfold DynamicQueue.peek. rewrite Eempty. f_equal.
    unfold pending in Hpend.
    pose proof (take_drop (DynamicQueue.back_pointer q) (DynamicQueue.queue_data q)) as E.
    rewrite Hpend in E. rewrite <- E.
    change (first :: between ++ [last_item]) with ((first :: between) ++ [last_item]).
    rewrite app_assoc, length_app. simpl. rewrite Nat.add_sub.
    apply list_lookup_total_middle. reflexivity.
  - destruct (queue_dequeue_pending q Hback Eempty) as (x & q' & Edeq & Epend & _).
    rewrite Hpend in Epend. injection Epend as -> Ep. exists q'. by split.
Qed.

Lemma queue_peek_gives_newest_witness :
  let q := fold_left DynamicQueue.enqueue [4; 7; 1]%nat DynamicQueue.new in
  DynamicQueue.peek q = Returns 1%nat
  /\ exists q', DynamicQueue.dequeue q = Returns (4%nat, q')
                /\ pending q' = [7%nat] ++ [1%nat].
Proof.
  intros q. apply (queue_peek_gives_newest q 4 1 [7%nat]); [simpl; lia|reflexivity].
Defined.

Lemma dequeue_many_pending_only (n : nat) :
  forall q1 q2,
    (DynamicQueue.back_pointer q1 <= length (DynamicQueue.queue_data q1))%nat ->
    (DynamicQueue.back_pointer q2 <= length (DynamicQueue.queue_data q2))%nat ->
    pending q1 = pending q2 ->
    match dequeue_many n q1, dequeue_many n q2 with
    | Returns (xs1, r1), Returns (xs2, r2) => xs1 = xs2 /\ pending r1 = pending r2
    | Raises, Raises => True
    | _, _ => False
    end.
Proof.
  induction n as [|n IH]; intros q1 q2 H1 H2 E; [by split|].
  cbn [dequeue_many].
  destruct (DynamicQueue.empty q1) eqn:E1.
  - assert (E2 : DynamicQueue.empty q2 = true).
    { apply queue_empty_pending; [exact H2|]. rewrite <- E. by apply queue_empty_pending. }
    unfold DynamicQueue.dequeue. by rewrite E1, E2.
  - assert (E2 : DynamicQueue.empty q2 = false).
    { destruct (DynamicQueue.empty q2) eqn:E2; [|reflexivity].
      apply queue_empty_pending in E2; [|exact H2]. rewrite <- E in E2.
      apply queue_empty_pending in E2; [|exact H1]. congruence. }
    destruct (queue_dequeue_pending q1 H1 E1) as (x1 & r1 & D1 & P1 & B1).
    destruct (queue_dequeue_pending q2 H2 E2) as (x2 & r2 & D2 & P2 & B2).
    rewrite D1, D2. cbn [mbind outcome_bind].
    rewrite P1, P2 in E. injection E as <- E.
    specialize (IH r1 r2 B1 B2 E).
    destruct (dequeue_many n r1) as [[xs1 s1]| |], (dequeue_many n r2) as [[xs2 s2]| |];
      cbn [mbind outcome_bind]; try exact IH.
    destruct IH as [-> IH]. by split.
Qed.

(** [free_memory] is not seen by the users of a queue: the items waiting
    and their order stay, so any number of dequeues gives the same items, or
    raises, as without it. *)
Theorem queue_free_memory_unseen (q : DynamicQueue.t) (n : nat) :
  (DynamicQueue.back_pointer q <= length (DynamicQueue.queue_data q))%nat ->
  pending (DynamicQueue.free_memory q) = pending q
  /\ DynamicQueue.queue_data (DynamicQueue.free_memory q) = pending q
  /\ match dequeue_many n (DynamicQueue.free_memory q), dequeue_many n q with
     | Returns (xs1, r1), Returns (xs2, r2) => xs1 = xs2 /\ pending r1 = pending r2
     | Raises, Raises => True
     | _, _ => False
     end.
Proof.
  intros Hback.
  assert (E : DynamicQueue.queue_data (DynamicQueue.free_memory q) = pending q).
  { unfold DynamicQueue.free_memory, pending. cbn [DynamicQueue.queue_data].
    apply take_ge. rewrite length_drop. lia. }
  assert (Ep : pending (DynamicQueue.free_memory q) = pending q).
  { unfold pending at 1. rewrite E. reflexivity. }
  split; [exact Ep|]. split; [exact E|].
  apply dequeue_many_pending_only; [simpl; lia|exact Hback|exact Ep].
Qed.

Lemma queue_free_memory_unseen_witness :
  let q := DynamicQueue.Queue [4; 7; 1]%nat 1 in
  pending (DynamicQueue.free_memory q) = pending q
  /\ DynamicQueue.queue_data (DynamicQueue.free_memory q) = pending q
  /\ match dequeue_many 2 (DynamicQueue.free_memory q), dequeue_many 2 q with
     | Returns (xs1, r1), Returns (xs2, r2) => xs1 = xs2 /\ pending r1 = pending r2
     | Raises, Raises => True
     | _, _ => False
     end.
Proof.
  intros q. apply (queue_free_memory_unseen q 2). simpl. lia.
Defined.

(** ** The searches that stop at the discovery of the target *)












